(** * StochasticSchool, Day 3 (FCIQMC): determinant algebra, Slater-Condon
      rules, random excitation generator and the walker evolution loop.

    Shallow embedding of [Day3_FCIQMC/exercises/det_ops.py] and
    [Day3_FCIQMC/exercises/fciqmc_partI.py].

    Conventions of the embedding:
    - spin-orbital labels and determinant indices are [nat]; a determinant is
      a Python list of labels, [list nat];
    - Python list positions are [Z], with Python's wrap-around of negative
      positions and [IndexError] (here [None]) outside the list;
    - Python/numpy floats are modelled by exact rationals [Q]; equalities
      between computed numbers are stated with [==] or, where the code's own
      expression is replayed, with Leibniz equality;
    - an exception, or a loop that exhausts its iteration budget, is [None]
      (in [option]) or [Fail] (in the randomised monad [rand]). *)

From Stdlib Require Import QArith Qround Qabs Lqa Lia ZArith Sorting.Sorted Permutation.
From stdpp Require Import base option list gmap.

Local Open Scope Q_scope.
Local Open Scope nat_scope.

(* stdpp's solvers clear hypotheses by guessed names. *)
Set Warnings "-clear-no-such-hyp".

(** ** Python lists *)

Module Py.

(** [l[i]] with Python's negative positions. *)
Definition norm_index {A} (l : list A) (i : Z) : option nat :=
  if (i <? 0)%Z
  then if (i + Z.of_nat (length l) <? 0)%Z then None
       else Some (Z.to_nat (i + Z.of_nat (length l)))
  else if (i <? Z.of_nat (length l))%Z then Some (Z.to_nat i) else None.

Definition getitem {A} (l : list A) (i : Z) : option A :=
  n ← norm_index l i; l !! n.

(** [l[i] = v]; [IndexError] when [i] is outside the list. *)
Definition setitem {A} (l : list A) (i : Z) (v : A) : option (list A) :=
  n ← norm_index l i; Some (<[n := v]> l).

(** [x in l] for a list of integers. *)
Definition contains (x : nat) (l : list nat) : bool :=
  existsb (Nat.eqb x) l.

(** [l.index(x)]: first position holding [x], [ValueError] when absent. *)
Fixpoint index (l : list nat) (x : nat) : option nat :=
  match l with
  | [] => None
  | y :: l' => if Nat.eqb y x then Some 0 else S <$> index l' x
  end.

(** [enumerate(l)]. *)
Definition enumerate {A} (l : list A) : list (nat * A) :=
  combine (seq 0 (length l)) l.

(** [sorted(l)] on a list of integers (insertion sort: the result of any
    sort of integers is the unique ascending rearrangement). *)
Fixpoint insert_sorted (x : nat) (l : list nat) : list nat :=
  match l with
  | [] => [x]
  | y :: l' => if x <=? y then x :: y :: l' else y :: insert_sorted x l'
  end.

Definition sorted (l : list nat) : list nat :=
  foldr insert_sorted [] l.

(** [l1 != l2] on lists of integers. *)
Definition list_neq (l1 l2 : list nat) : bool :=
  negb (bool_decide (l1 = l2)).

End Py.

(** A determinant as the code expects it: ascending and without repeated
    labels. *)
Definition det_wf (det : list nat) : Prop :=
  Sorted le det ∧ NoDup det.

(** ** The Hamiltonian object *)

Record HAM := {
  nelec : nat;
  nbasis : nat;
  h1 : nat → nat → Q;
  h2 : nat → nat → nat → nat → Q;
  nn : Q;
  p_single : Q
}.

Definition spin_basis (H : HAM) : nat := 2 * nbasis H.

(** numpy indexing of the [spin_basis]-sized tensors: labels outside the
    array raise [IndexError]. *)
Definition h1_at (H : HAM) (p q : nat) : option Q :=
  if (p <? spin_basis H) && (q <? spin_basis H) then Some (h1 H p q) else None.

Definition h2_at (H : HAM) (p q r s : nat) : option Q :=
  if (p <? spin_basis H) && (q <? spin_basis H) &&
     (r <? spin_basis H) && (s <? spin_basis H)
  then Some (h2 H p q r s) else None.

(** An excitation matrix [[(from...), (to...)]]; Python's [None] is [None]. *)
Definition excit_mat_t : Type := list nat * list nat.

Section SlaterCondon.
Variable H : HAM.

(** Inner loop of the diagonal case:
    [for q in det[pos+1:None]: hel += h2[p,p,q,q] - h2[p,q,q,p]]. *)
Definition diag_inner (p : nat) (qs : list nat) (hel : Q) : option Q :=
  foldl (fun acc q =>
           hel ← acc; a ← h2_at H p p q q; b ← h2_at H p q q p;
           Some (hel + (a - b))%Q)
        (Some hel) qs.

(** Outer loop of the diagonal case, over [enumerate(det)]. *)
Definition diag_outer (det : list nat) (hel : Q) : option Q :=
  foldl (fun acc '(pos, p) =>
           hel ← acc; a ← h1_at H p p;
           diag_inner p (drop (pos + 1) det) (hel + a)%Q)
        (Some hel) (Py.enumerate det).

(** Loop of the single-excitation case. *)
Definition single_loop (i a : nat) (det : list nat) (hel : Q) : option Q :=
  foldl (fun acc q =>
           hel ← acc; x ← h2_at H i a q q; y ← h2_at H i q q a;
           Some (hel + (x - y))%Q)
        (Some hel) det.

Definition slater_condon (det excited_det : list nat)
    (excit_mat : option excit_mat_t) (parity : option Z) : option Q :=
  hel ← match excit_mat with
        | None => diag_outer det (nn H)
        | Some (em0, em1) =>
            if length em0 =? 1 then
              i ← em0 !! 0; a ← em1 !! 0;
              hel ← h1_at H i a;
              single_loop i a det hel
            else if length em0 =? 2 then
              i ← em0 !! 0; a ← em1 !! 0; j ← em0 !! 1; b ← em1 !! 1;
              x ← h2_at H i a j b; y ← h2_at H i b j a;
              Some (x - y)%Q
            else Some 0%Q
        end;
  Some match parity with
       | Some par => (hel * inject_Z par)%Q
       | None => hel
       end.
End SlaterCondon.

(** ** Randomised computations

    A computation that calls [np.random] is a finitely deep decision tree:
    [RandomLt p k] is the test [np.random.random() < p], [RandInt n k] is
    [np.random.randint(0, n)] (which raises when [n = 0]), [Fail] is an
    exception or an exhausted iteration budget. *)

Inductive rand (A : Type) : Type :=
| Ret (a : A)
| Fail
| RandomLt (p : Q) (k : bool → rand A)
| RandInt (n : nat) (k : nat → rand A).

Arguments Ret {A} a.
Arguments Fail {A}.
Arguments RandomLt {A} p k.
Arguments RandInt {A} n k.

Module Rand.

Fixpoint bind {A B} (t : rand A) (f : A → rand B) : rand B :=
  match t with
  | Ret a => f a
  | Fail => Fail
  | RandomLt p k => RandomLt p (fun b => bind (k b) f)
  | RandInt n k => RandInt n (fun r => bind (k r) f)
  end.

Definition random_lt (p : Q) : rand bool := RandomLt p Ret.
Definition randint (n : nat) : rand nat := RandInt n Ret.

(** Lift a computation that may raise. *)
Definition lift {A} (o : option A) : rand A :=
  match o with Some a => Ret a | None => Fail end.

(** [while cond(s): s = body(s)], at most [fuel] rounds. *)
Fixpoint while {S} (fuel : nat) (cond : S → bool) (body : S → rand S) (s : S)
    : rand S :=
  if cond s then
    match fuel with
    | O => Fail
    | S fuel' => bind (body s) (while fuel' cond body)
    end
  else Ret s.

(** *** Running on a recorded stream of draws *)

Inductive draw : Type :=
| Float (u : Q)      (* a value returned by [np.random.random()] *)
| Int (r : nat).     (* a value returned by [np.random.randint] *)

Definition Qltb (x y : Q) : bool := negb (Qle_bool y x).

Fixpoint run {A} (t : rand A) (tape : list draw) : option (A * list draw) :=
  match t with
  | Ret a => Some (a, tape)
  | Fail => None
  | RandomLt p k =>
      match tape with
      | Float u :: tape' =>
          if Qle_bool 0 u && Qltb u 1 then run (k (Qltb u p)) tape' else None
      | _ => None
      end
  | RandInt n k =>
      match tape with
      | Int r :: tape' => if r <? n then run (k r) tape' else None
      | _ => None
      end
  end.

(** *** Expectation under uniform draws *)

Definition Qsum (l : list Q) : Q := foldr Qplus 0%Q l.

(** Probability that a uniform draw from [0,1) is below [p]. *)
Definition clamp01 (p : Q) : Q :=
  if Qle_bool p 0 then 0%Q else if Qle_bool 1 p then 1%Q else p.

Fixpoint expect {A} (t : rand A) (g : A → Q) : Q :=
  match t with
  | Ret a => g a
  | Fail => 0%Q
  | RandomLt p k =>
      (clamp01 p * expect (k true) g + (1 - clamp01 p) * expect (k false) g)%Q
  | RandInt n k =>
      (Qsum (map (fun r => expect (k r) g) (seq 0 n)) / inject_Z (Z.of_nat n))%Q
  end.

Definition indicator {A} (P : A → bool) (a : A) : Q := if P a then 1%Q else 0%Q.

(** Probability of returning a value that satisfies [P]. *)
Definition prob {A} (t : rand A) (P : A → bool) : Q := expect t (indicator P).

(** Probability of returning at all. *)
Definition prob_returns {A} (t : rand A) : Q := expect t (fun _ => 1%Q).

(** Every value the computation can return satisfies [Q]. *)
Fixpoint post {A} (t : rand A) (Q : A → Prop) : Prop :=
  match t with
  | Ret a => Q a
  | Fail => True
  | RandomLt p k => ((0 < p)%Q → post (k true) Q) ∧ ((p < 1)%Q → post (k false) Q)
  | RandInt n k => ∀ r, r < n → post (k r) Q
  end.

End Rand.

Notation "x ←$ t ; k" := (Rand.bind t (fun x => k))
  (at level 20, t at level 100, k at level 200, only parsing).
Notation "' pat ←$ t ; k" := (Rand.bind t (fun x => match x with pat => k end))
  (at level 20, pat pattern, t at level 100, k at level 200, only parsing).

(** ** Determinant algebra *)

(** The [while det_copy != sorted(det_copy)] loop of [elec_exchange_ops]. *)
Fixpoint exchange_loop (xfuel : nat) (det_copy : list nat) (ind step : Z)
    (perm : nat) : option nat :=
  if Py.list_neq det_copy (Py.sorted det_copy) then
    match xfuel with
    | O => None
    | S xfuel' =>
        tmp ← Py.getitem det_copy (ind + step);
        x ← Py.getitem det_copy ind;
        det_copy ← Py.setitem det_copy (ind + step) x;
        det_copy ← Py.setitem det_copy ind tmp;
        exchange_loop xfuel' det_copy (ind + step) step (perm + 1)
    end
  else Some perm.

Definition elec_exchange_ops (xfuel : nat) (det : list nat) (ind : Z)
    : option nat :=
  let perm := 0 in
  let det_copy := det in
  step ← (if (ind =? 0)%Z then Some 1%Z
          else if (ind =? -1)%Z || (ind =? Z.of_nat (length det) - 1)%Z
               then Some (-1)%Z
               else a ← Py.getitem det ind; b ← Py.getitem det (ind + 1);
                    Some (if b <? a then 1%Z else (-1)%Z));
  exchange_loop xfuel det_copy ind step perm.

(** The two scanning loops of [calc_excit_mat_parity]:
    positions and labels of [det] that are not in [other]. *)
Definition scan_missing (det other : list nat) : list nat * list nat :=
  foldl (fun '(inds, orbs) '(ind, orb) =>
           if negb (Py.contains orb other)
           then (inds ++ [ind], orbs ++ [orb]) else (inds, orbs))
        ([], []) (Py.enumerate det).

(** [list(excit_mat)] and Python truthiness of a list. *)
Definition as_list (em : excit_mat_t) : list (list nat) := [em.1; em.2].
Definition truthy {A} (l : list A) : bool := negb (length l =? 0).

Definition calc_excit_mat_parity (xfuel : nat) (det excited_det : list nat)
    : option (option excit_mat_t * option Z) :=
  let '(from_inds, from_orbs) := scan_missing det excited_det in
  let '(to_inds, to_orbs) := scan_missing excited_det det in
  if negb (length from_inds =? length to_inds) then None else
  let excit_mat := (from_orbs, to_orbs) in
  '(perm, det_copy) ←
    foldl (fun acc '(from_orb, to_orb) =>
             '(perm, det_copy) ← acc;
             ind ← Py.index det_copy from_orb;
             det_copy ← Py.setitem det_copy (Z.of_nat ind) to_orb;
             p ← elec_exchange_ops xfuel det_copy (Z.of_nat ind);
             Some (perm + p, Py.sorted det_copy))
          (Some (0, det)) (zip from_orbs to_orbs);
  let parity := ((-1) ^ Z.of_nat perm)%Z in
  if negb (truthy (as_list excit_mat))
  then Some (None, None)
  else Some (Some excit_mat, Some parity).

(** ** The random excitation generator *)

(** [scipy.special.comb(N, 2)] for an integer [N] (zero below 2). *)
Definition comb2 (N : Z) : Z :=
  if (N <? 2)%Z then 0%Z else (N * (N - 1) / 2)%Z.

(** [x / y] raising on a zero divisor. *)
Definition div_checked (x y : Q) : option Q :=
  if Qeq_bool y 0 then None else Some (x / y)%Q.

(** What [excit_gen] returns: the excited determinant, the excitation
    matrix, the parity and the generation probability. *)
Record excitation := {
  ex_det : list nat;
  ex_mat : excit_mat_t;
  ex_parity : Z;
  ex_prob : Q
}.

Section ExcitGen.
Variable H : HAM.
(** Iteration budgets of the resampling loops and of the loop of
    [elec_exchange_ops]. *)
Variables fuel xfuel : nat.

Definition n_spinorb : Z := (2 * Z.of_nat (nbasis H))%Z.

Definition prob_single : option Q :=
  div_checked (p_single H)
    (inject_Z (Z.of_nat (nelec H) * (n_spinorb - Z.of_nat (nelec H)))).

(** The divisor of the double's probability is a numpy float: a zero would
    give [inf] with a warning and not an exception.  For a determinant of
    [nelec] labels that line is only reached with a nonzero divisor
    ([double_divisor_nonzero] below). *)
Definition prob_double : option Q :=
  div_checked (1 - p_single H)%Q
    (inject_Z (comb2 (n_spinorb - Z.of_nat (nelec H)) * comb2 (Z.of_nat (nelec H)))).

(** One round of drawing the second substitution: the triple
    [(ind, orb_from_2, orb_to_2)]. *)
Definition draw_second (excited_det : list nat) : rand (nat * nat * nat) :=
  ind ←$ Rand.randint (length excited_det);
  orb_from_2 ←$ Rand.lift (Py.getitem excited_det (Z.of_nat ind));
  orb_to_2 ←$ Rand.randint (2 * nbasis H);
  Ret (ind, orb_from_2, orb_to_2).

Definition excit_gen (det : list nat) : rand excitation :=
  let excited_det := det in
  single ←$ Rand.random_lt (p_single H);
  ind ←$ Rand.randint (length excited_det);
  orb_from ←$ Rand.lift (Py.getitem excited_det (Z.of_nat ind));
  orb_to ←$ Rand.randint (2 * nbasis H);
  orb_to ←$ Rand.while fuel (fun orb_to => Py.contains orb_to det)
              (fun _ => Rand.randint (2 * nbasis H)) orb_to;
  excited_det ←$ Rand.lift (Py.setitem excited_det (Z.of_nat ind) orb_to);
  perm ←$ Rand.lift (elec_exchange_ops xfuel excited_det (Z.of_nat ind));
  let excited_det := Py.sorted excited_det in
  if single : bool then
    let excit_mat := ([orb_from], [orb_to]) in
    prob ←$ Rand.lift prob_single;
    Ret {| ex_det := excited_det; ex_mat := excit_mat;
           ex_parity := ((-1) ^ Z.of_nat perm)%Z; ex_prob := prob |}
  else
    s ←$ draw_second excited_det;
    '(ind, orb_from_2, orb_to_2) ←$
       Rand.while fuel
         (fun '(ind, orb_from_2, orb_to_2) =>
            Py.contains orb_to_2 excited_det || (orb_to_2 =? orb_from)
            || (orb_from_2 =? orb_to))
         (fun _ => draw_second excited_det) s;
    excited_det ←$ Rand.lift (Py.setitem excited_det (Z.of_nat ind) orb_to_2);
    perm2 ←$ Rand.lift (elec_exchange_ops xfuel excited_det (Z.of_nat ind));
    let perm := perm + perm2 in
    let excit_mat := ([orb_from; orb_from_2], [orb_to; orb_to_2]) in
    prob ←$ Rand.lift prob_double;
    let excited_det := Py.sorted excited_det in
    Ret {| ex_det := excited_det; ex_mat := excit_mat;
           ex_parity := ((-1) ^ Z.of_nat perm)%Z; ex_prob := prob |}.
End ExcitGen.

(** ** The same functions over a store of list objects

    The functions of [det_ops.py] receive references to mutable lists and
    work on copies.  Here a list object is a cell of a store, a variable
    holds a reference, [det.copy()] and [sorted(det)] allocate a new cell and
    [det[i] = v] overwrites a cell in place.  (The temporary of the loop test
    [det_copy != sorted(det_copy)] is dropped at once; it gets no cell.  The
    scratch lists [from_inds], [from_orbs], [to_inds], [to_orbs] never leave
    [calc_excit_mat_parity] and stay values.) *)

Module Heap.

Abbreviation t := (list (list nat)).
Abbreviation ref := nat.

(** Deterministic computations on the store that may raise. *)
Definition m (A : Type) : Type := t → option (A * t).

Definition ret {A} (a : A) : m A := fun h => Some (a, h).
Definition bind {A B} (c : m A) (f : A → m B) : m B :=
  fun h => match c h with Some (a, h') => f a h' | None => None end.
Definition fail {A} : m A := fun _ => None.
Definition lift {A} (o : option A) : m A := fun h => (fun a => (a, h)) <$> o.

Definition read (r : ref) : m (list nat) := fun h => (fun l => (l, h)) <$> h !! r.
Definition alloc (l : list nat) : m ref := fun h => Some (length h, h ++ [l]).
Definition write (r : ref) (l : list nat) : m unit :=
  fun h => if r <? length h then Some (tt, <[r := l]> h) else None.

(** [r.copy()], [sorted(r)], [r[i]], [r[i] = v], [len(r)], [x in r],
    [r.index(x)]. *)
Definition copy (r : ref) : m ref := bind (read r) alloc.
Definition sorted (r : ref) : m ref := bind (read r) (fun l => alloc (Py.sorted l)).
Definition getitem (r : ref) (i : Z) : m nat :=
  bind (read r) (fun l => lift (Py.getitem l i)).
Definition setitem (r : ref) (i : Z) (v : nat) : m unit :=
  bind (read r) (fun l => bind (lift (Py.setitem l i v)) (write r)).
Definition len (r : ref) : m nat := bind (read r) (fun l => ret (length l)).
Definition contains (x : nat) (r : ref) : m bool :=
  bind (read r) (fun l => ret (Py.contains x l)).
Definition index (r : ref) (x : nat) : m nat :=
  bind (read r) (fun l => lift (Py.index l x)).
(** [r != sorted(r)]. *)
Definition unsorted (r : ref) : m bool :=
  bind (read r) (fun l => ret (Py.list_neq l (Py.sorted l))).

(** Randomised computations on the store. *)
Definition mr (A : Type) : Type := t → rand (A * t).

Definition retr {A} (a : A) : mr A := fun h => Ret (a, h).
Definition bindr {A B} (c : mr A) (f : A → mr B) : mr B :=
  fun h => Rand.bind (c h) (fun ah => f ah.1 ah.2).
Definition det {A} (c : m A) : mr A := fun h => Rand.lift (c h).
Definition rnd {A} (c : rand A) : mr A :=
  fun h => Rand.bind c (fun a => Ret (a, h)).

(** [while cond(s): s = body(s)] on the store, at most [fuel] rounds. *)
Fixpoint while {S} (fuel : nat) (cond : S → m bool) (body : S → mr S) (s : S)
    : mr S :=
  bindr (det (cond s)) (fun b =>
    if b : bool then
      match fuel with
      | O => fun _ => Fail
      | S fuel' => bindr (body s) (while fuel' cond body)
      end
    else retr s).

End Heap.

Notation "x ←h c ; k" := (Heap.bind c (fun x => k))
  (at level 20, c at level 100, k at level 200, only parsing).
Notation "c ;;h k" := (Heap.bind c (fun _ => k))
  (at level 20, k at level 200, only parsing).
Notation "x ←hr c ; k" := (Heap.bindr c (fun x => k))
  (at level 20, c at level 100, k at level 200, only parsing).

Fixpoint exchange_loop_h (xfuel : nat) (det_copy : Heap.ref) (ind step : Z)
    (perm : nat) : Heap.m nat :=
  b ←h Heap.unsorted det_copy;
  if b : bool then
    match xfuel with
    | O => Heap.fail
    | S xfuel' =>
        tmp ←h Heap.getitem det_copy (ind + step);
        x ←h Heap.getitem det_copy ind;
        Heap.setitem det_copy (ind + step) x ;;h
        Heap.setitem det_copy ind tmp ;;h
        exchange_loop_h xfuel' det_copy (ind + step) step (perm + 1)
    end
  else Heap.ret perm.

Definition elec_exchange_ops_h (xfuel : nat) (det : Heap.ref) (ind : Z)
    : Heap.m nat :=
  let perm := 0 in
  det_copy ←h Heap.copy det;
  n ←h Heap.len det;
  step ←h (if (ind =? 0)%Z then Heap.ret 1%Z
           else if (ind =? -1)%Z || (ind =? Z.of_nat n - 1)%Z
                then Heap.ret (-1)%Z
                else a ←h Heap.getitem det ind;
                     b ←h Heap.getitem det (ind + 1);
                     Heap.ret (if b <? a then 1%Z else (-1)%Z));
  exchange_loop_h xfuel det_copy ind step perm.

Definition calc_excit_mat_parity_h (xfuel : nat) (det excited_det : Heap.ref)
    : Heap.m (option excit_mat_t * option Z) :=
  l ←h Heap.read det;
  le ←h Heap.read excited_det;
  let '(from_inds, from_orbs) := scan_missing l le in
  let '(to_inds, to_orbs) := scan_missing le l in
  if negb (length from_inds =? length to_inds) then Heap.fail else
  let excit_mat := (from_orbs, to_orbs) in
  det_copy ←h Heap.copy det;
  pd ←h foldl (fun acc '(from_orb, to_orb) =>
                 pd ←h acc;
                 let '(perm, det_copy) := pd in
                 ind ←h Heap.index det_copy from_orb;
                 Heap.setitem det_copy (Z.of_nat ind) to_orb ;;h
                 p ←h elec_exchange_ops_h xfuel det_copy (Z.of_nat ind);
                 det_copy ←h Heap.sorted det_copy;
                 Heap.ret (perm + p, det_copy))
              (Heap.ret (0, det_copy)) (zip from_orbs to_orbs);
  let '(perm, det_copy) := pd in
  let parity := ((-1) ^ Z.of_nat perm)%Z in
  if negb (truthy (as_list excit_mat))
  then Heap.ret (None, None)
  else Heap.ret (Some excit_mat, Some parity).

(** What [excit_gen] returns, the excited determinant being a reference. *)
Record excitation_h := {
  exh_det : Heap.ref;
  exh_mat : excit_mat_t;
  exh_parity : Z;
  exh_prob : Q
}.

Section ExcitGenHeap.
Variable H : HAM.
Variables fuel xfuel : nat.

Definition draw_second_h (excited_det : Heap.ref) : Heap.mr (nat * nat * nat) :=
  n ←hr Heap.det (Heap.len excited_det);
  ind ←hr Heap.rnd (Rand.randint n);
  orb_from_2 ←hr Heap.det (Heap.getitem excited_det (Z.of_nat ind));
  orb_to_2 ←hr Heap.rnd (Rand.randint (2 * nbasis H));
  Heap.retr (ind, orb_from_2, orb_to_2).

Definition excit_gen_h (det : Heap.ref) : Heap.mr excitation_h :=
  excited_det ←hr Heap.det (Heap.copy det);
  single ←hr Heap.rnd (Rand.random_lt (p_single H));
  n ←hr Heap.det (Heap.len excited_det);
  ind ←hr Heap.rnd (Rand.randint n);
  orb_from ←hr Heap.det (Heap.getitem excited_det (Z.of_nat ind));
  orb_to ←hr Heap.rnd (Rand.randint (2 * nbasis H));
  orb_to ←hr Heap.while fuel (fun orb_to => Heap.contains orb_to det)
               (fun _ => Heap.rnd (Rand.randint (2 * nbasis H))) orb_to;
  _ ←hr Heap.det (Heap.setitem excited_det (Z.of_nat ind) orb_to);
  perm ←hr Heap.det (elec_exchange_ops_h xfuel excited_det (Z.of_nat ind));
  excited_det ←hr Heap.det (Heap.sorted excited_det);
  if single : bool then
    let excit_mat := ([orb_from], [orb_to]) in
    prob ←hr Heap.det (Heap.lift (prob_single H));
    Heap.retr {| exh_det := excited_det; exh_mat := excit_mat;
                 exh_parity := ((-1) ^ Z.of_nat perm)%Z; exh_prob := prob |}
  else
    s ←hr draw_second_h excited_det;
    s ←hr Heap.while fuel
           (fun '(ind, orb_from_2, orb_to_2) =>
              b ←h Heap.contains orb_to_2 excited_det;
              Heap.ret (b || (orb_to_2 =? orb_from) || (orb_from_2 =? orb_to)))
           (fun _ => draw_second_h excited_det) s;
    let '(ind, orb_from_2, orb_to_2) := s in
    _ ←hr Heap.det (Heap.setitem excited_det (Z.of_nat ind) orb_to_2);
    perm2 ←hr Heap.det (elec_exchange_ops_h xfuel excited_det (Z.of_nat ind));
    let perm := perm + perm2 in
    let excit_mat := ([orb_from; orb_from_2], [orb_to; orb_to_2]) in
    prob ←hr Heap.det (Heap.lift (prob_double H));
    excited_det ←hr Heap.det (Heap.sorted excited_det);
    Heap.retr {| exh_det := excited_det; exh_mat := excit_mat;
                 exh_parity := ((-1) ^ Z.of_nat perm)%Z; exh_prob := prob |}.
End ExcitGenHeap.

(** The store [h'] still holds every list object of [h], unchanged. *)
Definition preserves (h h' : Heap.t) : Prop :=
  ∀ r l, h !! r = Some l → h' !! r = Some l.

(** ** Python dictionaries keyed by determinant index

    Insertion-ordered, as [dict] is: the order of [items()] decides which
    random draws each determinant consumes. *)

Module Dict.

Definition t : Type := list (nat * Q).

Fixpoint get (d : t) (k : nat) : option Q :=
  match d with
  | [] => None
  | (k', v) :: d' => if k' =? k then Some v else get d' k
  end.

(** [k in d]. *)
Definition mem (k : nat) (d : t) : bool :=
  match get d k with Some _ => true | None => false end.

(** [d[k] = v]: overwrite in place, or append a new entry. *)
Fixpoint set (d : t) (k : nat) (v : Q) : t :=
  match d with
  | [] => [(k, v)]
  | (k', v') :: d' => if k' =? k then (k, v) :: d' else (k', v') :: set d' k v
  end.

Fixpoint remove (d : t) (k : nat) : t :=
  match d with
  | [] => []
  | (k', v') :: d' => if k' =? k then d' else (k', v') :: remove d' k
  end.

(** [del d[k]]: [KeyError] when the key is absent. *)
Definition del (d : t) (k : nat) : option t :=
  if mem k d then Some (remove d k) else None.

(** [list(d.items())]. *)
Definition items (d : t) : list (nat * Q) := d.

Definition keys (d : t) : list nat := d.*1.

(** The merge used three times in the loop:
    [if k in d: d[k] += v else: d[k] = v]. *)
Definition add (d : t) (k : nat) (v : Q) : t :=
  match get d k with
  | Some old => set d k (old + v)%Q
  | None => set d k v
  end.

End Dict.

(** ** The walker evolution loop *)

(** The fields of [system.PARAMS] and [system.STATS] that the loop reads or
    writes. *)
Record PARAMS := {
  nwalk_init : Q;
  timestep : Q;
  det_thresh : Q;
  max_iter : nat;
  stats_cycle : nat;
  shift : Q
}.

Record STATS := {
  iter_curr : nat;
  nw : Q;
  ref_weight : Q;
  nocc_dets : nat;
  cycle_en_num : Q;
  cycle_en_denom : Q
}.

(** The mutable state of the script. *)
Record sim := {
  walkers : Dict.t;
  spawned_walkers : Dict.t;
  sim_stats : STATS;
  sim_params : PARAMS
}.

Section Evolution.
(** The dense Hamiltonian read from file and its dimension. *)
Variable full_h : nat → nat → Q.
Variable ndet : nat.
(** Iteration budget of the resampling loop. *)
Variable fuel : nat.
(** [system.PARAMS.update_shift] and [system.STATS.update_stats] are not
    part of the sources at hand: they act on the parameter and statistics
    objects handed to them. *)
Variable update_shift : PARAMS → STATS → PARAMS * STATS.
Variable update_stats : STATS → PARAMS → PARAMS * STATS.

(** numpy indexing of the [ndet] x [ndet] matrix. *)
Definition full_h_at (i j : nat) : option Q :=
  if (i <? ndet) && (j <? ndet) then Some (full_h i j) else None.

Definition ref_energy : option Q := full_h_at 0 0.

(** [h_sim = full_h - np.eye(ndet) * ref_energy]. *)
Definition h_sim_at (i j : nat) : option Q :=
  e ← ref_energy; h ← full_h_at i j;
  Some (h - (if i =? j then 1 else 0) * e)%Q.

(** Energy accumulation for one determinant. *)
Definition accumulate (det_ind : nat) (det_amp : Q) (st : STATS)
    : option STATS :=
  if det_ind =? 0 then
    Some {| iter_curr := iter_curr st; nw := nw st;
            ref_weight := det_amp; nocc_dets := nocc_dets st;
            cycle_en_num := cycle_en_num st;
            cycle_en_denom := (cycle_en_denom st + det_amp)%Q |}
  else
    h ← h_sim_at det_ind 0;
    Some {| iter_curr := iter_curr st; nw := nw st;
            ref_weight := ref_weight st; nocc_dets := nocc_dets st;
            cycle_en_num := (cycle_en_num st + det_amp * h)%Q;
            cycle_en_denom := cycle_en_denom st |}.

Definition count_walker (det_amp : Q) (st : STATS) : STATS :=
  {| iter_curr := iter_curr st; nw := (nw st + Qabs det_amp)%Q;
     ref_weight := ref_weight st; nocc_dets := nocc_dets st + 1;
     cycle_en_num := cycle_en_num st;
     cycle_en_denom := cycle_en_denom st |}.

(** [int(np.ceil(abs(det_amp)))]. *)
Definition nspawn_of (det_amp : Q) : nat :=
  Z.to_nat (Qceiling (Qabs det_amp)).

(** Choice of the spawning target. *)
Definition pick_spawn_ind (det_ind : nat) : rand nat :=
  spawn_ind ←$ Rand.randint ndet;
  Rand.while fuel (fun spawn_ind => spawn_ind =? det_ind)
    (fun _ => Rand.randint ndet) spawn_ind.

(** [p_spawn = 1./(ndet-1)]. *)
Definition p_spawn : option Q :=
  div_checked 1 (inject_Z (Z.of_nat ndet - 1)).

Definition spawn_weight_of (p : PARAMS) (det_ind spawn_ind : nat)
    (det_amp : Q) (nspawn : nat) : option Q :=
  p_spawn ← p_spawn;
  h ← full_h_at det_ind spawn_ind;
  Some ((- timestep p) * h * det_amp
        / (p_spawn * inject_Z (Z.of_nat nspawn)))%Q.

(** The body of [for spawn_attempt in range(nspawn)]. *)
Definition spawn_attempt (p : PARAMS) (det_ind : nat) (det_amp : Q)
    (nspawn : nat) (spawned : Dict.t) : rand Dict.t :=
  spawn_ind ←$ pick_spawn_ind det_ind;
  spawn_weight ←$ Rand.lift (spawn_weight_of p det_ind spawn_ind det_amp nspawn);
  Ret (Dict.add spawned spawn_ind spawn_weight).

Fixpoint spawn_loop (attempts : nat) (p : PARAMS) (det_ind : nat)
    (det_amp : Q) (nspawn : nat) (spawned : Dict.t) : rand Dict.t :=
  match attempts with
  | O => Ret spawned
  | S attempts' =>
      spawned ←$ spawn_attempt p det_ind det_amp nspawn spawned;
      spawn_loop attempts' p det_ind det_amp nspawn spawned
  end.

(** The death step,
    [walkers[det_ind] -= timestep*(H[d,d] - H[0,0] - shift)*det_amp]. *)
Definition death (p : PARAMS) (det_ind : nat) (det_amp : Q) (w : Dict.t)
    : option Dict.t :=
  old ← Dict.get w det_ind;
  hdd ← full_h_at det_ind det_ind;
  h00 ← full_h_at 0 0;
  Some (Dict.set w det_ind
          (old - timestep p * (hdd - h00 - shift p) * det_amp)%Q).

(** Stochastic rounding: [Some det_amp] when the walker goes on with
    amplitude [det_amp], [None] when it was deleted ([continue]). *)
Definition round_walker (p : PARAMS) (det_amp : Q) : rand (option Q) :=
  chi_fraction ←$ Rand.lift (div_checked (Qabs det_amp) (det_thresh p));
  if Rand.Qltb chi_fraction 1 then
    keep ←$ Rand.random_lt chi_fraction;
    if keep : bool then Ret (Some (det_thresh p)) else Ret None
  else Ret (Some det_amp).

(** The body of the sweep, for one entry of the snapshot. *)
Definition process_det (det_ind : nat) (det_amp : Q) (s : sim) : rand sim :=
  stats ←$ Rand.lift (accumulate det_ind det_amp (sim_stats s));
  rounded ←$ round_walker (sim_params s) det_amp;
  match rounded with
  | None =>
      w ←$ Rand.lift (Dict.del (walkers s) det_ind);
      Ret {| walkers := w; spawned_walkers := spawned_walkers s;
             sim_stats := stats; sim_params := sim_params s |}
  | Some det_amp =>
      let stats := count_walker det_amp stats in
      let nspawn := nspawn_of det_amp in
      spawned ←$ spawn_loop nspawn (sim_params s) det_ind det_amp nspawn
                   (spawned_walkers s);
      w ←$ Rand.lift (death (sim_params s) det_ind det_amp (walkers s));
      Ret {| walkers := w; spawned_walkers := spawned;
             sim_stats := stats; sim_params := sim_params s |}
  end.

(** [for det_ind, det_amp in list(walkers.items())]. *)
Fixpoint sweep (snapshot : list (nat * Q)) (s : sim) : rand sim :=
  match snapshot with
  | [] => Ret s
  | (det_ind, det_amp) :: rest =>
      s ←$ process_det det_ind det_amp s;
      sweep rest s
  end.

(** Annihilation: merge the spawned walkers into the main list. *)
Definition annihilate (s : sim) : sim :=
  {| walkers := foldl (fun w '(spawn_ind, spawn_weight) =>
                         Dict.add w spawn_ind spawn_weight)
                      (walkers s) (Dict.items (spawned_walkers s));
     spawned_walkers := spawned_walkers s;
     sim_stats := sim_stats s; sim_params := sim_params s |}.

(** Start of an iteration: fresh spawn dictionary, counters reset. *)
Definition begin_iter (it : nat) (s : sim) : sim :=
  {| walkers := walkers s; spawned_walkers := [];
     sim_stats := {| iter_curr := it; nw := 0; ref_weight := 0;
                     nocc_dets := 0;
                     cycle_en_num := cycle_en_num (sim_stats s);
                     cycle_en_denom := cycle_en_denom (sim_stats s) |};
     sim_params := sim_params s |}.

(** Sweep and annihilation of one iteration. *)
Definition evolve (it : nat) (s : sim) : rand sim :=
  let s := begin_iter it s in
  s ←$ sweep (Dict.items (walkers s)) s;
  Ret (annihilate s).

(** The periodic control at the end of the loop body. *)
Definition control (s : sim) : option sim :=
  if stats_cycle (sim_params s) =? 0 then None else
  if iter_curr (sim_stats s) mod stats_cycle (sim_params s) =? 0 then
    let '(p, st) := update_shift (sim_params s) (sim_stats s) in
    let '(p, st) := update_stats st p in
    Some {| walkers := walkers s; spawned_walkers := spawned_walkers s;
            sim_stats := st; sim_params := p |}
  else Some s.

Definition iteration (it : nat) (s : sim) : rand sim :=
  s ←$ evolve it s;
  Rand.lift (control s).

(** [for sim_stats.iter_curr in range(max_iter)], from iteration [it]. *)
Fixpoint iterations (n it : nat) (s : sim) : rand sim :=
  match n with
  | O => Ret s
  | S n' => s ←$ iteration it s; iterations n' (it + 1) s
  end.

Definition initial (p : PARAMS) (st : STATS) : sim :=
  {| walkers := [(0, nwalk_init p)]; spawned_walkers := [];
     sim_stats := {| iter_curr := iter_curr st; nw := nwalk_init p;
                     ref_weight := ref_weight st; nocc_dets := nocc_dets st;
                     cycle_en_num := cycle_en_num st;
                     cycle_en_denom := cycle_en_denom st |};
     sim_params := p |}.

(** The script: [ref_energy = full_h[0,0]] is read before the loop starts. *)
Definition fciqmc (p : PARAMS) (st : STATS) : rand sim :=
  _ ←$ Rand.lift ref_energy;
  iterations (max_iter p) 0 (initial p st).
End Evolution.

(** ** Closed forms of the Slater-Condon rules, as the specification
       writes them *)

Definition with_parity (parity : option Z) (x : Q) : Q :=
  match parity with Some par => (x * inject_Z par)%Q | None => x end.

(** [nn + Σ_p h1[p,p] + Σ_{p<q} (h2[p,p,q,q] - h2[p,q,q,p])], the last sum
    over the pairs of occupied labels with [p < q]. *)
Definition diagonal_element (H : HAM) (det : list nat) : Q :=
  (nn H
   + Rand.Qsum (map (fun p => h1 H p p) det)
   + Rand.Qsum (map (fun pq : nat * nat =>
                       h2 H pq.1 pq.1 pq.2 pq.2 - h2 H pq.1 pq.2 pq.2 pq.1)
                    (filter (fun pq : nat * nat => (pq.1 < pq.2)%nat)
                            (list_prod det det))))%Q.

Definition single_element (H : HAM) (det : list nat) (i a : nat) : Q :=
  (h1 H i a + Rand.Qsum (map (fun q => h2 H i a q q - h2 H i q q a) det))%Q.

Definition double_element (H : HAM) (i j a b : nat) : Q :=
  (h2 H i a j b - h2 H i b j a)%Q.

(** The ordered pairs visited by the two nested loops of the diagonal
    case. *)
Fixpoint later_pairs (det : list nat) : list (nat * nat) :=
  match det with
  | [] => []
  | p :: rest => map (pair p) rest ++ later_pairs rest
  end.

(** [1 + ρ + ... + ρ^fuel]: the weight a resampling loop with rejection
    probability [ρ] gives to each accepted draw, relative to one round. *)
Fixpoint geom (rho : Q) (fuel : nat) : Q :=
  match fuel with
  | O => 1%Q
  | S fuel' => (1 + rho * geom rho fuel')%Q
  end.

(** The invariants of a determinant returned for the input [det]. *)
Definition det_invariants (det : list nat) (e : excitation) : Prop :=
  Sorted le (ex_det e) ∧ length (ex_det e) = length det ∧ NoDup (ex_det e).

(** [x^n]. *)
Fixpoint qpow (x : Q) (n : nat) : Q :=
  match n with
  | O => 1%Q
  | S n' => (x * qpow x n')%Q
  end.

(** The state with another spawn dictionary. *)
Definition with_spawned (sp : Dict.t) (s : sim) : sim :=
  {| walkers := walkers s; spawned_walkers := sp;
     sim_stats := sim_stats s; sim_params := sim_params s |}.

(** What the sweep leaves behind apart from the spawn dictionary. *)
Definition sweep_view (r : option (sim * list Rand.draw))
    : option (Dict.t * STATS * PARAMS * list Rand.draw) :=
  (fun st => (walkers st.1, sim_stats st.1, sim_params st.1, st.2)) <$> r.

(** No entry of the dictionary has a weight that is exactly zero. *)
Definition no_zero_entries (d : Dict.t) : Prop :=
  Forall (fun kv => ¬ (kv.2 == 0)%Q) d.

(** The spawned weight written by the loop,
    [-timestep * H[source,target] * det_amp / (p_spawn * nspawn)] with
    [p_spawn = 1/(ndet-1)]. *)
Definition spawned_weight (full_h : nat → nat → Q) (ndet : nat) (p : PARAMS)
    (det_ind spawn_ind : nat) (det_amp : Q) (nspawn : nat) : Q :=
  ((- timestep p) * full_h det_ind spawn_ind * det_amp
   / ((1 / inject_Z (Z.of_nat ndet - 1)) * inject_Z (Z.of_nat nspawn)))%Q.

(** A store computation started from a store that preserves [h0] ends in
    one that does, with a result satisfying [P]. *)
Definition safe {A} (h0 : Heap.t) (c : Heap.m A) (P : A → Prop) : Prop :=
  ∀ h a h', preserves h0 h → c h = Some (a, h') → preserves h0 h' ∧ P a.

Definition safer {A} (h0 : Heap.t) (c : Heap.mr A) (P : A → Prop) : Prop :=
  ∀ h, preserves h0 h →
       Rand.post (c h) (fun ah => preserves h0 ah.2 ∧ P ah.1).

(** A reference allocated after the store [h0] was taken. *)
Definition fresh (h0 : Heap.t) (r : Heap.ref) : Prop := length h0 <= r.

(** [refines R t t']: the decision trees [t] and [t'] ask for the same
    draws, fail together and return values related by [R]. *)
Fixpoint refines {A B} (R : A → B → Prop) (t : rand A) (t' : rand B) : Prop :=
  match t, t' with
  | Ret a, Ret b => R a b
  | Fail, Fail => True
  | RandomLt p k, RandomLt p' k' => p = p' ∧ ∀ b, refines R (k b) (k' b)
  | RandInt n k, RandInt n' k' => n = n' ∧ ∀ r, refines R (k r) (k' r)
  | _, _ => False
  end.

(** The same for two computations that may raise. *)
Definition agree {A B} (R : A → B → Prop) (o : option A) (o' : option B) : Prop :=
  match o, o' with
  | Some a, Some b => R a b
  | None, None => True
  | _, _ => False
  end.

(** The excitation that a result over the store [h] stands for. *)
Definition excitation_of (h : Heap.t) (res : excitation_h) : option excitation :=
  d ← h !! exh_det res;
  Some {| ex_det := d; ex_mat := exh_mat res;
          ex_parity := exh_parity res; ex_prob := exh_prob res |}.

(** ** The outcomes of the excitation generator *)

(** Spin-orbitals below [N] that [det] does not occupy. *)
Definition unoccupied (N : nat) (det : list nat) : list nat :=
  filter (fun t => t ∉ det) (seq 0 N).

(** [det] with the label [f] replaced by [t], in ascending order. *)
Definition substitute (det : list nat) (f t : nat) : list nat :=
  Py.sorted ((fun x => if x =? f then t else x) <$> det).

(** The singly excited determinants: one occupied label replaced by one
    unoccupied label. *)
Definition single_outcomes (N : nat) (det : list nat) : list (list nat) :=
  f ← det; t ← unoccupied N det; [substitute det f t].

(** The doubly excited determinants: an unordered pair of occupied labels
    replaced by an unordered pair of unoccupied labels. *)
Definition double_outcomes (N : nat) (det : list nat) : list (list nat) :=
  ff ← later_pairs det; tt ← later_pairs (unoccupied N det);
  [substitute (substitute det ff.1 tt.1) ff.2 tt.2].

(** The event "the excited determinant is [d] and the excitation has rank
    [rank]". *)
Definition is_outcome (d : list nat) (rank : nat) (e : excitation) : bool :=
  bool_decide (ex_det e = d) && (length (ex_mat e).1 =? rank).

(** The probabilities the specification states. *)
Definition reported_single (H : HAM) : Q :=
  (p_single H
   / inject_Z (Z.of_nat (nelec H) * (2 * Z.of_nat (nbasis H) - Z.of_nat (nelec H))))%Q.

Definition reported_double (H : HAM) : Q :=
  ((1 - p_single H)
   / inject_Z (comb2 (2 * Z.of_nat (nbasis H) - Z.of_nat (nelec H))
               * comb2 (Z.of_nat (nelec H))))%Q.

(** Probability that the first resampling loop (a draw is rejected when the
    orbital is occupied) ends within [fuel] redraws, and the same for the
    second loop of a double excitation. *)
Definition first_loop_ends (H : HAM) (fuel : nat) : Q :=
  (1 - qpow (inject_Z (Z.of_nat (nelec H)) / inject_Z (Z.of_nat (2 * nbasis H)))
            (S fuel))%Q.

Definition second_loop_ends (H : HAM) (fuel : nat) : Q :=
  (1 - qpow (1 - inject_Z (Z.of_nat ((nelec H - 1) * (2 * nbasis H - nelec H - 1)))
                 / inject_Z (Z.of_nat (nelec H * (2 * nbasis H))))
            (S fuel))%Q.

(** What the specification says of a returned excitation: a single reports
    [reported_single] and its determinant is one of [single_outcomes]; a
    double reports [reported_double] and its determinant is one of
    [double_outcomes]. *)
Definition reported_outcome (H : HAM) (det : list nat) (e : excitation) : Prop :=
  (length (ex_mat e).1 = 1 ∧ ex_prob e = reported_single H
   ∧ ex_det e ∈ single_outcomes (2 * nbasis H) det)
  ∨ (length (ex_mat e).1 = 2 ∧ ex_prob e = reported_double H
     ∧ ex_det e ∈ double_outcomes (2 * nbasis H) det).

(** [f k] is at most 1 and comes as close to 1 as wanted for large [k]. *)
Definition tends_to_one (f : nat → Q) : Prop :=
  ∀ eps : Q, (0 < eps)%Q →
    ∃ k0, ∀ k, k0 <= k → (1 - eps < f k)%Q ∧ (f k <= 1)%Q.

(** ** The stages of [excit_gen]

    [excit_gen] cut at its two substitutions, each stage taking what follows
    as a continuation; [excit_gen_stages] below puts the pieces together
    again. *)

Section ExcitGenStages.
Variable H : HAM.
Variables fuel xfuel : nat.

(** Up to [excited_det = sorted(excited_det)] after the first substitution. *)
Definition first_substitution {A} (det : list nat)
    (K : nat → nat → nat → list nat → rand A) : rand A :=
  ind ←$ Rand.randint (length det);
  orb_from ←$ Rand.lift (Py.getitem det (Z.of_nat ind));
  orb_to ←$ Rand.randint (2 * nbasis H);
  orb_to ←$ Rand.while fuel (fun orb_to => Py.contains orb_to det)
              (fun _ => Rand.randint (2 * nbasis H)) orb_to;
  excited_det ←$ Rand.lift (Py.setitem det (Z.of_nat ind) orb_to);
  perm ←$ Rand.lift (elec_exchange_ops xfuel excited_det (Z.of_nat ind));
  K orb_from orb_to perm (Py.sorted excited_det).

(** The [if single:] branch. *)
Definition single_result (orb_from orb_to perm : nat) (excited_det : list nat)
    : rand excitation :=
  prob ←$ Rand.lift (prob_single H);
  Ret {| ex_det := excited_det; ex_mat := ([orb_from], [orb_to]);
         ex_parity := ((-1) ^ Z.of_nat perm)%Z; ex_prob := prob |}.

(** The rejection test of the second resampling loop. *)
Definition second_rejected (orb_from orb_to : nat) (excited_det : list nat)
    (s : nat * nat * nat) : bool :=
  let '(ind, orb_from_2, orb_to_2) := s in
  Py.contains orb_to_2 excited_det || (orb_to_2 =? orb_from)
  || (orb_from_2 =? orb_to).

(** The [else:] branch from the accepted second draw on. *)
Definition double_result (orb_from orb_to perm : nat) (excited_det : list nat)
    (s : nat * nat * nat) : rand excitation :=
  let '(ind, orb_from_2, orb_to_2) := s in
  excited_det' ←$ Rand.lift (Py.setitem excited_det (Z.of_nat ind) orb_to_2);
  perm2 ←$ Rand.lift (elec_exchange_ops xfuel excited_det' (Z.of_nat ind));
  prob ←$ Rand.lift (prob_double H);
  Ret {| ex_det := Py.sorted excited_det';
         ex_mat := ([orb_from; orb_from_2], [orb_to; orb_to_2]);
         ex_parity := ((-1) ^ Z.of_nat (perm + perm2))%Z; ex_prob := prob |}.

(** The [else:] branch. *)
Definition second_substitution (orb_from orb_to perm : nat)
    (excited_det : list nat) : rand excitation :=
  s ←$ draw_second H excited_det;
  s ←$ Rand.while fuel (second_rejected orb_from orb_to excited_det)
         (fun _ => draw_second H excited_det) s;
  double_result orb_from orb_to perm excited_det s.
End ExcitGenStages.

(** ** Notions used to state what the determinant functions return *)

(** Number of labels of [det] strictly between [f] and [t]. *)
Definition crossed (det : list nat) (f t : nat) : nat :=
  length (filter (fun x => (f < x ∧ x < t) ∨ (t < x ∧ x < f)) det).

(** Labels of [det] that [other] does not hold, in the order of [det]. *)
Definition missing (det other : list nat) : list nat :=
  filter (fun x => x ∉ other) det.

(** Labels crossed when the pairs [(from, to)] are substituted one after the
    other, the determinant being put in order after each substitution. *)
Fixpoint crossed_all (det : list nat) (pairs : list (nat * nat)) : nat :=
  match pairs with
  | [] => 0
  | (f, t) :: pairs' => crossed det f t + crossed_all (substitute det f t) pairs'
  end.

(** Python accepts the position [i] of a list of length [n]. *)
Definition valid_position (n : nat) (i : Z) : Prop :=
  (- Z.of_nat n <= i < Z.of_nat n)%Z.

(** The two shapes of an excitation of [det]: one occupied label replaced by
    an unoccupied one, or two different occupied labels replaced, one after
    the other, by two different unoccupied ones.  The parity is [-1] to the
    number of labels crossed. *)
Definition single_shape (N : nat) (det : list nat) (e : excitation) : Prop :=
  ∃ f t, f ∈ det ∧ t ∈ unoccupied N det
    ∧ ex_mat e = ([f], [t])
    ∧ ex_det e = substitute det f t
    ∧ ex_parity e = ((-1) ^ Z.of_nat (crossed det f t))%Z.

Definition double_shape (N : nat) (det : list nat) (e : excitation) : Prop :=
  ∃ f1 t1 f2 t2,
    (f1 ∈ det ∧ f2 ∈ det ∧ f1 ≠ f2)
    ∧ (t1 ∈ unoccupied N det ∧ t2 ∈ unoccupied N det ∧ t1 ≠ t2)
    ∧ ex_mat e = ([f1; f2], [t1; t2])
    ∧ ex_det e = substitute (substitute det f1 t1) f2 t2
    ∧ ex_parity e
      = ((-1) ^ Z.of_nat (crossed det f1 t1
                          + crossed (substitute det f1 t1) f2 t2))%Z.

(** [-1] when [x] lies strictly between [u] and [v], [+1] otherwise. *)
Definition between_sign (u v x : nat) : Z :=
  if bool_decide ((u < x ∧ x < v) ∨ (v < x ∧ x < u)) then (-1)%Z else 1%Z.

(** [+1] when the two labels come in ascending order, [-1] otherwise. *)
Definition order_sign (x y : nat) : Z := if x <? y then 1%Z else (-1)%Z.

(** Number of labels of [l] below [u], and [-1] to a count. *)
Definition below (l : list nat) (u : nat) : nat :=
  length (filter (fun x => x < u) l).

Definition sgn (n : nat) : Z := ((-1) ^ Z.of_nat n)%Z.

(** ** The reference determinant of [HAM.__init__] *)

(** [list(range(lo, hi))]. *)
Definition py_range (lo hi : Z) : list Z :=
  (fun i => (lo + Z.of_nat i)%Z) <$> seq 0 (Z.to_nat (hi - lo)).

(** [n_alpha = (ms + nelec) // 2] and [n_beta = nelec - n_alpha], as
    [read_in_fcidump] sets them. *)
Definition n_alpha (nelec ms : Z) : Z := ((ms + nelec) / 2)%Z.
Definition n_beta (nelec ms : Z) : Z := (nelec - n_alpha nelec ms)%Z.

(** [list(range(n_alpha)) + list(range(nbasis, nbasis + n_beta))]. *)
Definition ref_det (nbasis nelec ms : Z) : list Z :=
  py_range 0 (n_alpha nelec ms)
  ++ py_range nbasis (nbasis + n_beta nelec ms).

(** ** Notions used to state what the evolution loop does *)

(** The magnitude and the amplitude with which a walker goes on after the
    rounding step, zero when it was deleted. *)
Definition kept_magnitude (r : option Q) : Q :=
  match r with Some a => Qabs a | None => 0%Q end.

Definition kept_amplitude (r : option Q) : Q :=
  match r with Some a => a | None => 0%Q end.

(** The weight a dictionary holds for a key, zero when the key is absent. *)
Definition weight_at (d : Dict.t) (k : nat) : Q := default 0%Q (Dict.get d k).

(** The number of spawning attempts of a sweep over walkers that are all
    kept with their own amplitude: [ceil(|det_amp|)] for each of them. *)
Definition attempts_of (w : Dict.t) : nat :=
  foldr (fun da n => nspawn_of da.2 + n) 0 w.

(** The weight on determinant [k] of the walker list [w] after one
    application of [1 - timestep * (H - (H[0,0] + shift))], with the matrix
    element read as the loop reads it, [full_h[det_ind, k]]: first index the
    occupied determinant, second index the determinant that receives. *)
Definition projected (full_h : nat → nat → Q) (p : PARAMS) (w : Dict.t)
    (k : nat) : Q :=
  (weight_at w k
   - timestep p
     * Rand.Qsum (map (fun da : nat * Q =>
                         (full_h da.1 k
                          - (if da.1 =? k then full_h 0%nat 0%nat + shift p else 0))
                         * da.2) w))%Q.

(** ** The integral block of [read_in_fcidump] *)

(** A line of the integral block, split into its fields: [float(dat[0])]
    and [ii, jj, kk, ll = [int(x) for x in dat[1:5]]].  The text of the file
    and its header are not modelled. *)
Record integral_line := {
  line_value : Q;
  line_ii : Z;
  line_jj : Z;
  line_kk : Z;
  line_ll : Z
}.

(** [self.h1], [self.h2] and [self.nn] while the file is read; an array is
    the function from its positions to its entries. *)
Record integrals := {
  read_h1 : nat * nat → Q;
  read_h2 : nat * nat * nat * nat → Q;
  read_nn : option Q
}.

(** [np.zeros(...)] for the two arrays, [None] for [self.nn]. *)
Definition integrals_zero : integrals :=
  {| read_h1 := fun _ => 0%Q; read_h2 := fun _ => 0%Q; read_nn := None |}.

(** A numpy position along an axis of length [n]: negative positions count
    from the end, [IndexError] outside [-n .. n-1]. *)
Definition np_index (n : nat) (i : Z) : option nat :=
  if (i <? 0)%Z
  then if (i + Z.of_nat n <? 0)%Z then None
       else Some (Z.to_nat (i + Z.of_nat n))
  else if (i <? Z.of_nat n)%Z then Some (Z.to_nat i) else None.

Definition np_index2 (n : nat) (t : Z * Z) : option (nat * nat) :=
  let '(i, j) := t in
  p ← np_index n i; q ← np_index n j; Some (p, q).

Definition np_index4 (n : nat) (t : Z * Z * Z * Z)
    : option (nat * nat * nat * nat) :=
  let '(i, j, k, l) := t in
  p ← np_index n i; q ← np_index n j; r ← np_index n k; s ← np_index n l;
  Some (p, q, r, s).

(** [a[t] = v]. *)
Definition np_set {C I} `{EqDecision C} (pos : I → option C) (a : C → Q)
    (t : I) (v : Q) : option (C → Q) :=
  c ← pos t; Some (fun c' => if decide (c' = c) then v else a c').

(** [a[t] = v] for each [t] of [targets], in that order. *)
Fixpoint assign {C I} `{EqDecision C} (pos : I → option C) (a : C → Q)
    (targets : list I) (v : Q) : option (C → Q) :=
  match targets with
  | [] => Some a
  | t :: rest => a ← np_set pos a t v; assign pos a rest v
  end.

(** The positions written for a one-electron line. *)
Definition one_electron_targets (nb i j : Z) : list (Z * Z) :=
  [ (i, j); (j, i); (i + nb, j + nb); (j + nb, i + nb) ]%Z.

(** The thirty-two positions written for a two-electron line. *)
Definition two_electron_targets (nb i j k l : Z) : list (Z * Z * Z * Z) :=
  [ (* alpha, alpha, alpha, alpha *)
    (i, j, k, l); (j, i, k, l); (i, j, l, k); (j, i, l, k);
    (k, l, i, j); (l, k, i, j); (k, l, j, i); (l, k, j, i);
    (* beta, beta, beta, beta *)
    (i + nb, j + nb, k + nb, l + nb); (j + nb, i + nb, k + nb, l + nb);
    (i + nb, j + nb, l + nb, k + nb); (j + nb, i + nb, l + nb, k + nb);
    (k + nb, l + nb, i + nb, j + nb); (l + nb, k + nb, i + nb, j + nb);
    (k + nb, l + nb, j + nb, i + nb); (l + nb, k + nb, j + nb, i + nb);
    (* alpha, alpha, beta, beta *)
    (i, j, k + nb, l + nb); (j, i, k + nb, l + nb);
    (i, j, l + nb, k + nb); (j, i, l + nb, k + nb);
    (k, l, i + nb, j + nb); (l, k, i + nb, j + nb);
    (k, l, j + nb, i + nb); (l, k, j + nb, i + nb);
    (* beta, beta, alpha, alpha *)
    (i + nb, j + nb, k, l); (j + nb, i + nb, k, l);
    (i + nb, j + nb, l, k); (j + nb, i + nb, l, k);
    (k + nb, l + nb, i, j); (l + nb, k + nb, i, j);
    (k + nb, l + nb, j, i); (l + nb, k + nb, j, i) ]%Z.

(** The body of the [while dat:] loop. *)
Definition read_line (nbasis : nat) (st : integrals) (line : integral_line)
    : option integrals :=
  let nb := Z.of_nat nbasis in
  let i := (line_ii line - 1)%Z in
  let j := (line_jj line - 1)%Z in
  let k := (line_kk line - 1)%Z in
  let l := (line_ll line - 1)%Z in
  if negb (line_kk line =? 0)%Z then
    h2 ← assign (np_index4 (2 * nbasis)) (read_h2 st)
           (two_electron_targets nb i j k l) (line_value line);
    Some {| read_h1 := read_h1 st; read_h2 := h2; read_nn := read_nn st |}
  else if negb (line_jj line =? 0)%Z then
    h1 ← assign (np_index2 (2 * nbasis)) (read_h1 st)
           (one_electron_targets nb i j) (line_value line);
    Some {| read_h1 := h1; read_h2 := read_h2 st; read_nn := read_nn st |}
  else
    Some {| read_h1 := read_h1 st; read_h2 := read_h2 st;
            read_nn := Some (line_value line) |}.

(** The loop over the lines that remain in the file. *)
Fixpoint read_integrals (nbasis : nat) (lines : list integral_line)
    (st : integrals) : option integrals :=
  match lines with
  | [] => Some st
  | line :: rest =>
      st ← read_line nbasis st line; read_integrals nbasis rest st
  end.

(** The indices a line may carry without an [IndexError]: [1 .. nbasis],
    and, through numpy's negative positions, [-2*nbasis+1 .. 0]. *)
Definition accepted_index (nbasis : nat) (x : Z) : Prop :=
  (- 2 * Z.of_nat nbasis < x <= Z.of_nat nbasis)%Z.

(** The indices of a well-formed file: spatial orbitals [1 .. nbasis]. *)
Definition orbital_index (nbasis : nat) (x : Z) : Prop :=
  (1 <= x <= Z.of_nat nbasis)%Z.

(** A line whose indices are those of spatial orbitals; the fields that the
    loop does not read for the kind of line are free. *)
Definition line_wf (nbasis : nat) (line : integral_line) : Prop :=
  if (line_kk line =? 0)%Z
  then if (line_jj line =? 0)%Z then True
       else orbital_index nbasis (line_ii line)
            ∧ orbital_index nbasis (line_jj line)
  else orbital_index nbasis (line_ii line) ∧ orbital_index nbasis (line_jj line)
       ∧ orbital_index nbasis (line_kk line) ∧ orbital_index nbasis (line_ll line).

(** Spin-orbital labels are ordered alpha first, then beta: the spin of a
    label ([true] for beta) and the spatial orbital it belongs to. *)
Definition spin_of (nbasis p : nat) : bool := nbasis <=? p.
Definition spatial_of (nbasis p : nat) : nat :=
  if nbasis <=? p then p - nbasis else p.

(** The positions that the eight-fold permutational symmetry gives to a
    spatial integral [(ab|cd)]. *)
Definition spatial_targets (a b c d : nat) : list (nat * nat * nat * nat) :=
  [ (a, b, c, d); (b, a, c, d); (a, b, d, c); (b, a, d, c);
    (c, d, a, b); (d, c, a, b); (c, d, b, a); (d, c, b, a) ].

(** The permutational symmetries of the two arrays. *)
Definition symmetric_integrals (st : integrals) : Prop :=
  (∀ p q, read_h1 st (p, q) = read_h1 st (q, p))
  ∧ (∀ p q r s,
       read_h2 st (p, q, r, s) = read_h2 st (q, p, r, s)
       ∧ read_h2 st (p, q, r, s) = read_h2 st (p, q, s, r)
       ∧ read_h2 st (p, q, r, s) = read_h2 st (r, s, p, q)).


(** The spin structure of the two arrays: an entry between labels of the
    same spin is the entry of their spatial orbitals, an entry that mixes
    the spins within a pair is zero. *)
Definition spin_blocked (nbasis : nat) (st : integrals) : Prop :=
  (∀ p q, p < 2 * nbasis → q < 2 * nbasis →
     read_h1 st (p, q)
     = if Bool.eqb (spin_of nbasis p) (spin_of nbasis q)
       then read_h1 st (spatial_of nbasis p, spatial_of nbasis q) else 0%Q)
  ∧ (∀ p q r s, p < 2 * nbasis → q < 2 * nbasis →
       r < 2 * nbasis → s < 2 * nbasis →
       read_h2 st (p, q, r, s)
       = if Bool.eqb (spin_of nbasis p) (spin_of nbasis q)
            && Bool.eqb (spin_of nbasis r) (spin_of nbasis s)
         then read_h2 st (spatial_of nbasis p, spatial_of nbasis q,
                          spatial_of nbasis r, spatial_of nbasis s)
         else 0%Q).

(** The lines that carry the nuclear repulsion: [kk == 0] and [jj == 0]. *)
Definition is_nn_line (line : integral_line) : bool :=
  (line_kk line =? 0)%Z && (line_jj line =? 0)%Z.

(** ** The record of a sweep, read off the draws *)

(** The targets that [attempts] successive spawn attempts from the source
    [det_ind] read off the recorded draws, and the draws that are left. *)
Fixpoint drawn_targets (ndet fuel attempts det_ind : nat)
    (tape : list Rand.draw) : option (list nat * list Rand.draw) :=
  match attempts with
  | O => Some ([], tape)
  | S attempts' =>
      '(t, tape) ← Rand.run (pick_spawn_ind ndet fuel det_ind) tape;
      '(ts, tape) ← drawn_targets ndet fuel attempts' det_ind tape;
      Some (t :: ts, tape)
  end.

(** What the draws decide for one entry of the snapshot: the amplitude with
    which the walker goes on ([None] when the rounding step deletes it) and
    the targets of its spawn attempts. *)
Record outcome := {
  out_det : nat;
  out_kept : option Q;
  out_targets : list nat
}.

(** The outcomes for the entries of a snapshot, in order.  They are read
    from the snapshot, the parameters and the draws alone: neither
    dictionary enters. *)
Fixpoint sweep_record (ndet fuel : nat) (p : PARAMS)
    (snapshot : list (nat * Q)) (tape : list Rand.draw)
    : option (list outcome * list Rand.draw) :=
  match snapshot with
  | [] => Some ([], tape)
  | (det_ind, det_amp) :: rest =>
      '(rounded, tape) ← Rand.run (round_walker p det_amp) tape;
      '(targets, tape) ← match rounded with
                         | Some amp =>
                             drawn_targets ndet fuel (nspawn_of amp) det_ind tape
                         | None => Some ([], tape)
                         end;
      '(outs, tape) ← sweep_record ndet fuel p rest tape;
      Some ({| out_det := det_ind; out_kept := rounded;
               out_targets := targets |} :: outs, tape)
  end.

(** The spawn events of one outcome and of a record: target and weight,
    [-timestep * H[source,target] * amp / (p_spawn * nspawn)]. *)
Definition outcome_events (full_h : nat → nat → Q) (ndet : nat) (p : PARAMS)
    (o : outcome) : list (nat * Q) :=
  match out_kept o with
  | Some amp =>
      (fun t => (t, spawned_weight full_h ndet p (out_det o) t amp
                      (nspawn_of amp))) <$> out_targets o
  | None => []
  end.

Definition spawn_events (full_h : nat → nat → Q) (ndet : nat) (p : PARAMS)
    (outs : list outcome) : list (nat * Q) :=
  outs ≫= outcome_events full_h ndet p.

(** The weight that a list of events brings to the key [k]. *)
Definition tally (events : list (nat * Q)) (k : nat) : Q :=
  Rand.Qsum (map (fun e : nat * Q => if e.1 =? k then e.2 else 0%Q) events).

(** What rounding and death alone make of the entry of [k] in the
    dictionary [w]: deleted, or lowered by
    [timestep * (H[k,k] - H[0,0] - shift) * amp]; untouched when the
    record has no outcome for [k]. *)
Definition swept_entry (full_h : nat → nat → Q) (p : PARAMS) (w : Dict.t)
    (outs : list outcome) (k : nat) : option Q :=
  match List.find (fun o => out_det o =? k) outs with
  | None => Dict.get w k
  | Some o =>
      match out_kept o with
      | None => None
      | Some amp =>
          old ← Dict.get w k;
          Some (old - timestep p * (full_h k k - full_h 0%nat 0%nat - shift p) * amp)%Q
      end
  end.

(** ** Small concrete systems used to exercise the statements *)

Definition ham_example : HAM :=
  {| nelec := 2; nbasis := 2;
     h1 := fun p q => inject_Z (Z.of_nat (p + q + 1));
     h2 := fun p q r s => inject_Z (Z.of_nat (p + 2 * q + 3 * r + 5 * s));
     nn := 1; p_single := 1 # 10 |}.

(** One electron in one spatial orbital: no double excitation exists. *)
Definition ham_one_electron : HAM :=
  {| nelec := 1; nbasis := 1;
     h1 := fun p q => 0%Q; h2 := fun p q r s => 0%Q;
     nn := 0; p_single := 1 # 10 |}.

Definition h_example (i j : nat) : Q :=
  match i, j with
  | 0, 0 => (-2)%Q
  | 1, 1 => (-1)%Q
  | 0, 1 | 1, 0 => (1 # 2)%Q
  | _, _ => 0%Q
  end.

Definition params_example : PARAMS :=
  {| nwalk_init := 1; timestep := 1 # 100; det_thresh := 1 # 4;
     max_iter := 1; stats_cycle := 10; shift := 0 |}.

Definition stats_example : STATS :=
  {| iter_curr := 0; nw := 0; ref_weight := 0; nocc_dets := 0;
     cycle_en_num := 0; cycle_en_denom := 0 |}.

(** A population with a negative walker below the threshold. *)
Definition sim_example : sim :=
  {| walkers := [(0, 1%Q); (1, (- (1 # 10))%Q)]; spawned_walkers := [];
     sim_stats := stats_example; sim_params := params_example |}.

(** The sub-threshold walker of [sim_example] after it was kept by the
    rounding step (draw [0]) and spawned onto determinant 0. *)
Definition sim_example_after : sim :=
  {| walkers := [(0, 1%Q); (1, (-410 # 4000)%Q)];
     spawned_walkers := [(0, (-2 # 800)%Q)];
     sim_stats := {| iter_curr := 0; nw := 1 # 4; ref_weight := 0;
                     nocc_dets := 1; cycle_en_num := (-1 # 20)%Q;
                     cycle_en_denom := 0 |};
     sim_params := params_example |}.

Definition update_shift_example (p : PARAMS) (st : STATS) : PARAMS * STATS :=
  (p, st).
Definition update_stats_example (st : STATS) (p : PARAMS) : PARAMS * STATS :=
  (p, st).

(** The state after the first iteration from a single unit walker whose one
    spawn attempt picks determinant 2. *)
Definition sim_first_iter : sim :=
  Eval vm_compute in
    match Rand.run (evolve h_example 3 5 0 (initial params_example stats_example))
            [Rand.Int 2] with
    | Some (s, _) => s
    | None => sim_example
    end.

(** A population holding a zero-weight entry, and the state one iteration
    later (spawn onto determinant 1, rounding draw 1/2). *)
Definition sim_zero_entry : sim :=
  {| walkers := [(0, 1%Q); (2, 0%Q)]; spawned_walkers := [];
     sim_stats := stats_example; sim_params := params_example |}.

Definition sim_zero_entry_after : sim :=
  Eval vm_compute in
    match Rand.run (evolve h_example 3 5 1 sim_zero_entry)
            [Rand.Int 1; Rand.Float (1 # 2)] with
    | Some (s, _) => s
    | None => sim_example
    end.

(** The integral block of a file for two spatial orbitals: two two-electron
    lines, two one-electron lines and the nuclear repulsion. *)
Definition fcidump_example : list integral_line :=
  [ {| line_value := 1 # 2; line_ii := 1; line_jj := 1;
       line_kk := 1; line_ll := 1 |};
    {| line_value := 1 # 4; line_ii := 2; line_jj := 1;
       line_kk := 2; line_ll := 1 |};
    {| line_value := (-1)%Q; line_ii := 1; line_jj := 1;
       line_kk := 0; line_ll := 0 |};
    {| line_value := 1 # 3; line_ii := 2; line_jj := 1;
       line_kk := 0; line_ll := 0 |};
    {| line_value := 7 # 10; line_ii := 0; line_jj := 0;
       line_kk := 0; line_ll := 0 |} ].

(** The same block after a line whose first index is 0. *)
Definition fcidump_wrapped : list integral_line :=
  {| line_value := 5; line_ii := 0; line_jj := 1; line_kk := 2; line_ll := 1 |}
  :: fcidump_example.

(** [sim_example] one iteration later: the walker on determinant 0 spawns
    onto determinant 1, whose own walker is then deleted by the rounding
    step (draw [1/2], not below [2/5]). *)
Definition sim_example_merged : sim :=
  Eval vm_compute in
    match Rand.run (evolve h_example 3 5 0 sim_example)
            [Rand.Int 1; Rand.Float (1 # 2)] with
    | Some (s, _) => s
    | None => sim_example
    end.

(** * Facts *)

(** ** Sums of rationals *)

Lemma Qsum_app l1 l2 : (Rand.Qsum (l1 ++ l2) == Rand.Qsum l1 + Rand.Qsum l2)%Q.
Proof.
  induction l1 as [|x l1 IH]; simpl.
  - ring.
  - rewrite IH. ring.
Qed.

Lemma Qsum_map_ext {A} (f g : A → Q) l :
  (∀ x, In x l → (f x == g x)%Q) →
  (Rand.Qsum (map f l) == Rand.Qsum (map g l))%Q.
Proof.
  induction l as [|x l IH]; simpl; intros Hfg.
  - reflexivity.
  - rewrite (Hfg x) by auto. rewrite IH by auto. reflexivity.
Qed.

Lemma Qsum_map_const {A} (c : Q) (l : list A) :
  (Rand.Qsum (map (fun _ => c) l) == inject_Z (Z.of_nat (length l)) * c)%Q.
Proof.
  induction l as [|x l IH].
  - simpl. ring.
  - cbn [map Rand.Qsum foldr length]. change (foldr Qplus 0%Q ?l) with (Rand.Qsum l).
    rewrite IH, Nat2Z.inj_succ. unfold Z.succ. rewrite inject_Z_plus. ring.
Qed.

Lemma Qsum_map_scale {A} (c : Q) (f : A → Q) (l : list A) :
  (Rand.Qsum (map (fun x => c * f x) l) == c * Rand.Qsum (map f l))%Q.
Proof.
  induction l as [|x l IH]; simpl.
  - ring.
  - rewrite IH. ring.
Qed.

Lemma Qsum_map_plus {A} (f g : A → Q) (l : list A) :
  (Rand.Qsum (map (fun x => f x + g x) l)
   == Rand.Qsum (map f l) + Rand.Qsum (map g l))%Q.
Proof.
  induction l as [|x l IH]; simpl.
  - ring.
  - rewrite IH. ring.
Qed.

(** ** Determinants *)

Lemma det_wf_strongly_sorted det : det_wf det ↔ StronglySorted lt det.
Proof.
  split.
  - intros [Hs Hn]. induction det as [|p det IH]; constructor.
    + apply IH; [by inversion Hs | by apply NoDup_cons in Hn as [_ ?]].
    + apply Sorted_StronglySorted in Hs; [|intros ???; lia].
      inversion Hs as [|?? _ Hall]; subst. apply NoDup_cons in Hn as [Hp _].
      rewrite Forall_forall in *. intros q Hq.
      specialize (Hall q Hq).
      assert (p ≠ q) by (by intros ->).
      lia.
  - intros Hs. split.
    + apply StronglySorted_Sorted in Hs.
      induction Hs as [|p det Hs IH Hhd]; constructor; auto.
      destruct Hhd; constructor. lia.
    + induction Hs as [|p det Hs IH Hall]; constructor; auto.
      rewrite Forall_forall in Hall. intros Hp.
      apply Hall in Hp. lia.
Qed.

(** ** Slater-Condon rules *)

Section SlaterCondonFacts.
Variable H : HAM.

Lemma h1_at_in_range p q :
  p < spin_basis H → q < spin_basis H → h1_at H p q = Some (h1 H p q).
Proof.
  intros Hp Hq. unfold h1_at.
  apply Nat.ltb_lt in Hp, Hq. by rewrite Hp, Hq.
Qed.

Lemma h2_at_in_range p q r s :
  p < spin_basis H → q < spin_basis H → r < spin_basis H →
  s < spin_basis H → h2_at H p q r s = Some (h2 H p q r s).
Proof.
  intros Hp Hq Hr Hs. unfold h2_at.
  apply Nat.ltb_lt in Hp, Hq, Hr, Hs. by rewrite Hp, Hq, Hr, Hs.
Qed.

Lemma diag_inner_sum p qs hel :
  p < spin_basis H → Forall (fun q => q < spin_basis H) qs →
  ∃ x, diag_inner H p qs hel = Some x ∧
       (x == hel + Rand.Qsum (map (fun q => h2 H p p q q - h2 H p q q p) qs))%Q.
Proof.
  intros Hp Hqs. revert hel. unfold diag_inner.
  induction Hqs as [|q qs Hq Hqs IH]; intros hel; simpl.
  - eexists; split; [done|ring].
  - rewrite !h2_at_in_range by done. simpl.
    destruct (IH (hel + (h2 H p p q q - h2 H p q q p))%Q) as (x & -> & Hx).
    eexists; split; [done|]. rewrite Hx. ring.
Qed.
End SlaterCondonFacts.

Section DiagonalFacts.
Variable H : HAM.

Let pair_term (pq : nat * nat) : Q :=
  (h2 H pq.1 pq.1 pq.2 pq.2 - h2 H pq.1 pq.2 pq.2 pq.1)%Q.

Lemma diag_outer_sum_gen det suf : ∀ pre hel,
  det = pre ++ suf → Forall (fun q => q < spin_basis H) suf →
  ∃ x,
    foldl (fun acc '(pos, p) =>
             hel ← acc; a ← h1_at H p p;
             diag_inner H p (drop (pos + 1) det) (hel + a)%Q)
          (Some hel) (combine (seq (length pre) (length suf)) suf) = Some x ∧
    (x == hel + Rand.Qsum (map (fun p => h1 H p p) suf)
            + Rand.Qsum (map pair_term (later_pairs suf)))%Q.
Proof.
  induction suf as [|p rest IH]; intros pre hel Hdet Hall.
  - simpl. eexists; split; [done|ring].
  - apply Forall_cons in Hall as [Hp Hrest].
    cbn [length seq combine foldl]. rewrite h1_at_in_range by done.
    cbn [mbind option_bind].
    assert (drop (length pre + 1) det = rest) as ->.
    { subst det. rewrite (cons_middle p pre rest), app_assoc.
      replace (length pre + 1) with (length (pre ++ [p]))
        by (rewrite length_app; simpl; lia).
      apply drop_app_length. }
    destruct (diag_inner_sum H p rest (hel + h1 H p p)%Q Hp Hrest)
      as (y & Hy & Hyeq).
    rewrite Hy.
    destruct (IH (pre ++ [p]) y) as (x & Hx & Hxeq); [|done|].
    { subst det. by rewrite <- app_assoc. }
    replace (length (pre ++ [p])) with (S (length pre)) in Hx
      by (rewrite length_app; simpl; lia).
    exists x. split; [exact Hx|].
    rewrite Hxeq, Hyeq. cbn [later_pairs map Rand.Qsum foldr].
    change (foldr Qplus 0%Q ?l) with (Rand.Qsum l).
    rewrite map_app, Qsum_app, map_map. unfold pair_term at 2. simpl. ring.
Qed.

Lemma diag_outer_sum det hel :
  Forall (fun q => q < spin_basis H) det →
  ∃ x, diag_outer H det hel = Some x ∧
       (x == hel + Rand.Qsum (map (fun p => h1 H p p) det)
               + Rand.Qsum (map pair_term (later_pairs det)))%Q.
Proof.
  intros Hall. apply (diag_outer_sum_gen det det [] hel); done.
Qed.
End DiagonalFacts.

Lemma filter_lt_pair_all p l :
  Forall (fun r => p < r) l →
  filter (fun pq : nat * nat => pq.1 < pq.2) (map (pair p) l) = map (pair p) l.
Proof.
  induction 1 as [|r l Hr _ IH]; [done|].
  simpl. rewrite filter_cons_True by done. by rewrite IH.
Qed.

Lemma filter_lt_prod_skip p l1 l2 :
  Forall (fun r => p < r) l1 →
  filter (fun pq : nat * nat => pq.1 < pq.2) (list_prod l1 (p :: l2))
  = filter (fun pq : nat * nat => pq.1 < pq.2) (list_prod l1 l2).
Proof.
  induction 1 as [|r l1 Hr _ IH]; [done|].
  simpl. rewrite filter_cons_False by (simpl; lia).
  by rewrite !filter_app, IH.
Qed.

Lemma later_pairs_sorted det :
  StronglySorted lt det →
  filter (fun pq : nat * nat => pq.1 < pq.2) (list_prod det det)
  = later_pairs det.
Proof.
  induction 1 as [|p rest Hs IH Hall]; [done|].
  simpl. rewrite filter_cons_False by (simpl; lia).
  rewrite filter_app, filter_lt_pair_all, filter_lt_prod_skip, IH; done.
Qed.

Section SlaterCondonRules.
Variable H : HAM.

Lemma single_loop_sum i a det hel :
  i < spin_basis H → a < spin_basis H →
  Forall (fun q => q < spin_basis H) det →
  ∃ x, single_loop H i a det hel = Some x ∧
       (x == hel + Rand.Qsum (map (fun q => h2 H i a q q - h2 H i q q a) det))%Q.
Proof.
  intros Hi Ha Hall. revert hel. unfold single_loop.
  induction Hall as [|q det Hq _ IH]; intros hel; simpl.
  - eexists; split; [done|ring].
  - rewrite !h2_at_in_range by done. simpl.
    destruct (IH (hel + (h2 H i a q q - h2 H i q q a))%Q) as (x & -> & Hx).
    eexists; split; [done|]. rewrite Hx. ring.
Qed.

Lemma with_parity_proper parity x y :
  (x == y)%Q → (with_parity parity x == with_parity parity y)%Q.
Proof. intros Hxy. destruct parity; simpl; by rewrite Hxy. Qed.

(** C2. On an ascending duplicate-free determinant whose labels index the
    tensors, [slater_condon] returns the diagonal element
    [nn + Σ_p h1[p,p] + Σ_{p<q} (h2[p,p,q,q] - h2[p,q,q,p])] for the
    descriptor [None], [h1[i,a] + Σ_q (h2[i,a,q,q] - h2[i,q,q,a])] for a
    rank-1 descriptor, [h2[i,a,j,b] - h2[i,b,j,a]] for a rank-2 descriptor
    and [0] for any higher rank, each multiplied by the parity when one is
    supplied. *)
Theorem slater_condon_rules det excited_det parity :
  det_wf det → Forall (fun q => q < spin_basis H) det →
  (∃ x, slater_condon H det excited_det None parity = Some x ∧
        (x == with_parity parity (diagonal_element H det))%Q) ∧
  (∀ i a, i < spin_basis H → a < spin_basis H →
     ∃ x, slater_condon H det excited_det (Some ([i], [a])) parity = Some x ∧
          (x == with_parity parity (single_element H det i a))%Q) ∧
  (∀ i j a b, i < spin_basis H → j < spin_basis H →
     a < spin_basis H → b < spin_basis H →
     slater_condon H det excited_det (Some ([i; j], [a; b])) parity
     = Some (with_parity parity (double_element H i j a b))) ∧
  (∀ em0 em1, 2 < length em0 →
     slater_condon H det excited_det (Some (em0, em1)) parity
     = Some (with_parity parity 0)).
Proof.
  intros Hwf Hall. repeat split.
  - destruct (diag_outer_sum H det (nn H) Hall) as (x & Hx & Hxeq).
    exists (with_parity parity x). split.
    + unfold slater_condon. rewrite Hx. by destruct parity.
    + apply with_parity_proper. rewrite Hxeq. unfold diagonal_element.
      apply det_wf_strongly_sorted in Hwf.
      rewrite (later_pairs_sorted det Hwf). reflexivity.
  - intros i a Hi Ha.
    destruct (single_loop_sum i a det (h1 H i a) Hi Ha Hall) as (x & Hx & Hxeq).
    exists (with_parity parity x). split.
    + unfold slater_condon. simpl. rewrite h1_at_in_range by done. simpl.
      rewrite Hx. by destruct parity.
    + apply with_parity_proper. by rewrite Hxeq.
  - intros i j a b Hi Hj Ha Hb. unfold slater_condon. simpl.
    rewrite !h2_at_in_range by done. by destruct parity.
  - intros em0 em1 Hlen. unfold slater_condon.
    destruct (length em0 =? 1) eqn:E1; [apply Nat.eqb_eq in E1; lia|].
    destruct (length em0 =? 2) eqn:E2; [apply Nat.eqb_eq in E2; lia|].
    by destruct parity.
Qed.

(** C9. For a descriptor that is not [None] and whose tuples have length 0
    (as [[(), ()]]) or more than 2, [slater_condon] takes the fall-through
    branch: the result is [0] times the supplied parity, whatever the
    determinant, and not the diagonal element. *)
Theorem slater_condon_fallthrough det excited_det em0 em1 parity :
  length em0 = 0 ∨ 2 < length em0 →
  slater_condon H det excited_det (Some (em0, em1)) parity
  = Some (with_parity parity 0) ∧
  (with_parity parity 0 == 0)%Q.
Proof.
  intros Hlen. split.
  - unfold slater_condon.
    destruct (length em0 =? 1) eqn:E1; [apply Nat.eqb_eq in E1; lia|].
    destruct (length em0 =? 2) eqn:E2; [apply Nat.eqb_eq in E2; lia|].
    by destruct parity.
  - destruct parity; simpl; ring.
Qed.
End SlaterCondonRules.

Ltac solve_det_wf :=
  split;
  [ repeat constructor; lia
  | apply (bool_decide_unpack _); by vm_compute ].

Ltac solve_Forall_lt :=
  repeat (apply Forall_cons; split; [vm_compute; lia|]); apply Forall_nil_2.

Lemma slater_condon_rules_witness :
  det_wf [0; 2] ∧ Forall (fun q => q < spin_basis ham_example) [0; 2] ∧
  ∃ x, slater_condon ham_example [0; 2] [0; 2] None (Some (-1)%Z) = Some x ∧
       (x == with_parity (Some (-1)%Z) (diagonal_element ham_example [0; 2]%nat))%Q.
Proof.
  assert (Hwf : det_wf [0; 2]) by solve_det_wf.
  assert (Hall : Forall (fun q => q < spin_basis ham_example) [0; 2])
    by solve_Forall_lt.
  split; [exact Hwf|]. split; [exact Hall|].
  exact (proj1 (slater_condon_rules ham_example [0; 2] [0; 2] (Some (-1)%Z) Hwf Hall)).
Defined.

Lemma slater_condon_fallthrough_witness :
  (length (@nil nat) = 0 ∨ 2 < length (@nil nat)) ∧
  slater_condon ham_example [0; 2] [0; 2] (Some ([], [])) (Some 1%Z)
  = Some (with_parity (Some 1%Z) 0) ∧
  (with_parity (Some 1%Z) 0 == 0)%Q.
Proof.
  split; [by left|].
  apply (slater_condon_fallthrough ham_example [0; 2] [0; 2] [] [] (Some 1%Z)).
  by left.
Defined.

(** The diagonal element of the same determinant is not zero: the
    fall-through branch is a different value. *)
Example slater_condon_diagonal_example :
  ∃ x, slater_condon ham_example [0; 2] [0; 2] None (Some 1%Z) = Some x ∧
       ¬ (x == 0)%Q.
Proof. eexists. split; [vm_compute; reflexivity|]. by vm_compute. Qed.

(** ** [calc_excit_mat_parity] on identical determinants *)

Lemma contains_elem_of x l : Py.contains x l = true ↔ x ∈ l.
Proof.
  unfold Py.contains. rewrite existsb_exists. split.
  - intros (y & Hy & Heq). apply Nat.eqb_eq in Heq as ->.
    by apply list_elem_of_In.
  - intros Hx. exists x. split; [by apply list_elem_of_In|apply Nat.eqb_refl].
Qed.

Lemma contains_not_elem_of x l : Py.contains x l = false ↔ x ∉ l.
Proof.
  rewrite <- contains_elem_of. destruct (Py.contains x l); split; try done.
  all: intros Hn; by destruct Hn.
Qed.

Lemma scan_missing_all_present_gen other (orbs : list nat) : ∀ (inds : list nat) acc,
  Forall (fun orb => orb ∈ other) orbs →
  foldl (fun '(inds, orbs) '(ind, orb) =>
           if negb (Py.contains orb other)
           then (inds ++ [ind], orbs ++ [orb]) else (inds, orbs))
        acc (combine inds orbs) = acc.
Proof.
  induction orbs as [|orb orbs IH]; intros inds acc Hall.
  - by destruct inds.
  - destruct inds as [|ind inds]; [done|].
    apply Forall_cons in Hall as [Hin Hall]. simpl.
    destruct acc as [acc_inds acc_orbs].
    apply contains_elem_of in Hin. rewrite Hin. simpl. by apply IH.
Qed.

Lemma scan_missing_self det : scan_missing det det = ([], []).
Proof.
  unfold scan_missing, Py.enumerate.
  apply scan_missing_all_present_gen. by apply Forall_forall.
Qed.

(** C4. What the code does on two identical determinants: the descriptor
    that comes back is the pair of empty tuples with parity [+1], and not the
    absent descriptor [None] that the specification asks for (the test
    [not list(excit_mat)] looks at a list that always has two elements). *)
Theorem calc_excit_mat_parity_identical xfuel det :
  calc_excit_mat_parity xfuel det det = Some (Some ([], []), Some 1%Z).
Proof.
  unfold calc_excit_mat_parity. by rewrite scan_missing_self.
Qed.

(** ** [sorted] *)

Lemma insert_sorted_perm x l : Py.insert_sorted x l ≡ₚ x :: l.
Proof.
  induction l as [|y l IH]; simpl; [done|].
  destruct (x <=? y); [done|]. rewrite IH. apply Permutation_swap.
Qed.

Lemma sorted_perm l : Py.sorted l ≡ₚ l.
Proof.
  induction l as [|x l IH]; simpl; [done|].
  fold (Py.sorted l). by rewrite insert_sorted_perm, IH.
Qed.

Lemma sorted_length l : length (Py.sorted l) = length l.
Proof. apply Permutation_length, sorted_perm. Qed.

Lemma sorted_elem_of x l : x ∈ Py.sorted l ↔ x ∈ l.
Proof. by rewrite sorted_perm. Qed.

Lemma insert_sorted_le x l :
  StronglySorted le l → StronglySorted le (Py.insert_sorted x l).
Proof.
  induction 1 as [|y l Hs IH Hall]; simpl.
  - repeat constructor.
  - destruct (Nat.leb_spec x y).
    + constructor; [by constructor|]. constructor; [done|].
      eapply Forall_impl; [exact Hall|]. intros; simpl in *; lia.
    + constructor; [done|].
      rewrite insert_sorted_perm. constructor; [lia|done].
Qed.

Lemma sorted_le l : StronglySorted le (Py.sorted l).
Proof.
  induction l as [|x l IH]; simpl; [constructor|]. by apply insert_sorted_le.
Qed.

Lemma strongly_sorted_le_lt l :
  StronglySorted le l → NoDup l → StronglySorted lt l.
Proof.
  induction 1 as [|y l Hs IH Hall]; intros Hnd; [constructor|].
  apply NoDup_cons in Hnd as [Hy Hnd]. constructor; [by apply IH|].
  rewrite Forall_forall in *. intros z Hz. specialize (Hall z Hz).
  assert (y ≠ z) by (by intros ->). lia.
Qed.

Lemma strongly_sorted_lt_le l : StronglySorted lt l → StronglySorted le l.
Proof.
  induction 1 as [|y l Hs IH Hall]; constructor; [done|].
  eapply Forall_impl; [exact Hall|]. intros; simpl in *; lia.
Qed.

Lemma sorted_lt l : NoDup l → StronglySorted lt (Py.sorted l).
Proof.
  intros Hnd. apply strongly_sorted_le_lt; [apply sorted_le|].
  by rewrite sorted_perm.
Qed.

Lemma insert_sorted_head x l :
  Forall (fun y => x <= y) l → Py.insert_sorted x l = x :: l.
Proof.
  destruct 1 as [|y l Hy _]; simpl; [done|].
  apply Nat.leb_le in Hy. by rewrite Hy.
Qed.

Lemma sorted_id l : StronglySorted le l → Py.sorted l = l.
Proof.
  induction 1 as [|y l Hs IH Hall]; simpl; [done|].
  fold (Py.sorted l). rewrite IH. by apply insert_sorted_head.
Qed.

(** Two strictly ascending lists with the same elements are equal. *)
Lemma strongly_sorted_lt_unique l1 : ∀ l2,
  StronglySorted lt l1 → StronglySorted lt l2 →
  (∀ x, x ∈ l1 ↔ x ∈ l2) → l1 = l2.
Proof.
  induction l1 as [|a l1 IH]; intros l2 H1 H2 Heq.
  - destruct l2 as [|b l2]; [done|].
    exfalso. eapply not_elem_of_nil, Heq. by left.
  - destruct l2 as [|b l2].
    { exfalso. eapply not_elem_of_nil, Heq. by left. }
    inversion H1 as [|?? Hs1 Ha]; subst. inversion H2 as [|?? Hs2 Hb]; subst.
    rewrite Forall_forall in Ha, Hb.
    assert (a = b) as ->.
    { assert (a ∈ b :: l2) as Ha' by (apply Heq; by left).
      assert (b ∈ a :: l1) as Hb' by (apply Heq; by left).
      apply elem_of_cons in Ha' as [?|Ha']; [done|].
      apply elem_of_cons in Hb' as [?|Hb']; [done|].
      apply Hb in Ha'. apply Ha in Hb'. lia. }
    f_equal. apply IH; [done..|].
    intros x. split; intros Hx.
    + assert (x ∈ b :: l2) as Hx' by (apply Heq; by right).
      apply elem_of_cons in Hx' as [->|?]; [|done].
      apply Ha in Hx. lia.
    + assert (x ∈ b :: l1) as Hx' by (apply Heq; by right).
      apply elem_of_cons in Hx' as [->|?]; [|done].
      apply Hb in Hx. lia.
Qed.

(** ** List positions *)

Lemma norm_index_nat {A} (l : list A) i :
  i < length l → Py.norm_index l (Z.of_nat i) = Some i.
Proof.
  intros Hi. unfold Py.norm_index.
  destruct (Z.ltb_spec (Z.of_nat i) 0); [lia|].
  destruct (Z.ltb_spec (Z.of_nat i) (Z.of_nat (length l))); [|lia].
  by rewrite Nat2Z.id.
Qed.

Lemma getitem_nat {A} (l : list A) i :
  i < length l → Py.getitem l (Z.of_nat i) = l !! i.
Proof. intros Hi. unfold Py.getitem. by rewrite norm_index_nat. Qed.

Lemma setitem_nat {A} (l : list A) i v :
  i < length l → Py.setitem l (Z.of_nat i) v = Some (<[i := v]> l).
Proof. intros Hi. unfold Py.setitem. by rewrite norm_index_nat. Qed.

Lemma getitem_middle {A} (l1 l2 : list A) x :
  Py.getitem (l1 ++ x :: l2) (Z.of_nat (length l1)) = Some x.
Proof.
  rewrite getitem_nat by (rewrite length_app; simpl; lia).
  by rewrite list_lookup_middle.
Qed.

Lemma setitem_middle {A} (l1 l2 : list A) x y :
  Py.setitem (l1 ++ x :: l2) (Z.of_nat (length l1)) y = Some (l1 ++ y :: l2).
Proof.
  rewrite setitem_nat by (rewrite length_app; simpl; lia).
  f_equal. rewrite insert_app_r_alt by lia.
  by replace (length l1 - length l1) with 0 by lia.
Qed.

(** Replacing one label of a duplicate-free list by a new one. *)
Lemma lookup_split {A} (l : list A) i x :
  l !! i = Some x → ∃ l1 l2, l = l1 ++ x :: l2 ∧ length l1 = i.
Proof.
  intros Hi. exists (take i l), (drop (S i) l). split.
  - by rewrite take_drop_middle.
  - rewrite length_take. apply lookup_lt_Some in Hi. lia.
Qed.

Lemma insert_middle {A} (l1 l2 : list A) x y :
  <[length l1 := y]> (l1 ++ x :: l2) = l1 ++ y :: l2.
Proof.
  rewrite insert_app_r_alt by lia.
  by replace (length l1 - length l1) with 0 by lia.
Qed.

(** ** Termination of [elec_exchange_ops] *)

Lemma sorted_fixpoint l : Py.sorted l = l → StronglySorted le l.
Proof. intros <-. apply sorted_le. Qed.

Lemma list_neq_false l : StronglySorted le l → Py.list_neq l (Py.sorted l) = false.
Proof.
  intros Hs. unfold Py.list_neq. rewrite sorted_id by done.
  by rewrite bool_decide_eq_true_2.
Qed.

Lemma list_neq_true l : ¬ StronglySorted le l → Py.list_neq l (Py.sorted l) = true.
Proof.
  intros Hs. unfold Py.list_neq. rewrite bool_decide_eq_false_2; [done|].
  intros Heq. apply Hs. by apply sorted_fixpoint.
Qed.

Lemma strongly_sorted_app_inv (R : nat → nat → Prop) l1 l2 :
  StronglySorted R (l1 ++ l2) →
  StronglySorted R l1 ∧ StronglySorted R l2 ∧
  (∀ a b, a ∈ l1 → b ∈ l2 → R a b).
Proof.
  induction l1 as [|a l1 IH]; simpl; intros Hs.
  - repeat split; [constructor|done|]. intros a b Ha. by apply elem_of_nil in Ha.
  - inversion Hs as [|?? Hs' Hall]; subst.
    destruct (IH Hs') as (H1 & H2 & H12).
    rewrite Forall_app in Hall. destruct Hall as [Hall1 Hall2].
    repeat split; [by constructor|done|].
    intros c b Hc Hb. apply elem_of_cons in Hc as [->|Hc]; [|by apply H12].
    rewrite Forall_forall in Hall2. by apply Hall2.
Qed.

Lemma strongly_sorted_app (R : nat → nat → Prop) l1 l2 :
  StronglySorted R l1 → StronglySorted R l2 →
  (∀ a b, a ∈ l1 → b ∈ l2 → R a b) →
  StronglySorted R (l1 ++ l2).
Proof.
  induction 1 as [|a l1 Hs IH Hall]; simpl; intros H2 H12; [done|].
  constructor.
  - apply IH; [done|]. intros c b Hc Hb. apply H12; [by right|done].
  - rewrite Forall_app. split; [done|].
    rewrite Forall_forall. intros b Hb. apply H12; [by left|done].
Qed.

Lemma filter_all_false {A} (P : A → Prop) `{∀ x, Decision (P x)} (l : list A) :
  Forall (fun x => ¬ P x) l → filter P l = [].
Proof.
  induction 1 as [|x l Hx _ IH]; [done|]. by rewrite filter_cons_False.
Qed.

Lemma sorted_around l1 l2 x :
  StronglySorted lt (l1 ++ l2) →
  Forall (fun a => a < x) l1 → Forall (fun b => x < b) l2 →
  StronglySorted lt (l1 ++ x :: l2).
Proof.
  intros Hs H1 H2. apply strongly_sorted_app_inv in Hs as (Hs1 & Hs2 & H12).
  rewrite Forall_forall in H1, H2.
  apply strongly_sorted_app; [done| |].
  - constructor; [done|]. by apply Forall_forall.
  - intros a b Ha Hb. apply elem_of_cons in Hb as [->|Hb]; [by apply H1|].
    by apply H12.
Qed.

Lemma exchange_loop_right B : ∀ A x xfuel perm,
  StronglySorted lt (A ++ B) → Forall (fun a => a < x) A → x ∉ B →
  length B <= xfuel →
  exchange_loop xfuel (A ++ x :: B) (Z.of_nat (length A)) 1 perm
  = Some (perm + length (filter (fun b => b < x) B)).
Proof.
  induction B as [|b B IH]; intros A x xfuel perm Hs HA HxB Hfuel.
  - destruct xfuel; simpl;
      (rewrite list_neq_false;
       [f_equal; lia
       |apply strongly_sorted_lt_le, sorted_around; [done..|constructor]]).
  - apply not_elem_of_cons in HxB as [Hxb HxB].
    pose proof (strongly_sorted_app_inv _ _ _ Hs) as (_ & HsB & _).
    inversion HsB as [|?? HsB' HbB]; subst.
    destruct (Nat.lt_total x b) as [Hlt|[?|Hgt]]; [|done|].
    + assert (Forall (fun c => x < c) (b :: B)) as Hall.
      { constructor; [done|]. eapply Forall_impl; [exact HbB|].
        intros; simpl in *; lia. }
      assert (filter (fun c => c < x) (b :: B) = []) as ->.
      { apply filter_all_false. eapply Forall_impl; [exact Hall|].
        intros; simpl in *; lia. }
      destruct xfuel; simpl;
        (rewrite list_neq_false;
         [f_equal; lia|by apply strongly_sorted_lt_le, sorted_around]).
    + destruct xfuel as [|xfuel]; [simpl in Hfuel; lia|].
      cbn [exchange_loop]. rewrite list_neq_true.
      2:{ intros Hle. apply strongly_sorted_app_inv in Hle as (_ & Hle & _).
          inversion Hle as [|?? _ Hall]; subst.
          apply Forall_cons in Hall as [? _]. lia. }
      replace (Z.of_nat (length A) + 1)%Z with (Z.of_nat (length (A ++ [x])))
        by (rewrite length_app; simpl; lia).
      rewrite (cons_middle x A (b :: B)), app_assoc, getitem_middle.
      cbn [mbind option_bind].
      rewrite <- app_assoc, <- cons_middle, getitem_middle.
      cbn [mbind option_bind].
      rewrite (cons_middle x A (b :: B)), app_assoc, setitem_middle.
      cbn [mbind option_bind].
      rewrite <- app_assoc, <- cons_middle, setitem_middle.
      cbn [mbind option_bind].
      rewrite (cons_middle b A (x :: B)), app_assoc.
      replace (length (A ++ [x])) with (length (A ++ [b]))
        by (rewrite !length_app; simpl; lia).
      rewrite IH.
      * rewrite filter_cons_True by done. simpl. f_equal. lia.
      * by rewrite <- app_assoc.
      * apply Forall_app. split; [done|]. by constructor.
      * done.
      * simpl in Hfuel. lia.
Qed.

Lemma exchange_loop_left A : ∀ B x xfuel perm,
  StronglySorted lt (A ++ B) → Forall (fun b => x < b) B → x ∉ A →
  length A <= xfuel →
  exchange_loop xfuel (A ++ x :: B) (Z.of_nat (length A)) (-1) perm
  = Some (perm + length (filter (fun a => x < a) A)).
Proof.
  induction A as [|a A IH] using rev_ind; intros B x xfuel perm Hs HB HxA Hfuel.
  - destruct xfuel; simpl;
      (rewrite list_neq_false;
       [f_equal; lia
       |apply strongly_sorted_lt_le, (sorted_around []); [done|constructor|done]]).
  - apply not_elem_of_app in HxA as [HxA Hxa].
    apply not_elem_of_cons in Hxa as [Hxa _].
    pose proof (strongly_sorted_app_inv _ _ _ Hs) as (HsA & _ & _).
    apply strongly_sorted_app_inv in HsA as (_ & _ & HAa).
    destruct (Nat.lt_total x a) as [Hlt|[?|Hgt]]; [|done|].
    + destruct xfuel as [|xfuel]; [rewrite length_app in Hfuel; simpl in Hfuel; lia|].
      cbn [exchange_loop]. rewrite list_neq_true.
      2:{ intros Hle. rewrite <- app_assoc in Hle.
          apply strongly_sorted_app_inv in Hle as (_ & Hle & _).
          inversion Hle as [|?? _ Hall]; subst.
          apply Forall_cons in Hall as [? _]. lia. }
      replace (Z.of_nat (length (A ++ [a])) + -1)%Z with (Z.of_nat (length A))
        by (rewrite length_app; simpl; lia).
      rewrite <- app_assoc. cbn [app]. rewrite getitem_middle.
      cbn [mbind option_bind].
      rewrite (cons_middle a A (x :: B)), app_assoc, getitem_middle.
      cbn [mbind option_bind].
      rewrite <- app_assoc. cbn [app]. rewrite setitem_middle.
      cbn [mbind option_bind].
      rewrite (cons_middle x A (x :: B)), app_assoc.
      replace (length (A ++ [a])) with (length (A ++ [x]))
        by (rewrite !length_app; simpl; lia).
      rewrite setitem_middle. cbn [mbind option_bind].
      rewrite <- app_assoc. cbn [app].
      rewrite IH.
      * rewrite filter_app, length_app, filter_cons_True by done. simpl.
        f_equal. lia.
      * by rewrite <- app_assoc in Hs.
      * by constructor.
      * done.
      * rewrite length_app in Hfuel. simpl in Hfuel. lia.
    + assert (Forall (fun c => c < x) (A ++ [a])) as Hall.
      { apply Forall_app. split; [|by repeat constructor].
        apply Forall_forall. intros c Hc.
        assert (c < a) by (apply HAa; [done|by left]). lia. }
      assert (filter (fun c => x < c) (A ++ [a]) = []) as ->.
      { apply filter_all_false. eapply Forall_impl; [exact Hall|].
        intros; simpl in *; lia. }
      destruct xfuel; simpl;
        (rewrite list_neq_false;
         [f_equal; lia|by apply strongly_sorted_lt_le, sorted_around]).
Qed.

(** On a list that is ascending apart from the freshly written position,
    [elec_exchange_ops] returns within [length det] rounds: it counts the
    labels the new one has to jump over. *)
Lemma elec_exchange_ops_replaced A B x xfuel :
  StronglySorted lt (A ++ B) → x ∉ A ++ B →
  length (A ++ x :: B) <= xfuel →
  elec_exchange_ops xfuel (A ++ x :: B) (Z.of_nat (length A))
  = Some (length (filter (fun b => b < x) B)
          + length (filter (fun a => x < a) A)).
Proof.
  intros Hs Hx Hfuel. rewrite length_app in Hfuel. simpl in Hfuel.
  apply not_elem_of_app in Hx as [HxA HxB].
  pose proof (strongly_sorted_app_inv _ _ _ Hs) as (HsA & HsB & HAB).
  unfold elec_exchange_ops.
  destruct (Z.eqb_spec (Z.of_nat (length A)) 0) as [H0|H0].
  { destruct A; [|simpl in H0; lia]. cbn [mbind option_bind].
    rewrite (exchange_loop_right B []); [f_equal; simpl; lia|done..|lia]. }
  destruct (Z.eqb_spec (Z.of_nat (length A)) (-1)) as [?|_]; [lia|].
  destruct (Z.eqb_spec (Z.of_nat (length A))
              (Z.of_nat (length (A ++ x :: B)) - 1)) as [Hl|Hl].
  { assert (B = []) as ->.
    { rewrite length_app in Hl. simpl in Hl. destruct B; [done|simpl in Hl; lia]. }
    cbn [orb mbind option_bind].
    rewrite exchange_loop_left; [f_equal; simpl; lia|done..|lia]. }
  destruct B as [|b B].
  { exfalso. apply Hl. rewrite length_app. simpl. lia. }
  cbn [orb]. rewrite getitem_middle. cbn [mbind option_bind].
  replace (Z.of_nat (length A) + 1)%Z with (Z.of_nat (length (A ++ [x])))
    by (rewrite length_app; simpl; lia).
  rewrite (cons_middle x A (b :: B)), app_assoc, getitem_middle.
  rewrite <- app_assoc. cbn [app mbind option_bind].
  apply not_elem_of_cons in HxB as [Hxb HxB'].
  inversion HsB as [|?? _ HbB]; subst.
  destruct (Nat.ltb_spec b x) as [Hbx|Hbx].
  - assert (Forall (fun a => a < x) A) as HAx.
    { apply Forall_forall. intros a Ha.
      assert (a < b) by (apply HAB; [done|by left]). lia. }
    rewrite exchange_loop_right;
      [|done|done|apply not_elem_of_cons; by split|simpl in *; lia].
    rewrite (filter_all_false (fun a => x < a) A); [f_equal; simpl; lia|].
    eapply Forall_impl; [exact HAx|]. intros; simpl in *; lia.
  - assert (Forall (fun c => x < c) (b :: B)) as HBx.
    { constructor; [lia|]. eapply Forall_impl; [exact HbB|].
      intros; simpl in *; lia. }
    rewrite exchange_loop_left; [|done..|simpl in *; lia].
    rewrite (filter_all_false (fun c => c < x) (b :: B)); [f_equal; simpl; lia|].
    eapply Forall_impl; [exact HBx|]. intros; simpl in *; lia.
Qed.

(** ** Randomised computations: postconditions and expectations *)

Section RandFacts.
Context {A B : Type}.

Lemma post_mono (t : rand A) (P Q : A → Prop) :
  (∀ a, P a → Q a) → Rand.post t P → Rand.post t Q.
Proof.
  intros HPQ. induction t as [a| |p k IH|n k IH]; simpl; [auto|done| |].
  - intros [Ht Hf]. split; intros Hp; apply IH; auto.
  - intros Hk r Hr. apply IH; auto.
Qed.

Lemma post_bind (t : rand A) (f : A → rand B) (Q : B → Prop) :
  Rand.post t (fun a => Rand.post (f a) Q) → Rand.post (Rand.bind t f) Q.
Proof.
  induction t as [a| |p k IH|n k IH]; simpl; [done..| |].
  - intros [Ht Hf]. split; intros Hp; apply IH; auto.
  - intros Hk r Hr. apply IH; auto.
Qed.

Lemma post_lift (o : option A) (Q : A → Prop) :
  (∀ a, o = Some a → Q a) → Rand.post (Rand.lift o) Q.
Proof. destruct o; simpl; auto. Qed.

Lemma Qltb_lt x y : Rand.Qltb x y = true ↔ (x < y)%Q.
Proof.
  unfold Rand.Qltb. rewrite negb_true_iff.
  destruct (Qle_bool y x) eqn:E.
  - apply Qle_bool_iff in E. split; [done|]. intros Hlt. lra.
  - split; [|done]. intros _. apply Qnot_le_lt. intros Hle.
    apply Qle_bool_iff in Hle. congruence.
Qed.

Lemma Qltb_ge x y : Rand.Qltb x y = false ↔ (y <= x)%Q.
Proof.
  unfold Rand.Qltb. rewrite negb_false_iff. apply Qle_bool_iff.
Qed.

(** A value returned on some stream of draws satisfies every
    postcondition. *)
Lemma post_run (t : rand A) (Q : A → Prop) : ∀ tape a tape',
  Rand.run t tape = Some (a, tape') → Rand.post t Q → Q a.
Proof.
  induction t as [a| |p k IH|n k IH]; simpl; intros tape a' tape' Hrun Hpost.
  - by injection Hrun as <- _.
  - done.
  - destruct tape as [|[u|r] tape]; try done.
    destruct (Qle_bool 0 u && Rand.Qltb u 1) eqn:Hu; [|done].
    apply andb_true_iff in Hu as [Hu0 Hu1].
    apply Qle_bool_iff in Hu0. apply Qltb_lt in Hu1.
    destruct Hpost as [Ht Hf].
    destruct (Rand.Qltb u p) eqn:Hup.
    + apply Qltb_lt in Hup. eapply IH; [exact Hrun|]. apply Ht. lra.
    + apply Qltb_ge in Hup. eapply IH; [exact Hrun|]. apply Hf. lra.
  - destruct tape as [|[u|r] tape]; try done.
    destruct (Nat.ltb_spec r n); [|done].
    eapply IH; [exact Hrun|]. by apply Hpost.
Qed.

Lemma expect_ext (t : rand A) (g g' : A → Q) :
  (∀ a, (g a == g' a)%Q) → (Rand.expect t g == Rand.expect t g')%Q.
Proof.
  intros Hg. induction t as [a| |p k IH|n k IH]; simpl; [done|reflexivity| |].
  - by rewrite !IH.
  - rewrite (Qsum_map_ext (fun r => Rand.expect (k r) g)
                          (fun r => Rand.expect (k r) g')); [reflexivity|].
    intros r _. apply IH.
Qed.

Lemma expect_scale (t : rand A) (c : Q) (g : A → Q) :
  (Rand.expect t (fun a => c * g a) == c * Rand.expect t g)%Q.
Proof.
  induction t as [a| |p k IH|n k IH]; simpl; [reflexivity|ring| |].
  - rewrite !IH. ring.
  - rewrite (Qsum_map_ext _ (fun r => c * Rand.expect (k r) g)%Q)
      by (intros r _; apply IH).
    rewrite Qsum_map_scale. unfold Qdiv. ring.
Qed.

Lemma expect_plus (t : rand A) (g h : A → Q) :
  (Rand.expect t (fun a => g a + h a)
   == Rand.expect t g + Rand.expect t h)%Q.
Proof.
  induction t as [a| |p k IH|n k IH]; simpl; [reflexivity|ring| |].
  - rewrite !IH. ring.
  - rewrite (Qsum_map_ext _ (fun r => Rand.expect (k r) g + Rand.expect (k r) h)%Q)
      by (intros r _; apply IH).
    rewrite Qsum_map_plus. unfold Qdiv. ring.
Qed.

Lemma expect_bind (t : rand A) (f : A → rand B) (g : B → Q) :
  Rand.expect (Rand.bind t f) g
  = Rand.expect t (fun a => Rand.expect (f a) g).
Proof.
  induction t as [a| |p k IH|n k IH]; simpl; [done..| |].
  - by rewrite !IH.
  - f_equal. f_equal. apply map_ext. intros r. apply IH.
Qed.
End RandFacts.

Lemma post_while {S} (Inv : S → Prop) (cond : S → bool) (body : S → rand S) :
  (∀ s, Inv s → cond s = true → Rand.post (body s) Inv) →
  ∀ fuel s, Inv s →
    Rand.post (Rand.while fuel cond body s) (fun s' => Inv s' ∧ cond s' = false).
Proof.
  intros Hbody. induction fuel as [|fuel IH]; intros s Hs; simpl.
  - destruct (cond s) eqn:E; simpl; auto.
  - destruct (cond s) eqn:E; simpl; [|auto].
    apply post_bind. eapply post_mono; [|by apply Hbody]. apply IH.
Qed.

(** A resampling loop: draw, and draw again while the draw is rejected.
    Every accepted value gets the weight of one round times [geom]. *)
Lemma expect_resample {S} (draw : rand S) (rej : S → bool) (h : S → Q) fuel :
  (Rand.expect (Rand.bind draw (Rand.while fuel rej (fun _ => draw))) h
   == geom (Rand.prob draw rej) fuel
      * Rand.expect draw (fun s => if rej s then 0 else h s))%Q.
Proof.
  induction fuel as [|fuel IH].
  - rewrite expect_bind. simpl. rewrite Qmult_1_l.
    apply expect_ext. intros s. by destruct (rej s).
  - rewrite expect_bind.
    rewrite (expect_ext _ _
      (fun s => Rand.indicator rej s
                * Rand.expect (Rand.bind draw (Rand.while fuel rej (fun _ => draw))) h
                + (if rej s then 0 else h s))%Q).
    2:{ intros s. simpl. unfold Rand.indicator. destruct (rej s); simpl; ring. }
    rewrite expect_plus.
    rewrite (expect_ext _ _
      (fun s => Rand.expect (Rand.bind draw (Rand.while fuel rej (fun _ => draw))) h
                * Rand.indicator rej s)%Q) by (intros s; ring).
    rewrite expect_scale, IH. unfold Rand.prob. simpl. ring.
Qed.

Lemma post_bind_random_lt {B} p (K : bool → rand B) (Q : B → Prop) :
  (∀ b, Rand.post (K b) Q) → Rand.post (Rand.bind (Rand.random_lt p) K) Q.
Proof. intros HK. simpl. split; intros _; apply HK. Qed.

Lemma post_bind_randint {B} n (K : nat → rand B) (Q : B → Prop) :
  (∀ r, r < n → Rand.post (K r) Q) → Rand.post (Rand.bind (Rand.randint n) K) Q.
Proof. intros HK. simpl. intros r Hr. by apply HK. Qed.

Lemma post_bind_lift {A B} (o : option A) (K : A → rand B) (Q : B → Prop) :
  (∀ a, o = Some a → Rand.post (K a) Q) → Rand.post (Rand.bind (Rand.lift o) K) Q.
Proof. intros HK. destruct o; simpl; auto. Qed.

Lemma post_bind_while {S B} (Inv : S → Prop) fuel cond body s
    (K : S → rand B) (Q : B → Prop) :
  Inv s →
  (∀ s, Inv s → cond s = true → Rand.post (body s) Inv) →
  (∀ s', Inv s' → cond s' = false → Rand.post (K s') Q) →
  Rand.post (Rand.bind (Rand.while fuel cond body s) K) Q.
Proof.
  intros Hs Hbody HK. apply post_bind.
  eapply post_mono; [|by apply post_while].
  intros s' [? ?]. by apply HK.
Qed.

(** ** Replacing one label by a fresh one *)

Lemma NoDup_middle_fresh (l1 l2 : list nat) x y :
  NoDup (l1 ++ x :: l2) → y ∉ l1 ++ x :: l2 → NoDup (l1 ++ y :: l2).
Proof.
  rewrite !NoDup_app, !NoDup_cons, !not_elem_of_app, !not_elem_of_cons.
  intros (H1 & H12 & Hx & H2) (Hy1 & Hyx & Hy2).
  split; [done|]. split; [|done].
  intros z Hz. rewrite not_elem_of_cons. split.
  - by intros ->.
  - specialize (H12 z Hz). by apply not_elem_of_cons in H12 as [_ ?].
Qed.

Lemma NoDup_insert_fresh (l : list nat) i y :
  NoDup l → y ∉ l → NoDup (<[i := y]> l).
Proof.
  intros Hnd Hy. destruct (l !! i) as [x|] eqn:Hi.
  - apply lookup_split in Hi as (l1 & l2 & -> & <-).
    rewrite insert_middle. by eapply NoDup_middle_fresh.
  - rewrite list_insert_ge; [done|]. by apply lookup_ge_None.
Qed.

Lemma replaced_invariants (l : list nat) i y :
  NoDup l → y ∉ l →
  StronglySorted lt (Py.sorted (<[i := y]> l)) ∧
  length (Py.sorted (<[i := y]> l)) = length l.
Proof.
  intros Hnd Hy. split.
  - by apply sorted_lt, NoDup_insert_fresh.
  - by rewrite sorted_length, length_insert.
Qed.

Lemma strongly_sorted_lt_NoDup l : StronglySorted lt l → NoDup l.
Proof. intros Hs. by apply det_wf_strongly_sorted in Hs as [_ ?]. Qed.

(** ** Invariants of the excited determinant *)

Section ExcitGenInvariants.
Variable H : HAM.
Variables fuel xfuel : nat.

Lemma excit_gen_post det :
  NoDup det → Rand.post (excit_gen H fuel xfuel det) (det_invariants det).
Proof.
  intros Hnd. unfold excit_gen.
  apply post_bind_random_lt. intros single.
  apply post_bind_randint. intros ind Hind.
  apply post_bind_lift. intros orb_from _.
  apply post_bind_randint. intros orb_to0 _.
  apply (post_bind_while (fun _ => True)); [done|intros; by simpl|].
  intros orb_to _ Hto. apply contains_not_elem_of in Hto.
  apply post_bind_lift. intros ed Hed.
  rewrite setitem_nat in Hed by done. injection Hed as <-.
  apply post_bind_lift. intros perm _.
  destruct (replaced_invariants det ind orb_to Hnd Hto) as [Hs1 Hl1].
  destruct single.
  - apply post_bind_lift. intros prob _. simpl.
    split; [|split]; simpl.
    + by apply StronglySorted_Sorted, strongly_sorted_lt_le.
    + done.
    + by apply strongly_sorted_lt_NoDup.
  - set (exc1 := Py.sorted (<[ind := orb_to]> det)) in *.
    apply post_bind.
    apply (post_mono _ (fun '(ind2, _, _) => ind2 < length exc1)).
    2:{ unfold draw_second. apply post_bind_randint. intros ind2 Hind2.
        apply post_bind_lift. intros f2 _.
        apply post_bind_randint. intros t2 _. by simpl. }
    intros [[ind0 f0] t0] Hind0.
    apply (post_bind_while (fun '(ind2, _, _) => ind2 < length exc1));
      [done| |].
    { intros s _ _. unfold draw_second.
      apply post_bind_randint. intros ind2 Hind2.
      apply post_bind_lift. intros f2 _.
      apply post_bind_randint. intros t2 _. by simpl. }
    intros [[ind2 f2] t2] Hind2 Hcond.
    apply orb_false_iff in Hcond as [Hcond _].
    apply orb_false_iff in Hcond as [Hcond _].
    apply contains_not_elem_of in Hcond.
    apply post_bind_lift. intros ed2 Hed2.
    rewrite setitem_nat in Hed2 by done. injection Hed2 as <-.
    apply post_bind_lift. intros perm2 _.
    apply post_bind_lift. intros prob _. simpl.
    destruct (replaced_invariants exc1 ind2 t2) as [Hs2 Hl2];
      [by apply strongly_sorted_lt_NoDup|done|].
    split; [|split]; simpl.
    + by apply StronglySorted_Sorted, strongly_sorted_lt_le.
    + congruence.
    + by apply strongly_sorted_lt_NoDup.
Qed.

(** C8. Whatever the random draws, the determinant that [excit_gen]
    returns for an ascending duplicate-free determinant is ascending, has
    the length of the input and holds no label twice. *)
Theorem excit_gen_det_invariants det tape e tape' :
  det_wf det →
  Rand.run (excit_gen H fuel xfuel det) tape = Some (e, tape') →
  Sorted le (ex_det e) ∧ length (ex_det e) = length det ∧ NoDup (ex_det e).
Proof.
  intros [_ Hnd] Hrun.
  exact (post_run _ (det_invariants det) _ _ _ Hrun (excit_gen_post det Hnd)).
Qed.
End ExcitGenInvariants.

Lemma excit_gen_det_invariants_witness :
  det_wf [0; 2] ∧
  Rand.run (excit_gen ham_example 5 5 [0; 2])
    [Rand.Float (1 # 2); Rand.Int 1; Rand.Int 0; Rand.Int 2; Rand.Int 3;
     Rand.Int 0; Rand.Int 0; Rand.Int 0; Rand.Int 1]
  = Some ({| ex_det := [1; 3]; ex_mat := ([2; 0], [3; 1]);
             ex_parity := 1; ex_prob := 9 # 10 |}, []) ∧
  Sorted le [1; 3] ∧ length [1; 3] = 2 ∧ NoDup [1; 3].
Proof.
  assert (Hwf : det_wf [0; 2]) by solve_det_wf.
  assert (Hrun : Rand.run (excit_gen ham_example 5 5 [0; 2])
    [Rand.Float (1 # 2); Rand.Int 1; Rand.Int 0; Rand.Int 2; Rand.Int 3;
     Rand.Int 0; Rand.Int 0; Rand.Int 0; Rand.Int 1]
  = Some ({| ex_det := [1; 3]; ex_mat := ([2; 0], [3; 1]);
             ex_parity := 1; ex_prob := 9 # 10 |}, []))
    by (vm_compute; reflexivity).
  split; [exact Hwf|]. split; [exact Hrun|].
  exact (excit_gen_det_invariants ham_example 5 5 [0; 2] _ _ _ Hwf Hrun).
Defined.

(** ** Dictionaries *)

Lemma dict_get_set_eq d k v : Dict.get (Dict.set d k v) k = Some v.
Proof.
  induction d as [|[k' v'] d IH]; simpl.
  - by rewrite Nat.eqb_refl.
  - destruct (Nat.eqb_spec k' k); simpl.
    + by rewrite Nat.eqb_refl.
    + destruct (Nat.eqb_spec k' k); [done|]. exact IH.
Qed.

Lemma dict_get_set_ne d k k' v :
  k ≠ k' → Dict.get (Dict.set d k v) k' = Dict.get d k'.
Proof.
  intros Hne. induction d as [|[k0 v0] d IH]; simpl.
  - destruct (Nat.eqb_spec k k'); [done|done].
  - destruct (Nat.eqb_spec k0 k) as [->|]; simpl.
    + destruct (Nat.eqb_spec k k'); [done|done].
    + destruct (Nat.eqb_spec k0 k'); [done|exact IH].
Qed.

Lemma dict_get_remove_ne d k k' :
  k ≠ k' → Dict.get (Dict.remove d k) k' = Dict.get d k'.
Proof.
  intros Hne. induction d as [|[k0 v0] d IH]; simpl; [done|].
  destruct (Nat.eqb_spec k0 k) as [->|]; simpl.
  - destruct (Nat.eqb_spec k k'); [done|done].
  - destruct (Nat.eqb_spec k0 k'); [done|exact IH].
Qed.

Lemma dict_get_None d k : Dict.get d k = None ↔ k ∉ Dict.keys d.
Proof.
  unfold Dict.keys. induction d as [|[k0 v0] d IH]; simpl.
  - split; [intros _; apply not_elem_of_nil|done].
  - rewrite not_elem_of_cons. destruct (Nat.eqb_spec k0 k) as [->|Hne].
    + split; [done|]. by intros [? _].
    + rewrite IH. split; [by split|by intros [_ ?]].
Qed.

Lemma dict_get_remove_eq d k :
  NoDup (Dict.keys d) → Dict.get (Dict.remove d k) k = None.
Proof.
  unfold Dict.keys. induction d as [|[k0 v0] d IH]; simpl; [done|].
  intros [Hk0 Hnd]%NoDup_cons.
  destruct (Nat.eqb_spec k0 k) as [->|Hne]; simpl.
  - by apply dict_get_None.
  - destruct (Nat.eqb_spec k0 k); [done|]. by apply IH.
Qed.

Lemma dict_keys_set d k v :
  Dict.keys (Dict.set d k v)
  = if Dict.mem k d then Dict.keys d else Dict.keys d ++ [k].
Proof.
  unfold Dict.keys, Dict.mem. induction d as [|[k0 v0] d IH]; simpl; [done|].
  destruct (Nat.eqb_spec k0 k) as [->|Hne]; simpl; [done|].
  change (list_fmap (nat * Q)%type nat fst ?l) with (l.*1).
  rewrite IH. by destruct (Dict.get d k).
Qed.

Lemma dict_mem_true d k : Dict.mem k d = true ↔ k ∈ Dict.keys d.
Proof.
  unfold Dict.mem. destruct (Dict.get d k) eqn:E.
  - split; [|done]. intros _.
    destruct (decide (k ∈ Dict.keys d)) as [|Hn]; [done|].
    apply dict_get_None in Hn. congruence.
  - split; [done|]. intros Hin. by apply dict_get_None in E.
Qed.

Lemma dict_wf_set d k v : NoDup (Dict.keys d) → NoDup (Dict.keys (Dict.set d k v)).
Proof.
  intros Hnd. rewrite dict_keys_set.
  destruct (Dict.mem k d) eqn:E; [done|].
  apply NoDup_app. split; [done|]. split; [|apply NoDup_singleton].
  intros x Hx Hxk. apply list_elem_of_singleton in Hxk as ->.
  apply dict_mem_true in Hx. congruence.
Qed.

Lemma dict_wf_add d k v : NoDup (Dict.keys d) → NoDup (Dict.keys (Dict.add d k v)).
Proof.
  intros Hnd. unfold Dict.add. destruct (Dict.get d k); by apply dict_wf_set.
Qed.

Lemma dict_get_add_eq d k v :
  Dict.get (Dict.add d k v) k
  = Some (match Dict.get d k with Some old => (old + v)%Q | None => v end).
Proof.
  unfold Dict.add. destruct (Dict.get d k); apply dict_get_set_eq.
Qed.

Lemma dict_get_add_ne d k k' v :
  k ≠ k' → Dict.get (Dict.add d k v) k' = Dict.get d k'.
Proof.
  intros Hne. unfold Dict.add. destruct (Dict.get d k); by apply dict_get_set_ne.
Qed.

(** ** Running a randomised computation *)

Lemma run_bind {A B} (t : rand A) (f : A → rand B) : ∀ tape,
  Rand.run (Rand.bind t f) tape
  = match Rand.run t tape with
    | Some (a, tape') => Rand.run (f a) tape'
    | None => None
    end.
Proof.
  induction t as [a| |p k IH|n k IH]; simpl; intros tape; [done..| |].
  - destruct tape as [|[u|r] tape]; try done.
    destruct (Qle_bool 0 u && Rand.Qltb u 1); [apply IH|done].
  - destruct tape as [|[u|r] tape]; try done.
    destruct (r <? n); [apply IH|done].
Qed.

Lemma run_lift {A} (o : option A) tape :
  Rand.run (Rand.lift o) tape = (fun a => (a, tape)) <$> o.
Proof. by destruct o. Qed.

(** ** The evolution loop: one determinant *)

Lemma round_walker_run p det_amp tape r tape' :
  Rand.run (round_walker p det_amp) tape = Some (r, tape') →
  ∃ chi, div_checked (Qabs det_amp) (det_thresh p) = Some chi ∧
    ((Rand.Qltb chi 1 = false ∧ r = Some det_amp ∧ tape' = tape) ∨
     (Rand.Qltb chi 1 = true ∧
      ∃ u, tape = Rand.Float u :: tape' ∧ (0 <= u)%Q ∧ (u < 1)%Q ∧
           r = if Rand.Qltb u chi then Some (det_thresh p) else None)).
Proof.
  unfold round_walker. rewrite run_bind, run_lift.
  destruct (div_checked (Qabs det_amp) (det_thresh p)) as [chi|]; [|done].
  simpl. intros Hrun. exists chi. split; [done|].
  destruct (Rand.Qltb chi 1).
  - right. split; [done|]. simpl in Hrun.
    destruct tape as [|[u|?] tape]; try done.
    destruct (Qle_bool 0 u && Rand.Qltb u 1) eqn:Hu; [|done].
    apply andb_true_iff in Hu as [Hu0 Hu1].
    apply Qle_bool_iff in Hu0. apply Qltb_lt in Hu1.
    exists u. destruct (Rand.Qltb u chi); simpl in Hrun;
      injection Hrun as <- <-; done.
  - left. simpl in Hrun. by injection Hrun as <- <-.
Qed.

Section EvolutionFacts.
Variable full_h : nat → nat → Q.
Variables ndet fuel : nat.

Local Abbreviation process_det := (process_det full_h ndet fuel).
Local Abbreviation spawn_loop := (spawn_loop full_h ndet fuel).
Local Abbreviation spawn_attempt := (spawn_attempt full_h ndet fuel).
Local Abbreviation spawn_weight_of := (spawn_weight_of full_h ndet).
Local Abbreviation pick_spawn_ind := (pick_spawn_ind ndet fuel).
Local Abbreviation death := (death full_h ndet).
Local Abbreviation accumulate := (accumulate full_h ndet).
Local Abbreviation sweep := (sweep full_h ndet fuel).
Local Abbreviation evolve := (evolve full_h ndet fuel).

Lemma pick_spawn_ind_post det_ind :
  Rand.post (pick_spawn_ind det_ind) (fun t => t < ndet ∧ t ≠ det_ind).
Proof.
  unfold pick_spawn_ind. apply post_bind_randint. intros t0 Ht0.
  eapply post_mono; [|apply (post_while (fun t => t < ndet)); [|done]].
  - intros t [Ht Hne]. split; [done|]. by apply Nat.eqb_neq.
  - intros s _ _. simpl. auto.
Qed.

Lemma spawn_attempt_run p det_ind det_amp nspawn spawned tape spawned' tape' :
  Rand.run (spawn_attempt p det_ind det_amp nspawn spawned) tape
  = Some (spawned', tape') →
  ∃ t w, Rand.run (pick_spawn_ind det_ind) tape = Some (t, tape') ∧
         t < ndet ∧ t ≠ det_ind ∧
         spawn_weight_of p det_ind t det_amp nspawn = Some w ∧
         spawned' = Dict.add spawned t w.
Proof.
  unfold spawn_attempt. rewrite run_bind.
  destruct (Rand.run (pick_spawn_ind det_ind) tape) as [[t tape1]|] eqn:Hpick;
    [|done].
  rewrite run_bind, run_lift.
  destruct (spawn_weight_of p det_ind t det_amp nspawn) as [w|] eqn:Hw; [|done].
  simpl. intros [= <- <-].
  destruct (post_run _ _ _ _ _ Hpick (pick_spawn_ind_post det_ind)).
  by exists t, w.
Qed.

(** The spawning loop adds one weight per attempt to the spawn dictionary. *)
Lemma spawn_loop_run p det_ind det_amp nspawn : ∀ attempts spawned tape spawned' tape',
  Rand.run (spawn_loop attempts p det_ind det_amp nspawn spawned) tape
  = Some (spawned', tape') →
  ∃ tws : list (nat * Q),
    length tws = attempts ∧
    Forall (fun tw => tw.1 < ndet ∧ tw.1 ≠ det_ind ∧
                      spawn_weight_of p det_ind tw.1 det_amp nspawn = Some tw.2)
           tws ∧
    spawned' = foldl (fun d tw => Dict.add d tw.1 tw.2) spawned tws.
Proof.
  induction attempts as [|attempts IH]; intros spawned tape spawned' tape'.
  - simpl. intros [= <- <-]. by exists [].
  - cbn [spawn_loop]. rewrite run_bind.
    destruct (Rand.run (spawn_attempt p det_ind det_amp nspawn spawned) tape)
      as [[sp1 tape1]|] eqn:Hatt; [|done].
    intros Hrest.
    apply spawn_attempt_run in Hatt as (t & w & _ & Ht & Hne & Hw & ->).
    apply IH in Hrest as (tws & Hlen & Hall & ->).
    exists ((t, w) :: tws). split; [simpl; lia|]. split; [|done].
    by constructor.
Qed.

(** The steps of [process_det] on a run that returns. *)
Lemma process_det_run det_ind det_amp s tape s' tape' :
  Rand.run (process_det det_ind det_amp s) tape = Some (s', tape') →
  ∃ stats tape1 rounded,
    accumulate det_ind det_amp (sim_stats s) = Some stats ∧
    Rand.run (round_walker (sim_params s) det_amp) tape = Some (rounded, tape1) ∧
    sim_params s' = sim_params s ∧
    match rounded with
    | None =>
        Dict.del (walkers s) det_ind = Some (walkers s') ∧
        spawned_walkers s' = spawned_walkers s ∧
        sim_stats s' = stats ∧ tape' = tape1
    | Some amp =>
        Rand.run (spawn_loop (nspawn_of amp) (sim_params s) det_ind amp
                    (nspawn_of amp) (spawned_walkers s)) tape1
        = Some (spawned_walkers s', tape') ∧
        death (sim_params s) det_ind amp (walkers s) = Some (walkers s') ∧
        sim_stats s' = count_walker amp stats
    end.
Proof.
  unfold process_det. rewrite run_bind, run_lift.
  destruct (accumulate det_ind det_amp (sim_stats s)) as [stats|]; [|done].
  simpl. rewrite run_bind.
  destruct (Rand.run (round_walker (sim_params s) det_amp) tape)
    as [[rounded tape1]|]; [|done].
  intros Hrun. exists stats, tape1, rounded. split; [done|]. split; [done|].
  destruct rounded as [amp|].
  - rewrite run_bind in Hrun.
    destruct (Rand.run (spawn_loop _ _ _ _ _ _) tape1) as [[sp tape2]|]; [|done].
    rewrite run_bind, run_lift in Hrun.
    destruct (death (sim_params s) det_ind amp (walkers s)) as [w|]; [|done].
    simpl in Hrun. by injection Hrun as <- <-.
  - rewrite run_bind, run_lift in Hrun.
    destruct (Dict.del (walkers s) det_ind) as [w|]; [|done].
    simpl in Hrun. by injection Hrun as <- <-.
Qed.
End EvolutionFacts.

(** ** Uniform choice of the spawning target *)

Lemma expect_randint {A} n (k : nat → rand A) g :
  Rand.expect (RandInt n k) g
  = (Rand.Qsum (map (fun r => Rand.expect (k r) g) (seq 0 n))
     / inject_Z (Z.of_nat n))%Q.
Proof. done. Qed.

Lemma Qsum_seq_single (t : nat) (c : Q) : ∀ n a,
  a <= t < a + n →
  (Rand.Qsum (map (fun s => if s =? t then c else 0) (seq a n)) == c)%Q.
Proof.
  induction n as [|n IH]; intros a Hat; [lia|].
  simpl. destruct (Nat.eqb_spec a t) as [->|Hne].
  - rewrite (Qsum_map_ext _ (fun _ => 0%Q)).
    + rewrite Qsum_map_const. ring.
    + intros s Hs. apply in_seq in Hs.
      destruct (Nat.eqb_spec s t); [lia|reflexivity].
  - rewrite IH by lia. ring.
Qed.

Lemma Qsum_seq_none (t : nat) (c : Q) n a :
  ¬ (a <= t < a + n) →
  (Rand.Qsum (map (fun s => if s =? t then c else 0) (seq a n)) == 0)%Q.
Proof.
  intros Hat. rewrite (Qsum_map_ext _ (fun _ => 0%Q)).
  - rewrite Qsum_map_const. ring.
  - intros s Hs. apply in_seq in Hs.
    destruct (Nat.eqb_spec s t); [lia|reflexivity].
Qed.

Lemma geom_closed rho fuel :
  (geom rho fuel * (1 - rho) == 1 - qpow rho (S fuel))%Q.
Proof.
  induction fuel as [|fuel IH].
  - simpl. ring.
  - change (geom rho (S fuel)) with (1 + rho * geom rho fuel)%Q.
    change (qpow rho (S (S fuel))) with (rho * qpow rho (S fuel))%Q.
    transitivity ((1 - rho) + rho * (geom rho fuel * (1 - rho)))%Q; [ring|].
    rewrite IH. ring.
Qed.

Lemma geom_ext rho rho' fuel :
  (rho == rho')%Q → (geom rho fuel == geom rho' fuel)%Q.
Proof.
  intros Hr. induction fuel as [|fuel IH]; simpl; [reflexivity|].
  by rewrite IH, Hr.
Qed.

Lemma qpow_ext x y n : (x == y)%Q → (qpow x n == qpow y n)%Q.
Proof.
  intros Hr. induction n as [|n IH]; simpl; [reflexivity|].
  by rewrite IH, Hr.
Qed.

Section SpawnTarget.
Variables ndet fuel : nat.

Local Abbreviation pick_spawn_ind := (pick_spawn_ind ndet fuel).

Let N : Q := inject_Z (Z.of_nat ndet).

Lemma prob_randint_eq det_ind :
  det_ind < ndet →
  (Rand.prob (Rand.randint ndet) (fun s => s =? det_ind) == 1 / N)%Q.
Proof.
  intros Hk. unfold Rand.prob, Rand.randint. rewrite expect_randint.
  simpl Rand.expect. unfold Rand.indicator.
  rewrite (Qsum_seq_single det_ind 1) by lia. reflexivity.
Qed.

Lemma prob_pick_target det_ind t :
  det_ind < ndet → t < ndet → t ≠ det_ind →
  (Rand.prob (pick_spawn_ind det_ind) (fun s => s =? t)
   == geom (1 / N) fuel * (1 / N))%Q.
Proof.
  intros Hk Ht Hne. unfold Rand.prob at 1. unfold pick_spawn_ind.
  rewrite (expect_resample (Rand.randint ndet) (fun s => s =? det_ind)).
  rewrite (geom_ext _ (1 / N)) by (by apply prob_randint_eq).
  unfold Rand.randint. rewrite expect_randint. simpl Rand.expect.
  rewrite (Qsum_map_ext _ (fun s => if s =? t then 1 else 0)%Q).
  - rewrite Qsum_seq_single by lia. reflexivity.
  - intros s _. unfold Rand.indicator.
    destruct (Nat.eqb_spec s det_ind), (Nat.eqb_spec s t); try reflexivity.
    congruence.
Qed.
End SpawnTarget.

Lemma clamp01_nonpos p : ¬ (0 < p)%Q → Rand.clamp01 p = 0%Q.
Proof.
  intros Hp. unfold Rand.clamp01.
  destruct (Qle_bool p 0) eqn:E; [done|].
  exfalso. apply Hp. apply Qnot_le_lt. intros Hle.
  apply Qle_bool_iff in Hle. congruence.
Qed.

Lemma clamp01_ge1 p : ¬ (p < 1)%Q → (Rand.clamp01 p == 1)%Q.
Proof.
  intros Hp. unfold Rand.clamp01.
  destruct (Qle_bool p 0) eqn:E.
  - apply Qle_bool_iff in E. exfalso. apply Hp. lra.
  - destruct (Qle_bool 1 p) eqn:E1; [reflexivity|].
    exfalso. apply Hp. apply Qnot_le_lt. intros Hle.
    apply Qle_bool_iff in Hle. congruence.
Qed.

(** An event excluded by a postcondition has probability zero. *)
Lemma expect_post_zero {A} (t : rand A) (Post : A → Prop) (g : A → Q) :
  Rand.post t Post → (∀ a, Post a → (g a == 0)%Q) → (Rand.expect t g == 0)%Q.
Proof.
  intros Hpost Hg. induction t as [a| |p k IH|n k IH]; simpl in *.
  - by apply Hg.
  - reflexivity.
  - destruct Hpost as [Ht Hf].
    destruct (Qlt_le_dec 0 p) as [Hp0|Hp0].
    + rewrite (IH true) by auto.
      destruct (Qlt_le_dec p 1) as [Hp1|Hp1].
      * rewrite (IH false) by auto. ring.
      * rewrite clamp01_ge1 by lra. ring.
    + rewrite clamp01_nonpos by lra.
      destruct (Qlt_le_dec p 1) as [Hp1|Hp1]; [|lra].
      rewrite (IH false) by auto. ring.
  - rewrite (Qsum_map_ext _ (fun _ => 0%Q)).
    + rewrite Qsum_map_const. unfold Qdiv. ring.
    + intros r Hr. apply in_seq in Hr. apply IH. apply Hpost. lia.
Qed.

Lemma foldl_add_weights (w : nat → Q) (P : nat → Prop) :
  ∀ (tws : list (nat * Q)) (d : Dict.t),
  Forall (fun tw => P tw.1 ∧ tw.2 = w tw.1) tws →
  foldl (fun d tw => Dict.add d tw.1 tw.2) d tws
  = foldl (fun d t => Dict.add d t (w t)) d tws.*1.
Proof.
  induction tws as [|[t x] tws IH]; intros d Hall; [done|].
  apply Forall_cons in Hall as [[_ Hx] Hall]. simpl in *. subst x.
  by apply IH.
Qed.

Lemma death_frame full_h ndet p det_ind det_amp w w' :
  death full_h ndet p det_ind det_amp w = Some w' →
  Dict.keys w' = Dict.keys w ∧
  ∀ k, k ≠ det_ind → Dict.get w' k = Dict.get w k.
Proof.
  unfold death. destruct (Dict.get w det_ind) as [old|] eqn:Hold; [|done].
  simpl. destruct (full_h_at full_h ndet det_ind det_ind); [|done].
  simpl. destruct (full_h_at full_h ndet 0 0); [|done].
  simpl. intros [= <-]. split.
  - rewrite dict_keys_set. unfold Dict.mem. by rewrite Hold.
  - intros k Hk. by apply dict_get_set_ne.
Qed.

Lemma spawn_weight_of_value full_h ndet p det_ind t det_amp nspawn :
  2 <= ndet → det_ind < ndet → t < ndet →
  spawn_weight_of full_h ndet p det_ind t det_amp nspawn
  = Some (spawned_weight full_h ndet p det_ind t det_amp nspawn).
Proof.
  intros Hn Hk Ht. unfold spawn_weight_of, p_spawn, div_checked, full_h_at.
  destruct (Qeq_bool (inject_Z (Z.of_nat ndet - 1)) 0) eqn:E.
  { apply Qeq_bool_iff in E. unfold Qeq in E. simpl in E. lia. }
  apply Nat.ltb_lt in Hk, Ht. by rewrite Hk, Ht.
Qed.

(** ** The resampling loops end *)

Lemma qpow_nonneg rho k : (0 <= rho)%Q → (0 <= qpow rho k)%Q.
Proof.
  intros Hr. induction k as [|k IH]; simpl; [lra|].
  by apply Qmult_le_0_compat.
Qed.

Lemma qpow_le_one rho k : (0 <= rho)%Q → (rho <= 1)%Q → (qpow rho k <= 1)%Q.
Proof.
  intros Hr0 Hr1. induction k as [|k IH]; simpl; [lra|].
  pose proof (qpow_nonneg rho k Hr0). nra.
Qed.

Lemma qpow_bernoulli rho k :
  (0 <= rho)%Q → (rho <= 1)%Q →
  (qpow rho k * (1 + inject_Z (Z.of_nat k) * (1 - rho)) <= 1)%Q.
Proof.
  intros Hr0 Hr1. induction k as [|k IH].
  - change (inject_Z (Z.of_nat 0)) with 0%Q. simpl. lra.
  - pose proof (qpow_nonneg rho k Hr0) as Hq.
    assert (0 <= inject_Z (Z.of_nat k))%Q as Hk
      by (change 0%Q with (inject_Z 0); rewrite <- Zle_Qle; lia).
    assert (inject_Z (Z.of_nat (S k)) == inject_Z (Z.of_nat k) + 1)%Q as ->
      by (rewrite Nat2Z.inj_succ, <- Z.add_1_r, inject_Z_plus; reflexivity).
    simpl qpow.
    set (q := qpow rho k) in *. set (K := inject_Z (Z.of_nat k)) in *.
    set (d := (1 - rho)%Q).
    assert (0 <= d)%Q as Hd0 by (unfold d; lra).
    assert (rho == 1 - d)%Q as -> by (unfold d; ring).
    assert (0 <= q * K * (d * d))%Q as H1.
    { apply Qmult_le_0_compat; [by apply Qmult_le_0_compat|].
      by apply Qmult_le_0_compat. }
    assert (0 <= q * (d * d))%Q as H2.
    { apply Qmult_le_0_compat; [done|]. by apply Qmult_le_0_compat. }
    fold d in IH.
    assert ((1 - d) * q * (1 + (K + 1) * d)
            == q * (1 + K * d) - q * K * (d * d) - q * (d * d))%Q as -> by ring.
    lra.
Qed.

Lemma qpow_small rho eps :
  (0 <= rho)%Q → (rho < 1)%Q → (0 < eps)%Q →
  ∃ k0, ∀ k, k0 <= k → (qpow rho k < eps)%Q.
Proof.
  intros Hr0 Hr1 Heps.
  set (c := (eps * (1 - rho))%Q).
  assert (0 < c)%Q as Hc by (apply Qmult_lt_0_compat; lra).
  exists (Pos.to_nat (Qden c)). intros k Hk.
  pose proof (qpow_bernoulli rho k Hr0 ltac:(lra)) as Hb.
  pose proof (qpow_nonneg rho k Hr0) as Hq.
  assert (1 <= inject_Z (Z.of_nat k) * c)%Q as Hkc.
  { apply Qle_trans with (inject_Z (Z.of_nat (Pos.to_nat (Qden c))) * c)%Q.
    - rewrite positive_nat_Z. destruct c as [a b]. unfold Qlt in Hc.
      unfold Qle, Qmult, inject_Z. simpl in *. nia.
    - apply Qmult_le_compat_r; [|lra]. rewrite <- Zle_Qle. lia. }
  set (q := qpow rho k) in *. set (K := inject_Z (Z.of_nat k)) in *.
  destruct (Qlt_le_dec q eps) as [?|Hge]; [done|exfalso].
  assert (0 <= K * (1 - rho))%Q as HKd.
  { apply Qmult_le_0_compat; [|lra].
    unfold K. change 0%Q with (inject_Z 0). rewrite <- Zle_Qle. lia. }
  assert (eps * (1 + K * (1 - rho)) <= q * (1 + K * (1 - rho)))%Q as Hm
    by (apply Qmult_le_compat_r; lra).
  assert (eps * (1 + K * (1 - rho)) == eps + K * c)%Q as E by (unfold c; ring).
  rewrite E in Hm. lra.
Qed.

Lemma loop_ends_tends_to_one rho :
  (0 <= rho)%Q → (rho < 1)%Q → tends_to_one (fun fuel => 1 - qpow rho (S fuel))%Q.
Proof.
  intros Hr0 Hr1 eps Heps.
  destruct (qpow_small rho eps Hr0 Hr1 Heps) as [k0 Hk0].
  exists k0. intros k Hk.
  pose proof (Hk0 (S k) ltac:(lia)).
  pose proof (qpow_nonneg rho (S k) Hr0).
  split; lra.
Qed.

Lemma first_loop_ends_tends_to_one H :
  1 <= nelec H → nelec H < 2 * nbasis H → tends_to_one (first_loop_ends H).
Proof.
  intros Hn HN. apply loop_ends_tends_to_one.
  - apply Qle_shift_div_l.
    + change 0%Q with (inject_Z 0). rewrite <- Zlt_Qlt. lia.
    + rewrite Qmult_0_l. change 0%Q with (inject_Z 0). rewrite <- Zle_Qle. lia.
  - apply Qlt_shift_div_r.
    + change 0%Q with (inject_Z 0). rewrite <- Zlt_Qlt. lia.
    + rewrite Qmult_1_l, <- Zlt_Qlt. lia.
Qed.

Lemma second_loop_ends_tends_to_one H :
  2 <= nelec H → nelec H + 2 <= 2 * nbasis H → tends_to_one (second_loop_ends H).
Proof.
  intros Hn HN. apply loop_ends_tends_to_one.
  - assert (inject_Z (Z.of_nat ((nelec H - 1) * (2 * nbasis H - nelec H - 1)))
            / inject_Z (Z.of_nat (nelec H * (2 * nbasis H))) <= 1)%Q; [|lra].
    apply Qle_shift_div_r.
    + change 0%Q with (inject_Z 0). rewrite <- Zlt_Qlt. nia.
    + rewrite Qmult_1_l, <- Zle_Qle. nia.
  - assert (0 < inject_Z (Z.of_nat ((nelec H - 1) * (2 * nbasis H - nelec H - 1)))
                / inject_Z (Z.of_nat (nelec H * (2 * nbasis H))))%Q; [|lra].
    apply Qlt_shift_div_l.
    + change 0%Q with (inject_Z 0). rewrite <- Zlt_Qlt. nia.
    + rewrite Qmult_0_l. change 0%Q with (inject_Z 0). rewrite <- Zlt_Qlt. nia.
Qed.

(** ** The sweep does not read the spawn dictionary *)

Section Sweep.
Variable full_h : nat → nat → Q.
Variables ndet fuel : nat.

Local Abbreviation process_det := (process_det full_h ndet fuel).
Local Abbreviation spawn_loop := (spawn_loop full_h ndet fuel).
Local Abbreviation spawn_attempt := (spawn_attempt full_h ndet fuel).
Local Abbreviation sweep := (sweep full_h ndet fuel).
Local Abbreviation evolve := (evolve full_h ndet fuel).

Lemma spawn_attempt_run_eq p det_ind det_amp nspawn spawned tape :
  Rand.run (spawn_attempt p det_ind det_amp nspawn spawned) tape
  = match Rand.run (pick_spawn_ind ndet fuel det_ind) tape with
    | Some (t, tape1) =>
        match spawn_weight_of full_h ndet p det_ind t det_amp nspawn with
        | Some w => Some (Dict.add spawned t w, tape1)
        | None => None
        end
    | None => None
    end.
Proof.
  unfold spawn_attempt. rewrite run_bind.
  destruct (Rand.run (pick_spawn_ind ndet fuel det_ind) tape) as [[t tape1]|];
    [|done].
  rewrite run_bind, run_lift.
  by destruct (spawn_weight_of full_h ndet p det_ind t det_amp nspawn).
Qed.

Lemma spawn_loop_tape p det_ind det_amp nspawn : ∀ attempts sp1 sp2 tape,
  snd <$> Rand.run (spawn_loop attempts p det_ind det_amp nspawn sp1) tape
  = snd <$> Rand.run (spawn_loop attempts p det_ind det_amp nspawn sp2) tape.
Proof.
  induction attempts as [|attempts IH]; intros sp1 sp2 tape; [done|].
  cbn [spawn_loop]. rewrite !run_bind, !spawn_attempt_run_eq.
  destruct (Rand.run (pick_spawn_ind ndet fuel det_ind) tape) as [[t tape1]|];
    [|done].
  destruct (spawn_weight_of full_h ndet p det_ind t det_amp nspawn); [|done].
  apply IH.
Qed.

Lemma process_det_spawned_irrelevant det_ind det_amp s sp1 sp2 tape :
  sweep_view (Rand.run (process_det det_ind det_amp (with_spawned sp1 s)) tape)
  = sweep_view (Rand.run (process_det det_ind det_amp (with_spawned sp2 s)) tape).
Proof.
  unfold process_det. rewrite !run_bind, !run_lift. simpl.
  destruct (accumulate full_h ndet det_ind det_amp (sim_stats s)) as [stats|];
    [|done].
  simpl. rewrite !run_bind.
  destruct (Rand.run (round_walker (sim_params s) det_amp) tape)
    as [[[amp|] tape1]|]; [| |done].
  - rewrite !run_bind.
    pose proof (spawn_loop_tape (sim_params s) det_ind amp (nspawn_of amp)
                  (nspawn_of amp) sp1 sp2 tape1) as Htape.
    destruct (Rand.run (spawn_loop _ _ _ _ _ sp1) tape1) as [[sp1' t1]|],
             (Rand.run (spawn_loop _ _ _ _ _ sp2) tape1) as [[sp2' t2]|];
      try done.
    simpl in Htape. injection Htape as ->.
    rewrite !run_bind, !run_lift.
    by destruct (death full_h ndet (sim_params s) det_ind amp (walkers s)).
  - rewrite !run_bind, !run_lift.
    by destruct (Dict.del (walkers s) det_ind).
Qed.

Lemma with_spawned_self s : with_spawned (spawned_walkers s) s = s.
Proof. by destruct s. Qed.

Lemma sweep_spawned_irrelevant : ∀ snapshot s sp1 sp2 tape,
  sweep_view (Rand.run (sweep snapshot (with_spawned sp1 s)) tape)
  = sweep_view (Rand.run (sweep snapshot (with_spawned sp2 s)) tape).
Proof.
  induction snapshot as [|[det_ind det_amp] rest IH]; intros s sp1 sp2 tape;
    [done|].
  cbn [sweep]. rewrite !run_bind.
  pose proof (process_det_spawned_irrelevant det_ind det_amp s sp1 sp2 tape)
    as Hview.
  destruct (Rand.run (process_det det_ind det_amp (with_spawned sp1 s)) tape)
    as [[s1 t1]|],
    (Rand.run (process_det det_ind det_amp (with_spawned sp2 s)) tape)
    as [[s2 t2]|]; try done.
  simpl in Hview. injection Hview as Hw Hst Hp ->.
  rewrite <- (with_spawned_self s1).
  replace s2 with (with_spawned (spawned_walkers s2) s1).
  - apply IH.
  - destruct s1, s2. simpl in *. by subst.
Qed.

(** During the sweep no key enters the main dictionary. *)
Lemma process_det_no_new_key det_ind det_amp s tape s' tape' k :
  Rand.run (process_det det_ind det_amp s) tape = Some (s', tape') →
  Dict.get (walkers s) k = None → Dict.get (walkers s') k = None.
Proof.
  intros Hrun Hk.
  apply process_det_run in Hrun as (stats & tape1 & [amp|] & _ & _ & _ & Hrest).
  - destruct Hrest as (_ & Hdeath & _).
    destruct (decide (k = det_ind)) as [->|Hne].
    + unfold death in Hdeath. by rewrite Hk in Hdeath.
    + apply death_frame in Hdeath as [_ Hget]. rewrite Hget; done.
  - destruct Hrest as (Hdel & _). unfold Dict.del in Hdel.
    destruct (Dict.mem det_ind (walkers s)) eqn:Hmem; [|done].
    injection Hdel as <-.
    destruct (decide (k = det_ind)) as [->|Hne].
    + unfold Dict.mem in Hmem. by rewrite Hk in Hmem.
    + by rewrite dict_get_remove_ne.
Qed.

Lemma sweep_no_new_key k : ∀ snapshot s tape s' tape',
  Rand.run (sweep snapshot s) tape = Some (s', tape') →
  Dict.get (walkers s) k = None → Dict.get (walkers s') k = None.
Proof.
  induction snapshot as [|[det_ind det_amp] rest IH]; intros s tape s' tape'.
  - simpl. by intros [= <- <-].
  - cbn [sweep]. rewrite run_bind.
    destruct (Rand.run (process_det det_ind det_amp s) tape) as [[s1 t1]|] eqn:E;
      [|done].
    intros Hrest Hk. eapply IH; [exact Hrest|].
    by eapply process_det_no_new_key.
Qed.
End Sweep.

(** ** Annihilation *)

Lemma foldl_add_get k : ∀ (sp : Dict.t) (w : Dict.t),
  NoDup (Dict.keys sp) →
  Dict.get (foldl (fun w '(spawn_ind, spawn_weight) =>
                     Dict.add w spawn_ind spawn_weight) w sp) k
  = match Dict.get sp k with
    | Some v => Some (match Dict.get w k with
                      | Some old => (old + v)%Q
                      | None => v
                      end)
    | None => Dict.get w k
    end.
Proof.
  unfold Dict.keys. induction sp as [|[k0 v0] sp IH]; intros w Hnd; [done|].
  simpl in Hnd. apply NoDup_cons in Hnd as [Hk0 Hnd].
  cbn [foldl Dict.get]. rewrite IH by done.
  destruct (Nat.eqb_spec k0 k) as [->|Hne].
  - apply dict_get_None in Hk0. rewrite Hk0. apply dict_get_add_eq.
  - by rewrite dict_get_add_ne.
Qed.

Lemma foldl_add_wf {X} (f : X → nat * Q) : ∀ (xs : list X) (d : Dict.t),
  NoDup (Dict.keys d) →
  NoDup (Dict.keys (foldl (fun d x => Dict.add d (f x).1 (f x).2) d xs)).
Proof.
  induction xs as [|x xs IH]; intros d Hd; [done|].
  simpl. apply IH. by apply dict_wf_add.
Qed.

Lemma dict_keys_remove_sub d k x :
  x ∈ Dict.keys (Dict.remove d k) → x ∈ Dict.keys d.
Proof.
  unfold Dict.keys. induction d as [|[k0 v0] d IH]; simpl; [done|].
  destruct (Nat.eqb_spec k0 k) as [->|Hne]; simpl.
  - intros Hx. by right.
  - intros [->|Hx]%elem_of_cons; [by left|]. right. by apply IH.
Qed.

Lemma dict_wf_remove d k : NoDup (Dict.keys d) → NoDup (Dict.keys (Dict.remove d k)).
Proof.
  unfold Dict.keys. induction d as [|[k0 v0] d IH]; simpl; [done|].
  intros [Hk0 Hnd]%NoDup_cons.
  destruct (Nat.eqb_spec k0 k) as [->|Hne]; simpl; [done|].
  apply NoDup_cons. split; [|by apply IH].
  intros Hin. apply Hk0. by eapply dict_keys_remove_sub.
Qed.

Section Iteration.
Variable full_h : nat → nat → Q.
Variables ndet fuel : nat.

Local Abbreviation process_det := (process_det full_h ndet fuel).
Local Abbreviation sweep := (sweep full_h ndet fuel).
Local Abbreviation evolve := (evolve full_h ndet fuel).

Lemma process_det_spawned_wf det_ind det_amp s tape s' tape' :
  Rand.run (process_det det_ind det_amp s) tape = Some (s', tape') →
  NoDup (Dict.keys (spawned_walkers s)) → NoDup (Dict.keys (spawned_walkers s')).
Proof.
  intros Hrun Hwf.
  apply process_det_run in Hrun as (stats & tape1 & [amp|] & _ & _ & _ & Hrest).
  - destruct Hrest as (Hspawn & _).
    apply spawn_loop_run in Hspawn as (tws & _ & _ & ->).
    by apply (foldl_add_wf (fun tw => tw)).
  - destruct Hrest as (_ & -> & _). done.
Qed.

Lemma sweep_spawned_wf : ∀ snapshot s tape s' tape',
  Rand.run (sweep snapshot s) tape = Some (s', tape') →
  NoDup (Dict.keys (spawned_walkers s)) → NoDup (Dict.keys (spawned_walkers s')).
Proof.
  induction snapshot as [|[det_ind det_amp] rest IH]; intros s tape s' tape'.
  - simpl. by intros [= <- <-].
  - cbn [sweep]. rewrite run_bind.
    destruct (Rand.run (process_det det_ind det_amp s) tape) as [[s1 t1]|] eqn:E;
      [|done].
    intros Hrest Hwf. eapply IH; [exact Hrest|].
    by eapply process_det_spawned_wf.
Qed.

Lemma evolve_run it s tape s'' tape'' :
  Rand.run (evolve it s) tape = Some (s'', tape'') →
  ∃ s', Rand.run (sweep (Dict.items (walkers s)) (begin_iter it s)) tape
        = Some (s', tape'') ∧ s'' = annihilate s'.
Proof.
  unfold evolve. rewrite run_bind. simpl.
  destruct (Rand.run (sweep _ _) tape) as [[s' t']|]; [|done].
  simpl. intros [= <- <-]. by exists s'.
Qed.

(** The walker dictionary at the end of an iteration: the dictionary left
    by the sweep, with the entries of the spawn dictionary merged in. *)
Lemma evolve_merged it s tape s'' tape'' :
  Rand.run (evolve it s) tape = Some (s'', tape'') →
  ∃ s',
    Rand.run (sweep (Dict.items (walkers s)) (begin_iter it s)) tape
    = Some (s', tape'') ∧
    s'' = annihilate s' ∧
    (∀ k, Dict.get (walkers s'') k
          = match Dict.get (spawned_walkers s') k with
            | Some v => Some (match Dict.get (walkers s') k with
                              | Some old => (old + v)%Q
                              | None => v
                              end)
            | None => Dict.get (walkers s') k
            end).
Proof.
  intros Hrun. apply evolve_run in Hrun as (s' & Hsweep & ->).
  exists s'. split; [done|]. split; [done|].
  intros k. unfold annihilate, Dict.items. simpl.
  apply foldl_add_get.
  eapply sweep_spawned_wf; [exact Hsweep|]. simpl. apply NoDup_nil_2.
Qed.
End Iteration.

(** ** Stochastic rounding *)

Lemma div_checked_Some x y q :
  div_checked x y = Some q → ¬ (y == 0)%Q ∧ q = (x / y)%Q.
Proof.
  unfold div_checked. destruct (Qeq_bool y 0) eqn:E; [done|].
  intros [= <-]. split; [|done]. intros Hy.
  apply Qeq_bool_iff in Hy. congruence.
Qed.

Lemma round_walker_zero p det_amp tape r tape' :
  (0 < det_thresh p)%Q → (det_amp == 0)%Q →
  Rand.run (round_walker p det_amp) tape = Some (r, tape') → r = None.
Proof.
  intros Hth Hz Hrun.
  apply round_walker_run in Hrun as (chi & Hchi & Hcases).
  apply div_checked_Some in Hchi as [_ ->].
  assert (Qabs det_amp / det_thresh p == 0)%Q as Hchi0.
  { assert (Qabs det_amp == 0)%Q as -> by (by rewrite Hz).
    unfold Qdiv. ring. }
  destruct Hcases as [(Hge & _)|(_ & u & _ & Hu0 & _ & ->)].
  - apply Qltb_ge in Hge. lra.
  - destruct (Rand.Qltb u _) eqn:E; [|done].
    apply Qltb_lt in E. lra.
Qed.

(** A weight whose magnitude is at least the threshold is not rounded and
    consumes no draw. *)
Lemma round_walker_at_threshold p det_amp tape r tape' :
  (0 < det_thresh p)%Q → (det_thresh p <= Qabs det_amp)%Q →
  Rand.run (round_walker p det_amp) tape = Some (r, tape') →
  r = Some det_amp ∧ tape' = tape.
Proof.
  intros Hth Hge Hrun.
  apply round_walker_run in Hrun as (chi & Hchi & Hcases).
  apply div_checked_Some in Hchi as [_ ->].
  destruct Hcases as [(_ & -> & ->)|(Hlt & _)]; [done|].
  apply Qltb_lt in Hlt. exfalso.
  apply (Qmult_lt_r _ _ (det_thresh p) Hth) in Hlt.
  assert (Qabs det_amp / det_thresh p * det_thresh p == Qabs det_amp)%Q as E
    by (field; lra).
  rewrite E in Hlt. lra.
Qed.

(** Below the threshold the walker is kept exactly when the draw is below
    [|w|/det_thresh]; the amplitude that goes on is [det_thresh]. *)
Lemma round_walker_below_threshold p det_amp tape r tape' :
  (0 < det_thresh p)%Q → (Qabs det_amp < det_thresh p)%Q →
  Rand.run (round_walker p det_amp) tape = Some (r, tape') →
  ∃ u, tape = Rand.Float u :: tape' ∧
       ((u < Qabs det_amp / det_thresh p)%Q ∧ r = Some (det_thresh p) ∨
        (Qabs det_amp / det_thresh p <= u)%Q ∧ r = None).
Proof.
  intros Hth Hlt Hrun.
  apply round_walker_run in Hrun as (chi & Hchi & Hcases).
  apply div_checked_Some in Hchi as [_ ->].
  destruct Hcases as [(Hge & _)|(_ & u & -> & _ & _ & ->)].
  - apply Qltb_ge in Hge. exfalso.
    assert (Qabs det_amp / det_thresh p < 1)%Q; [|lra].
    apply Qlt_shift_div_r; [done|lra].
  - exists u. split; [done|].
    destruct (Rand.Qltb u _) eqn:E.
    + left. by apply Qltb_lt in E.
    + right. by apply Qltb_ge in E.
Qed.

(** ** Zero weights and the rounding step *)

Lemma dict_get_elem_of (d : Dict.t) k v : Dict.get d k = Some v → (k, v) ∈ d.
Proof.
  induction d as [|[k0 v0] d IH]; simpl; [done|].
  destruct (Nat.eqb_spec k0 k) as [->|Hne].
  - intros [= ->]. by left.
  - intros Hget. right. by apply IH.
Qed.

Section ZeroWeights.
Variable full_h : nat → nat → Q.
Variables ndet fuel : nat.

Local Abbreviation process_det := (process_det full_h ndet fuel).
Local Abbreviation sweep := (sweep full_h ndet fuel).
Local Abbreviation evolve := (evolve full_h ndet fuel).

Lemma process_det_frame det_ind det_amp s tape s' tape' :
  Rand.run (process_det det_ind det_amp s) tape = Some (s', tape') →
  sim_params s' = sim_params s ∧
  (NoDup (Dict.keys (walkers s)) → NoDup (Dict.keys (walkers s'))) ∧
  ∀ k, k ≠ det_ind → Dict.get (walkers s') k = Dict.get (walkers s) k.
Proof.
  intros Hrun.
  apply process_det_run in Hrun as (stats & tape1 & [amp|] & _ & _ & Hp & Hrest).
  - destruct Hrest as (_ & Hdeath & _).
    apply death_frame in Hdeath as [Hkeys Hget].
    split; [done|]. split; [by rewrite Hkeys|done].
  - destruct Hrest as (Hdel & _). unfold Dict.del in Hdel.
    destruct (Dict.mem det_ind (walkers s)); [|done]. injection Hdel as <-.
    split; [done|]. split; [apply dict_wf_remove|].
    intros k Hk. by apply dict_get_remove_ne.
Qed.

Lemma process_det_zero det_ind det_amp s tape s' tape' :
  (0 < det_thresh (sim_params s))%Q → (det_amp == 0)%Q →
  NoDup (Dict.keys (walkers s)) →
  Rand.run (process_det det_ind det_amp s) tape = Some (s', tape') →
  Dict.get (walkers s') det_ind = None.
Proof.
  intros Hth Hz Hwf Hrun.
  apply process_det_run in Hrun
    as (stats & tape1 & rounded & _ & Hround & _ & Hrest).
  apply round_walker_zero in Hround as ->; [|done..].
  destruct Hrest as (Hdel & _). unfold Dict.del in Hdel.
  destruct (Dict.mem det_ind (walkers s)); [|done]. injection Hdel as <-.
  by apply dict_get_remove_eq.
Qed.

Lemma sweep_frame : ∀ snapshot s tape s' tape',
  Rand.run (sweep snapshot s) tape = Some (s', tape') →
  sim_params s' = sim_params s ∧
  (NoDup (Dict.keys (walkers s)) → NoDup (Dict.keys (walkers s'))) ∧
  ∀ k, k ∉ snapshot.*1 → Dict.get (walkers s') k = Dict.get (walkers s) k.
Proof.
  induction snapshot as [|[det_ind det_amp] rest IH]; intros s tape s' tape'.
  - simpl. by intros [= <- <-].
  - cbn [sweep]. rewrite run_bind.
    destruct (Rand.run (process_det det_ind det_amp s) tape) as [[s1 t1]|] eqn:E;
      [|done].
    intros Hrest.
    apply process_det_frame in E as (Hp1 & Hwf1 & Hget1).
    apply IH in Hrest as (Hp & Hwf & Hget).
    split; [congruence|]. split; [auto|].
    intros k Hk. simpl in Hk. apply not_elem_of_cons in Hk as [Hne Hk].
    rewrite Hget by done. by apply Hget1.
Qed.

Lemma sweep_zero : ∀ snapshot s tape s' tape',
  (0 < det_thresh (sim_params s))%Q →
  NoDup snapshot.*1 → NoDup (Dict.keys (walkers s)) →
  Rand.run (sweep snapshot s) tape = Some (s', tape') →
  ∀ k v, (k, v) ∈ snapshot → (v == 0)%Q → Dict.get (walkers s') k = None.
Proof.
  induction snapshot as [|[det_ind det_amp] rest IH]; intros s tape s' tape'.
  - intros _ _ _ _ k v Hin. by apply elem_of_nil in Hin.
  - intros Hth Hnd Hwf. cbn [sweep]. rewrite run_bind.
    destruct (Rand.run (process_det det_ind det_amp s) tape) as [[s1 t1]|] eqn:E;
      [|done].
    intros Hrest k v Hin Hz.
    simpl in Hnd. apply NoDup_cons in Hnd as [Hfresh Hnd].
    pose proof (process_det_frame _ _ _ _ _ _ E) as (Hp1 & Hwf1 & _).
    apply elem_of_cons in Hin as [[= -> ->]|Hin].
    + apply sweep_frame in Hrest as (_ & _ & Hget).
      rewrite Hget by done. by eapply process_det_zero.
    + eapply IH; [by rewrite Hp1|done|by apply Hwf1|exact Hrest|exact Hin|done].
Qed.

(** C7, as the code has it. An entry whose weight is exactly zero when an
    iteration starts is deleted by the rounding step of that iteration: at
    the end of the iteration its key holds nothing but the weight that the
    annihilation of this iteration put there, if any.  (A zero produced by
    the death step or by annihilation stays until the next iteration.) *)
Theorem zero_entries_deleted_by_rounding it s tape s'' tape'' :
  (0 < det_thresh (sim_params s))%Q →
  NoDup (Dict.keys (walkers s)) →
  Rand.run (evolve it s) tape = Some (s'', tape'') →
  ∀ k v, Dict.get (walkers s) k = Some v → (v == 0)%Q →
    Dict.get (walkers s'') k = Dict.get (spawned_walkers s'') k.
Proof.
  intros Hth Hwf Hrun k v Hget Hz.
  destruct (evolve_merged _ _ _ _ _ _ _ _ Hrun)
    as (s' & Hsweep & -> & Hmerge).
  rewrite Hmerge. simpl.
  assert (Dict.get (walkers s') k = None) as ->.
  { eapply (sweep_zero _ (begin_iter it s)); [done|done|done|exact Hsweep| |done].
    by apply dict_get_elem_of. }
  by destruct (Dict.get (spawned_walkers s') k).
Qed.
End ZeroWeights.

(** C7 fails as stated: with [H[0,2] = 0] the single walker on determinant 0
    spawns the weight [0] onto determinant 2, and annihilation inserts it. *)
Lemma zero_weight_entry_survives :
  ∃ s', Rand.run (fciqmc h_example 3 5 update_shift_example update_stats_example
                    params_example stats_example) [Rand.Int 2] = Some (s', []) ∧
        ¬ no_zero_entries (walkers s').
Proof.
  eexists. split; [vm_compute; reflexivity|].
  intros Hall. apply Forall_cons in Hall as [_ Hall].
  apply Forall_cons in Hall as [Hz _]. by apply Hz.
Qed.

(** C1. What the code does with the negative sub-threshold walker
    [walkers[1] = -1/10] ([det_thresh = 1/4], draw [0 < 2/5], so it is kept):
    the entry of the walker dictionary is not set to [-1/4]; it keeps the old
    weight, changed only by the death step, which like the spawning step works
    with the amplitude [+1/4]. *)
Theorem rounding_keeps_stale_weight :
  Rand.run (process_det h_example 3 5 1 (- (1 # 10))%Q sim_example)
    [Rand.Float 0; Rand.Int 0] = Some (sim_example_after, []) ∧
  (∃ v, Dict.get (walkers sim_example_after) 1 = Some v ∧
        (v == - (1 # 10) - (1 # 100) * ((-1) - (-2) - 0) * (1 # 4))%Q ∧
        ¬ (v == - (1 # 4))%Q) ∧
  (∃ w, Dict.get (spawned_walkers sim_example_after) 0 = Some w ∧
        (w == spawned_weight h_example 3 params_example 1 0 (1 # 4) 1)%Q ∧
        ¬ (w == spawned_weight h_example 3 params_example 1 0 (- (1 # 4)) 1)%Q).
Proof.
  split; [vm_compute; reflexivity|]. split.
  - eexists. split; [reflexivity|]. split; [reflexivity|]. by vm_compute.
  - eexists. split; [reflexivity|]. split; [reflexivity|]. by vm_compute.
Qed.

Lemma zero_entries_deleted_by_rounding_witness :
  (0 < det_thresh (sim_params sim_zero_entry))%Q ∧
  NoDup (Dict.keys (walkers sim_zero_entry)) ∧
  Rand.run (evolve h_example 3 5 1 sim_zero_entry)
    [Rand.Int 1; Rand.Float (1 # 2)] = Some (sim_zero_entry_after, []) ∧
  Dict.get (walkers sim_zero_entry) 2 = Some 0%Q ∧
  Dict.get (walkers sim_zero_entry_after) 2
  = Dict.get (spawned_walkers sim_zero_entry_after) 2.
Proof.
  assert (H1 : (0 < det_thresh (sim_params sim_zero_entry))%Q) by reflexivity.
  assert (H2 : NoDup (Dict.keys (walkers sim_zero_entry)))
    by (apply (bool_decide_unpack _); by vm_compute).
  assert (H3 : Rand.run (evolve h_example 3 5 1 sim_zero_entry)
                 [Rand.Int 1; Rand.Float (1 # 2)]
               = Some (sim_zero_entry_after, []))
    by (vm_compute; reflexivity).
  assert (H4 : Dict.get (walkers sim_zero_entry) 2 = Some 0%Q) by reflexivity.
  split; [exact H1|]. split; [exact H2|]. split; [exact H3|]. split; [exact H4|].
  apply (zero_entries_deleted_by_rounding h_example 3 5 1 _ _ _ _ H1 H2 H3 2 0%Q H4).
  reflexivity.
Defined.

(** ** The store: list objects handed to a function are left alone *)

Lemma preserves_refl h : preserves h h.
Proof. by intros r l. Qed.

Lemma preserves_length h0 h : preserves h0 h → length h0 <= length h.
Proof.
  intros Hp. destruct (Nat.le_gt_cases (length h0) (length h)) as [|Hlt]; [done|].
  destruct (lookup_lt_is_Some_2 h0 (length h)) as [l Hl]; [done|].
  apply Hp in Hl. apply lookup_lt_Some in Hl. lia.
Qed.

Section Safe.
Context {A B : Type}.
Variable h0 : Heap.t.

Lemma safe_ret (a : A) (P : A → Prop) : P a → safe h0 (Heap.ret a) P.
Proof. intros Ha h a' h' Hp [= <- <-]. done. Qed.

Lemma safe_fail (P : A → Prop) : safe h0 Heap.fail P.
Proof. by intros h a h' Hp. Qed.

Lemma safe_lift (o : option A) : safe h0 (Heap.lift o) (fun _ => True).
Proof.
  intros h a h' Hp. unfold Heap.lift. destruct o; simpl; [|done].
  by intros [= <- <-].
Qed.

Lemma safe_bind (c : Heap.m A) (f : A → Heap.m B) (P : A → Prop) (R : B → Prop) :
  safe h0 c P → (∀ a, P a → safe h0 (f a) R) → safe h0 (Heap.bind c f) R.
Proof.
  intros Hc Hf h b h'' Hp. unfold Heap.bind.
  destruct (c h) as [[a h']|] eqn:E; [|done].
  destruct (Hc _ _ _ Hp E) as [Hp' Ha]. by apply Hf.
Qed.

Lemma safe_mono (c : Heap.m A) (P R : A → Prop) :
  (∀ a, P a → R a) → safe h0 c P → safe h0 c R.
Proof. intros HPR Hc h a h' Hp E. destruct (Hc _ _ _ Hp E). auto. Qed.

Lemma safer_ret (a : A) (P : A → Prop) : P a → safer h0 (Heap.retr a) P.
Proof. intros Ha h Hp. by simpl. Qed.

Lemma safer_det (c : Heap.m A) (P : A → Prop) :
  safe h0 c P → safer h0 (Heap.det c) P.
Proof.
  intros Hc h Hp. unfold Heap.det. apply post_lift.
  intros [a h'] E. simpl. by apply (Hc h).
Qed.

Lemma safer_rnd (c : rand A) : safer h0 (Heap.rnd c) (fun _ => True).
Proof.
  intros h Hp. unfold Heap.rnd. apply post_bind.
  induction c as [a| |p k IH|n k IH]; simpl; auto.
Qed.

Lemma safer_bind (c : Heap.mr A) (f : A → Heap.mr B) (P : A → Prop)
    (R : B → Prop) :
  safer h0 c P → (∀ a, P a → safer h0 (f a) R) → safer h0 (Heap.bindr c f) R.
Proof.
  intros Hc Hf h Hp. unfold Heap.bindr. apply post_bind.
  eapply post_mono; [|by apply Hc].
  intros [a h'] [Hp' Ha]. simpl in *. by apply Hf.
Qed.

Lemma safer_mono (c : Heap.mr A) (P R : A → Prop) :
  (∀ a, P a → R a) → safer h0 c P → safer h0 c R.
Proof.
  intros HPR Hc h Hp. eapply post_mono; [|by apply Hc].
  intros [a h'] [? ?]. auto.
Qed.
End Safe.

Section SafeOps.
Variable h0 : Heap.t.

Lemma safe_read r : safe h0 (Heap.read r) (fun _ => True).
Proof.
  intros h a h' Hp. unfold Heap.read. destruct (h !! r); simpl; [|done].
  by intros [= <- <-].
Qed.

Lemma safe_alloc l : safe h0 (Heap.alloc l) (fresh h0).
Proof.
  intros h a h' Hp [= <- <-]. split.
  - intros r l' Hr. rewrite lookup_app_l; [by apply Hp|].
    apply lookup_lt_Some in Hr. apply preserves_length in Hp. lia.
  - by apply preserves_length.
Qed.

Lemma safe_write r l : fresh h0 r → safe h0 (Heap.write r l) (fun _ => True).
Proof.
  intros Hr h a h' Hp. unfold Heap.write.
  destruct (r <? length h); [|done]. intros [= <- <-]. split; [|done].
  intros r' l' Hr'. rewrite list_lookup_insert_ne; [by apply Hp|].
  apply lookup_lt_Some in Hr'. unfold fresh in Hr. lia.
Qed.

Lemma safe_copy r : safe h0 (Heap.copy r) (fresh h0).
Proof.
  eapply safe_bind; [apply safe_read|]. intros l _. apply safe_alloc.
Qed.

Lemma safe_sorted r : safe h0 (Heap.sorted r) (fresh h0).
Proof.
  eapply safe_bind; [apply safe_read|]. intros l _. apply safe_alloc.
Qed.

Lemma safe_getitem r i : safe h0 (Heap.getitem r i) (fun _ => True).
Proof.
  eapply safe_bind; [apply safe_read|]. intros l _. apply safe_lift.
Qed.

Lemma safe_len r : safe h0 (Heap.len r) (fun _ => True).
Proof.
  eapply safe_bind; [apply safe_read|]. intros l _. by apply safe_ret.
Qed.

Lemma safe_contains x r : safe h0 (Heap.contains x r) (fun _ => True).
Proof.
  eapply safe_bind; [apply safe_read|]. intros l _. by apply safe_ret.
Qed.

Lemma safe_index r x : safe h0 (Heap.index r x) (fun _ => True).
Proof.
  eapply safe_bind; [apply safe_read|]. intros l _. apply safe_lift.
Qed.

Lemma safe_unsorted r : safe h0 (Heap.unsorted r) (fun _ => True).
Proof.
  eapply safe_bind; [apply safe_read|]. intros l _. by apply safe_ret.
Qed.

Lemma safe_setitem r i v : fresh h0 r → safe h0 (Heap.setitem r i v) (fun _ => True).
Proof.
  intros Hr. eapply safe_bind; [apply safe_read|]. intros l _.
  eapply safe_bind; [apply safe_lift|]. intros l' _. by apply safe_write.
Qed.

Lemma safer_while {S} (Inv : S → Prop) (cond : S → Heap.m bool)
    (body : S → Heap.mr S) :
  (∀ s, safe h0 (cond s) (fun _ => True)) →
  (∀ s, Inv s → safer h0 (body s) Inv) →
  ∀ fuel s, Inv s → safer h0 (Heap.while fuel cond body s) Inv.
Proof.
  intros Hcond Hbody. induction fuel as [|fuel IH]; intros s Hs; simpl.
  - eapply safer_bind; [apply safer_det, Hcond|].
    intros [|] _; [|by apply safer_ret]. by intros h Hp.
  - eapply safer_bind; [apply safer_det, Hcond|].
    intros [|] _; [|by apply safer_ret].
    eapply safer_bind; [by apply Hbody|]. intros s' Hs'. by apply IH.
Qed.

Lemma exchange_loop_h_safe det_copy step : ∀ xfuel ind perm,
  fresh h0 det_copy →
  safe h0 (exchange_loop_h xfuel det_copy ind step perm) (fun _ => True).
Proof.
  induction xfuel as [|xfuel IH]; intros ind perm Hfresh; simpl.
  - eapply safe_bind; [apply safe_unsorted|].
    intros [|] _; [apply safe_fail|by apply safe_ret].
  - eapply safe_bind; [apply safe_unsorted|].
    intros [|] _; [|by apply safe_ret].
    eapply safe_bind; [apply safe_getitem|]. intros tmp _.
    eapply safe_bind; [apply safe_getitem|]. intros x _.
    eapply safe_bind; [by apply safe_setitem|]. intros _ _.
    eapply safe_bind; [by apply safe_setitem|]. intros _ _.
    by apply IH.
Qed.

Lemma elec_exchange_ops_h_safe xfuel det ind :
  safe h0 (elec_exchange_ops_h xfuel det ind) (fun _ => True).
Proof.
  unfold elec_exchange_ops_h.
  eapply safe_bind; [apply safe_copy|]. intros det_copy Hfresh.
  eapply safe_bind; [apply safe_len|]. intros n _.
  eapply safe_bind; [|intros step _; by apply exchange_loop_h_safe].
  instantiate (1 := fun _ => True).
  destruct (ind =? 0)%Z; [by apply safe_ret|].
  destruct ((ind =? -1)%Z || (ind =? Z.of_nat n - 1)%Z); [by apply safe_ret|].
  eapply safe_bind; [apply safe_getitem|]. intros a _.
  eapply safe_bind; [apply safe_getitem|]. intros b _.
  by apply safe_ret.
Qed.
End SafeOps.

Section SafeFunctions.
Variable h0 : Heap.t.

Lemma calc_excit_mat_parity_h_safe xfuel det excited_det :
  safe h0 (calc_excit_mat_parity_h xfuel det excited_det) (fun _ => True).
Proof.
  unfold calc_excit_mat_parity_h.
  eapply safe_bind; [apply safe_read|]. intros l _.
  eapply safe_bind; [apply safe_read|]. intros le _.
  destruct (scan_missing l le) as [from_inds from_orbs].
  destruct (scan_missing le l) as [to_inds to_orbs].
  destruct (negb (length from_inds =? length to_inds)); [apply safe_fail|].
  eapply safe_bind; [apply safe_copy|]. intros det_copy Hfresh.
  eapply (safe_bind _ _ _ (fun pd : nat * Heap.ref => fresh h0 pd.2)).
  - assert (safe h0 (Heap.ret (0, det_copy))
              (fun pd : nat * Heap.ref => fresh h0 pd.2)) as Hacc
      by (by apply safe_ret).
    revert Hacc. generalize (Heap.ret (0, det_copy)).
    induction (zip from_orbs to_orbs) as [|[from_orb to_orb] pairs IH];
      intros acc Hacc; [done|].
    simpl. apply IH.
    eapply safe_bind; [exact Hacc|]. intros [perm dc] Hdc. simpl in Hdc.
    eapply safe_bind; [apply safe_index|]. intros ind _.
    eapply safe_bind; [by apply safe_setitem|]. intros _ _.
    eapply safe_bind; [apply elec_exchange_ops_h_safe|]. intros p _.
    eapply safe_bind; [apply safe_sorted|]. intros dc' Hdc'.
    by apply safe_ret.
  - intros [perm dc] _.
    destruct (negb (truthy (as_list (from_orbs, to_orbs)))); by apply safe_ret.
Qed.

Lemma draw_second_h_safe H excited_det :
  safer h0 (draw_second_h H excited_det) (fun _ => True).
Proof.
  unfold draw_second_h.
  eapply safer_bind; [apply safer_det, safe_len|]. intros n _.
  eapply safer_bind; [apply safer_rnd|]. intros ind _.
  eapply safer_bind; [apply safer_det, safe_getitem|]. intros f2 _.
  eapply safer_bind; [apply safer_rnd|]. intros t2 _.
  by apply safer_ret.
Qed.

Lemma excit_gen_h_safe H fuel xfuel det :
  safer h0 (excit_gen_h H fuel xfuel det) (fun _ => True).
Proof.
  unfold excit_gen_h.
  eapply safer_bind; [apply safer_det, safe_copy|]. intros excited_det Hfresh.
  eapply safer_bind; [apply safer_rnd|]. intros single _.
  eapply safer_bind; [apply safer_det, safe_len|]. intros n _.
  eapply safer_bind; [apply safer_rnd|]. intros ind _.
  eapply safer_bind; [apply safer_det, safe_getitem|]. intros orb_from _.
  eapply safer_bind; [apply safer_rnd|]. intros orb_to0 _.
  eapply safer_bind.
  { apply (safer_while h0 (fun _ => True)); [|intros; apply safer_rnd|done].
    intros s. apply safe_contains. }
  intros orb_to _.
  eapply safer_bind; [by apply safer_det, safe_setitem|]. intros _ _.
  eapply safer_bind; [apply safer_det, elec_exchange_ops_h_safe|]. intros perm _.
  eapply safer_bind; [apply safer_det, safe_sorted|]. intros exc1 Hfresh1.
  destruct single.
  - eapply safer_bind; [apply safer_det, safe_lift|]. intros prob _.
    by apply safer_ret.
  - eapply safer_bind; [apply draw_second_h_safe|]. intros s0 _.
    eapply safer_bind.
    { apply (safer_while h0 (fun _ => True));
        [|intros; apply draw_second_h_safe|done].
      intros [[i f2] t2].
      eapply safe_bind; [apply safe_contains|]. intros b _. by apply safe_ret. }
    intros [[ind2 f2] t2] _.
    eapply safer_bind; [by apply safer_det, safe_setitem|]. intros _ _.
    eapply safer_bind; [apply safer_det, elec_exchange_ops_h_safe|].
    intros perm2 _.
    eapply safer_bind; [apply safer_det, safe_lift|]. intros prob _.
    eapply safer_bind; [apply safer_det, safe_sorted|]. intros exc2 _.
    by apply safer_ret.
Qed.
End SafeFunctions.

(** C10. [elec_exchange_ops], [calc_excit_mat_parity] and [excit_gen] leave
    every list object that exists when they are called, and so the
    determinant lists passed to them, with the same elements in the same
    order: they only write to the copies they allocate themselves. *)
Theorem inputs_not_modified (H : HAM) (fuel xfuel : nat) :
  (∀ det ind h perm h',
     elec_exchange_ops_h xfuel det ind h = Some (perm, h') → preserves h h') ∧
  (∀ det excited_det h res h',
     calc_excit_mat_parity_h xfuel det excited_det h = Some (res, h') →
     preserves h h') ∧
  (∀ det h tape res h' tape',
     Rand.run (excit_gen_h H fuel xfuel det h) tape = Some ((res, h'), tape') →
     preserves h h').
Proof.
  split; [|split].
  - intros det ind h perm h' Hrun.
    by destruct (elec_exchange_ops_h_safe h xfuel det ind h perm h'
                   (preserves_refl h) Hrun).
  - intros det excited_det h res h' Hrun.
    by destruct (calc_excit_mat_parity_h_safe h xfuel det excited_det h res h'
                   (preserves_refl h) Hrun).
  - intros det h tape res h' tape' Hrun.
    pose proof (excit_gen_h_safe h H fuel xfuel det h (preserves_refl h)) as Hpost.
    by destruct (post_run _ _ _ _ _ Hrun Hpost).
Qed.

Lemma inputs_not_modified_witness :
  Rand.run (excit_gen_h ham_example 5 5 0 [[0; 2]])
    [Rand.Float (1 # 2); Rand.Int 1; Rand.Int 0; Rand.Int 2; Rand.Int 3;
     Rand.Int 0; Rand.Int 0; Rand.Int 0; Rand.Int 1]
  = Some ({| exh_det := 5; exh_mat := ([2; 0], [3; 1]);
             exh_parity := 1; exh_prob := 9 # 10 |},
          [[0; 2]; [0; 3]; [0; 3]; [1; 3]; [1; 3]; [1; 3]], []) ∧
  preserves [[0; 2]] [[0; 2]; [0; 3]; [0; 3]; [1; 3]; [1; 3]; [1; 3]].
Proof.
  assert (Hrun : Rand.run (excit_gen_h ham_example 5 5 0 [[0; 2]])
    [Rand.Float (1 # 2); Rand.Int 1; Rand.Int 0; Rand.Int 2; Rand.Int 3;
     Rand.Int 0; Rand.Int 0; Rand.Int 0; Rand.Int 1]
  = Some ({| exh_det := 5; exh_mat := ([2; 0], [3; 1]);
             exh_parity := 1; exh_prob := 9 # 10 |},
          [[0; 2]; [0; 3]; [0; 3]; [1; 3]; [1; 3]; [1; 3]], []))
    by (vm_compute; reflexivity).
  split; [exact Hrun|].
  exact (proj2 (proj2 (inputs_not_modified ham_example 5 5)) _ _ _ _ _ _ Hrun).
Defined.

(** ** Sums over lists of outcomes *)

Lemma Qsum_perm (l l' : list Q) : l ≡ₚ l' → (Rand.Qsum l == Rand.Qsum l')%Q.
Proof.
  induction 1 as [|x l l' _ IH|x y l|l l' l'' _ IH1 _ IH2]; simpl.
  - reflexivity.
  - by rewrite IH.
  - ring.
  - by rewrite IH1.
Qed.

Lemma Qsum_map_perm {A} (g : A → Q) (l l' : list A) :
  l ≡ₚ l' → (Rand.Qsum (map g l) == Rand.Qsum (map g l'))%Q.
Proof. intros Hp. apply Qsum_perm. by apply Permutation_map. Qed.

Lemma Qsum_map_bind {A B} (g : B → Q) (f : A → list B) (l : list A) :
  (Rand.Qsum (map g (l ≫= f))
   == Rand.Qsum (map (fun x => Rand.Qsum (map g (f x))) l))%Q.
Proof.
  induction l as [|x l IH]; [reflexivity|].
  rewrite bind_cons, map_app, Qsum_app, IH. reflexivity.
Qed.

Lemma Qsum_map_indicator {A} (b : A → bool) (c : Q) (l : list A) :
  (Rand.Qsum (map (fun x => if b x then c else 0) l)
   == inject_Z (Z.of_nat (length (filter (fun x => b x = true) l))) * c)%Q.
Proof.
  induction l as [|x l IH]; [simpl; ring|].
  cbn [map Rand.Qsum foldr]. change (foldr Qplus 0%Q ?l) with (Rand.Qsum l).
  rewrite IH. destruct (b x) eqn:E.
  - rewrite filter_cons_True by done. cbn [length].
    rewrite Nat2Z.inj_succ. unfold Z.succ. rewrite inject_Z_plus. ring.
  - rewrite filter_cons_False by (rewrite E; done). ring.
Qed.

Lemma Qsum_map_filter {A} (b : A → bool) (g : A → Q) (l : list A) :
  (Rand.Qsum (map (fun x => if b x then 0 else g x) l)
   == Rand.Qsum (map g (filter (fun x => b x = false) l)))%Q.
Proof.
  induction l as [|x l IH]; [reflexivity|].
  cbn [map Rand.Qsum foldr]. change (foldr Qplus 0%Q ?l) with (Rand.Qsum l).
  rewrite IH. destruct (b x) eqn:E.
  - rewrite filter_cons_False by (rewrite E; done). ring.
  - rewrite filter_cons_True by done. reflexivity.
Qed.

(** A sum over positions of a list is a sum over its elements. *)
Lemma Qsum_map_positions {A} (g : option A → Q) (l : list A) :
  Rand.Qsum (map (fun i => g (l !! i)) (seq 0 (length l)))
  = Rand.Qsum (map (fun x => g (Some x)) l).
Proof.
  f_equal. induction l as [|x l IH] using rev_ind; [done|].
  rewrite length_app. simpl. rewrite Nat.add_1_r, seq_S, !map_app. simpl.
  rewrite list_lookup_middle by done. f_equal.
  rewrite <- IH. apply map_ext_in. intros i Hi. apply in_seq in Hi.
  by rewrite lookup_app_l by lia.
Qed.

(** Counting the elements that satisfy a predicate, through an explicit
    duplicate-free list of them. *)
Lemma filter_length_by_list {A} (P : A → Prop) `{∀ x, Decision (P x)}
    (l k : list A) :
  NoDup l → NoDup k → (∀ x, P x ∧ x ∈ l ↔ x ∈ k) →
  length (filter P l) = length k.
Proof.
  intros Hl Hk Hiff. apply Permutation_length, NoDup_Permutation.
  - by apply NoDup_filter.
  - done.
  - intros x. rewrite list_elem_of_filter. apply Hiff.
Qed.

(** ** Substituting a label *)

Lemma insert_as_substitution (det : list nat) i f t :
  NoDup det → det !! i = Some f →
  <[i := t]> det = (fun x => if x =? f then t else x) <$> det.
Proof.
  intros Hnd Hi. apply lookup_split in Hi as (l1 & l2 & -> & <-).
  rewrite insert_middle, fmap_app, fmap_cons, Nat.eqb_refl.
  apply NoDup_app in Hnd as (_ & H12 & [Hf2 _]%NoDup_cons).
  assert (∀ l : list nat, f ∉ l → (fun x => if x =? f then t else x) <$> l = l)
    as Hid.
  { induction l as [|y l IH]; [done|].
    intros [Hy Hl]%not_elem_of_cons. rewrite fmap_cons, IH by done.
    destruct (Nat.eqb_spec y f); [congruence|done]. }
  rewrite !Hid; [done|done|].
  intros Hf1. apply (H12 f Hf1). by left.
Qed.

Lemma sorted_insert_substitute (det : list nat) i f t :
  NoDup det → det !! i = Some f → Py.sorted (<[i := t]> det) = substitute det f t.
Proof.
  intros Hnd Hi. unfold substitute.
  by rewrite <- (insert_as_substitution det i f t Hnd Hi).
Qed.

Lemma substitute_elem_of (det : list nat) f t x :
  x ∈ substitute det f t ↔ (f ∈ det ∧ x = t) ∨ (x ∈ det ∧ x ≠ f).
Proof.
  unfold substitute. rewrite sorted_elem_of, list_elem_of_fmap. split.
  - intros (y & -> & Hy). destruct (Nat.eqb_spec y f) as [->|Hne]; auto.
  - intros [[Hf ->]|[Hx Hne]].
    + exists f. by rewrite Nat.eqb_refl.
    + exists x. destruct (Nat.eqb_spec x f); done.
Qed.

Lemma substitute_set (det : list nat) f t :
  f ∈ det →
  list_to_set (substitute det f t) =@{gset nat} list_to_set det ∖ {[f]} ∪ {[t]}.
Proof.
  intros Hf. apply set_eq. intros x.
  rewrite elem_of_list_to_set, substitute_elem_of.
  rewrite elem_of_union, elem_of_difference, elem_of_list_to_set.
  rewrite !elem_of_singleton. tauto.
Qed.

Lemma substitute_sorted (det : list nat) f t :
  NoDup det → f ∈ det → t ∉ det → StronglySorted lt (substitute det f t).
Proof.
  intros Hnd Hf Ht. apply list_elem_of_lookup in Hf as [i Hi].
  rewrite <- (sorted_insert_substitute det i f t Hnd Hi).
  by apply replaced_invariants.
Qed.

Lemma substitute_length (det : list nat) f t :
  length (substitute det f t) = length det.
Proof. unfold substitute. by rewrite sorted_length, length_fmap. Qed.

Lemma sorted_set_eq (l1 l2 : list nat) :
  StronglySorted lt l1 → StronglySorted lt l2 →
  list_to_set l1 =@{gset nat} list_to_set l2 → l1 = l2.
Proof.
  intros H1 H2 Heq. apply strongly_sorted_lt_unique; [done..|].
  intros x. by rewrite <- !(elem_of_list_to_set (C:=gset nat)), Heq.
Qed.

(** ** Unoccupied spin-orbitals *)

Lemma unoccupied_elem_of N det t : t ∈ unoccupied N det ↔ (t ∉ det) ∧ t < N.
Proof.
  unfold unoccupied. rewrite list_elem_of_filter, elem_of_seq. split.
  - intros [? ?]. split; [done|lia].
  - intros [? ?]. split; [done|lia].
Qed.

Lemma unoccupied_NoDup N det : NoDup (unoccupied N det).
Proof. apply NoDup_filter, NoDup_seq. Qed.

Lemma strongly_sorted_filter (P : nat → Prop) `{∀ x, Decision (P x)} l :
  StronglySorted lt l → StronglySorted lt (filter P l).
Proof.
  induction 1 as [|x l Hs IH Hall]; [constructor|].
  rewrite filter_cons. destruct (decide (P x)); [|done].
  constructor; [done|].
  apply Forall_forall. intros y [_ Hy]%list_elem_of_filter.
  rewrite Forall_forall in Hall. by apply Hall.
Qed.

Lemma strongly_sorted_seq a n : StronglySorted lt (seq a n).
Proof.
  revert a. induction n as [|n IH]; intros a; [constructor|].
  simpl. constructor; [apply IH|].
  apply Forall_forall. intros y Hy%elem_of_seq. lia.
Qed.

Lemma unoccupied_sorted N det : StronglySorted lt (unoccupied N det).
Proof. apply strongly_sorted_filter, strongly_sorted_seq. Qed.

Lemma occupied_below N (det : list nat) :
  NoDup det → Forall (fun q => q < N) det →
  filter (fun t => t ∈ det) (seq 0 N) ≡ₚ det.
Proof.
  intros Hnd Hall. apply NoDup_Permutation; [apply NoDup_filter, NoDup_seq|done|].
  intros x. rewrite list_elem_of_filter, elem_of_seq.
  rewrite Forall_forall in Hall. split; [by intros [? _]|].
  intros Hx. split; [done|]. specialize (Hall x Hx). lia.
Qed.

Lemma unoccupied_length N (det : list nat) :
  NoDup det → Forall (fun q => q < N) det →
  length (unoccupied N det) = N - length det.
Proof.
  intros Hnd Hall.
  pose proof (filter_app_complement (fun t => t ∈ det) (seq 0 N)) as Hp.
  apply Permutation_length in Hp.
  rewrite length_app, length_seq, (Permutation_length (occupied_below N det Hnd Hall)) in Hp.
  unfold unoccupied. lia.
Qed.

(** ** Unordered pairs *)

Lemma later_pairs_elem_of l a b :
  StronglySorted lt l → (a, b) ∈ later_pairs l ↔ a ∈ l ∧ b ∈ l ∧ a < b.
Proof.
  intros Hs. rewrite <- (later_pairs_sorted l Hs).
  rewrite list_elem_of_filter, list_elem_of_In, in_prod_iff.
  rewrite <- !list_elem_of_In. simpl. tauto.
Qed.

Lemma later_pairs_NoDup l : NoDup l → NoDup (later_pairs l).
Proof.
  induction 1 as [|p rest Hp Hnd IH]; [constructor|].
  simpl. apply NoDup_app. split; [|split; [|done]].
  - apply NoDup_fmap_2; [|done]. by intros x y [= ->].
  - intros [a b] Hab%list_elem_of_fmap Hin. destruct Hab as (y & [= -> ->] & Hy).
    apply Hp. clear -Hin. induction rest as [|q rest IH]; simpl in Hin.
    + by apply elem_of_nil in Hin.
    + apply elem_of_app in Hin as [Hin|Hin].
      * apply list_elem_of_fmap in Hin as (z & [= -> ->] & _). by left.
      * right. by apply IH.
Qed.

Lemma later_pairs_length (l : list nat) :
  2 * length (later_pairs l) = length l * (length l - 1).
Proof.
  induction l as [|p rest IH]; [done|].
  simpl. rewrite length_app, length_map. nia.
Qed.

Lemma comb2_pairs (l : list nat) :
  comb2 (Z.of_nat (length l)) = Z.of_nat (length (later_pairs l)).
Proof.
  pose proof (later_pairs_length l) as Hl. unfold comb2.
  destruct (Z.ltb_spec (Z.of_nat (length l)) 2) as [Hlt|Hge].
  - destruct (later_pairs l); [done|]. simpl in Hl. nia.
  - symmetry. apply Z.div_unique_exact; [lia|]. nia.
Qed.

(** ** Which substitutions give the same determinant *)

Lemma single_substitution_inj (S : gset nat) f t f' t' :
  f ∈ S → f' ∈ S → t ∉ S → t' ∉ S →
  S ∖ {[f]} ∪ {[t]} = S ∖ {[f']} ∪ {[t']} ↔ f = f' ∧ t = t'.
Proof.
  intros Hf Hf' Ht Ht'. split; [|by intros [-> ->]].
  intros Heq.
  assert (∀ x, x ∈ S ∖ {[f]} ∪ {[t]} ↔ x ∈ S ∖ {[f']} ∪ {[t']}) as Hiff
    by (intros x; by rewrite Heq).
  clear Heq. split.
  - destruct (decide (f = f')) as [|Hne]; [done|]. exfalso.
    assert (f ∈ S ∖ {[f]} ∪ {[t]}) as Hin.
    { apply Hiff, elem_of_union_l, elem_of_difference.
      split; [done|]. by rewrite elem_of_singleton. }
    apply elem_of_union in Hin as [[_ Hin]%elem_of_difference|Hin%elem_of_singleton].
    + apply Hin. by apply elem_of_singleton.
    + subst. done.
  - assert (t ∈ S ∖ {[f']} ∪ {[t']}) as Hin.
    { apply Hiff, elem_of_union_r. by apply elem_of_singleton. }
    apply elem_of_union in Hin as [[Hin _]%elem_of_difference|Hin%elem_of_singleton];
      done.
Qed.

Lemma in_double (S : gset nat) g1 u1 g2 u2 x :
  x ∈ (S ∖ {[g1]} ∪ {[u1]}) ∖ {[g2]} ∪ {[u2]}
  ↔ ((x ∈ S ∧ x ≠ g1 ∨ x = u1) ∧ x ≠ g2) ∨ x = u2.
Proof.
  rewrite elem_of_union, elem_of_difference, elem_of_union, elem_of_difference,
    !elem_of_singleton. done.
Qed.

Lemma in_double_occupied (S : gset nat) g1 u1 g2 u2 x :
  x ∈ S → u1 ∉ S → u2 ∉ S →
  x ∈ (S ∖ {[g1]} ∪ {[u1]}) ∖ {[g2]} ∪ {[u2]} ↔ x ≠ g1 ∧ x ≠ g2.
Proof.
  intros Hx Hu1 Hu2. rewrite in_double.
  assert (x ≠ u1) by (by intros ->). assert (x ≠ u2) by (by intros ->).
  tauto.
Qed.

Lemma in_double_unoccupied (S : gset nat) g1 u1 g2 u2 x :
  x ∉ S → g2 ∈ S →
  x ∈ (S ∖ {[g1]} ∪ {[u1]}) ∖ {[g2]} ∪ {[u2]} ↔ x = u1 ∨ x = u2.
Proof.
  intros Hx Hg2. rewrite in_double.
  assert (x ≠ g2) by (by intros ->). tauto.
Qed.

Lemma double_substitution_inj (S : gset nat) f1 f2 t1 t2 g1 g2 u1 u2 :
  f1 ∈ S → f2 ∈ S → f1 ≠ f2 → t1 ∉ S → t2 ∉ S → t1 ≠ t2 →
  g1 ∈ S → g2 ∈ S → g1 ≠ g2 → u1 ∉ S → u2 ∉ S → u1 ≠ u2 →
  (S ∖ {[f1]} ∪ {[t1]}) ∖ {[f2]} ∪ {[t2]}
  = (S ∖ {[g1]} ∪ {[u1]}) ∖ {[g2]} ∪ {[u2]}
  ↔ (f1 = g1 ∧ f2 = g2 ∨ f1 = g2 ∧ f2 = g1) ∧
    (t1 = u1 ∧ t2 = u2 ∨ t1 = u2 ∧ t2 = u1).
Proof.
  intros Hf1 Hf2 Hf Ht1 Ht2 Ht Hg1 Hg2 Hg Hu1 Hu2 Hu.
  split.
  - intros Heq.
    assert (∀ x, x ∈ (S ∖ {[f1]} ∪ {[t1]}) ∖ {[f2]} ∪ {[t2]}
                 ↔ x ∈ (S ∖ {[g1]} ∪ {[u1]}) ∖ {[g2]} ∪ {[u2]}) as Hiff
      by (intros x; by rewrite Heq).
    clear Heq.
    pose proof (Hiff f1) as A1.
    rewrite (in_double_occupied S f1 t1 f2 t2 f1 Hf1 Ht1 Ht2),
      (in_double_occupied S g1 u1 g2 u2 f1 Hf1 Hu1 Hu2) in A1.
    pose proof (Hiff f2) as A2.
    rewrite (in_double_occupied S f1 t1 f2 t2 f2 Hf2 Ht1 Ht2),
      (in_double_occupied S g1 u1 g2 u2 f2 Hf2 Hu1 Hu2) in A2.
    pose proof (Hiff t1) as A3.
    rewrite (in_double_unoccupied S f1 t1 f2 t2 t1 Ht1 Hf2),
      (in_double_unoccupied S g1 u1 g2 u2 t1 Ht1 Hg2) in A3.
    pose proof (Hiff t2) as A4.
    rewrite (in_double_unoccupied S f1 t1 f2 t2 t2 Ht2 Hf2),
      (in_double_unoccupied S g1 u1 g2 u2 t2 Ht2 Hg2) in A4.
    clear Hiff.
    assert (f1 = g1 ∨ f1 = g2) as B1.
    { destruct (decide (f1 = g1)), (decide (f1 = g2)); auto.
      exfalso. destruct A1 as [_ A1]. by destruct A1. }
    assert (f2 = g1 ∨ f2 = g2) as B2.
    { destruct (decide (f2 = g1)), (decide (f2 = g2)); auto.
      exfalso. destruct A2 as [_ A2]. by destruct A2. }
    assert (t1 = u1 ∨ t1 = u2) as B3 by (apply A3; by left).
    assert (t2 = u1 ∨ t2 = u2) as B4 by (apply A4; by right).
    clear A1 A2 A3 A4.
    destruct B1, B2, B3, B4; subst; try done; auto.
  - intros Hcase. apply set_eq. intros x.
    destruct (decide (x ∈ S)) as [Hx|Hx].
    + rewrite (in_double_occupied S f1 t1 f2 t2 x Hx Ht1 Ht2),
        (in_double_occupied S g1 u1 g2 u2 x Hx Hu1 Hu2).
      clear -Hcase. destruct Hcase as [[[-> ->]|[-> ->]] _]; tauto.
    + rewrite (in_double_unoccupied S f1 t1 f2 t2 x Hx Hf2),
        (in_double_unoccupied S g1 u1 g2 u2 x Hx Hg2).
      clear -Hcase. destruct Hcase as [_ [[-> ->]|[-> ->]]]; tauto.
Qed.

(** ** The excitation generator, stage by stage *)

Lemma excit_gen_stages H fuel xfuel det :
  excit_gen H fuel xfuel det
  = Rand.bind (Rand.random_lt (p_single H)) (fun single =>
      first_substitution H fuel xfuel det (fun orb_from orb_to perm excited_det =>
        if single : bool
        then single_result H orb_from orb_to perm excited_det
        else second_substitution H fuel xfuel orb_from orb_to perm excited_det)).
Proof. reflexivity. Qed.

Lemma expect_resample_bind {S A} (draw : rand S) (rej : S → bool)
    (K : S → rand A) (g : A → Q) fuel :
  (Rand.expect (Rand.bind draw (fun s0 =>
                  Rand.bind (Rand.while fuel rej (fun _ => draw) s0) K)) g
   == geom (Rand.prob draw rej) fuel
      * Rand.expect draw (fun s => if rej s then 0 else Rand.expect (K s) g))%Q.
Proof.
  rewrite expect_bind.
  rewrite (expect_ext _ _
    (fun s0 => Rand.expect (Rand.while fuel rej (fun _ => draw) s0)
                 (fun s => Rand.expect (K s) g)))
    by (intros s0; by rewrite expect_bind).
  rewrite <- expect_bind. apply expect_resample.
Qed.

Lemma expect_bind_randint {A} n (K : nat → rand A) (g : A → Q) :
  Rand.expect (Rand.bind (Rand.randint n) K) g
  = (Rand.Qsum (map (fun r => Rand.expect (K r) g) (seq 0 n))
     / inject_Z (Z.of_nat n))%Q.
Proof. reflexivity. Qed.

Lemma expect_bind_lift_Some {A B} (o : option A) a (K : A → rand B) (g : B → Q) :
  o = Some a →
  Rand.expect (Rand.bind (Rand.lift o) K) g = Rand.expect (K a) g.
Proof. by intros ->. Qed.

Lemma strongly_sorted_remove_middle (l1 l2 : list nat) x :
  StronglySorted lt (l1 ++ x :: l2) → StronglySorted lt (l1 ++ l2).
Proof.
  intros (H1 & H2 & H12)%strongly_sorted_app_inv.
  inversion H2; subst. apply strongly_sorted_app; [done..|].
  intros a b Ha Hb. apply H12; [done|by right].
Qed.

Section FirstSubstitution.
Variable H : HAM.
Variables fuel xfuel : nat.
Variable det : list nat.
Hypothesis det_sorted : StronglySorted lt det.
Hypothesis det_below : Forall (fun q => q < 2 * nbasis H) det.
Hypothesis xfuel_enough : length det <= xfuel.

Let N : Q := inject_Z (Z.of_nat (2 * nbasis H)).
Let n : Q := inject_Z (Z.of_nat (length det)).

Lemma det_NoDup : NoDup det.
Proof. by apply strongly_sorted_lt_NoDup. Qed.

Lemma unoccupied_as_filter :
  filter (fun t => Py.contains t det = false) (seq 0 (2 * nbasis H))
  = unoccupied (2 * nbasis H) det.
Proof.
  unfold unoccupied. apply list_filter_iff. intros t.
  apply contains_not_elem_of.
Qed.

Lemma prob_occupied :
  (Rand.prob (Rand.randint (2 * nbasis H)) (fun t => Py.contains t det) == n / N)%Q.
Proof.
  unfold Rand.prob, Rand.randint. rewrite expect_randint. simpl Rand.expect.
  unfold Rand.indicator. rewrite Qsum_map_indicator.
  rewrite (filter_length_by_list _ _ det (NoDup_seq _ _) det_NoDup).
  - unfold n, N, Qdiv. ring.
  - intros x. rewrite contains_elem_of, elem_of_seq.
    pose proof det_below as Hb. rewrite Forall_forall in Hb.
    split; [by intros [? _]|]. intros Hx. split; [done|].
    specialize (Hb x Hx). lia.
Qed.

(** After the first substitution: every occupied label [f] and every
    unoccupied label [t] is reached with the same weight. *)
Lemma expect_first_substitution {A} (K : nat → nat → nat → list nat → rand A)
    (g : A → Q) (h : nat → nat → Q) :
  (∀ f t perm, f ∈ det → t ∈ unoccupied (2 * nbasis H) det →
     (Rand.expect (K f t perm (substitute det f t)) g == h f t)%Q) →
  (Rand.expect (first_substitution H fuel xfuel det K) g
   == geom (n / N) fuel / (n * N)
      * Rand.Qsum (map (fun f => Rand.Qsum (map (h f) (unoccupied (2 * nbasis H) det)))
                       det))%Q.
Proof.
  intros HK. unfold first_substitution. rewrite expect_bind_randint.
  set (G := fun o : option nat =>
              match o with
              | Some f => (geom (n / N) fuel / N
                           * Rand.Qsum (map (h f) (unoccupied (2 * nbasis H) det)))%Q
              | None => 0%Q
              end).
  rewrite (Qsum_map_ext _ (fun ind => G (det !! ind))).
  - rewrite Qsum_map_positions. unfold G.
    rewrite (Qsum_map_scale (geom (n / N) fuel / N)).
    fold n. unfold Qdiv. rewrite Qinv_mult_distr. ring.
  - intros ind Hind%in_seq.
    destruct (lookup_lt_is_Some_2 det ind) as [f Hf]; [lia|].
    rewrite (expect_bind_lift_Some _ f)
      by (rewrite getitem_nat by lia; done).
    rewrite Hf. unfold G.
    rewrite expect_resample_bind.
    rewrite (geom_ext _ (n / N)) by apply prob_occupied.
    unfold Rand.randint. rewrite expect_randint. simpl Rand.expect.
    rewrite Qsum_map_filter, unoccupied_as_filter.
    rewrite (Qsum_map_ext _ (h f)).
    + fold N. unfold Qdiv. ring.
    + intros t Ht%list_elem_of_In.
      pose proof Ht as [Htd HtN]%unoccupied_elem_of.
      rewrite (expect_bind_lift_Some _ (<[ind := t]> det))
        by (by apply setitem_nat; lia).
      pose proof Hf as (l1 & l2 & Hdet & Hlen)%lookup_split.
      assert (elec_exchange_ops xfuel (<[ind := t]> det) (Z.of_nat ind)
              = Some (length (filter (fun b => b < t) l2)
                      + length (filter (fun a => t < a) l1))) as Hperm.
      { rewrite Hdet, <- Hlen, insert_middle.
        apply elec_exchange_ops_replaced.
        - eapply strongly_sorted_remove_middle. rewrite <- Hdet. exact det_sorted.
        - rewrite Hdet in Htd. rewrite !not_elem_of_app, not_elem_of_cons in *.
          tauto.
        - pose proof xfuel_enough as Hx. rewrite Hdet in Hx.
          rewrite !length_app in *. simpl in *. lia. }
      rewrite (expect_bind_lift_Some _ _ _ _ Hperm).
      rewrite (sorted_insert_substitute det ind f t det_NoDup Hf).
      apply HK; [|done]. apply list_elem_of_lookup. eauto.
Qed.
End FirstSubstitution.

(** ** Nested sums as sums over lists of tuples *)

Lemma Qsum_nested {A B} (l : list A) (F : A → list B) (g : A → B → Q) :
  (Rand.Qsum (map (fun x => Rand.Qsum (map (g x) (F x))) l)
   == Rand.Qsum (map (fun xy : A * B => g xy.1 xy.2)
                     (l ≫= fun x => pair x <$> F x)))%Q.
Proof.
  induction l as [|x l IH]; [reflexivity|].
  rewrite bind_cons, map_app, Qsum_app, <- IH. simpl.
  rewrite <- list_fmap_compose. reflexivity.
Qed.

Lemma tuples_elem_of {A B} (l : list A) (F : A → list B) x y :
  (x, y) ∈ (l ≫= fun x => pair x <$> F x) ↔ x ∈ l ∧ y ∈ F x.
Proof.
  rewrite list_elem_of_bind. split.
  - intros (x' & Hin & Hx'). apply list_elem_of_fmap in Hin as (y' & [= -> ->] & Hy).
    done.
  - intros [Hx Hy]. exists x. split; [|done].
    apply list_elem_of_fmap. by exists y.
Qed.

Lemma tuples_NoDup {A B} (l : list A) (F : A → list B) :
  NoDup l → (∀ x, x ∈ l → NoDup (F x)) →
  NoDup (l ≫= fun x => pair x <$> F x).
Proof.
  intros Hl HF. apply NoDup_bind; [| |done].
  - intros x1 x2 [a b] _ _ H1 H2.
    apply list_elem_of_fmap in H1 as (? & [= -> _] & _).
    by apply list_elem_of_fmap in H2 as (? & [= -> _] & _).
  - intros x Hx. apply NoDup_fmap_2; [|by apply HF]. by intros ?? [= ->].
Qed.

Lemma tuples_length {A B} (l : list A) (F : A → list B) k :
  (∀ x, x ∈ l → length (F x) = k) →
  length (l ≫= fun x => pair x <$> F x) = length l * k.
Proof.
  induction l as [|x l IH]; intros HF; [done|].
  rewrite bind_cons, length_app, length_fmap, IH, HF.
  - simpl. lia.
  - by left.
  - intros y Hy. apply HF. by right.
Qed.

(** ** Probability of a singly excited determinant *)

Lemma clamp01_id p : (0 <= p)%Q → (p <= 1)%Q → (Rand.clamp01 p == p)%Q.
Proof.
  intros H0 H1. unfold Rand.clamp01.
  destruct (Qle_bool p 0) eqn:E0.
  - apply Qle_bool_iff in E0. lra.
  - destruct (Qle_bool 1 p) eqn:E1; [|reflexivity].
    apply Qle_bool_iff in E1. lra.
Qed.

Lemma single_result_rank H f t perm exc :
  Rand.post (single_result H f t perm exc) (fun e => length (ex_mat e).1 = 1).
Proof. unfold single_result. apply post_bind_lift. by intros prob _. Qed.

Lemma post_True {A} (t : rand A) : Rand.post t (fun _ => True).
Proof. induction t as [a| |p k IH|n k IH]; simpl; auto. Qed.

Lemma second_substitution_rank H fuel xfuel f t perm exc :
  Rand.post (second_substitution H fuel xfuel f t perm exc)
    (fun e => length (ex_mat e).1 = 2).
Proof.
  unfold second_substitution. apply post_bind.
  apply (post_mono _ (fun _ => True)); [|apply post_True].
  intros s0 _. apply (post_bind_while (fun _ => True)); [done|..].
  - intros s _ _. apply post_True.
  - intros [[ind2 f2] t2] _ _. unfold double_result.
    apply post_bind_lift. intros ed _.
    apply post_bind_lift. intros perm2 _.
    apply post_bind_lift. by intros prob _.
Qed.

Section SingleExcitations.
Variable H : HAM.
Variables fuel xfuel : nat.
Variable det : list nat.
Hypothesis det_sorted : StronglySorted lt det.
Hypothesis det_below : Forall (fun q => q < 2 * nbasis H) det.

Local Abbreviation unocc := (unoccupied (2 * nbasis H) det).

Lemma single_outcome_inj f t f' t' :
  f ∈ det → t ∈ unocc → f' ∈ det → t' ∈ unocc →
  substitute det f t = substitute det f' t' → f = f' ∧ t = t'.
Proof.
  intros Hf [Ht _]%unoccupied_elem_of Hf' [Ht' _]%unoccupied_elem_of Heq.
  apply (f_equal (list_to_set (C:=gset nat))) in Heq.
  rewrite !substitute_set in Heq by done.
  apply single_substitution_inj in Heq; [done|..];
    by rewrite elem_of_list_to_set.
Qed.

Lemma single_count f' t' :
  f' ∈ det → t' ∈ unocc →
  (Rand.Qsum (map (fun f => Rand.Qsum (map (fun t =>
       if bool_decide (substitute det f t = substitute det f' t') then 1 else 0)
     unocc)) det) == 1)%Q.
Proof.
  intros Hf' Ht'.
  rewrite (Qsum_nested det (fun _ => unocc)
             (fun f t => if bool_decide (substitute det f t = substitute det f' t')
                         then 1 else 0)%Q).
  rewrite (Qsum_map_indicator
             (fun ft : nat * nat =>
                bool_decide (substitute det ft.1 ft.2 = substitute det f' t')) 1).
  rewrite (filter_length_by_list _ _ [(f', t')]).
  - simpl. ring.
  - apply tuples_NoDup; [by apply strongly_sorted_lt_NoDup|].
    intros _ _. apply unoccupied_NoDup.
  - apply NoDup_singleton.
  - intros [f t]. rewrite tuples_elem_of, list_elem_of_singleton. simpl.
    rewrite bool_decide_eq_true. split.
    + intros (Heq & Hf & Ht).
      destruct (single_outcome_inj f t f' t') as [-> ->]; done.
    + intros [= -> ->]. done.
Qed.
End SingleExcitations.

Lemma expect_bind_random_lt {A} p (K : bool → rand A) (g : A → Q) :
  Rand.expect (Rand.bind (Rand.random_lt p) K) g
  = (Rand.clamp01 p * Rand.expect (K true) g
     + (1 - Rand.clamp01 p) * Rand.expect (K false) g)%Q.
Proof. reflexivity. Qed.

Lemma Qsum_map_zero {A} (l : list A) : (Rand.Qsum (map (fun _ => 0%Q) l) == 0)%Q.
Proof. rewrite Qsum_map_const. ring. Qed.

Lemma inject_nat_minus (a b : nat) :
  b <= a →
  (inject_Z (Z.of_nat (a - b)) == inject_Z (Z.of_nat a) - inject_Z (Z.of_nat b))%Q.
Proof.
  intros Hle. rewrite Nat2Z.inj_sub by done. unfold Z.sub.
  by rewrite inject_Z_plus, inject_Z_opp.
Qed.

Lemma inject_nat_mult (a b : nat) :
  (inject_Z (Z.of_nat (a * b)) == inject_Z (Z.of_nat a) * inject_Z (Z.of_nat b))%Q.
Proof. by rewrite Nat2Z.inj_mul, inject_Z_mult. Qed.

Lemma inject_nat_nonzero (a : nat) : 0 < a → ¬ (inject_Z (Z.of_nat a) == 0)%Q.
Proof. intros Ha. unfold Qeq. simpl. lia. Qed.

Section SingleProbability.
Variable H : HAM.
Variables fuel xfuel : nat.
Variable det : list nat.
Hypothesis det_sorted : StronglySorted lt det.
Hypothesis det_below : Forall (fun q => q < 2 * nbasis H) det.
Hypothesis xfuel_enough : length det <= xfuel.
Hypothesis nelec_det : length det = nelec H.
Hypothesis p_single_range : (0 <= p_single H)%Q ∧ (p_single H <= 1)%Q.
Hypothesis some_occupied : 1 <= length det.
Hypothesis some_unoccupied : length det < 2 * nbasis H.

Local Abbreviation unocc := (unoccupied (2 * nbasis H) det).

Lemma prob_single_value : prob_single H = Some (reported_single H).
Proof.
  unfold prob_single, reported_single, div_checked, n_spinorb.
  destruct (Qeq_bool _ 0) eqn:E; [|done].
  apply Qeq_bool_iff in E. unfold Qeq in E. simpl in E. nia.
Qed.

Lemma expect_single_result d rank f t perm exc :
  Rand.expect (single_result H f t perm exc) (Rand.indicator (is_outcome d rank))
  = if bool_decide (exc = d) && (1 =? rank) then 1%Q else 0%Q.
Proof. unfold single_result. by rewrite prob_single_value. Qed.

Lemma reported_single_value :
  (reported_single H
   == p_single H / (inject_Z (Z.of_nat (length det))
                    * (inject_Z (Z.of_nat (2 * nbasis H))
                       - inject_Z (Z.of_nat (length det)))))%Q.
Proof.
  unfold reported_single. rewrite nelec_det.
  rewrite inject_Z_mult. unfold Z.sub. rewrite inject_Z_plus, inject_Z_opp.
  rewrite Nat2Z.inj_mul. reflexivity.
Qed.

(** Each singly excited determinant is returned with the reported
    probability times the probability that the resampling loop ends within
    its budget. *)
Lemma prob_single_outcome f' t' :
  f' ∈ det → t' ∈ unocc →
  (Rand.prob (excit_gen H fuel xfuel det) (is_outcome (substitute det f' t') 1)
   == reported_single H * first_loop_ends H fuel)%Q.
Proof.
  intros Hf' Ht'. unfold Rand.prob.
  rewrite excit_gen_stages, expect_bind_random_lt.
  rewrite clamp01_id by apply p_single_range.
  rewrite (expect_first_substitution H fuel xfuel det det_sorted det_below
             xfuel_enough _ _
             (fun f t => if bool_decide (substitute det f t = substitute det f' t')
                         then 1 else 0)%Q).
  2:{ intros f t perm _ _. rewrite expect_single_result.
      simpl. by rewrite andb_true_r. }
  rewrite (expect_first_substitution H fuel xfuel det det_sorted det_below
             xfuel_enough _ _ (fun _ _ => 0%Q)).
  2:{ intros f t perm _ _.
      apply (expect_post_zero _ _ _ (second_substitution_rank _ _ _ _ _ _ _)).
      intros e He. unfold Rand.indicator, is_outcome. rewrite He. simpl.
      by rewrite andb_false_r. }
  rewrite (single_count H det det_sorted f' t' Hf' Ht').
  rewrite (Qsum_map_ext _ (fun _ => 0%Q)) by (intros; apply Qsum_map_zero).
  rewrite Qsum_map_zero.
  rewrite reported_single_value. unfold first_loop_ends. rewrite <- nelec_det.
  rewrite <- geom_closed.
  pose proof (inject_nat_nonzero (length det) ltac:(lia)) as Hn.
  pose proof (inject_nat_nonzero (2 * nbasis H) ltac:(lia)) as HN.
  assert (¬ (inject_Z (Z.of_nat (2 * nbasis H))
             - inject_Z (Z.of_nat (length det)) == 0)%Q) as Hm.
  { rewrite <- inject_nat_minus by lia. apply inject_nat_nonzero. lia. }
  field. auto.
Qed.
End SingleProbability.

(** ** The second substitution *)

Lemma filter_ne_length (l : list nat) x :
  NoDup l → x ∈ l → length (filter (fun y => y ≠ x) l) = length l - 1.
Proof.
  intros Hnd Hx.
  pose proof (filter_app_complement (fun y => y ≠ x) l) as Hp.
  apply Permutation_length in Hp. rewrite length_app in Hp.
  assert (length (filter (fun y => ¬ y ≠ x) l) = 1) as Hone; [|lia].
  rewrite (filter_length_by_list _ _ [x]); [done|done|apply NoDup_singleton|].
  intros y. rewrite list_elem_of_singleton. split.
  - intros [Hy _]. by destruct (decide (y = x)).
  - intros ->. split; [by intros ?|done].
Qed.

Section SecondDraw.
Variable H : HAM.
Variable exc : list nat.

Lemma expect_draw_second (X : nat * nat * nat → Q) (X' : nat → nat → Q) :
  (∀ ind f2 t2, exc !! ind = Some f2 → t2 < 2 * nbasis H →
     (X (ind, f2, t2) == X' f2 t2)%Q) →
  (Rand.expect (draw_second H exc) X
   == Rand.Qsum (map (fun f2 => Rand.Qsum (map (X' f2) (seq 0 (2 * nbasis H)))) exc)
      / (inject_Z (Z.of_nat (length exc)) * inject_Z (Z.of_nat (2 * nbasis H))))%Q.
Proof.
  intros HX. unfold draw_second. rewrite expect_bind_randint.
  set (G := fun o : option nat =>
              match o with
              | Some f2 => (Rand.Qsum (map (X' f2) (seq 0 (2 * nbasis H)))
                            / inject_Z (Z.of_nat (2 * nbasis H)))%Q
              | None => 0%Q
              end).
  rewrite (Qsum_map_ext _ (fun ind => G (exc !! ind))).
  - rewrite Qsum_map_positions. unfold G.
    rewrite (Qsum_map_ext _
      (fun f2 => / inject_Z (Z.of_nat (2 * nbasis H))
                 * Rand.Qsum (map (X' f2) (seq 0 (2 * nbasis H))))%Q)
      by (intros; unfold Qdiv; ring).
    rewrite Qsum_map_scale. unfold Qdiv. rewrite Qinv_mult_distr. ring.
  - intros ind Hind%in_seq.
    destruct (lookup_lt_is_Some_2 exc ind) as [f2 Hf2]; [lia|].
    rewrite (expect_bind_lift_Some _ f2) by (rewrite getitem_nat by lia; done).
    rewrite Hf2. unfold G. rewrite expect_bind_randint. simpl Rand.expect.
    rewrite (Qsum_map_ext _ (X' f2)); [reflexivity|].
    intros t2 Ht2%in_seq. apply HX; [done|lia].
Qed.
End SecondDraw.

Section DoubleExcitations.
Variable H : HAM.
Variable det : list nat.
Hypothesis det_sorted : StronglySorted lt det.
Hypothesis det_below : Forall (fun q => q < 2 * nbasis H) det.

Local Abbreviation unocc := (unoccupied (2 * nbasis H) det).
Local Abbreviation Nn := (2 * nbasis H).

(** The second draw is accepted exactly when it removes another label of the
    input and brings in another unoccupied label. *)
Lemma second_accepted_iff f1 t1 f2 t2 :
  f1 ∈ det → t1 ∈ unocc →
  (f2 ∈ substitute det f1 t1 ∧ t2 < Nn ∧
   second_rejected f1 t1 (substitute det f1 t1) (0%nat, f2, t2) = false)
  ↔ (f2 ∈ det ∧ f2 ≠ f1) ∧ (t2 ∈ unocc ∧ t2 ≠ t1).
Proof.
  intros Hf1 [Ht1 Ht1N]%unoccupied_elem_of. unfold second_rejected.
  rewrite !orb_false_iff, contains_not_elem_of, !Nat.eqb_neq.
  rewrite !substitute_elem_of, unoccupied_elem_of.
  split.
  - intros ([[_ ->]|[Hf2 Hne]] & HtN & (Hnin & Hne1) & Hne2); [done|].
    repeat split; try done.
    + intros Ht2. apply Hnin. right. done.
    + intros ->. apply Hnin. by left.
  - intros ([Hf2 Hne] & [[Ht2 HtN] Hne']).
    split; [by right|]. split; [done|]. split; [split|].
    + intros [[_ ->]|[? _]]; done.
    + by intros ->.
    + by intros ->.
Qed.

Lemma second_accept_count f1 t1 :
  f1 ∈ det → t1 ∈ unocc →
  (Rand.Qsum (map (fun f2 => Rand.Qsum (map (fun t2 =>
       if second_rejected f1 t1 (substitute det f1 t1) (0%nat, f2, t2) then 0 else 1)
     (seq 0 Nn))) (substitute det f1 t1))
   == inject_Z (Z.of_nat ((length det - 1) * (Nn - length det - 1))))%Q.
Proof.
  intros Hf1 Ht1. pose proof (det_NoDup det det_sorted) as Hnd.
  rewrite (Qsum_nested (substitute det f1 t1) (fun _ => seq 0 Nn)
             (fun f2 t2 => if second_rejected f1 t1 (substitute det f1 t1)
                                (0%nat, f2, t2) then 0 else 1)%Q).
  rewrite (Qsum_map_ext _
    (fun ft : nat * nat =>
       if negb (second_rejected f1 t1 (substitute det f1 t1) (0%nat, ft.1, ft.2))
       then 1 else 0)%Q)
    by (intros [f2 t2] _; cbn [fst snd]; by destruct (second_rejected _ _ _ _)).
  rewrite Qsum_map_indicator.
  rewrite (filter_length_by_list _ _
             (filter (fun y => y ≠ f1) det ≫= fun f2 =>
                pair f2 <$> filter (fun y => y ≠ t1) unocc)).
  - rewrite (tuples_length _ _ (Nn - length det - 1)).
    + rewrite filter_ne_length by done. ring.
    + intros _ _. rewrite filter_ne_length;
        [|apply unoccupied_NoDup|done].
      by rewrite unoccupied_length.
  - apply tuples_NoDup; [|intros _ _; apply NoDup_seq].
    apply strongly_sorted_lt_NoDup, substitute_sorted; [done..|].
    by apply unoccupied_elem_of in Ht1 as [? _].
  - apply tuples_NoDup; [by apply NoDup_filter|].
    intros _ _. apply NoDup_filter, unoccupied_NoDup.
  - intros [f2 t2]. rewrite !tuples_elem_of, !list_elem_of_filter, elem_of_seq.
    simpl. rewrite negb_true_iff.
    pose proof (second_accepted_iff f1 t1 f2 t2 Hf1 Ht1). 
    split.
    + intros (? & ? & ?). assert (t2 < Nn) by lia. tauto.
    + intros ?. assert (0 <= t2 < 0 + Nn ↔ t2 < Nn) by lia. tauto.
Qed.
End DoubleExcitations.

Lemma Qsum_nested4 {A B C D} (l1 : list A) (F2 : A → list B)
    (F3 : A → B → list C) (F4 : A → B → C → list D) (g : A → B → C → D → Q) :
  (Rand.Qsum (map (fun a => Rand.Qsum (map (fun b => Rand.Qsum (map (fun c =>
       Rand.Qsum (map (g a b c) (F4 a b c))) (F3 a b))) (F2 a))) l1)
   == Rand.Qsum (map (fun x : A * (B * (C * D)) => g x.1 x.2.1 x.2.2.1 x.2.2.2)
        (l1 ≫= fun a => pair a <$>
           (F2 a ≫= fun b => pair b <$>
              (F3 a b ≫= fun c => pair c <$> F4 a b c)))))%Q.
Proof.
  rewrite <- (Qsum_nested l1 _ (fun a (y : B * (C * D)) => g a y.1 y.2.1 y.2.2)).
  apply Qsum_map_ext. intros a _.
  rewrite <- (Qsum_nested (F2 a) _ (fun b (z : C * D) => g a b z.1 z.2)).
  apply Qsum_map_ext. intros b _.
  apply (Qsum_nested (F3 a b) (F4 a b) (g a b)).
Qed.

Section DoubleOutcomes.
Variable H : HAM.
Variable det : list nat.
Hypothesis det_sorted : StronglySorted lt det.
Hypothesis det_below : Forall (fun q => q < 2 * nbasis H) det.

Local Abbreviation unocc := (unoccupied (2 * nbasis H) det).
Local Abbreviation Nn := (2 * nbasis H).

Lemma double_substitution_sorted f1 t1 f2 t2 :
  f1 ∈ det → f2 ∈ det → f1 ≠ f2 → t1 ∈ unocc → t2 ∈ unocc → t1 ≠ t2 →
  StronglySorted lt (substitute (substitute det f1 t1) f2 t2) ∧
  list_to_set (substitute (substitute det f1 t1) f2 t2)
  =@{gset nat} (list_to_set det ∖ {[f1]} ∪ {[t1]}) ∖ {[f2]} ∪ {[t2]}.
Proof.
  intros Hf1 Hf2 Hf [Ht1 _]%unoccupied_elem_of [Ht2 _]%unoccupied_elem_of Ht.
  pose proof (det_NoDup det det_sorted) as Hnd.
  assert (f2 ∈ substitute det f1 t1) as Hf2'
    by (apply substitute_elem_of; right; split; [done|by apply not_eq_sym]).
  split.
  - apply substitute_sorted; [|done|].
    + by apply strongly_sorted_lt_NoDup, substitute_sorted.
    + rewrite substitute_elem_of. intros [[_ ->]|[? _]]; done.
  - by rewrite !substitute_set.
Qed.

Lemma double_outcome_eq_iff f1 t1 f2 t2 g1 u1 g2 u2 :
  f1 ∈ det → f2 ∈ det → f1 ≠ f2 → t1 ∈ unocc → t2 ∈ unocc → t1 ≠ t2 →
  g1 ∈ det → g2 ∈ det → g1 ≠ g2 → u1 ∈ unocc → u2 ∈ unocc → u1 ≠ u2 →
  substitute (substitute det f1 t1) f2 t2
  = substitute (substitute det g1 u1) g2 u2
  ↔ (f1 = g1 ∧ f2 = g2 ∨ f1 = g2 ∧ f2 = g1) ∧
    (t1 = u1 ∧ t2 = u2 ∨ t1 = u2 ∧ t2 = u1).
Proof.
  intros Hf1 Hf2 Hf Ht1 Ht2 Ht Hg1 Hg2 Hg Hu1 Hu2 Hu.
  destruct (double_substitution_sorted f1 t1 f2 t2) as [Hs Hset]; [done..|].
  destruct (double_substitution_sorted g1 u1 g2 u2) as [Hs' Hset']; [done..|].
  apply unoccupied_elem_of in Ht1 as [Ht1 _], Ht2 as [Ht2 _].
  apply unoccupied_elem_of in Hu1 as [Hu1 _], Hu2 as [Hu2 _].
  rewrite <- (double_substitution_inj (list_to_set det) f1 f2 t1 t2 g1 g2 u1 u2);
    try (by rewrite elem_of_list_to_set); try done.
  rewrite <- Hset, <- Hset'. split; [by intros ->|by apply sorted_set_eq].
Qed.
End DoubleOutcomes.

Section DoubleCount.
Variable H : HAM.
Variable det : list nat.
Hypothesis det_sorted : StronglySorted lt det.
Hypothesis det_below : Forall (fun q => q < 2 * nbasis H) det.

Local Abbreviation unocc := (unoccupied (2 * nbasis H) det).
Local Abbreviation Nn := (2 * nbasis H).

(** Exactly four sequences of accepted draws lead to a given doubly excited
    determinant: the two removed labels and the two new labels can each come
    in either order. *)
Lemma double_count g1 u1 g2 u2 :
  g1 ∈ det → g2 ∈ det → g1 ≠ g2 → u1 ∈ unocc → u2 ∈ unocc → u1 ≠ u2 →
  (Rand.Qsum (map (fun f1 => Rand.Qsum (map (fun t1 => Rand.Qsum (map (fun f2 =>
       Rand.Qsum (map (fun t2 =>
         if second_rejected f1 t1 (substitute det f1 t1) (0%nat, f2, t2) then 0
         else if bool_decide (substitute (substitute det f1 t1) f2 t2
                              = substitute (substitute det g1 u1) g2 u2)
              then 1 else 0)
       (seq 0 Nn))) (substitute det f1 t1))) unocc)) det) == 4)%Q.
Proof.
  intros Hg1 Hg2 Hg Hu1 Hu2 Hu.
  pose proof (det_NoDup det det_sorted) as Hnd.
  rewrite (Qsum_nested4 det (fun _ => unocc) (fun f1 t1 => substitute det f1 t1)
             (fun _ _ _ => seq 0 Nn)
             (fun f1 t1 f2 t2 =>
                if second_rejected f1 t1 (substitute det f1 t1) (0%nat, f2, t2)
                then 0
                else if bool_decide (substitute (substitute det f1 t1) f2 t2
                                     = substitute (substitute det g1 u1) g2 u2)
                     then 1 else 0)%Q).
  rewrite (Qsum_map_ext _
    (fun x : nat * (nat * (nat * nat)) =>
       if negb (second_rejected x.1 x.2.1 (substitute det x.1 x.2.1)
                  (0%nat, x.2.2.1, x.2.2.2))
          && bool_decide (substitute (substitute det x.1 x.2.1) x.2.2.1 x.2.2.2
                          = substitute (substitute det g1 u1) g2 u2)
       then 1 else 0)%Q).
  2:{ intros [f1 [t1 [f2 t2]]] _. cbn [fst snd].
      destruct (second_rejected _ _ _ _); [done|].
      by destruct (bool_decide _). }
  rewrite Qsum_map_indicator.
  rewrite (filter_length_by_list _ _
             [(g1, (u1, (g2, u2))); (g1, (u2, (g2, u1)));
              (g2, (u1, (g1, u2))); (g2, (u2, (g1, u1)))]).
  - simpl. ring.
  - apply tuples_NoDup; [done|]. intros f1 Hf1.
    apply tuples_NoDup; [apply unoccupied_NoDup|]. intros t1 Ht1.
    apply tuples_NoDup; [|intros _ _; apply NoDup_seq].
    apply strongly_sorted_lt_NoDup, substitute_sorted; [done..|].
    by apply unoccupied_elem_of in Ht1 as [? _].
  - repeat (apply NoDup_cons; split); [| | |apply not_elem_of_nil|apply NoDup_nil_2].
    + rewrite !not_elem_of_cons. repeat split;
        [by intros [= ? ?]|by intros [= ?]|by intros [= ?]|apply not_elem_of_nil].
    + rewrite !not_elem_of_cons. repeat split;
        [by intros [= ?]|by intros [= ?]|apply not_elem_of_nil].
    + rewrite !not_elem_of_cons. repeat split;
        [by intros [= ? ?]|apply not_elem_of_nil].
  - intros [f1 [t1 [f2 t2]]]. cbn [fst snd].
    rewrite andb_true_iff, negb_true_iff, bool_decide_eq_true.
    rewrite !tuples_elem_of, elem_of_seq.
    rewrite !elem_of_cons, elem_of_nil.
    split.
    + intros ((Hrej & Heq) & Hf1 & Ht1 & Hf2 & Ht2).
      destruct (proj1 (second_accepted_iff H det f1 t1 f2 t2 Hf1 Ht1))
        as ((Hf2' & Hne) & (Ht2' & Hne')); [split; [done|split; [lia|done]]|].
      apply (double_outcome_eq_iff H det det_sorted f1 t1 f2 t2 g1 u1 g2 u2)
        in Heq; try done; try (by apply not_eq_sym).
      destruct Heq as [[[-> ->]|[-> ->]] [[-> ->]|[-> ->]]]; tauto.
    + assert (∀ f1 t1 f2 t2,
                f1 ∈ det → f2 ∈ det → f1 ≠ f2 →
                t1 ∈ unocc → t2 ∈ unocc → t1 ≠ t2 →
                (f1 = g1 ∧ f2 = g2 ∨ f1 = g2 ∧ f2 = g1) ∧
                (t1 = u1 ∧ t2 = u2 ∨ t1 = u2 ∧ t2 = u1) →
                (second_rejected f1 t1 (substitute det f1 t1) (0, f2, t2) = false
                 ∧ substitute (substitute det f1 t1) f2 t2
                   = substitute (substitute det g1 u1) g2 u2)
                ∧ f1 ∈ det ∧ t1 ∈ unocc ∧ f2 ∈ substitute det f1 t1
                  ∧ 0 <= t2 < 0 + Nn) as Hvalid.
      { intros a1 b1 a2 b2 Ha1 Ha2 Ha Hb1 Hb2 Hb Hcase.
        destruct (proj2 (second_accepted_iff H det a1 b1 a2 b2 Ha1 Hb1))
          as (Hin & Hlt & Hacc);
          [split; split; [done|by apply not_eq_sym|done|by apply not_eq_sym]|].
        split; [split; [done|]|split; [done|split; [done|split; [done|lia]]]].
        by apply (double_outcome_eq_iff H det det_sorted). }
      intros [[= -> -> -> ->]|[[= -> -> -> ->]|[[= -> -> -> ->]|[[= -> -> -> ->]|[]]]]];
        apply Hvalid; try done; try (by apply not_eq_sym); tauto.
Qed.
End DoubleCount.

Lemma Qsum_map_const_minus {A} (c : Q) (a : A → Q) (l : list A) :
  (Rand.Qsum (map (fun x => c - a x) l)
   == inject_Z (Z.of_nat (length l)) * c - Rand.Qsum (map a l))%Q.
Proof.
  rewrite (Qsum_map_ext _ (fun x => c + (-1) * a x)%Q) by (intros; ring).
  rewrite Qsum_map_plus, Qsum_map_const, Qsum_map_scale. ring.
Qed.

Lemma comb2_double (k : nat) :
  2 <= k →
  (2 * inject_Z (comb2 (Z.of_nat k))
   == inject_Z (Z.of_nat k) * (inject_Z (Z.of_nat k) - 1))%Q.
Proof.
  intros Hk.
  assert (2 * comb2 (Z.of_nat k) = Z.of_nat k * (Z.of_nat k - 1))%Z as E.
  { pose proof (comb2_pairs (seq 0 k)) as Hc.
    pose proof (later_pairs_length (seq 0 k)) as Hl.
    rewrite length_seq in Hc, Hl. rewrite Hc. nia. }
  change 2%Q with (inject_Z 2). change 1%Q with (inject_Z 1).
  rewrite <- inject_Z_mult, E, inject_Z_mult. unfold Z.sub.
  by rewrite inject_Z_plus, inject_Z_opp.
Qed.

Section DoubleProbability.
Variable H : HAM.
Variables fuel xfuel : nat.
Variable det : list nat.
Hypothesis det_sorted : StronglySorted lt det.
Hypothesis det_below : Forall (fun q => q < 2 * nbasis H) det.
Hypothesis xfuel_enough : length det <= xfuel.
Hypothesis nelec_det : length det = nelec H.
Hypothesis p_single_range : (0 <= p_single H)%Q ∧ (p_single H <= 1)%Q.
Hypothesis two_occupied : 2 <= length det.
Hypothesis two_unoccupied : length det + 2 <= 2 * nbasis H.

Local Abbreviation unocc := (unoccupied (2 * nbasis H) det).
Local Abbreviation Nn := (2 * nbasis H).

Let n : Q := inject_Z (Z.of_nat (length det)).
Let N : Q := inject_Z (Z.of_nat Nn).
Let rho2 : Q :=
  (1 - inject_Z (Z.of_nat ((length det - 1) * (Nn - length det - 1)))
       / inject_Z (Z.of_nat (length det * Nn)))%Q.

Lemma prob_double_value : prob_double H = Some (reported_double H).
Proof using nelec_det two_occupied two_unoccupied.
  clear xfuel_enough p_single_range.
  unfold prob_double, reported_double, div_checked, n_spinorb.
  destruct (Qeq_bool _ 0) eqn:E; [|done].
  apply Qeq_bool_iff in E. exfalso.
  assert (∀ k, 2 <= k → 0 < comb2 k)%Z as Hpos.
  { intros k Hk. unfold comb2. destruct (Z.ltb_spec k 2); [lia|].
    apply Z.div_str_pos. nia. }
  pose proof (Hpos (2 * Z.of_nat (nbasis H) - Z.of_nat (nelec H))%Z ltac:(lia)).
  pose proof (Hpos (Z.of_nat (nelec H)) ltac:(lia)).
  unfold Qeq in E. simpl in E. nia.
Qed.

Lemma prob_second_rejected f1 t1 :
  f1 ∈ det → t1 ∈ unocc →
  (Rand.prob (draw_second H (substitute det f1 t1))
     (second_rejected f1 t1 (substitute det f1 t1)) == rho2)%Q.
Proof.
  intros Hf1 Ht1. unfold Rand.prob.
  rewrite (expect_draw_second H _ _
    (fun f2 t2 => 1 - (if second_rejected f1 t1 (substitute det f1 t1)
                            (0%nat, f2, t2) then 0 else 1))%Q).
  2:{ intros ind f2 t2 _ _. unfold Rand.indicator.
      change (second_rejected f1 t1 (substitute det f1 t1) (ind, f2, t2))
        with (second_rejected f1 t1 (substitute det f1 t1) (0, f2, t2)).
      destruct (second_rejected _ _ _ _); ring. }
  rewrite (Qsum_map_ext _
    (fun f2 => N - Rand.Qsum (map (fun t2 =>
                 if second_rejected f1 t1 (substitute det f1 t1) (0%nat, f2, t2)
                 then 0 else 1) (seq 0 Nn)))%Q).
  2:{ intros f2 _. rewrite Qsum_map_const_minus, length_seq. unfold N. ring. }
  rewrite Qsum_map_const_minus, substitute_length.
  rewrite (second_accept_count H det det_sorted det_below f1 t1 Hf1 Ht1).
  unfold rho2. rewrite (inject_nat_mult (length det) Nn). fold n N.
  pose proof (inject_nat_nonzero (length det) ltac:(lia)) as Hn.
  pose proof (inject_nat_nonzero Nn ltac:(lia)) as HN.
  fold n in Hn. fold N in HN. field. auto.
Qed.

Lemma expect_double_result d f1 t1 perm exc ind f2 t2 :
  StronglySorted lt exc → length exc = length det →
  exc !! ind = Some f2 → t2 ∉ exc →
  Rand.expect (double_result H xfuel f1 t1 perm exc (ind, f2, t2))
    (Rand.indicator (is_outcome d 2))
  = if bool_decide (substitute exc f2 t2 = d) then 1%Q else 0%Q.
Proof.
  intros Hs Hlen Hind Ht2. unfold double_result.
  pose proof (lookup_lt_Some _ _ _ Hind) as Hlt.
  rewrite (expect_bind_lift_Some _ (<[ind := t2]> exc))
    by (by apply setitem_nat).
  pose proof Hind as (l1 & l2 & Hexc & Hl1)%lookup_split.
  assert (elec_exchange_ops xfuel (<[ind := t2]> exc) (Z.of_nat ind)
          = Some (length (filter (fun b => b < t2) l2)
                  + length (filter (fun a => t2 < a) l1))) as Hperm.
  { rewrite Hexc, <- Hl1, insert_middle.
    apply elec_exchange_ops_replaced.
    - eapply strongly_sorted_remove_middle. by rewrite <- Hexc.
    - rewrite Hexc in Ht2. rewrite !not_elem_of_app, not_elem_of_cons in *.
      tauto.
    - rewrite Hexc in Hlen. rewrite !length_app in *. simpl in *. lia. }
  rewrite (expect_bind_lift_Some _ _ _ _ Hperm).
  rewrite (expect_bind_lift_Some _ _ _ _ prob_double_value).
  simpl. unfold Rand.indicator, is_outcome. simpl.
  rewrite (sorted_insert_substitute exc ind f2 t2
             (strongly_sorted_lt_NoDup _ Hs) Hind).
  by rewrite andb_true_r.
Qed.

Lemma expect_second_substitution d f1 t1 perm :
  f1 ∈ det → t1 ∈ unocc →
  (Rand.expect (second_substitution H fuel xfuel f1 t1 perm (substitute det f1 t1))
     (Rand.indicator (is_outcome d 2))
   == geom rho2 fuel / (n * N)
      * Rand.Qsum (map (fun f2 => Rand.Qsum (map (fun t2 =>
          if second_rejected f1 t1 (substitute det f1 t1) (0%nat, f2, t2) then 0
          else if bool_decide (substitute (substitute det f1 t1) f2 t2 = d)
               then 1 else 0)
        (seq 0 Nn))) (substitute det f1 t1)))%Q.
Proof.
  intros Hf1 Ht1. unfold second_substitution.
  rewrite expect_resample_bind.
  rewrite (geom_ext _ rho2) by (by apply prob_second_rejected).
  rewrite (expect_draw_second H _ _
    (fun f2 t2 =>
       if second_rejected f1 t1 (substitute det f1 t1) (0%nat, f2, t2) then 0
       else if bool_decide (substitute (substitute det f1 t1) f2 t2 = d)
            then 1 else 0)%Q).
  - rewrite substitute_length. fold n N. unfold Qdiv. ring.
  - intros ind f2 t2 Hind _.
    change (second_rejected f1 t1 (substitute det f1 t1) (ind, f2, t2))
      with (second_rejected f1 t1 (substitute det f1 t1) (0, f2, t2)).
    destruct (second_rejected _ _ _ _) eqn:Hrej; [reflexivity|].
    rewrite expect_double_result; [reflexivity| | |done|].
    + apply substitute_sorted; [by apply det_NoDup|done|].
      by apply unoccupied_elem_of in Ht1 as [? _].
    + apply substitute_length.
    + unfold second_rejected in Hrej.
      apply orb_false_iff in Hrej as [Hrej _].
      apply orb_false_iff in Hrej as [Hrej _].
      by apply contains_not_elem_of.
Qed.

Lemma reported_double_value :
  (reported_double H
   == (1 - p_single H) * 4 / (n * (n - 1) * ((N - n) * (N - n - 1))))%Q.
Proof using nelec_det two_occupied two_unoccupied.
  clear xfuel_enough p_single_range.
  unfold reported_double. rewrite <- nelec_det.
  replace (2 * Z.of_nat (nbasis H) - Z.of_nat (length det))%Z
    with (Z.of_nat (Nn - length det)) by lia.
  rewrite inject_Z_mult.
  pose proof (comb2_double (length det) two_occupied) as Hn.
  pose proof (comb2_double (Nn - length det) ltac:(lia)) as Hm.
  rewrite (inject_nat_minus Nn (length det)) in Hm by lia.
  fold n N in Hn, Hm.
  set (cn := inject_Z (comb2 (Z.of_nat (length det)))) in *.
  set (cm := inject_Z (comb2 (Z.of_nat (Nn - length det)))) in *.
  assert (¬ n == 0)%Q as Hn0 by (apply inject_nat_nonzero; lia).
  assert (¬ n - 1 == 0)%Q as Hn1.
  { unfold n. change 1%Q with (inject_Z (Z.of_nat 1)).
    rewrite <- inject_nat_minus by lia. apply inject_nat_nonzero. lia. }
  assert (¬ N - n == 0)%Q as Hm0.
  { unfold n, N. rewrite <- inject_nat_minus by lia.
    apply inject_nat_nonzero. lia. }
  assert (¬ N - n - 1 == 0)%Q as Hm1.
  { unfold n, N. change 1%Q with (inject_Z (Z.of_nat 1)).
    rewrite <- !inject_nat_minus by lia. apply inject_nat_nonzero. lia. }
  assert (¬ cn == 0)%Q as Hcn.
  { intros E. rewrite E in Hn. apply Hn0.
    assert (n * (n - 1) == 0)%Q as E' by (rewrite <- Hn; ring).
    apply Qmult_integral in E' as [?|?]; tauto. }
  assert (¬ cm == 0)%Q as Hcm.
  { intros E. rewrite E in Hm. apply Hm0.
    assert ((N - n) * (N - n - 1) == 0)%Q as E' by (rewrite <- Hm; ring).
    apply Qmult_integral in E' as [?|?]; tauto. }
  rewrite <- Hn, <- Hm. field. auto.
Qed.

(** Each doubly excited determinant is returned with the reported
    probability times the probabilities that the two resampling loops end
    within their budget. *)
Lemma prob_double_outcome g1 u1 g2 u2 :
  g1 ∈ det → g2 ∈ det → g1 ≠ g2 → u1 ∈ unocc → u2 ∈ unocc → u1 ≠ u2 →
  (Rand.prob (excit_gen H fuel xfuel det)
     (is_outcome (substitute (substitute det g1 u1) g2 u2) 2)
   == reported_double H * first_loop_ends H fuel * second_loop_ends H fuel)%Q.
Proof.
  intros Hg1 Hg2 Hg Hu1 Hu2 Hu. unfold Rand.prob.
  set (d := substitute (substitute det g1 u1) g2 u2).
  rewrite excit_gen_stages, expect_bind_random_lt.
  rewrite clamp01_id by apply p_single_range.
  rewrite (expect_first_substitution H fuel xfuel det det_sorted det_below
             xfuel_enough _ _ (fun _ _ => 0%Q)).
  2:{ intros f t perm _ _.
      apply (expect_post_zero _ _ _ (single_result_rank _ _ _ _ _)).
      intros e He. unfold Rand.indicator, is_outcome. rewrite He. simpl.
      by rewrite andb_false_r. }
  rewrite (expect_first_substitution H fuel xfuel det det_sorted det_below
             xfuel_enough _ _
             (fun f1 t1 =>
                geom rho2 fuel / (n * N)
                * Rand.Qsum (map (fun f2 => Rand.Qsum (map (fun t2 =>
                    if second_rejected f1 t1 (substitute det f1 t1) (0%nat, f2, t2)
                    then 0
                    else if bool_decide (substitute (substitute det f1 t1) f2 t2 = d)
                         then 1 else 0)
                  (seq 0 Nn))) (substitute det f1 t1)))%Q).
  2:{ intros f1 t1 perm Hf1 Ht1. by apply expect_second_substitution. }
  rewrite (Qsum_map_ext _ (fun _ => 0%Q)) by (intros; apply Qsum_map_zero).
  rewrite Qsum_map_zero.
  rewrite (Qsum_map_ext _
    (fun f1 => geom rho2 fuel / (n * N)
       * Rand.Qsum (map (fun t1 => Rand.Qsum (map (fun f2 => Rand.Qsum (map (fun t2 =>
           if second_rejected f1 t1 (substitute det f1 t1) (0%nat, f2, t2) then 0
           else if bool_decide (substitute (substitute det f1 t1) f2 t2 = d)
                then 1 else 0)
         (seq 0 Nn))) (substitute det f1 t1))) unocc))%Q)
    by (intros; apply Qsum_map_scale).
  rewrite Qsum_map_scale.
  unfold d. rewrite (double_count H det det_sorted g1 u1 g2 u2) by done.
  rewrite reported_double_value.
  unfold first_loop_ends, second_loop_ends. rewrite <- nelec_det.
  fold n N rho2.
  rewrite <- !geom_closed.
  generalize (geom (n / N) fuel) (geom rho2 fuel). intros G1 G2.
  assert (rho2 == 1 - (n - 1) * (N - n - 1) / (n * N))%Q as ->.
  { unfold rho2.
    rewrite (inject_nat_mult (length det - 1)), (inject_nat_mult (length det) Nn).
    rewrite !(inject_nat_minus _ 1), (inject_nat_minus Nn) by lia.
    reflexivity. }
  assert (¬ n == 0)%Q as Hn0 by (apply inject_nat_nonzero; lia).
  assert (¬ N == 0)%Q as HN0 by (apply inject_nat_nonzero; lia).
  assert (¬ n - 1 == 0)%Q as Hn1.
  { unfold n. change 1%Q with (inject_Z (Z.of_nat 1)).
    rewrite <- inject_nat_minus by lia. apply inject_nat_nonzero. lia. }
  assert (¬ N - n == 0)%Q as Hm0.
  { unfold n, N. rewrite <- inject_nat_minus by lia.
    apply inject_nat_nonzero. lia. }
  assert (¬ N - n - 1 == 0)%Q as Hm1.
  { unfold n, N. change 1%Q with (inject_Z (Z.of_nat 1)).
    rewrite <- !inject_nat_minus by lia. apply inject_nat_nonzero. lia. }
  field. auto.
Qed.
End DoubleProbability.

(** ** The lists of singly and doubly excited determinants *)

Lemma bind_singleton_tuples {A B C} (l : list A) (F : A → list B) (g : A → B → C) :
  (l ≫= fun x => F x ≫= fun y => [g x y])
  = (fun xy : A * B => g xy.1 xy.2) <$> (l ≫= fun x => pair x <$> F x).
Proof.
  induction l as [|x l IH]; [done|].
  rewrite !bind_cons, fmap_app, IH. f_equal.
  rewrite <- list_fmap_compose.
  induction (F x) as [|y k IHk]; [done|].
  rewrite bind_cons, fmap_cons, IHk. done.
Qed.

Section OutcomeLists.
Variable H : HAM.
Variable det : list nat.
Hypothesis det_sorted : StronglySorted lt det.
Hypothesis det_below : Forall (fun q => q < 2 * nbasis H) det.

Local Abbreviation unocc := (unoccupied (2 * nbasis H) det).
Local Abbreviation Nn := (2 * nbasis H).

Lemma single_outcomes_tuples :
  single_outcomes Nn det
  = (fun ft : nat * nat => substitute det ft.1 ft.2)
    <$> (det ≫= fun f => pair f <$> unocc).
Proof. apply (bind_singleton_tuples det (fun _ => unocc) (substitute det)). Qed.

Lemma double_outcomes_tuples :
  double_outcomes Nn det
  = (fun x : (nat * nat) * (nat * nat) =>
       substitute (substitute det x.1.1 x.2.1) x.1.2 x.2.2)
    <$> (later_pairs det ≫= fun ff => pair ff <$> later_pairs unocc).
Proof.
  apply (bind_singleton_tuples (later_pairs det) (fun _ => later_pairs unocc)
           (fun ff tt => substitute (substitute det ff.1 tt.1) ff.2 tt.2)).
Qed.

Lemma single_outcomes_elem_of d :
  d ∈ single_outcomes Nn det
  ↔ ∃ f t, f ∈ det ∧ t ∈ unocc ∧ d = substitute det f t.
Proof.
  rewrite single_outcomes_tuples, list_elem_of_fmap. split.
  - intros ([f t] & -> & Hin). apply tuples_elem_of in Hin as [? ?].
    by exists f, t.
  - intros (f & t & Hf & Ht & ->). exists (f, t). split; [done|].
    by apply tuples_elem_of.
Qed.

Lemma double_outcomes_elem_of d :
  d ∈ double_outcomes Nn det
  ↔ ∃ f1 f2 t1 t2, (f1 ∈ det ∧ f2 ∈ det ∧ f1 < f2)
      ∧ (t1 ∈ unocc ∧ t2 ∈ unocc ∧ t1 < t2)
      ∧ d = substitute (substitute det f1 t1) f2 t2.
Proof.
  rewrite double_outcomes_tuples, list_elem_of_fmap. split.
  - intros ([[f1 f2] [t1 t2]] & -> & Hin).
    apply tuples_elem_of in Hin as [Hf Ht].
    apply later_pairs_elem_of in Hf; [|done].
    apply later_pairs_elem_of in Ht; [|apply unoccupied_sorted].
    by exists f1, f2, t1, t2.
  - intros (f1 & f2 & t1 & t2 & Hf & Ht & ->).
    exists ((f1, f2), (t1, t2)). split; [done|].
    apply tuples_elem_of. split.
    + by apply later_pairs_elem_of.
    + apply later_pairs_elem_of; [apply unoccupied_sorted|done].
Qed.

Lemma single_outcomes_NoDup : NoDup (single_outcomes Nn det).
Proof.
  rewrite single_outcomes_tuples. apply NoDup_fmap_2_strong.
  - intros [f t] [f' t'] [Hf Ht]%tuples_elem_of [Hf' Ht']%tuples_elem_of Heq.
    simpl in Heq.
    by destruct (single_outcome_inj H det f t f' t') as [-> ->].
  - apply tuples_NoDup; [by apply strongly_sorted_lt_NoDup|].
    intros _ _. apply unoccupied_NoDup.
Qed.

Lemma double_outcomes_NoDup : NoDup (double_outcomes Nn det).
Proof.
  rewrite double_outcomes_tuples. apply NoDup_fmap_2_strong.
  - intros [[f1 f2] [t1 t2]] [[g1 g2] [u1 u2]]
      [Hf Ht]%tuples_elem_of [Hg Hu]%tuples_elem_of Heq.
    simpl in Heq.
    apply later_pairs_elem_of in Hf as (Hf1 & Hf2 & Hflt); [|done].
    apply later_pairs_elem_of in Hg as (Hg1 & Hg2 & Hglt); [|done].
    apply later_pairs_elem_of in Ht as (Ht1 & Ht2 & Htlt);
      [|apply unoccupied_sorted].
    apply later_pairs_elem_of in Hu as (Hu1 & Hu2 & Hult);
      [|apply unoccupied_sorted].
    apply (double_outcome_eq_iff H det det_sorted f1 t1 f2 t2 g1 u1 g2 u2)
      in Heq; try done; try lia.
    destruct Heq as [[[-> ->]|[-> ->]] [[-> ->]|[-> ->]]]; try done; lia.
  - apply tuples_NoDup.
    + by apply later_pairs_NoDup, strongly_sorted_lt_NoDup.
    + intros _ _. apply later_pairs_NoDup, unoccupied_NoDup.
Qed.

Lemma single_outcomes_length :
  length (single_outcomes Nn det) = length det * (Nn - length det).
Proof.
  rewrite single_outcomes_tuples, length_fmap.
  apply tuples_length. intros _ _.
  apply unoccupied_length; [by apply strongly_sorted_lt_NoDup|done].
Qed.

Lemma double_outcomes_length :
  length (double_outcomes Nn det)
  = length (later_pairs det) * length (later_pairs unocc).
Proof.
  rewrite double_outcomes_tuples, length_fmap.
  by apply tuples_length.
Qed.
End OutcomeLists.

(** ** What [excit_gen] reports *)

Section Reported.
Variable H : HAM.
Variables fuel xfuel : nat.
Variable det : list nat.
Hypothesis det_sorted : StronglySorted lt det.

Local Abbreviation unocc := (unoccupied (2 * nbasis H) det).
Local Abbreviation Nn := (2 * nbasis H).

Lemma first_substitution_post {A} (K : nat → nat → nat → list nat → rand A)
    (Post : A → Prop) :
  (∀ f t perm, f ∈ det → t ∈ unocc →
     Rand.post (K f t perm (substitute det f t)) Post) →
  Rand.post (first_substitution H fuel xfuel det K) Post.
Proof.
  intros HK. pose proof (strongly_sorted_lt_NoDup det det_sorted) as Hnd.
  unfold first_substitution.
  apply post_bind_randint. intros ind Hind.
  apply post_bind_lift. intros f Hf. rewrite getitem_nat in Hf by done.
  apply post_bind. apply (post_mono _ (fun t => t < Nn)); [|by intros t Ht].
  intros t0 Ht0.
  apply (post_bind_while (fun t => t < Nn)); [done|by intros _ _ _ t Ht|].
  intros t Ht Hto. apply contains_not_elem_of in Hto.
  apply post_bind_lift. intros ed Hed.
  rewrite setitem_nat in Hed by done. injection Hed as <-.
  apply post_bind_lift. intros perm _.
  rewrite (sorted_insert_substitute det ind f t Hnd Hf).
  apply HK; [by eapply list_elem_of_lookup_2|].
  by apply unoccupied_elem_of.
Qed.

Lemma draw_second_post exc :
  Rand.post (draw_second H exc)
    (fun '(ind, f2, t2) => exc !! ind = Some f2 ∧ t2 < Nn).
Proof.
  unfold draw_second. apply post_bind_randint. intros ind Hind.
  apply post_bind_lift. intros f2 Hf2. rewrite getitem_nat in Hf2 by done.
  apply post_bind_randint. intros t2 Ht2. by simpl.
Qed.

Lemma second_substitution_post f1 t1 perm exc (Post : excitation → Prop) :
  (∀ ind f2 t2, exc !! ind = Some f2 → t2 < Nn →
     second_rejected f1 t1 exc (ind, f2, t2) = false →
     Rand.post (double_result H xfuel f1 t1 perm exc (ind, f2, t2)) Post) →
  Rand.post (second_substitution H fuel xfuel f1 t1 perm exc) Post.
Proof.
  intros HK. unfold second_substitution.
  apply post_bind. eapply post_mono; [|apply draw_second_post].
  intros s0 Hs0.
  apply (post_bind_while (fun '(ind, f2, t2) => exc !! ind = Some f2 ∧ t2 < Nn));
    [done|intros _ _ _; apply draw_second_post|].
  intros [[ind f2] t2] [Hf2 Ht2] Hacc. by apply HK.
Qed.

Lemma single_result_post f t perm exc :
  Rand.post (single_result H f t perm exc)
    (fun e => length (ex_mat e).1 = 1 ∧ ex_prob e = reported_single H
              ∧ ex_det e = exc).
Proof.
  unfold single_result. apply post_bind_lift. intros prob Hprob. simpl.
  split; [done|]. split; [|done].
  unfold prob_single, div_checked in Hprob.
  destruct (Qeq_bool _ 0); [done|]. by injection Hprob as <-.
Qed.

Lemma double_result_post f1 t1 perm exc ind f2 t2 :
  NoDup exc → exc !! ind = Some f2 →
  Rand.post (double_result H xfuel f1 t1 perm exc (ind, f2, t2))
    (fun e => length (ex_mat e).1 = 2 ∧ ex_prob e = reported_double H
              ∧ ex_det e = substitute exc f2 t2).
Proof.
  intros Hnd Hf2. unfold double_result.
  pose proof (lookup_lt_Some _ _ _ Hf2) as Hlt.
  apply post_bind_lift. intros ed Hed.
  rewrite setitem_nat in Hed by done. injection Hed as <-.
  apply post_bind_lift. intros perm2 _.
  apply post_bind_lift. intros prob Hprob. simpl.
  split; [done|]. split.
  - unfold prob_double, div_checked in Hprob.
    destruct (Qeq_bool _ 0); [done|]. by injection Hprob as <-.
  - by apply sorted_insert_substitute.
Qed.

(** A double replaces two different occupied labels by two different
    unoccupied ones; the order of the two draws does not matter. *)
Lemma double_outcome_listed f1 t1 f2 t2 :
  f1 ∈ det → f2 ∈ det → f1 ≠ f2 → t1 ∈ unocc → t2 ∈ unocc → t1 ≠ t2 →
  substitute (substitute det f1 t1) f2 t2 ∈ double_outcomes Nn det.
Proof.
  intros Hf1 Hf2 Hf Ht1 Ht2 Ht.
  apply double_outcomes_elem_of; [done|].
  assert (∃ a b, (a ∈ det ∧ b ∈ det ∧ a < b)
                 ∧ (f1 = a ∧ f2 = b ∨ f1 = b ∧ f2 = a)) as (a & b & Hab & Hfc).
  { destruct (Nat.lt_total f1 f2) as [?|[?|?]];
      [exists f1, f2|done|exists f2, f1]; tauto. }
  assert (∃ u v, (u ∈ unocc ∧ v ∈ unocc ∧ u < v)
                 ∧ (t1 = u ∧ t2 = v ∨ t1 = v ∧ t2 = u)) as (u & v & Huv & Htc).
  { destruct (Nat.lt_total t1 t2) as [?|[?|?]];
      [exists t1, t2|done|exists t2, t1]; tauto. }
  exists a, b, u, v. split; [done|]. split; [done|].
  destruct Hab as (Ha & Hb & Hlt), Huv as (Hu & Hv & Hlt').
  apply (double_outcome_eq_iff H det det_sorted); try done; lia.
Qed.

Lemma excit_gen_reports :
  Rand.post (excit_gen H fuel xfuel det) (reported_outcome H det).
Proof.
  pose proof (strongly_sorted_lt_NoDup det det_sorted) as Hnd.
  rewrite excit_gen_stages. apply post_bind_random_lt. intros single.
  apply first_substitution_post. intros f1 t1 perm Hf1 Ht1.
  destruct single.
  - eapply post_mono; [|apply single_result_post].
    intros e (Hrank & Hprob & Hdet). left. split; [done|]. split; [done|].
    rewrite Hdet. apply single_outcomes_elem_of. by exists f1, t1.
  - pose proof Ht1 as [Ht1' _]%unoccupied_elem_of.
    pose proof (strongly_sorted_lt_NoDup _
                  (substitute_sorted det f1 t1 Hnd Hf1 Ht1')) as Hnd1.
    apply second_substitution_post. intros ind f2 t2 Hf2 Ht2 Hacc.
    eapply post_mono; [|by apply double_result_post].
    intros e (Hrank & Hprob & Hdet). right. split; [done|]. split; [done|].
    rewrite Hdet.
    destruct (proj1 (second_accepted_iff H det f1 t1 f2 t2 Hf1 Ht1))
      as ((Hf2' & Hne) & (Ht2' & Hne')).
    { split; [by eapply list_elem_of_lookup_2|]. split; [done|exact Hacc]. }
    apply double_outcome_listed; try done; by apply not_eq_sym.
Qed.
End Reported.

(** ** The divisor of the double's probability *)

Lemma two_elements_length {A} (l : list A) x y :
  NoDup l → x ∈ l → y ∈ l → x ≠ y → 2 <= length l.
Proof.
  intros Hnd Hx Hy Hxy.
  assert ([x; y] ⊆+ l) as Hsub.
  { apply NoDup_submseteq.
    - apply NoDup_cons. split; [by rewrite list_elem_of_singleton|].
      apply NoDup_singleton.
    - intros z. rewrite elem_of_cons, list_elem_of_singleton.
      by intros [->| ->]. }
  by apply submseteq_length in Hsub.
Qed.

Section DoubleDivisor.
Variable H : HAM.
Variable det : list nat.
Hypothesis det_sorted : StronglySorted lt det.
Hypothesis det_below : Forall (fun q => q < 2 * nbasis H) det.
Hypothesis nelec_det : length det = nelec H.

Local Abbreviation unocc := (unoccupied (2 * nbasis H) det).
Local Abbreviation Nn := (2 * nbasis H).

(** An accepted second draw needs two occupied and two unoccupied labels. *)
Lemma second_accepted_two_each f1 t1 f2 t2 :
  f1 ∈ det → t1 ∈ unocc → f2 ∈ substitute det f1 t1 → t2 < Nn →
  second_rejected f1 t1 (substitute det f1 t1) (0, f2, t2) = false →
  2 <= length det ∧ length det + 2 <= Nn.
Proof.
  intros Hf1 Ht1 Hf2 Ht2 Hacc.
  pose proof (strongly_sorted_lt_NoDup det det_sorted) as Hnd.
  destruct (proj1 (second_accepted_iff H det f1 t1 f2 t2 Hf1 Ht1))
    as ((Hf2' & Hne) & (Ht2' & Hne')); [done|].
  pose proof (two_elements_length det f1 f2 Hnd Hf1 Hf2' ltac:(by apply not_eq_sym)).
  pose proof (two_elements_length unocc t1 t2 (unoccupied_NoDup _ _) Ht1 Ht2'
                ltac:(by apply not_eq_sym)) as Hu.
  rewrite unoccupied_length in Hu by done. lia.
Qed.

Lemma double_divisor_nonzero xfuel f1 t1 perm ind f2 t2 :
  f1 ∈ det → t1 ∈ unocc → substitute det f1 t1 !! ind = Some f2 → t2 < Nn →
  second_rejected f1 t1 (substitute det f1 t1) (ind, f2, t2) = false →
  prob_double H = Some (reported_double H)
  ∧ ¬ (inject_Z (comb2 (n_spinorb H - Z.of_nat (nelec H))
                 * comb2 (Z.of_nat (nelec H))) == 0)%Q
  ∧ Rand.post (double_result H xfuel f1 t1 perm (substitute det f1 t1)
                 (ind, f2, t2))
      (fun e => ex_prob e = reported_double H).
Proof.
  intros Hf1 Ht1 Hf2 Ht2 Hacc.
  destruct (second_accepted_two_each f1 t1 f2 t2) as [Hn HN];
    [done|done|by eapply list_elem_of_lookup_2|done|exact Hacc|].
  pose proof (prob_double_value H det nelec_det Hn HN) as Hv.
  split; [exact Hv|]. split.
  - intros Hz. unfold prob_double, div_checked in Hv.
    apply Qeq_bool_iff in Hz. by rewrite Hz in Hv.
  - pose proof Ht1 as [Ht1' _]%unoccupied_elem_of.
    eapply post_mono;
      [|apply (double_result_post H xfuel f1 t1 perm _ ind f2 t2); [|done]].
    + by intros e (_ & ? & _).
    + apply strongly_sorted_lt_NoDup, substitute_sorted; [|done..].
      by apply strongly_sorted_lt_NoDup.
Qed.
End DoubleDivisor.

(** ** The reported probabilities add up *)

Section ReportedSums.
Variable H : HAM.
Variable det : list nat.
Hypothesis det_sorted : StronglySorted lt det.
Hypothesis det_below : Forall (fun q => q < 2 * nbasis H) det.
Hypothesis nelec_det : length det = nelec H.

Local Abbreviation Nn := (2 * nbasis H).

Lemma reported_single_sum :
  1 <= length det → length det < Nn →
  (Rand.Qsum (map (fun _ => reported_single H) (single_outcomes Nn det))
   == p_single H)%Q.
Proof.
  intros Hn HN.
  rewrite Qsum_map_const, (single_outcomes_length H det det_sorted det_below).
  rewrite (reported_single_value H det nelec_det).
  rewrite inject_nat_mult, inject_nat_minus by lia.
  pose proof (inject_nat_nonzero (length det) ltac:(lia)) as Hn0.
  assert (¬ (inject_Z (Z.of_nat Nn) - inject_Z (Z.of_nat (length det)) == 0)%Q)
    as Hm0 by (rewrite <- inject_nat_minus by lia; apply inject_nat_nonzero; lia).
  field. auto.
Qed.

Lemma reported_double_sum :
  2 <= length det → length det + 2 <= Nn →
  (Rand.Qsum (map (fun _ => reported_double H) (double_outcomes Nn det))
   == 1 - p_single H)%Q.
Proof.
  intros Hn HN.
  pose proof (strongly_sorted_lt_NoDup det det_sorted) as Hnd.
  rewrite Qsum_map_const, double_outcomes_length.
  unfold reported_double. rewrite <- nelec_det.
  replace (2 * Z.of_nat (nbasis H) - Z.of_nat (length det))%Z
    with (Z.of_nat (length (unoccupied Nn det)))
    by (rewrite unoccupied_length by done; lia).
  rewrite !comb2_pairs, <- Nat2Z.inj_mul, Nat.mul_comm.
  pose proof (later_pairs_length det) as Hp.
  pose proof (later_pairs_length (unoccupied Nn det)) as Hq.
  rewrite unoccupied_length in Hq by done.
  assert (0 < length (later_pairs (unoccupied Nn det)) * length (later_pairs det))
    as Hpos by nia.
  pose proof (inject_nat_nonzero _ Hpos) as Hne.
  field. exact Hne.
Qed.
End ReportedSums.

(** C3. For an ascending duplicate-free determinant with [nelec] labels
    below [2 * nbasis]: whatever the draws, a returned single reports
    [p_single / (nelec * (2 * nbasis - nelec))] and its determinant is one of
    [single_outcomes], a returned double reports
    [(1 - p_single) / (C(2 * nbasis - nelec, 2) * C(nelec, 2))] and its
    determinant is one of [double_outcomes].  With an occupied and an
    unoccupied label the singly excited determinants are pairwise different,
    their reported probabilities add up to [p_single], and each is returned
    with the reported probability times the probability that the resampling
    loop ends within its budget, which tends to one as the budget grows.
    With two occupied and two unoccupied labels the same holds of the doubly
    excited determinants, with the sum [1 - p_single] and the two resampling
    loops. *)
Theorem excit_gen_probabilities (H : HAM) (fuel xfuel : nat) (det : list nat) :
  det_wf det → Forall (fun q => q < 2 * nbasis H) det →
  length det = nelec H → length det <= xfuel →
  (0 <= p_single H)%Q ∧ (p_single H <= 1)%Q →
  (∀ tape e tape',
     Rand.run (excit_gen H fuel xfuel det) tape = Some (e, tape') →
     reported_outcome H det e)
  ∧ (1 <= nelec H ∧ nelec H < 2 * nbasis H →
     NoDup (single_outcomes (2 * nbasis H) det)
     ∧ (Rand.Qsum (map (fun _ => reported_single H)
                       (single_outcomes (2 * nbasis H) det)) == p_single H)%Q
     ∧ (∀ d, d ∈ single_outcomes (2 * nbasis H) det →
          (Rand.prob (excit_gen H fuel xfuel det) (is_outcome d 1)
           == reported_single H * first_loop_ends H fuel)%Q)
     ∧ tends_to_one (first_loop_ends H))
  ∧ (2 <= nelec H ∧ nelec H + 2 <= 2 * nbasis H →
     NoDup (double_outcomes (2 * nbasis H) det)
     ∧ (Rand.Qsum (map (fun _ => reported_double H)
                       (double_outcomes (2 * nbasis H) det)) == 1 - p_single H)%Q
     ∧ (∀ d, d ∈ double_outcomes (2 * nbasis H) det →
          (Rand.prob (excit_gen H fuel xfuel det) (is_outcome d 2)
           == reported_double H * first_loop_ends H fuel
              * second_loop_ends H fuel)%Q)
     ∧ tends_to_one (first_loop_ends H) ∧ tends_to_one (second_loop_ends H)).
Proof.
  intros Hwf%det_wf_strongly_sorted Hbelow Hlen Hx Hp.
  split; [|split].
  - intros tape e tape' Hrun.
    exact (post_run _ _ _ _ _ Hrun (excit_gen_reports H fuel xfuel det Hwf)).
  - intros [Hn HN]. rewrite <- Hlen in Hn, HN.
    split; [by apply single_outcomes_NoDup|].
    split; [by apply reported_single_sum|]. split.
    + intros d (f & t & Hf & Ht & ->)%single_outcomes_elem_of.
      by apply prob_single_outcome.
    + apply first_loop_ends_tends_to_one; lia.
  - intros [Hn HN]. rewrite <- Hlen in Hn, HN.
    split; [by apply double_outcomes_NoDup|].
    split; [by apply reported_double_sum|]. split; [|split].
    + intros d Hd. apply double_outcomes_elem_of in Hd; [|done].
      destruct Hd as (f1 & f2 & t1 & t2 & (Hf1 & Hf2 & Hf) & (Ht1 & Ht2 & Ht) & ->).
      apply prob_double_outcome; try done; lia.
    + apply first_loop_ends_tends_to_one; lia.
    + apply second_loop_ends_tends_to_one; lia.
Qed.

Lemma excit_gen_probabilities_witness :
  det_wf [0; 2] ∧ Forall (fun q => q < 2 * nbasis ham_example) [0; 2] ∧
  length [0; 2] = nelec ham_example ∧ length [0; 2] <= 5 ∧
  ((0 <= p_single ham_example)%Q ∧ (p_single ham_example <= 1)%Q) ∧
  single_outcomes 4 [0; 2] = [[1; 2]; [2; 3]; [0; 1]; [0; 3]] ∧
  double_outcomes 4 [0; 2] = [[1; 3]] ∧
  (Rand.prob (excit_gen ham_example 5%nat 5%nat [0; 2]%nat) (is_outcome [2; 3]%nat 1%nat)
   == reported_single ham_example * first_loop_ends ham_example 5%nat)%Q ∧
  (Rand.prob (excit_gen ham_example 5%nat 5%nat [0; 2]%nat) (is_outcome [1; 3]%nat 2%nat)
   == reported_double ham_example * first_loop_ends ham_example 5%nat
      * second_loop_ends ham_example 5%nat)%Q.
Proof.
  assert (Hwf : det_wf [0; 2]) by solve_det_wf.
  assert (Hb : Forall (fun q => q < 2 * nbasis ham_example) [0; 2])
    by solve_Forall_lt.
  assert (Hlen : length [0; 2] = nelec ham_example) by reflexivity.
  assert (Hx : length [0; 2] <= 5) by (simpl; lia).
  assert (Hp : (0 <= p_single ham_example)%Q ∧ (p_single ham_example <= 1)%Q)
    by (split; by vm_compute).
  assert (Hs : single_outcomes 4 [0; 2] = [[1; 2]; [2; 3]; [0; 1]; [0; 3]])
    by (vm_compute; reflexivity).
  assert (Hd : double_outcomes 4 [0; 2] = [[1; 3]]) by (vm_compute; reflexivity).
  split; [exact Hwf|]. split; [exact Hb|]. split; [exact Hlen|].
  split; [exact Hx|]. split; [exact Hp|]. split; [exact Hs|]. split; [exact Hd|].
  destruct (excit_gen_probabilities ham_example 5 5 [0; 2] Hwf Hb Hlen Hx Hp)
    as (_ & Hsingle & Hdouble).
  split.
  - apply Hsingle; [simpl; lia|]. simpl. rewrite Hs.
    apply (bool_decide_unpack _). by vm_compute.
  - apply Hdouble; [simpl; lia|]. simpl. rewrite Hd.
    apply (bool_decide_unpack _). by vm_compute.
Defined.

(** The probabilities of the two lemmas above, evaluated on the decision
    tree of [excit_gen] for small budgets. *)
Example excit_gen_probability_evaluated :
  (Rand.prob (excit_gen ham_example 1%nat 5%nat [0; 2]%nat) (is_outcome [1; 3]%nat 2%nat)
   == (9 # 10) * (3 # 4) * (15 # 64))%Q
  ∧ (Rand.prob (excit_gen ham_example 3%nat 5%nat [0; 2]%nat) (is_outcome [1; 2]%nat 1%nat)
     == (1 # 40) * (15 # 16))%Q.
Proof. split; apply Qred_eq_iff; vm_compute; reflexivity. Qed.

(** C3 does not hold of every determinant: for one electron in one spatial
    orbital every second draw is rejected, so no double is ever returned, the
    list of doubly excited determinants is empty, and the reported
    probabilities of the doubles add up to [0], not to [1 - p_single]. *)
Lemma no_double_for_one_electron :
  det_wf [0] ∧ length [0] = nelec ham_one_electron ∧
  Rand.run (excit_gen ham_one_electron 3 3 [0])
    [Rand.Float 0; Rand.Int 0; Rand.Int 1]
  = Some ({| ex_det := [1]; ex_mat := ([0], [1]); ex_parity := 1;
             ex_prob := 1 # 10 |}, []) ∧
  (∀ fuel xfuel tape e tape',
     Rand.run (excit_gen ham_one_electron fuel xfuel [0]) tape = Some (e, tape') →
     length (ex_mat e).1 = 1) ∧
  double_outcomes (2 * nbasis ham_one_electron) [0] = [] ∧
  ¬ (Rand.Qsum (map (fun _ => reported_double ham_one_electron)
                    (double_outcomes (2 * nbasis ham_one_electron) [0]%nat))
     == 1 - p_single ham_one_electron)%Q.
Proof.
  split; [solve_det_wf|]. split; [reflexivity|].
  split; [vm_compute; reflexivity|]. split; [|split].
  - intros fuel xfuel tape e tape' Hrun.
    assert (StronglySorted lt [0]) as Hs by (apply det_wf_strongly_sorted; solve_det_wf).
    destruct (post_run _ _ _ _ _ Hrun
                (excit_gen_reports ham_one_electron fuel xfuel [0] Hs))
      as [(Hrank & _)|(_ & _ & Hin)]; [done|].
    by apply elem_of_nil in Hin.
  - reflexivity.
  - by vm_compute.
Qed.

(** ** The functions over the store compute what the pure functions compute *)

Lemma refines_bind {A A' B B'} (R : A → A' → Prop) (R' : B → B' → Prop)
    (t : rand A) (t' : rand A') (f : A → rand B) (f' : A' → rand B') :
  refines R t t' → (∀ a a', R a a' → refines R' (f a) (f' a')) →
  refines R' (Rand.bind t f) (Rand.bind t' f').
Proof.
  intros Ht Hf. revert t' Ht.
  induction t as [a| |p k IH|n k IH]; intros [a'| |p' k'|n' k']; simpl; try done.
  - by apply Hf.
  - intros [-> Hk]. split; [done|]. intros b. by apply IH.
  - intros [-> Hk]. split; [done|]. intros r. by apply IH.
Qed.

Lemma refines_mono {A A'} (R R' : A → A' → Prop) (t : rand A) (t' : rand A') :
  (∀ a a', R a a' → R' a a') → refines R t t' → refines R' t t'.
Proof.
  intros HR. revert t'.
  induction t as [a| |p k IH|n k IH]; intros [a'| |p' k'|n' k']; simpl; try done.
  - apply HR.
  - intros [-> Hk]. split; [done|]. intros b. by apply IH.
  - intros [-> Hk]. split; [done|]. intros r. by apply IH.
Qed.

(** Related trees run alike on every stream of draws. *)
Lemma refines_run {A A'} (R : A → A' → Prop) (t : rand A) (t' : rand A') :
  refines R t t' → ∀ tape,
    agree (fun x y => R x.1 y.1 ∧ x.2 = y.2) (Rand.run t tape) (Rand.run t' tape).
Proof.
  revert t'.
  induction t as [a| |p k IH|n k IH]; intros [a'| |p' k'|n' k']; simpl; try done.
  - intros [-> Hk] [|[u|r] tape]; try done.
    destruct (Qle_bool 0 u && Rand.Qltb u 1); [|done]. by apply IH.
  - intros [-> Hk] [|[u|r] tape]; try done.
    destruct (r <? n'); [|done]. by apply IH.
Qed.

Lemma refines_lift {A A'} (R : A → A' → Prop) (o : option A) (o' : option A') :
  agree R o o' → refines R (Rand.lift o) (Rand.lift o').
Proof. by destruct o, o'. Qed.

Lemma refines_bindr {A A' B B'} (R0 : A * Heap.t → A' → Prop)
    (R : B * Heap.t → B' → Prop) (c : Heap.mr A) (t' : rand A')
    (f : A → Heap.mr B) (f' : A' → rand B') h :
  refines R0 (c h) t' →
  (∀ a h' a', R0 (a, h') a' → refines R (f a h') (f' a')) →
  refines R (Heap.bindr c f h) (Rand.bind t' f').
Proof.
  intros Hc Hf. unfold Heap.bindr. eapply refines_bind; [exact Hc|].
  intros [a h'] a' Ha. by apply Hf.
Qed.

Lemma refines_rnd {A} (c : rand A) h :
  refines (fun ah a' => ah = (a', h)) (Heap.rnd c h) c.
Proof.
  unfold Heap.rnd. induction c as [a| |p k IH|n k IH]; simpl; auto.
Qed.

(** A step of the store that the pure function does not have. *)
Lemma bindr_det_Some {A B} (c : Heap.m A) (f : A → Heap.mr B) h a h' :
  c h = Some (a, h') → Heap.bindr (Heap.det c) f h = f a h'.
Proof. intros Hc. unfold Heap.bindr, Heap.det. by rewrite Hc. Qed.

Lemma refines_while {S} (h : Heap.t) (cond_h : S → Heap.m bool)
    (cond : S → bool) (body_h : S → Heap.mr S) (body : S → rand S) :
  (∀ s, cond_h s h = Some (cond s, h)) →
  (∀ s, refines (fun sh s' => sh = (s', h)) (body_h s h) (body s)) →
  ∀ fuel s,
    refines (fun sh s' => sh = (s', h))
      (Heap.while fuel cond_h body_h s h) (Rand.while fuel cond body s).
Proof.
  intros Hcond Hbody. induction fuel as [|fuel IH]; intros s; simpl.
  - rewrite (bindr_det_Some _ _ _ _ _ (Hcond s)). by destruct (cond s).
  - rewrite (bindr_det_Some _ _ _ _ _ (Hcond s)).
    destruct (cond s); [|done].
    eapply refines_bindr; [apply Hbody|].
    intros s1 h1 s1' [= -> ->]. apply IH.
Qed.

Section StoreOps.
Variable h : Heap.t.
Variable r : Heap.ref.
Variable l : list nat.
Hypothesis Hr : h !! r = Some l.

Lemma heap_read : Heap.read r h = Some (l, h).
Proof. unfold Heap.read. by rewrite Hr. Qed.

Lemma heap_copy : Heap.copy r h = Some (length h, h ++ [l]).
Proof. unfold Heap.copy, Heap.bind. by rewrite heap_read. Qed.

Lemma heap_sorted : Heap.sorted r h = Some (length h, h ++ [Py.sorted l]).
Proof. unfold Heap.sorted, Heap.bind. by rewrite heap_read. Qed.

Lemma heap_len : Heap.len r h = Some (length l, h).
Proof. unfold Heap.len, Heap.bind. by rewrite heap_read. Qed.

Lemma heap_contains x : Heap.contains x r h = Some (Py.contains x l, h).
Proof. unfold Heap.contains, Heap.bind. by rewrite heap_read. Qed.

Lemma heap_unsorted :
  Heap.unsorted r h = Some (Py.list_neq l (Py.sorted l), h).
Proof. unfold Heap.unsorted, Heap.bind. by rewrite heap_read. Qed.

Lemma heap_getitem i :
  Heap.getitem r i h = (fun a => (a, h)) <$> Py.getitem l i.
Proof. unfold Heap.getitem, Heap.bind. by rewrite heap_read. Qed.

Lemma heap_index x :
  Heap.index r x h = (fun a => (a, h)) <$> Py.index l x.
Proof. unfold Heap.index, Heap.bind. by rewrite heap_read. Qed.

Lemma heap_setitem i v :
  Heap.setitem r i v h = (fun l' => (tt, <[r := l']> h)) <$> Py.setitem l i v.
Proof.
  unfold Heap.setitem, Heap.bind. rewrite heap_read.
  destruct (Py.setitem l i v) as [l'|]; simpl; [|done].
  unfold Heap.write. pose proof (lookup_lt_Some _ _ _ Hr) as Hlt.
  apply Nat.ltb_lt in Hlt. by rewrite Hlt.
Qed.
End StoreOps.

Ltac step_option := cbn [fmap option_fmap option_map mbind option_bind].

Lemma exchange_loop_h_refines c step : ∀ xfuel lc ind perm h,
  h !! c = Some lc →
  fst <$> exchange_loop_h xfuel c ind step perm h
  = exchange_loop xfuel lc ind step perm.
Proof.
  induction xfuel as [|xfuel IH]; intros lc ind perm h Hc;
    cbn [exchange_loop_h exchange_loop]; unfold Heap.bind at 1;
    rewrite (heap_unsorted h c lc Hc);
    destruct (Py.list_neq lc (Py.sorted lc)); try done.
  unfold Heap.bind at 1. rewrite (heap_getitem h c lc Hc).
  destruct (Py.getitem lc (ind + step)) as [tmp|]; [|done].
  step_option.
  unfold Heap.bind at 1. rewrite (heap_getitem h c lc Hc).
  destruct (Py.getitem lc ind) as [x|]; [|done].
  step_option.
  unfold Heap.bind at 1. rewrite (heap_setitem h c lc Hc).
  destruct (Py.setitem lc (ind + step) x) as [l1|]; [|done].
  step_option.
  pose proof (lookup_lt_Some _ _ _ Hc) as Hlt.
  assert (<[c := l1]> h !! c = Some l1) as Hc1 by (by apply list_lookup_insert_eq).
  unfold Heap.bind at 1. rewrite (heap_setitem _ c l1 Hc1).
  destruct (Py.setitem l1 ind tmp) as [l2|]; [|done].
  step_option.
  apply IH. apply list_lookup_insert_eq. by rewrite length_insert.
Qed.

Lemma elec_exchange_ops_h_refines xfuel r l ind h :
  h !! r = Some l →
  fst <$> elec_exchange_ops_h xfuel r ind h = elec_exchange_ops xfuel l ind.
Proof.
  intros Hr. unfold elec_exchange_ops_h, elec_exchange_ops.
  pose proof (lookup_lt_Some _ _ _ Hr) as Hlt.
  assert ((h ++ [l]) !! r = Some l) as Hr1 by (by rewrite lookup_app_l).
  assert ((h ++ [l]) !! length h = Some l) as Hc by (by apply list_lookup_middle).
  unfold Heap.bind at 1. rewrite (heap_copy h r l Hr).
  unfold Heap.bind at 1. rewrite (heap_len _ r l Hr1).
  unfold Heap.bind at 1.
  destruct (ind =? 0)%Z.
  { simpl. by apply exchange_loop_h_refines. }
  destruct ((ind =? -1)%Z || (ind =? Z.of_nat (length l) - 1)%Z).
  { simpl. by apply exchange_loop_h_refines. }
  unfold Heap.bind at 1. rewrite (heap_getitem _ r l Hr1).
  destruct (Py.getitem l ind) as [a|]; [|done].
  step_option.
  unfold Heap.bind at 1. rewrite (heap_getitem _ r l Hr1).
  destruct (Py.getitem l (ind + 1)) as [b|]; [|done].
  step_option.
  unfold Heap.ret. by apply exchange_loop_h_refines.
Qed.

(** Both versions of [elec_exchange_ops] raise together or return the same
    count, the store keeping every list object it had. *)
Lemma elec_exchange_ops_h_agree xfuel r l ind h :
  h !! r = Some l →
  agree (fun ph p' => ph.1 = p' ∧ preserves h ph.2)
    (elec_exchange_ops_h xfuel r ind h) (elec_exchange_ops xfuel l ind).
Proof.
  intros Hr. pose proof (elec_exchange_ops_h_refines xfuel r l ind h Hr) as Href.
  destruct (elec_exchange_ops_h xfuel r ind h) as [[p h']|] eqn:E;
    simpl in Href; rewrite <- Href; simpl; [|done].
  split; [done|].
  by destruct (elec_exchange_ops_h_safe h xfuel r ind h p h' (preserves_refl h) E).
Qed.

Lemma calc_excit_mat_parity_h_refines xfuel r1 r2 l1 l2 h :
  h !! r1 = Some l1 → h !! r2 = Some l2 →
  fst <$> calc_excit_mat_parity_h xfuel r1 r2 h
  = calc_excit_mat_parity xfuel l1 l2.
Proof.
  intros Hr1 Hr2. unfold calc_excit_mat_parity_h, calc_excit_mat_parity.
  unfold Heap.bind at 1. rewrite (heap_read h r1 l1 Hr1).
  unfold Heap.bind at 1. rewrite (heap_read h r2 l2 Hr2).
  destruct (scan_missing l1 l2) as [from_inds from_orbs].
  destruct (scan_missing l2 l1) as [to_inds to_orbs].
  destruct (negb (length from_inds =? length to_inds)); [done|].
  unfold Heap.bind at 1. rewrite (heap_copy h r1 l1 Hr1).
  unfold Heap.bind at 1.
  set (step_h := fun (acc : Heap.m (nat * Heap.ref)) '(from_orb, to_orb) =>
         Heap.bind acc (fun pd => let '(perm, det_copy) := pd in
           Heap.bind (Heap.index det_copy from_orb) (fun ind =>
           Heap.bind (Heap.setitem det_copy (Z.of_nat ind) to_orb) (fun _ =>
           Heap.bind (elec_exchange_ops_h xfuel det_copy (Z.of_nat ind)) (fun p =>
           Heap.bind (Heap.sorted det_copy) (fun det_copy =>
           Heap.ret (perm + p, det_copy))))))).
  set (step := fun (acc : option (nat * list nat)) '(from_orb, to_orb) =>
         '(perm, det_copy) ← acc;
         ind ← Py.index det_copy from_orb;
         det_copy ← Py.setitem det_copy (Z.of_nat ind) to_orb;
         p ← elec_exchange_ops xfuel det_copy (Z.of_nat ind);
         Some (perm + p, Py.sorted det_copy)).
  set (h1 := h ++ [l1]).
  set (Racc := fun (acc : Heap.m (nat * Heap.ref)) (o : option (nat * list nat)) =>
         agree (fun x y => x.1.1 = y.1 ∧ x.2 !! x.1.2 = Some y.2) (acc h1) o).
  assert (∀ pairs acc o, Racc acc o →
            Racc (foldl step_h acc pairs) (foldl step o pairs)) as Hloop.
  { induction pairs as [|[from_orb to_orb] pairs IH]; intros acc o Hacc; [done|].
    simpl. apply IH. unfold Racc, step_h, step, Heap.bind at 1.
    unfold Racc in Hacc.
    destruct (acc h1) as [[[perm dc] h2]|], o as [[perm' lc]|]; try done.
    simpl in Hacc. destruct Hacc as [-> Hdc]. cbn [mbind option_bind].
    unfold Heap.bind at 1. rewrite (heap_index h2 dc lc Hdc).
    destruct (Py.index lc from_orb) as [ind|]; [|done].
   
  step_option.
    unfold Heap.bind at 1. rewrite (heap_setitem h2 dc lc Hdc).
    destruct (Py.setitem lc (Z.of_nat ind) to_orb) as [lc'|]; [|done].
   
  step_option.
    pose proof (lookup_lt_Some _ _ _ Hdc) as Hlt.
    assert (<[dc := lc']> h2 !! dc = Some lc') as Hdc'
      by (by apply list_lookup_insert_eq).
    pose proof (elec_exchange_ops_h_agree xfuel dc lc' (Z.of_nat ind) _ Hdc')
      as Hag.
    unfold Heap.bind at 1.
    destruct (elec_exchange_ops_h xfuel dc (Z.of_nat ind) (<[dc := lc']> h2))
      as [[p h3]|], (elec_exchange_ops xfuel lc' (Z.of_nat ind)) as [p'|];
      try done.
    simpl in Hag. destruct Hag as [-> Hp]. step_option.
    unfold Heap.bind at 1. rewrite (heap_sorted h3 dc lc' (Hp _ _ Hdc')).
    simpl. split; [done|]. by apply list_lookup_middle. }
  specialize (Hloop (zip from_orbs to_orbs) (Heap.ret (0, length h)) (Some (0, l1))).
  unfold Racc in Hloop.
  destruct (foldl step_h (Heap.ret (0, length h)) (zip from_orbs to_orbs) h1)
    as [[[perm dc] h2]|] eqn:E,
    (foldl step (Some (0, l1)) (zip from_orbs to_orbs)) as [[perm' lc]|] eqn:E'.
  - destruct Hloop as [Hperm _].
    { simpl. split; [done|]. by apply list_lookup_middle. }
    simpl in Hperm. subst perm'. cbn [mbind option_bind].
    by destruct (negb (truthy (as_list (from_orbs, to_orbs)))).
  - exfalso. apply Hloop. simpl. split; [done|]. by apply list_lookup_middle.
  - exfalso. apply Hloop. simpl. split; [done|]. by apply list_lookup_middle.
  - done.
Qed.

Lemma refines_det {A A'} (R : A * Heap.t → A' → Prop) (c : Heap.m A)
    (o : option A') h :
  agree R (c h) o → refines R (Heap.det c h) (Rand.lift o).
Proof. intros Hag. unfold Heap.det. by apply refines_lift. Qed.

Lemma draw_second_h_refines H r l h :
  h !! r = Some l →
  refines (fun sh s' => sh = (s', h)) (draw_second_h H r h) (draw_second H l).
Proof.
  intros Hr. unfold draw_second_h, draw_second.
  rewrite (bindr_det_Some _ _ _ _ _ (heap_len h r l Hr)).
  eapply refines_bindr; [apply refines_rnd|]. intros ? ? ind [= -> ->].
  eapply (refines_bindr (fun ah a' => ah = (a', h))).
  { apply refines_det. rewrite (heap_getitem h r l Hr).
    by destruct (Py.getitem l (Z.of_nat ind)). }
  intros ? ? f2 [= -> ->].
  eapply refines_bindr; [apply refines_rnd|]. intros ? ? t2 [= -> ->].
  by simpl.
Qed.

(** [excit_gen] over the store asks for the same draws as the pure
    [excit_gen] on the list that its argument refers to, raises or runs out
    of budget together with it, and returns a reference to the determinant
    that the pure function returns, with the same excitation matrix, parity
    and probability. *)
Lemma excit_gen_h_refines H fuel xfuel r l h :
  h !! r = Some l →
  refines (fun rh e => excitation_of rh.2 rh.1 = Some e)
    (excit_gen_h H fuel xfuel r h) (excit_gen H fuel xfuel l).
Proof.
  intros Hr. unfold excit_gen_h, excit_gen.
  pose proof (lookup_lt_Some _ _ _ Hr) as Hlt.
  rewrite (bindr_det_Some _ _ _ _ _ (heap_copy h r l Hr)).
  set (h1 := h ++ [l]). set (e1 := length h).
  assert (h1 !! r = Some l) as Hr1 by (unfold h1; by rewrite lookup_app_l).
  assert (h1 !! e1 = Some l) as He1 by (by apply list_lookup_middle).
  eapply refines_bindr; [apply refines_rnd|]. intros ? ? single [= -> ->].
  rewrite (bindr_det_Some _ _ _ _ _ (heap_len h1 e1 l He1)).
  eapply refines_bindr; [apply refines_rnd|]. intros ? ? ind [= -> ->].
  eapply (refines_bindr (fun ah a' => ah = (a', h1))).
  { apply refines_det. rewrite (heap_getitem h1 e1 l He1).
    by destruct (Py.getitem l _). }
  intros ? ? orb_from [= -> ->].
  eapply refines_bindr; [apply refines_rnd|]. intros ? ? orb_to0 [= -> ->].
  eapply refines_bindr.
  { apply refines_while; [|intros; apply refines_rnd].
    intros s. apply (heap_contains h1 r l Hr1). }
  intros ? ? orb_to [= -> ->].
  eapply (refines_bindr (fun ah l2 => ah.2 = <[e1 := l2]> h1)).
  { apply refines_det. rewrite (heap_setitem h1 e1 l He1).
    by destruct (Py.setitem l _ _). }
  intros [] h2 l2 Hh2. simpl in Hh2. subst h2.
  assert (<[e1 := l2]> h1 !! e1 = Some l2) as He2.
  { apply list_lookup_insert_eq. apply lookup_lt_Some in He1. done. }
  eapply (refines_bindr (fun ph p' => ph.1 = p' ∧ preserves (<[e1 := l2]> h1) ph.2)).
  { apply refines_det. by apply elec_exchange_ops_h_agree. }
  intros perm h3 perm' [Hperm Hp3]. simpl in Hperm, Hp3. subst perm'.
  rewrite (bindr_det_Some _ _ _ _ _ (heap_sorted h3 e1 l2 (Hp3 _ _ He2))).
  set (h4 := h3 ++ [Py.sorted l2]). set (e2 := length h3).
  assert (h4 !! e2 = Some (Py.sorted l2)) as He4 by (by apply list_lookup_middle).
  destruct single.
  - eapply (refines_bindr (fun ah a' => ah = (a', h4))).
    { apply refines_det. unfold Heap.lift. by destruct (prob_single H). }
    intros ? ? prob [= -> ->]. simpl. unfold excitation_of. simpl.
    fold e2 h4. by rewrite He4.
  - eapply refines_bindr; [by apply (draw_second_h_refines H e2 (Py.sorted l2))|].
    intros ? ? s0 [= -> ->].
    eapply refines_bindr.
    { apply refines_while; [|intros; by apply draw_second_h_refines].
      intros [[i f2] t2]. unfold Heap.bind.
      by rewrite (heap_contains h4 e2 _ He4). }
    intros ? ? [[ind2 f2] t2] [= -> ->].
    eapply (refines_bindr (fun ah l3 => ah.2 = <[e2 := l3]> h4)).
    { apply refines_det. rewrite (heap_setitem h4 e2 _ He4).
      by destruct (Py.setitem _ _ _). }
    intros [] h5 l3 Hh5. simpl in Hh5. subst h5.
    assert (<[e2 := l3]> h4 !! e2 = Some l3) as He5.
    { apply list_lookup_insert_eq. apply lookup_lt_Some in He4. done. }
    eapply (refines_bindr
              (fun ph p' => ph.1 = p' ∧ preserves (<[e2 := l3]> h4) ph.2)).
    { apply refines_det. by apply elec_exchange_ops_h_agree. }
    intros perm2 h6 perm2' [Hperm2 Hp6]. simpl in Hperm2, Hp6. subst perm2'.
    eapply (refines_bindr (fun ah a' => ah = (a', h6))).
    { apply refines_det. unfold Heap.lift. by destruct (prob_double H). }
    intros ? ? prob [= -> ->].
    rewrite (bindr_det_Some _ _ _ _ _ (heap_sorted h6 e2 l3 (Hp6 _ _ He5))).
    simpl. unfold excitation_of. simpl.
    by rewrite list_lookup_middle.
Qed.

(** On every stream of draws the two versions of [excit_gen] stop with the
    same excitation and the same draws left, or both raise. *)
Lemma excit_gen_h_run H fuel xfuel r l h tape :
  h !! r = Some l →
  agree (fun x y => excitation_of x.1.2 x.1.1 = Some y.1 ∧ x.2 = y.2)
    (Rand.run (excit_gen_h H fuel xfuel r h) tape)
    (Rand.run (excit_gen H fuel xfuel l) tape).
Proof.
  intros Hr. exact (refines_run _ _ _ (excit_gen_h_refines H fuel xfuel r l h Hr) tape).
Qed.

(** ** The unit tests of [det_ops.py]

    The determinants and positions that the file tests [elec_exchange_ops]
    on, with the permutation counts it expects. *)
Example elec_exchange_ops_unit_tests :
  map (fun di : list nat * Z => elec_exchange_ops 10 di.1 di.2)
    [([0; 1; 2; 3; 4; 5], 0%Z); ([0; 1; 2; 3; 4; 5], 3%Z);
     ([0; 1; 2; 3; 4; 5], 5%Z); ([3; 6; 14; 8; 11], 2%Z);
     ([14; 3; 6; 8; 11], 0%Z); ([0; 8; 3; 6; 11], 1%Z);
     ([1; 3; 12; 0], 3%Z); ([1; 3; 0; 12], 2%Z);
     ([1; 3; 2; 4], 2%Z); ([1; 3; 2; 4], 1%Z)]
  = map Some [0; 0; 0; 2; 4; 2; 3; 2; 1; 1].
Proof. vm_compute. reflexivity. Qed.

(** * Further properties of the code *)

(** ** [elec_exchange_ops] *)

Lemma exchange_loop_sorted xfuel det ind step perm :
  StronglySorted le det → exchange_loop xfuel det ind step perm = Some perm.
Proof.
  intros Hs. destruct xfuel; simpl; by rewrite list_neq_false.
Qed.

Lemma norm_index_is_Some {A} (l : list A) (i : Z) :
  is_Some (Py.norm_index l i) ↔ valid_position (length l) i.
Proof.
  unfold Py.norm_index, valid_position.
  destruct (Z.ltb_spec i 0).
  - destruct (Z.ltb_spec (i + Z.of_nat (length l)) 0).
    + split; [by intros [? ?]|lia].
    + split; [lia|by eexists].
  - destruct (Z.ltb_spec i (Z.of_nat (length l))).
    + split; [lia|by eexists].
    + split; [by intros [? ?]|lia].
Qed.

Lemma norm_index_lt {A} (l : list A) (i : Z) n :
  Py.norm_index l i = Some n → n < length l.
Proof.
  unfold Py.norm_index.
  destruct (Z.ltb_spec i 0).
  - destruct (Z.ltb_spec (i + Z.of_nat (length l)) 0); [done|].
    intros [= <-]. lia.
  - destruct (Z.ltb_spec i (Z.of_nat (length l))); [|done].
    intros [= <-]. lia.
Qed.

Lemma getitem_is_Some {A} (l : list A) (i : Z) :
  is_Some (Py.getitem l i) ↔ valid_position (length l) i.
Proof.
  rewrite <- norm_index_is_Some. unfold Py.getitem.
  destruct (Py.norm_index l i) as [n|] eqn:E; simpl.
  - split; [by eexists|]. intros _.
    apply lookup_lt_is_Some_2. by eapply norm_index_lt.
  - split; by intros [? ?].
Qed.

Lemma filter_length_ext {A} (P Q : A → Prop) `{∀ x, Decision (P x)}
    `{∀ x, Decision (Q x)} (l : list A) :
  (∀ x, x ∈ l → P x ↔ Q x) → length (filter P l) = length (filter Q l).
Proof.
  intros HPQ. induction l as [|x l IH]; [done|].
  rewrite !filter_cons.
  pose proof (HPQ x ltac:(by left)).
  destruct (decide (P x)), (decide (Q x)); simpl; try tauto;
    rewrite IH; try done; intros y Hy; apply HPQ; by right.
Qed.

Lemma crossed_middle (l1 l2 : list nat) f t :
  StronglySorted lt (l1 ++ f :: l2) →
  crossed (l1 ++ f :: l2) f t
  = length (filter (fun b => b < t) l2) + length (filter (fun a => t < a) l1).
Proof.
  intros (H1 & H2 & H12)%strongly_sorted_app_inv.
  inversion H2 as [|? ? H2' Hf]; subst.
  unfold crossed. rewrite filter_app, filter_cons_False by lia.
  rewrite length_app.
  rewrite (filter_length_ext _ (fun a => t < a) l1),
    (filter_length_ext _ (fun b => b < t) l2); [lia| |].
  - intros x Hx. rewrite Forall_forall in Hf. specialize (Hf x Hx). lia.
  - intros x Hx. specialize (H12 x f Hx ltac:(by left)). lia.
Qed.

Lemma elec_exchange_ops_crossed det i f t xfuel :
  StronglySorted lt det → det !! i = Some f → t ∉ det → length det <= xfuel →
  elec_exchange_ops xfuel (<[i := t]> det) (Z.of_nat i) = Some (crossed det f t).
Proof.
  intros Hs Hi Ht Hx.
  pose proof Hi as (l1 & l2 & Hdet & Hlen)%lookup_split. subst det.
  rewrite <- Hlen, insert_middle, crossed_middle by done.
  apply elec_exchange_ops_replaced.
  - by eapply strongly_sorted_remove_middle.
  - rewrite !not_elem_of_app, not_elem_of_cons in *. tauto.
  - rewrite !length_app in *. simpl in *. lia.
Qed.

(** X1. In an ascending duplicate-free list whose label at position [i] was
    overwritten by a label [t] that the list does not hold,
    [elec_exchange_ops] returns the number of labels that lie strictly
    between the old and the new label: the exchanges that carry [t] to its
    place. *)
Theorem elec_exchange_ops_counts_crossed det i f t xfuel :
  det_wf det → det !! i = Some f → t ∉ det → length det <= xfuel →
  elec_exchange_ops xfuel (<[i := t]> det) (Z.of_nat i) = Some (crossed det f t).
Proof.
  intros Hwf%det_wf_strongly_sorted. by apply elec_exchange_ops_crossed.
Qed.

Lemma elec_exchange_ops_counts_crossed_witness :
  det_wf [1; 3; 8; 12] ∧ [1; 3; 8; 12] !! 3 = Some 12 ∧ (0 ∉ [1; 3; 8; 12])
  ∧ length [1; 3; 8; 12] <= 10
  ∧ elec_exchange_ops 10 [1; 3; 8; 0] 3 = Some 3.
Proof.
  assert (Hwf : det_wf [1; 3; 8; 12]) by solve_det_wf.
  assert (Hi : [1; 3; 8; 12] !! 3 = Some 12) by reflexivity.
  assert (Ht : 0 ∉ [1; 3; 8; 12])
    by (apply (bool_decide_unpack _); by vm_compute).
  assert (Hx : length [1; 3; 8; 12] <= 10) by (simpl; lia).
  split; [exact Hwf|]. split; [exact Hi|]. split; [exact Ht|]. split; [exact Hx|].
  exact (elec_exchange_ops_counts_crossed [1; 3; 8; 12] 3 12 0 10 Hwf Hi Ht Hx).
Defined.

(** X2. On a list that is already in ascending order [elec_exchange_ops]
    returns 0 for every position Python accepts, and also for the positions
    0 and -1 of the empty list, which it never reads; for any other position
    it raises [IndexError]. *)
Theorem elec_exchange_ops_sorted xfuel det ind :
  StronglySorted le det →
  elec_exchange_ops xfuel det ind
  = if bool_decide (ind = 0 ∨ ind = -1 ∨ valid_position (length det) ind)%Z
    then Some 0 else None.
Proof.
  intros Hs. unfold elec_exchange_ops.
  destruct (Z.eqb_spec ind 0) as [->|H0].
  { rewrite bool_decide_eq_true_2 by auto. by apply exchange_loop_sorted. }
  destruct (Z.eqb_spec ind (-1)) as [->|H1].
  { rewrite bool_decide_eq_true_2 by auto. by apply exchange_loop_sorted. }
  destruct (Z.eqb_spec ind (Z.of_nat (length det) - 1)) as [->|H2].
  { rewrite bool_decide_eq_true_2 by (unfold valid_position; lia).
    by apply exchange_loop_sorted. }
  cbn [orb].
  destruct (decide (valid_position (length det) ind)) as [Hv|Hv].
  - rewrite bool_decide_eq_true_2 by auto.
    destruct (proj2 (getitem_is_Some det ind) Hv) as [a ->].
    destruct (proj2 (getitem_is_Some det (ind + 1))) as [b ->];
      [unfold valid_position in *; lia|].
    simpl. by apply exchange_loop_sorted.
  - rewrite bool_decide_eq_false_2 by tauto.
    destruct (Py.getitem det ind) as [a|] eqn:E; [|done].
    exfalso. apply Hv. apply getitem_is_Some. by eexists.
Qed.

Lemma elec_exchange_ops_sorted_witness :
  StronglySorted le [0; 1; 2; 3; 4; 5] ∧
  elec_exchange_ops 0 [0; 1; 2; 3; 4; 5] 3 = Some 0 ∧
  elec_exchange_ops 0 [0; 1; 2; 3; 4; 5] 6 = None.
Proof.
  assert (Hs : StronglySorted le [0; 1; 2; 3; 4; 5])
    by (repeat constructor; lia).
  split; [exact Hs|]. split.
  - exact (elec_exchange_ops_sorted 0 [0; 1; 2; 3; 4; 5] 3 Hs).
  - exact (elec_exchange_ops_sorted 0 [0; 1; 2; 3; 4; 5] 6 Hs).
Defined.

(** ** [calc_excit_mat_parity] *)

Lemma scan_missing_gen other : ∀ (l : list nat) start inds0 orbs0,
  ∃ ps,
    foldl (fun '(inds, orbs) '(ind, orb) =>
             if negb (Py.contains orb other)
             then (inds ++ [ind], orbs ++ [orb]) else (inds, orbs))
          (inds0, orbs0) (combine (seq start (length l)) l)
    = (inds0 ++ ps, orbs0 ++ missing l other)
    ∧ length ps = length (missing l other).
Proof.
  induction l as [|x l IH]; intros start inds0 orbs0.
  - exists []. by rewrite !app_nil_r.
  - cbn [length seq combine foldl]. unfold missing. rewrite filter_cons.
    destruct (Py.contains x other) eqn:E; cbn [negb].
    + apply contains_elem_of in E.
      destruct (decide (x ∉ other)) as [?|_]; [done|]. apply IH.
    + apply contains_not_elem_of in E.
      destruct (decide (x ∉ other)) as [_|?]; [|done].
      destruct (IH (S start) (inds0 ++ [start]) (orbs0 ++ [x])) as (ps & -> & Hlen).
      exists (start :: ps). rewrite <- !app_assoc. simpl. by rewrite Hlen.
Qed.

Lemma scan_missing_spec det other :
  ∃ ps, scan_missing det other = (ps, missing det other)
        ∧ length ps = length (missing det other).
Proof.
  destruct (scan_missing_gen other det 0 [] []) as (ps & Heq & Hlen).
  exists ps. split; [|done]. exact Heq.
Qed.

Lemma index_lookup (l : list nat) x :
  x ∈ l → ∃ i, Py.index l x = Some i ∧ l !! i = Some x.
Proof.
  induction l as [|y l IH]; [by intros ?%elem_of_nil|].
  intros Hx. simpl. destruct (Nat.eqb_spec y x) as [->|Hne].
  - by exists 0.
  - apply elem_of_cons in Hx as [->|Hx]; [done|].
    destruct (IH Hx) as (i & -> & Hi). by exists (S i).
Qed.

Lemma index_absent (l : list nat) x : x ∉ l → Py.index l x = None.
Proof.
  induction l as [|y l IH]; [done|].
  rewrite not_elem_of_cons. intros [Hne Hx]. simpl.
  destruct (Nat.eqb_spec y x) as [->|_]; [done|]. by rewrite IH.
Qed.

Lemma missing_elem_of det other x :
  x ∈ missing det other ↔ x ∈ det ∧ x ∉ other.
Proof. unfold missing. rewrite list_elem_of_filter. tauto. Qed.

Lemma missing_NoDup det other : NoDup det → NoDup (missing det other).
Proof. apply NoDup_filter. Qed.

(** Two duplicate-free lists miss as many labels of each other as their
    lengths allow. *)
Lemma missing_length det other :
  NoDup det → NoDup other →
  length det + length (missing other det)
  = length other + length (missing det other).
Proof.
  intros Hd Ho.
  pose proof (filter_app_complement (fun x => x ∉ other) det) as H1.
  pose proof (filter_app_complement (fun x => x ∉ det) other) as H2.
  apply Permutation_length in H1, H2. rewrite length_app in H1, H2.
  assert (filter (fun x => ¬ (x ∉ other)) det ≡ₚ filter (fun x => ¬ (x ∉ det)) other)
    as Hp.
  { apply NoDup_Permutation; [by apply NoDup_filter..|].
    intros x. rewrite !list_elem_of_filter.
    destruct (decide (x ∈ det)), (decide (x ∈ other)); tauto. }
  apply Permutation_length in Hp. unfold missing. lia.
Qed.

Section CalcLoop.
Variable xfuel : nat.

Local Abbreviation step :=
  (fun (acc : option (nat * list nat)) '(from_orb, to_orb) =>
     '(perm, det_copy) ← acc;
     ind ← Py.index det_copy from_orb;
     det_copy ← Py.setitem det_copy (Z.of_nat ind) to_orb;
     p ← elec_exchange_ops xfuel det_copy (Z.of_nat ind);
     Some (perm + p, Py.sorted det_copy)).

Lemma calc_loop : ∀ (pairs : list (nat * nat)) det_copy perm,
  StronglySorted lt det_copy → length det_copy <= xfuel →
  NoDup pairs.*1 → NoDup pairs.*2 →
  Forall (fun ft : nat * nat => ft.1 ∈ det_copy ∧ ft.2 ∉ det_copy) pairs →
  foldl step (Some (perm, det_copy)) pairs
  = Some (perm + crossed_all det_copy pairs,
          foldl (fun d (ft : nat * nat) => substitute d ft.1 ft.2) det_copy pairs).
Proof.
  induction pairs as [|[f t] pairs IH]; intros det_copy perm Hs Hx Hf Ht Hall.
  { simpl. by rewrite Nat.add_0_r. }
  apply Forall_cons in Hall as [[Hfin Htout] Hall]. simpl in Hfin, Htout.
  rewrite fmap_cons in Hf, Ht. apply NoDup_cons in Hf as [Hf1 Hf], Ht as [Ht1 Ht].
  pose proof (strongly_sorted_lt_NoDup _ Hs) as Hnd.
  destruct (index_lookup det_copy f Hfin) as (i & Hidx & Hi).
  pose proof (lookup_lt_Some _ _ _ Hi) as Hlt.
  cbn [foldl crossed_all]. cbn [mbind option_bind].
  rewrite Hidx. cbn [mbind option_bind].
  rewrite setitem_nat by done. cbn [mbind option_bind].
  rewrite (elec_exchange_ops_crossed det_copy i f t xfuel) by done.
  cbn [mbind option_bind].
  rewrite (sorted_insert_substitute det_copy i f t Hnd Hi).
  rewrite IH; [f_equal; f_equal; lia| | |done|done|].
  - by apply substitute_sorted.
  - by rewrite substitute_length.
  - apply Forall_forall. intros [f' t'] Hin. simpl.
    rewrite Forall_forall in Hall. destruct (Hall _ Hin) as [Hf' Ht']. simpl in *.
    rewrite !substitute_elem_of. split.
    + right. split; [done|]. intros ->. apply Hf1.
      apply list_elem_of_fmap. by exists (f, t').
    + intros [[_ ->]|[? _]]; [|done]. apply Ht1.
      apply list_elem_of_fmap. by exists (f', t).
Qed.
End CalcLoop.

Lemma calc_excit_mat_parity_value xfuel det exc :
  StronglySorted lt det → NoDup exc → length det = length exc →
  length det <= xfuel →
  calc_excit_mat_parity xfuel det exc
  = Some (Some (missing det exc, missing exc det),
          Some ((-1) ^ Z.of_nat
                  (crossed_all det (zip (missing det exc) (missing exc det))))%Z).
Proof.
  intros Hs Hnde Hlen Hx. pose proof (strongly_sorted_lt_NoDup _ Hs) as Hnd.
  unfold calc_excit_mat_parity.
  destruct (scan_missing_spec det exc) as (ps & -> & Hps).
  destruct (scan_missing_spec exc det) as (qs & -> & Hqs).
  pose proof (missing_length det exc Hnd Hnde) as Hm.
  assert (length (missing det exc) = length (missing exc det)) as Hmm by lia.
  rewrite Hps, Hqs, Hmm, Nat.eqb_refl. cbn [negb].
  rewrite (calc_loop xfuel _ det 0 Hs Hx).
  - done.
  - rewrite fst_zip by lia. by apply missing_NoDup.
  - rewrite snd_zip by lia. by apply missing_NoDup.
  - apply Forall_forall. intros [f t] Hin.
    pose proof (elem_of_zip_l _ _ _ _ Hin) as Hf%missing_elem_of.
    pose proof (elem_of_zip_r _ _ _ _ Hin) as Ht%missing_elem_of.
    simpl. tauto.
Qed.

(** X3. For two ascending duplicate-free determinants of equal length
    [calc_excit_mat_parity] does not raise: the excitation matrix lists, in
    ascending order, the labels of [det] that [excited_det] lacks and the
    labels of [excited_det] that [det] lacks, and the parity is [-1] to the
    number of labels crossed by the substitutions done pair by pair. *)
Theorem calc_excit_mat_parity_valid xfuel det exc :
  det_wf det → det_wf exc → length det = length exc → length det <= xfuel →
  calc_excit_mat_parity xfuel det exc
  = Some (Some (missing det exc, missing exc det),
          Some ((-1) ^ Z.of_nat
                  (crossed_all det (zip (missing det exc) (missing exc det))))%Z)
  ∧ length (missing det exc) = length (missing exc det)
  ∧ StronglySorted lt (missing det exc) ∧ StronglySorted lt (missing exc det).
Proof.
  intros Hd%det_wf_strongly_sorted He%det_wf_strongly_sorted Hlen Hx.
  pose proof (strongly_sorted_lt_NoDup _ Hd) as Hnd.
  pose proof (strongly_sorted_lt_NoDup _ He) as Hne.
  split; [by apply calc_excit_mat_parity_value|]. split.
  - pose proof (missing_length det exc Hnd Hne). lia.
  - split; by apply strongly_sorted_filter.
Qed.

Lemma calc_excit_mat_parity_valid_witness :
  det_wf [0; 2; 3; 7] ∧ det_wf [0; 3; 5; 9] ∧
  length [0; 2; 3; 7] = length [0; 3; 5; 9] ∧ length [0; 2; 3; 7] <= 8 ∧
  calc_excit_mat_parity 8 [0; 2; 3; 7] [0; 3; 5; 9]
  = Some (Some ([2; 7], [5; 9]), Some (-1)%Z).
Proof.
  assert (H1 : det_wf [0; 2; 3; 7]) by solve_det_wf.
  assert (H2 : det_wf [0; 3; 5; 9]) by solve_det_wf.
  assert (H3 : length [0; 2; 3; 7] = length [0; 3; 5; 9]) by reflexivity.
  assert (H4 : length [0; 2; 3; 7] <= 8) by (simpl; lia).
  split; [exact H1|]. split; [exact H2|]. split; [exact H3|]. split; [exact H4|].
  exact (proj1 (calc_excit_mat_parity_valid 8 [0; 2; 3; 7] [0; 3; 5; 9] H1 H2 H3 H4)).
Defined.

(** X4. For two duplicate-free lists of different lengths the numbers of
    labels that each lacks of the other differ, and
    [calc_excit_mat_parity] stops at its assertion ([AssertionError]). *)
Theorem calc_excit_mat_parity_length_mismatch xfuel det exc :
  NoDup det → NoDup exc → length det ≠ length exc →
  calc_excit_mat_parity xfuel det exc = None.
Proof.
  intros Hnd Hne Hlen. unfold calc_excit_mat_parity.
  destruct (scan_missing_spec det exc) as (ps & -> & Hps).
  destruct (scan_missing_spec exc det) as (qs & -> & Hqs).
  pose proof (missing_length det exc Hnd Hne) as Hm.
  destruct (Nat.eqb_spec (length ps) (length qs)) as [Heq|_]; [lia|done].
Qed.

Lemma calc_excit_mat_parity_length_mismatch_witness :
  NoDup [0; 1] ∧ NoDup [0; 1; 2] ∧ length [0; 1] ≠ length [0; 1; 2] ∧
  calc_excit_mat_parity 5 [0; 1] [0; 1; 2] = None.
Proof.
  assert (H1 : NoDup [0; 1]) by (apply (bool_decide_unpack _); by vm_compute).
  assert (H2 : NoDup [0; 1; 2]) by (apply (bool_decide_unpack _); by vm_compute).
  assert (H3 : length [0; 1] ≠ length [0; 1; 2]) by (simpl; lia).
  split; [exact H1|]. split; [exact H2|]. split; [exact H3|].
  exact (calc_excit_mat_parity_length_mismatch 5 [0; 1] [0; 1; 2] H1 H2 H3).
Defined.

(** ** The excitation returned by [excit_gen] *)

Section ExcitGenShape.
Variable H : HAM.
Variables fuel xfuel : nat.
Variable det : list nat.
Hypothesis det_sorted : StronglySorted lt det.
Hypothesis xfuel_enough : length det <= xfuel.

Local Abbreviation unocc := (unoccupied (2 * nbasis H) det).
Local Abbreviation Nn := (2 * nbasis H).

Lemma first_substitution_post_perm {A} (K : nat → nat → nat → list nat → rand A)
    (Post : A → Prop) :
  (∀ f t, f ∈ det → t ∈ unocc →
     Rand.post (K f t (crossed det f t) (substitute det f t)) Post) →
  Rand.post (first_substitution H fuel xfuel det K) Post.
Proof.
  intros HK. pose proof (strongly_sorted_lt_NoDup det det_sorted) as Hnd.
  unfold first_substitution.
  apply post_bind_randint. intros ind Hind.
  apply post_bind_lift. intros f Hf. rewrite getitem_nat in Hf by done.
  apply post_bind. apply (post_mono _ (fun t => t < Nn)); [|by intros t Ht].
  intros t0 Ht0.
  apply (post_bind_while (fun t => t < Nn)); [done|by intros _ _ _ t Ht|].
  intros t Ht Hto. apply contains_not_elem_of in Hto.
  apply post_bind_lift. intros ed Hed.
  rewrite setitem_nat in Hed by done. injection Hed as <-.
  apply post_bind_lift. intros perm Hperm.
  rewrite (elec_exchange_ops_crossed det ind f t xfuel) in Hperm by done.
  injection Hperm as <-.
  rewrite (sorted_insert_substitute det ind f t Hnd Hf).
  apply HK; [by eapply list_elem_of_lookup_2|].
  by apply unoccupied_elem_of.
Qed.

Lemma double_result_post_perm f1 t1 perm exc ind f2 t2 :
  StronglySorted lt exc → length exc <= xfuel →
  exc !! ind = Some f2 → t2 ∉ exc →
  Rand.post (double_result H xfuel f1 t1 perm exc (ind, f2, t2))
    (fun e => ex_mat e = ([f1; f2], [t1; t2])
              ∧ ex_det e = substitute exc f2 t2
              ∧ ex_parity e = ((-1) ^ Z.of_nat (perm + crossed exc f2 t2))%Z).
Proof.
  intros Hs Hx Hf2 Ht2. unfold double_result.
  pose proof (lookup_lt_Some _ _ _ Hf2) as Hlt.
  apply post_bind_lift. intros ed Hed.
  rewrite setitem_nat in Hed by done. injection Hed as <-.
  apply post_bind_lift. intros perm2 Hperm2.
  rewrite (elec_exchange_ops_crossed exc ind f2 t2 xfuel) in Hperm2 by done.
  injection Hperm2 as <-.
  apply post_bind_lift. intros prob _. simpl.
  split; [done|]. split; [|done].
  apply sorted_insert_substitute; [by apply strongly_sorted_lt_NoDup|done].
Qed.

Lemma excit_gen_shape :
  Rand.post (excit_gen H fuel xfuel det)
    (fun e => single_shape Nn det e ∨ double_shape Nn det e).
Proof.
  pose proof (strongly_sorted_lt_NoDup det det_sorted) as Hnd.
  rewrite excit_gen_stages. apply post_bind_random_lt. intros single.
  apply first_substitution_post_perm. intros f1 t1 Hf1 Ht1.
  pose proof Ht1 as [Ht1' _]%unoccupied_elem_of.
  destruct single.
  - unfold single_result. apply post_bind_lift. intros prob _. simpl.
    left. by exists f1, t1.
  - pose proof (substitute_sorted det f1 t1 Hnd Hf1 Ht1') as Hs1.
    apply second_substitution_post. intros ind f2 t2 Hf2 Ht2 Hacc.
    destruct (proj1 (second_accepted_iff H det f1 t1 f2 t2 Hf1 Ht1))
      as ((Hf2' & Hne) & (Ht2' & Hne')).
    { split; [by eapply list_elem_of_lookup_2|]. split; [done|exact Hacc]. }
    eapply post_mono; [|apply double_result_post_perm; try done].
    + intros e (Hmat & Hdet & Hpar). right.
      exists f1, t1, f2, t2. repeat split; try done; by apply not_eq_sym.
    + by rewrite substitute_length.
    + unfold second_rejected in Hacc.
      apply orb_false_iff in Hacc as [Hacc _].
      apply orb_false_iff in Hacc as [Hacc _].
      by apply contains_not_elem_of.
Qed.
End ExcitGenShape.

(** X5. Whatever the draws, the three parts of what [excit_gen] returns for
    an ascending duplicate-free determinant fit together: the excitation
    matrix names occupied labels of [det] as sources and unoccupied labels as
    targets (two different ones each for a double), the excited determinant
    is [det] with the sources replaced by the targets, in ascending order,
    and the parity is [-1] to the number of labels the new labels were
    carried across. *)
Theorem excit_gen_parts_fit (H : HAM) fuel xfuel det tape e tape' :
  det_wf det → length det <= xfuel →
  Rand.run (excit_gen H fuel xfuel det) tape = Some (e, tape') →
  single_shape (2 * nbasis H) det e ∨ double_shape (2 * nbasis H) det e.
Proof.
  intros Hwf%det_wf_strongly_sorted Hx Hrun.
  exact (post_run _ _ _ _ _ Hrun (excit_gen_shape H fuel xfuel det Hwf Hx)).
Qed.

Lemma excit_gen_parts_fit_witness :
  det_wf [0; 2] ∧ length [0; 2] <= 5 ∧
  Rand.run (excit_gen ham_example 5 5 [0; 2])
    [Rand.Float (1 # 2); Rand.Int 1; Rand.Int 0; Rand.Int 2; Rand.Int 3;
     Rand.Int 0; Rand.Int 0; Rand.Int 0; Rand.Int 1]
  = Some ({| ex_det := [1; 3]; ex_mat := ([2; 0], [3; 1]);
             ex_parity := 1; ex_prob := 9 # 10 |}, []) ∧
  (single_shape 4 [0; 2]
     {| ex_det := [1; 3]; ex_mat := ([2; 0], [3; 1]);
        ex_parity := 1; ex_prob := 9 # 10 |}
   ∨ double_shape 4 [0; 2]
       {| ex_det := [1; 3]; ex_mat := ([2; 0], [3; 1]);
          ex_parity := 1; ex_prob := 9 # 10 |}).
Proof.
  assert (Hwf : det_wf [0; 2]) by solve_det_wf.
  assert (Hx : length [0; 2] <= 5) by (simpl; lia).
  assert (Hrun : Rand.run (excit_gen ham_example 5 5 [0; 2])
    [Rand.Float (1 # 2); Rand.Int 1; Rand.Int 0; Rand.Int 2; Rand.Int 3;
     Rand.Int 0; Rand.Int 0; Rand.Int 0; Rand.Int 1]
  = Some ({| ex_det := [1; 3]; ex_mat := ([2; 0], [3; 1]);
             ex_parity := 1; ex_prob := 9 # 10 |}, []))
    by (vm_compute; reflexivity).
  split; [exact Hwf|]. split; [exact Hx|]. split; [exact Hrun|].
  exact (excit_gen_parts_fit ham_example 5 5 [0; 2] _ _ _ Hwf Hx Hrun).
Defined.

(** ** [excit_gen] and [calc_excit_mat_parity] side by side *)

Lemma sgn_add a b : sgn (a + b) = (sgn a * sgn b)%Z.
Proof. unfold sgn. rewrite Nat2Z.inj_add, Z.pow_add_r by lia. done. Qed.

Lemma sgn_S n : sgn (S n) = (- sgn n)%Z.
Proof. change (S n) with (1 + n). rewrite sgn_add. unfold sgn at 1. simpl. lia. Qed.

Lemma sgn_cases n : sgn n = 1%Z ∨ sgn n = (-1)%Z.
Proof. induction n as [|n IH]; [by left|]. rewrite sgn_S. lia. Qed.

Lemma crossed_cons x l u v :
  crossed (x :: l) u v
  = (if bool_decide ((u < x ∧ x < v) ∨ (v < x ∧ x < u)) then 1 else 0)
    + crossed l u v.
Proof.
  unfold crossed. rewrite filter_cons.
  destruct (decide _) as [Hb|Hb].
  - by rewrite bool_decide_eq_true_2.
  - by rewrite bool_decide_eq_false_2.
Qed.

Lemma below_cons x l u :
  below (x :: l) u = (if bool_decide (x < u) then 1 else 0) + below l u.
Proof.
  unfold below. rewrite filter_cons.
  destruct (decide _) as [Hb|Hb].
  - by rewrite bool_decide_eq_true_2.
  - by rewrite bool_decide_eq_false_2.
Qed.

Lemma crossed_perm l l' u v : l ≡ₚ l' → crossed l u v = crossed l' u v.
Proof. intros Hp. unfold crossed. by rewrite Hp. Qed.

Lemma sgn_crossed_cons x l u v :
  sgn (crossed (x :: l) u v) = (between_sign u v x * sgn (crossed l u v))%Z.
Proof.
  rewrite crossed_cons. unfold between_sign.
  destruct (bool_decide _); [|simpl; lia].
  change (1 + crossed l u v) with (S (crossed l u v)). rewrite sgn_S. lia.
Qed.

(** The labels strictly between [u] and [v] are those below one of them and
    not below the other. *)
Lemma sgn_crossed_below l u v :
  u ∉ l → v ∉ l → sgn (crossed l u v) = (sgn (below l u) * sgn (below l v))%Z.
Proof.
  induction l as [|x l IH]; [done|].
  rewrite !not_elem_of_cons. intros [Hu Hul] [Hv Hvl].
  rewrite sgn_crossed_cons, !below_cons, IH by done. unfold between_sign.
  destruct (sgn_cases (below l u)) as [Eu|Eu], (sgn_cases (below l v)) as [Ev|Ev];
    repeat case_bool_decide;
    try change (1 + below l u) with (S (below l u));
    try change (1 + below l v) with (S (below l v));
    rewrite ?sgn_S; simpl; lia.
Qed.

Section DoubleSign.
Variable det : list nat.
Hypothesis det_sorted : StronglySorted lt det.

Lemma split_two f1 f2 :
  f1 ∈ det → f2 ∈ det → f1 ≠ f2 →
  det ≡ₚ f1 :: f2 :: filter (fun x => x ≠ f1 ∧ x ≠ f2) det.
Proof.
  intros Hf1 Hf2 Hf. pose proof (strongly_sorted_lt_NoDup _ det_sorted) as Hnd.
  apply NoDup_Permutation; [done| |].
  - apply NoDup_cons. split.
    + rewrite not_elem_of_cons, list_elem_of_filter. tauto.
    + apply NoDup_cons. split; [|by apply NoDup_filter].
      rewrite list_elem_of_filter. tauto.
  - intros x. rewrite !elem_of_cons, list_elem_of_filter.
    destruct (decide (x = f1)), (decide (x = f2)); subst; tauto.
Qed.

Lemma substitute_split_two f1 t1 f2 :
  f1 ∈ det → f2 ∈ det → f1 ≠ f2 → t1 ∉ det →
  substitute det f1 t1 ≡ₚ t1 :: f2 :: filter (fun x => x ≠ f1 ∧ x ≠ f2) det.
Proof.
  intros Hf1 Hf2 Hf Ht1. pose proof (strongly_sorted_lt_NoDup _ det_sorted) as Hnd.
  apply NoDup_Permutation.
  - by apply strongly_sorted_lt_NoDup, substitute_sorted.
  - apply NoDup_cons. split.
    + rewrite not_elem_of_cons, list_elem_of_filter. split; [by intros ->|tauto].
    + apply NoDup_cons. split; [|by apply NoDup_filter].
      rewrite list_elem_of_filter. tauto.
  - intros x. rewrite substitute_elem_of, !elem_of_cons, list_elem_of_filter.
    destruct (decide (x = f1)), (decide (x = f2)), (decide (x = t1));
      subst; tauto.
Qed.

(** The sign of the two substitutions, one after the other, in terms of the
    labels that stay. *)
Lemma double_sign f1 t1 f2 t2 :
  f1 ∈ det → f2 ∈ det → f1 ≠ f2 → t1 ∉ det → t2 ∉ det → t1 ≠ t2 →
  let S := filter (fun x => x ≠ f1 ∧ x ≠ f2) det in
  sgn (crossed det f1 t1 + crossed (substitute det f1 t1) f2 t2)
  = (between_sign f1 t1 f2 * between_sign f2 t2 t1
     * (sgn (below S f1) * sgn (below S t1) * sgn (below S f2) * sgn (below S t2)))%Z.
Proof.
  intros Hf1 Hf2 Hf Ht1 Ht2 Ht S.
  assert ((f1 ∉ S) ∧ (f2 ∉ S) ∧ (t1 ∉ S) ∧ (t2 ∉ S)) as (HS1 & HS2 & HS3 & HS4).
  { unfold S. rewrite !list_elem_of_filter. tauto. }
  rewrite sgn_add.
  rewrite (crossed_perm _ _ _ _ (split_two f1 f2 Hf1 Hf2 Hf)).
  rewrite (crossed_perm _ _ _ _ (substitute_split_two f1 t1 f2 Hf1 Hf2 Hf Ht1)).
  rewrite !sgn_crossed_cons, !sgn_crossed_below by done. fold S.
  assert (between_sign f1 t1 f1 = 1%Z) as ->
    by (unfold between_sign; rewrite bool_decide_eq_false_2; [done|lia]).
  assert (between_sign f2 t2 f2 = 1%Z) as ->
    by (unfold between_sign; rewrite bool_decide_eq_false_2; [done|lia]).
  ring.
Qed.
End DoubleSign.

(** Taking the two sources, or the two targets, in the other order changes
    the sign of the pair of substitutions. *)
Lemma between_sign_swap f1 t1 f2 t2 :
  f1 ≠ f2 → t1 ≠ t2 → f1 ≠ t1 → f1 ≠ t2 → f2 ≠ t1 → f2 ≠ t2 →
  (between_sign (f1 `min` f2) (t1 `min` t2) (f1 `max` f2)
   * between_sign (f1 `max` f2) (t1 `max` t2) (t1 `min` t2)
   = between_sign f1 t1 f2 * between_sign f2 t2 t1
     * order_sign f1 f2 * order_sign t1 t2)%Z.
Proof.
  intros. unfold between_sign, order_sign.
  destruct (Nat.ltb_spec f1 f2), (Nat.ltb_spec t1 t2);
    rewrite ?Nat.min_l, ?Nat.max_r, ?Nat.min_r, ?Nat.max_l by lia;
    repeat case_bool_decide; lia.
Qed.

Section Agreement.
Variable det : list nat.
Hypothesis det_sorted : StronglySorted lt det.

Lemma missing_single_source f t :
  f ∈ det → t ∉ det → missing det (substitute det f t) = [f].
Proof.
  intros Hf Ht. apply strongly_sorted_lt_unique.
  - by apply strongly_sorted_filter.
  - repeat constructor.
  - intros x. rewrite missing_elem_of, substitute_elem_of, list_elem_of_singleton.
    destruct (decide (x = f)); subst; [|tauto].
    split; [done|]. intros _. split; [done|]. intros [[_ ->]|[_ ?]]; done.
Qed.

Lemma missing_single_target f t :
  f ∈ det → t ∉ det → missing (substitute det f t) det = [t].
Proof.
  intros Hf Ht. pose proof (strongly_sorted_lt_NoDup _ det_sorted) as Hnd.
  apply strongly_sorted_lt_unique.
  - by apply strongly_sorted_filter, substitute_sorted.
  - repeat constructor.
  - intros x. rewrite missing_elem_of, substitute_elem_of, list_elem_of_singleton.
    destruct (decide (x = t)); subst; tauto.
Qed.

Lemma double_elem_of f1 t1 f2 t2 x :
  f1 ∈ det → f2 ∈ det → f1 ≠ f2 → t1 ∉ det →
  x ∈ substitute (substitute det f1 t1) f2 t2
  ↔ x = t2 ∨ x = t1 ∨ (x ∈ det ∧ x ≠ f1 ∧ x ≠ f2).
Proof.
  intros Hf1 Hf2 Hf Ht1. rewrite !substitute_elem_of.
  destruct (decide (x = t1)), (decide (x = f2)); subst; naive_solver.
Qed.

Lemma sorted_pair x y : x ≠ y → StronglySorted lt [x `min` y; x `max` y].
Proof. intros Hxy. repeat constructor. lia. Qed.

Lemma elem_of_sorted_pair x y z : z ∈ [x `min` y; x `max` y] ↔ z = x ∨ z = y.
Proof.
  rewrite elem_of_cons, list_elem_of_singleton.
  destruct (Nat.min_spec x y) as [[? ->]|[? ->]],
    (Nat.max_spec x y) as [[? ->]|[? ->]]; try lia; tauto.
Qed.

Lemma missing_double_source f1 t1 f2 t2 :
  f1 ∈ det → f2 ∈ det → f1 ≠ f2 → t1 ∉ det → t2 ∉ det →
  missing det (substitute (substitute det f1 t1) f2 t2)
  = [f1 `min` f2; f1 `max` f2].
Proof.
  intros Hf1 Hf2 Hf Ht1 Ht2. apply strongly_sorted_lt_unique.
  - by apply strongly_sorted_filter.
  - by apply sorted_pair.
  - intros x. rewrite missing_elem_of, double_elem_of, elem_of_sorted_pair by done.
    destruct (decide (x = f1)), (decide (x = f2)), (decide (x = t1)),
      (decide (x = t2)); subst; tauto.
Qed.

Lemma missing_double_target f1 t1 f2 t2 :
  f1 ∈ det → f2 ∈ det → f1 ≠ f2 → t1 ∉ det → t2 ∉ det → t1 ≠ t2 →
  missing (substitute (substitute det f1 t1) f2 t2) det
  = [t1 `min` t2; t1 `max` t2].
Proof.
  intros Hf1 Hf2 Hf Ht1 Ht2 Ht.
  pose proof (strongly_sorted_lt_NoDup _ det_sorted) as Hnd.
  apply strongly_sorted_lt_unique.
  - apply strongly_sorted_filter, substitute_sorted.
    + by apply strongly_sorted_lt_NoDup, substitute_sorted.
    + rewrite substitute_elem_of. right. split; [done|by apply not_eq_sym].
    + rewrite substitute_elem_of. intros [[_ ?]|[? _]]; done.
  - by apply sorted_pair.
  - intros x. rewrite missing_elem_of, double_elem_of, elem_of_sorted_pair by done.
    destruct (decide (x = t1)), (decide (x = t2)); subst; tauto.
Qed.

(** The two substitutions done in ascending order of sources and targets,
    as [calc_excit_mat_parity] does them, against the order of the draws. *)
Lemma double_sign_sorted f1 t1 f2 t2 :
  f1 ∈ det → f2 ∈ det → f1 ≠ f2 → t1 ∉ det → t2 ∉ det → t1 ≠ t2 →
  sgn (crossed det (f1 `min` f2) (t1 `min` t2)
       + crossed (substitute det (f1 `min` f2) (t1 `min` t2))
           (f1 `max` f2) (t1 `max` t2))
  = (sgn (crossed det f1 t1 + crossed (substitute det f1 t1) f2 t2)
     * order_sign f1 f2 * order_sign t1 t2)%Z.
Proof.
  intros Hf1 Hf2 Hf Ht1 Ht2 Ht.
  assert (f1 ≠ t1 ∧ f1 ≠ t2 ∧ f2 ≠ t1 ∧ f2 ≠ t2) as (? & ? & ? & ?).
  { repeat split; by intros ->. }
  assert ((f1 `min` f2 = f1 ∧ f1 `max` f2 = f2)
          ∨ (f1 `min` f2 = f2 ∧ f1 `max` f2 = f1)) as Hmf by lia.
  assert ((t1 `min` t2 = t1 ∧ t1 `max` t2 = t2)
          ∨ (t1 `min` t2 = t2 ∧ t1 `max` t2 = t1)) as Hmt by lia.
  rewrite (double_sign det det_sorted f1 t1 f2 t2) by done.
  rewrite (double_sign det det_sorted (f1 `min` f2) (t1 `min` t2)
             (f1 `max` f2) (t1 `max` t2)).
  2-7: destruct Hmf as [[E1 E2]|[E1 E2]], Hmt as [[E3 E4]|[E3 E4]];
         rewrite ?E1, ?E2, ?E3, ?E4; done.
  cbv zeta. rewrite between_sign_swap by done.
  rewrite (list_filter_iff (fun x => x ≠ f1 `min` f2 ∧ x ≠ f1 `max` f2)
             (fun x => x ≠ f1 ∧ x ≠ f2)) by (intros x; lia).
  destruct Hmf as [[-> ->]|[-> ->]], Hmt as [[-> ->]|[-> ->]]; ring.
Qed.
End Agreement.

(** X6. A single excitation that [excit_gen] returns is recognised by
    [calc_excit_mat_parity]: called on the input and on the returned
    determinant, it gives the same excitation matrix and the same parity. *)
Theorem excit_gen_calc_agree_single (H : HAM) fuel xfuel det tape e tape' :
  det_wf det → length det <= xfuel →
  Rand.run (excit_gen H fuel xfuel det) tape = Some (e, tape') →
  length (ex_mat e).1 = 1 →
  calc_excit_mat_parity xfuel det (ex_det e)
  = Some (Some (ex_mat e), Some (ex_parity e)).
Proof.
  intros Hwf%det_wf_strongly_sorted Hx Hrun Hrank.
  pose proof (strongly_sorted_lt_NoDup _ Hwf) as Hnd.
  destruct (post_run _ _ _ _ _ Hrun (excit_gen_shape H fuel xfuel det Hwf Hx))
    as [(f & t & Hf & Ht & Hmat & Hdet & Hpar)
       |(f1 & t1 & f2 & t2 & _ & _ & Hmat & _)].
  2:{ rewrite Hmat in Hrank. done. }
  apply unoccupied_elem_of in Ht as [Ht _].
  rewrite Hdet, Hmat, Hpar.
  rewrite calc_excit_mat_parity_value; try done.
  - rewrite missing_single_source, missing_single_target by done.
    simpl. by rewrite Nat.add_0_r.
  - by apply strongly_sorted_lt_NoDup, substitute_sorted.
  - by rewrite substitute_length.
Qed.

(** X7. A double excitation that [excit_gen] returns is recognised by
    [calc_excit_mat_parity] up to the order of the labels: it lists the two
    sources in ascending order and the two targets in ascending order, and
    its parity is the parity of [excit_gen] with one change of sign for each
    of the two pairs that [excit_gen] drew in descending order. *)
Theorem excit_gen_calc_agree_double (H : HAM) fuel xfuel det tape e tape'
    f1 f2 t1 t2 :
  det_wf det → length det <= xfuel →
  Rand.run (excit_gen H fuel xfuel det) tape = Some (e, tape') →
  ex_mat e = ([f1; f2], [t1; t2]) →
  calc_excit_mat_parity xfuel det (ex_det e)
  = Some (Some ([f1 `min` f2; f1 `max` f2], [t1 `min` t2; t1 `max` t2]),
          Some (ex_parity e * order_sign f1 f2 * order_sign t1 t2)%Z).
Proof.
  intros Hwf%det_wf_strongly_sorted Hx Hrun Hmat.
  pose proof (strongly_sorted_lt_NoDup _ Hwf) as Hnd.
  destruct (post_run _ _ _ _ _ Hrun (excit_gen_shape H fuel xfuel det Hwf Hx))
    as [(f & t & _ & _ & Hmat' & _)
       |(g1 & u1 & g2 & u2 & (Hf1 & Hf2 & Hf) & (Ht1 & Ht2 & Ht) & Hmat' & Hdet
         & Hpar)].
  { rewrite Hmat in Hmat'. done. }
  rewrite Hmat in Hmat'. injection Hmat' as <- <- <- <-.
  apply unoccupied_elem_of in Ht1 as [Ht1 _], Ht2 as [Ht2 _].
  assert (StronglySorted lt (substitute (substitute det f1 t1) f2 t2)) as Hs2.
  { apply substitute_sorted.
    - by apply strongly_sorted_lt_NoDup, substitute_sorted.
    - rewrite substitute_elem_of. right. split; [done|by apply not_eq_sym].
    - rewrite substitute_elem_of. intros [[_ ?]|[? _]]; done. }
  rewrite Hdet, Hpar.
  rewrite calc_excit_mat_parity_value; try done.
  - rewrite missing_double_source, missing_double_target by done.
    cbn [zip zip_with crossed_all]. rewrite Nat.add_0_r.
    pose proof (double_sign_sorted det Hwf f1 t1 f2 t2 Hf1 Hf2 Hf Ht1 Ht2 Ht) as Hsg.
    unfold sgn in Hsg. by rewrite Hsg.
  - by apply strongly_sorted_lt_NoDup.
  - by rewrite !substitute_length.
Qed.

Lemma excit_gen_calc_agree_single_witness :
  det_wf [0; 2] ∧ length [0; 2] <= 5 ∧
  Rand.run (excit_gen ham_example 5 5 [0; 2])
    [Rand.Float 0; Rand.Int 0; Rand.Int 2; Rand.Int 3]
  = Some ({| ex_det := [2; 3]; ex_mat := ([0], [3]);
             ex_parity := -1; ex_prob := 1 # 40 |}, []) ∧
  calc_excit_mat_parity 5 [0; 2] [2; 3] = Some (Some ([0], [3]), Some (-1)%Z).
Proof.
  assert (Hwf : det_wf [0; 2]) by solve_det_wf.
  assert (Hx : length [0; 2] <= 5) by (simpl; lia).
  assert (Hrun : Rand.run (excit_gen ham_example 5 5 [0; 2])
    [Rand.Float 0; Rand.Int 0; Rand.Int 2; Rand.Int 3]
  = Some ({| ex_det := [2; 3]; ex_mat := ([0], [3]);
             ex_parity := -1; ex_prob := 1 # 40 |}, []))
    by (vm_compute; reflexivity).
  split; [exact Hwf|]. split; [exact Hx|]. split; [exact Hrun|].
  exact (excit_gen_calc_agree_single ham_example 5 5 [0; 2] _ _ _ Hwf Hx Hrun
           eq_refl).
Defined.

Lemma excit_gen_calc_agree_double_witness :
  det_wf [0; 2] ∧ length [0; 2] <= 5 ∧
  Rand.run (excit_gen ham_example 5 5 [0; 2])
    [Rand.Float (1 # 2); Rand.Int 1; Rand.Int 0; Rand.Int 2; Rand.Int 3;
     Rand.Int 0; Rand.Int 0; Rand.Int 0; Rand.Int 1]
  = Some ({| ex_det := [1; 3]; ex_mat := ([2; 0], [3; 1]);
             ex_parity := 1; ex_prob := 9 # 10 |}, []) ∧
  calc_excit_mat_parity 5 [0; 2] [1; 3]
  = Some (Some ([0; 2], [1; 3]), Some (1 * order_sign 2 0 * order_sign 3 1)%Z).
Proof.
  assert (Hwf : det_wf [0; 2]) by solve_det_wf.
  assert (Hx : length [0; 2] <= 5) by (simpl; lia).
  assert (Hrun : Rand.run (excit_gen ham_example 5 5 [0; 2])
    [Rand.Float (1 # 2); Rand.Int 1; Rand.Int 0; Rand.Int 2; Rand.Int 3;
     Rand.Int 0; Rand.Int 0; Rand.Int 0; Rand.Int 1]
  = Some ({| ex_det := [1; 3]; ex_mat := ([2; 0], [3; 1]);
             ex_parity := 1; ex_prob := 9 # 10 |}, []))
    by (vm_compute; reflexivity).
  split; [exact Hwf|]. split; [exact Hx|]. split; [exact Hrun|].
  exact (excit_gen_calc_agree_double ham_example 5 5 [0; 2] _ _ _ 2 0 3 1
           Hwf Hx Hrun eq_refl).
Defined.

(** ** When [slater_condon] raises *)

Section SlaterCondonRaises.
Variable H : HAM.

Local Abbreviation sb := (spin_basis H).

Lemma h1_at_is_Some p q : is_Some (h1_at H p q) ↔ p < sb ∧ q < sb.
Proof.
  unfold h1_at.
  destruct (Nat.ltb_spec p sb), (Nat.ltb_spec q sb); simpl;
    (split; [intros [? ?]|intros ?]; try done; try lia; by eexists).
Qed.

Lemma h2_at_is_Some p q r s :
  is_Some (h2_at H p q r s) ↔ p < sb ∧ q < sb ∧ r < sb ∧ s < sb.
Proof.
  unfold h2_at.
  destruct (Nat.ltb_spec p sb), (Nat.ltb_spec q sb), (Nat.ltb_spec r sb),
    (Nat.ltb_spec s sb); simpl;
    (split; [intros [? ?]|intros ?]; try done; try lia; by eexists).
Qed.

Lemma foldl_option_None {A B} (f : A → B → option A) (l : list B) :
  foldl (fun acc x => a ← acc; f a x) None l = None.
Proof. by induction l. Qed.

Lemma single_loop_is_Some i a det hel :
  is_Some (single_loop H i a det hel)
  ↔ det = [] ∨ (i < sb ∧ a < sb ∧ Forall (fun q => q < sb) det).
Proof.
  revert hel. induction det as [|q det IH]; intros hel.
  - split; [by left|by eexists].
  - unfold single_loop in *. cbn [foldl]. cbn [mbind option_bind].
    destruct (h2_at H i a q q) as [x|] eqn:Ex.
    2:{ cbn [mbind option_bind].
        rewrite (foldl_option_None
                   (fun hel q => x ← h2_at H i a q q; y ← h2_at H i q q a;
                                 Some (hel + (x - y))%Q)).
        split; [by intros [? ?]|]. intros [?|(Hi & Ha & Hq%Forall_cons)]; [done|].
        destruct Hq as [Hq _].
        destruct (proj2 (h2_at_is_Some i a q q)) as [? E]; [done|].
        by rewrite E in Ex. }
    assert (is_Some (h2_at H i a q q)) as (Hi & Ha & Hq & _)%h2_at_is_Some
      by (by eexists).
    cbn [mbind option_bind].
    rewrite (h2_at_in_range H i q q a) by done. cbn [mbind option_bind].
    rewrite IH. rewrite Forall_cons. split.
    + intros [->|(_ & _ & ?)]; right; repeat split; done.
    + intros [?|(_ & _ & _ & ?)]; [done|]. destruct det; [by left|by right].
Qed.

Lemma diag_outer_None det (l : list (nat * nat)) :
  foldl (fun acc '(pos, p) =>
           hel ← acc; a ← h1_at H p p;
           diag_inner H p (drop (pos + 1) det) (hel + a)%Q)
        None l = None.
Proof. induction l as [|[pos p] l IH]; [done|]. exact IH. Qed.

Lemma diag_outer_is_Some_gen det : ∀ (l : list nat) start acc,
  is_Some (foldl (fun acc '(pos, p) =>
                    hel ← acc; a ← h1_at H p p;
                    diag_inner H p (drop (pos + 1) det) (hel + a)%Q)
                 acc (combine (seq start (length l)) l)) →
  Forall (fun q => q < sb) l.
Proof.
  induction l as [|p l IH]; intros start acc Hs; [done|].
  cbn [length seq combine foldl] in Hs.
  apply Forall_cons. split; [|by eapply IH].
  destruct acc as [hel|]; cbn [mbind option_bind] in Hs.
  - destruct (h1_at H p p) as [a|] eqn:E.
    + assert (is_Some (h1_at H p p)) as [? _]%h1_at_is_Some by (by eexists). done.
    + cbn [mbind option_bind] in Hs. rewrite diag_outer_None in Hs.
      by destruct Hs.
  - rewrite diag_outer_None in Hs. by destruct Hs.
Qed.

Lemma diag_outer_is_Some det hel :
  is_Some (diag_outer H det hel) ↔ Forall (fun q => q < sb) det.
Proof.
  split.
  - apply (diag_outer_is_Some_gen det det 0).
  - intros Hall. destruct (diag_outer_sum H det hel Hall) as (x & -> & _).
    by eexists.
Qed.
End SlaterCondonRaises.

(** X8. [slater_condon] raises [IndexError] exactly when it reads a tensor
    outside its range: for the descriptor [None] when some label of [det] is
    not below [2 * nbasis]; for a rank-1 descriptor when a label of the
    descriptor or of [det] is not; for a rank-2 descriptor when a label of
    the descriptor is not, whatever [det] holds. *)
Theorem slater_condon_raises_iff (H : HAM) det excited_det parity :
  (is_Some (slater_condon H det excited_det None parity)
   ↔ Forall (fun q => q < 2 * nbasis H) det)
  ∧ (∀ i a,
       is_Some (slater_condon H det excited_det (Some ([i], [a])) parity)
       ↔ i < 2 * nbasis H ∧ a < 2 * nbasis H
         ∧ Forall (fun q => q < 2 * nbasis H) det)
  ∧ (∀ i j a b,
       is_Some (slater_condon H det excited_det (Some ([i; j], [a; b])) parity)
       ↔ i < 2 * nbasis H ∧ j < 2 * nbasis H
         ∧ a < 2 * nbasis H ∧ b < 2 * nbasis H).
Proof.
  change (2 * nbasis H) with (spin_basis H).
  split; [|split].
  - rewrite <- (diag_outer_is_Some H det (nn H)). unfold slater_condon.
    destruct (diag_outer H det (nn H)); simpl; split; intros [? ?]; by eexists.
  - intros i a. unfold slater_condon. cbn [length Nat.eqb lookup list_lookup].
    cbn [mbind option_bind].
    destruct (h1_at H i a) as [hel|] eqn:E.
    + assert (is_Some (h1_at H i a)) as [Hi Ha]%h1_at_is_Some by (by eexists).
      cbn [mbind option_bind].
      pose proof (single_loop_is_Some H i a det hel) as Hl.
      destruct (single_loop H i a det hel); simpl.
      * split; [intros _|by eexists].
        destruct (proj1 Hl) as [->|?]; [by eexists| |tauto].
        repeat split; done.
      * split; [by intros [? ?]|]. intros (_ & _ & Hall).
        destruct (proj2 Hl) as [? ?]; [right; tauto|done].
    + cbn [mbind option_bind]. split; [by intros [? ?]|].
      intros (Hi & Ha & _).
      destruct (proj2 (h1_at_is_Some H i a)) as [? E']; [done|].
      by rewrite E' in E.
  - intros i j a b. unfold slater_condon. cbn [length Nat.eqb lookup list_lookup].
    cbn [mbind option_bind].
    destruct (h2_at H i a j b) as [x|] eqn:Ex.
    + assert (is_Some (h2_at H i a j b)) as (Hi & Ha & Hj & Hb)%h2_at_is_Some
        by (by eexists).
      cbn [mbind option_bind]. rewrite (h2_at_in_range H i b j a) by done.
      simpl. split; [done|by eexists].
    + cbn [mbind option_bind]. split; [by intros [? ?]|].
      intros (Hi & Hj & Ha & Hb).
      destruct (proj2 (h2_at_is_Some H i a j b)) as [? E']; [done|].
      by rewrite E' in Ex.
Qed.

(** ** The reference determinant *)

Lemma py_range_to_nat lo hi :
  (0 <= lo)%Z → Z.to_nat <$> py_range lo hi = seq (Z.to_nat lo) (Z.to_nat (hi - lo)).
Proof.
  intros Hlo. unfold py_range. rewrite <- list_fmap_compose.
  replace (seq (Z.to_nat lo) (Z.to_nat (hi - lo)))
    with (Nat.add (Z.to_nat lo) <$> seq 0 (Z.to_nat (hi - lo)))
    by (rewrite fmap_add_seq; f_equal; lia).
  apply list_fmap_ext. intros _ i _. simpl. lia.
Qed.

(** X9. When the numbers of alpha and of beta electrons that
    [read_in_fcidump] derives from [nelec] and [ms] are neither negative nor
    above [nbasis], the reference determinant that [HAM.__init__] builds is
    an ascending duplicate-free list of [nelec] labels below [2 * nbasis]:
    the first [n_alpha] alpha labels, then the first [n_beta] beta labels. *)
Theorem ref_det_valid (H : HAM) (ms : Z) :
  let na := n_alpha (Z.of_nat (nelec H)) ms in
  let nb := n_beta (Z.of_nat (nelec H)) ms in
  let det := Z.to_nat <$> ref_det (Z.of_nat (nbasis H)) (Z.of_nat (nelec H)) ms in
  (0 <= na <= Z.of_nat (nbasis H))%Z → (0 <= nb <= Z.of_nat (nbasis H))%Z →
  det = seq 0 (Z.to_nat na) ++ seq (nbasis H) (Z.to_nat nb)
  ∧ det_wf det ∧ length det = nelec H
  ∧ Forall (fun q => q < 2 * nbasis H) det.
Proof.
  intros na nb det Hna Hnb.
  assert (det = seq 0 (Z.to_nat na) ++ seq (nbasis H) (Z.to_nat nb)) as Hdet.
  { unfold det, ref_det. rewrite fmap_app, !py_range_to_nat by lia.
    fold na nb. f_equal; f_equal; lia. }
  split; [exact Hdet|]. rewrite Hdet. split; [|split].
  - apply det_wf_strongly_sorted, strongly_sorted_app;
      [apply strongly_sorted_seq..|].
    intros a b Ha%elem_of_seq Hb%elem_of_seq. lia.
  - rewrite length_app, !length_seq. unfold na, nb, n_beta in *. lia.
  - apply Forall_app. split; apply Forall_forall; intros q Hq%elem_of_seq; lia.
Qed.

Lemma ref_det_valid_witness :
  (0 <= n_alpha (Z.of_nat (nelec ham_example)) 0
   <= Z.of_nat (nbasis ham_example))%Z ∧
  (0 <= n_beta (Z.of_nat (nelec ham_example)) 0
   <= Z.of_nat (nbasis ham_example))%Z ∧
  Z.to_nat <$> ref_det (Z.of_nat (nbasis ham_example))
                 (Z.of_nat (nelec ham_example)) 0 = [0; 2] ∧
  det_wf [0; 2].
Proof.
  assert (H1 : (0 <= n_alpha (Z.of_nat (nelec ham_example)) 0
                <= Z.of_nat (nbasis ham_example))%Z) by (vm_compute; split; discriminate).
  assert (H2 : (0 <= n_beta (Z.of_nat (nelec ham_example)) 0
                <= Z.of_nat (nbasis ham_example))%Z) by (vm_compute; split; discriminate).
  split; [exact H1|]. split; [exact H2|].
  pose proof (ref_det_valid ham_example 0 H1 H2) as (Hdet & Hwf & _).
  split; [exact Hdet|exact Hwf].
Defined.

(** ** Stochastic rounding does not change the expected magnitude *)

Lemma round_walker_expect p w (g : option Q → Q) :
  (0 < det_thresh p)%Q →
  (Rand.expect (round_walker p w) g
   == if Rand.Qltb (Qabs w / det_thresh p) 1
      then Qabs w / det_thresh p * g (Some (det_thresh p))
           + (1 - Qabs w / det_thresh p) * g None
      else g (Some w))%Q.
Proof.
  intros Hth. unfold round_walker, div_checked.
  destruct (Qeq_bool (det_thresh p) 0) eqn:E.
  { apply Qeq_bool_iff in E. lra. }
  cbn [Rand.lift Rand.bind].
  destruct (Rand.Qltb (Qabs w / det_thresh p) 1) eqn:Elt; [|reflexivity].
  apply Qltb_lt in Elt.
  assert (0 <= Qabs w / det_thresh p)%Q as Hpos.
  { apply Qle_shift_div_l; [done|]. rewrite Qmult_0_l. apply Qabs_nonneg. }
  simpl. rewrite clamp01_id by lra. reflexivity.
Qed.

(** X10. With a positive threshold, stochastic rounding keeps the expected
    magnitude of a walker: a walker below the threshold goes on with
    magnitude [det_thresh] with probability [|w| / det_thresh] and is deleted
    otherwise, a walker at or above the threshold goes on unchanged.  The
    amplitude that a kept sub-threshold walker goes on with is the positive
    threshold, so its expected amplitude is [|w|] whatever the sign of
    [w]. *)
Theorem rounding_keeps_expected_magnitude (p : PARAMS) (w : Q) :
  (0 < det_thresh p)%Q →
  (Rand.expect (round_walker p w) kept_magnitude == Qabs w)%Q
  ∧ ((Qabs w < det_thresh p)%Q →
     (Rand.expect (round_walker p w) kept_amplitude == Qabs w)%Q).
Proof.
  intros Hth.
  assert (¬ (det_thresh p == 0)%Q) as Hne by lra.
  split.
  - rewrite round_walker_expect by done.
    destruct (Rand.Qltb _ 1); [|reflexivity]. simpl.
    rewrite (Qabs_pos (det_thresh p)) by lra. field. done.
  - intros Hlt. rewrite round_walker_expect by done.
    assert (Rand.Qltb (Qabs w / det_thresh p) 1 = true) as ->.
    { unfold Rand.Qltb. apply negb_true_iff.
      destruct (Qle_bool 1 (Qabs w / det_thresh p)) eqn:E; [|done].
      apply Qle_bool_iff in E.
      assert (Qabs w / det_thresh p < 1)%Q; [|lra].
      apply Qlt_shift_div_r; lra. }
    simpl. field. done.
Qed.

Lemma rounding_keeps_expected_magnitude_witness :
  (0 < det_thresh params_example)%Q ∧
  (Rand.expect (round_walker params_example (- (1 # 10))) kept_magnitude
   == 1 # 10)%Q ∧
  (Rand.expect (round_walker params_example (- (1 # 10))) kept_amplitude
   == 1 # 10)%Q.
Proof.
  assert (Hth : (0 < det_thresh params_example)%Q) by (by vm_compute).
  split; [exact Hth|].
  destruct (rounding_keeps_expected_magnitude params_example (- (1 # 10)) Hth)
    as [Hm Ha].
  split; [exact Hm|]. apply Ha. by vm_compute.
Defined.

(** ** The expected spawned weight *)

Lemma weight_at_add sp k v t :
  (weight_at (Dict.add sp k v) t
   == weight_at sp t + (if k =? t then v else 0))%Q.
Proof.
  unfold weight_at. destruct (Nat.eqb_spec k t) as [->|Hne].
  - rewrite dict_get_add_eq. destruct (Dict.get sp t); simpl; ring.
  - rewrite dict_get_add_ne by done. ring.
Qed.

Lemma nspawn_of_zero amp : nspawn_of amp = 0 → (amp == 0)%Q.
Proof.
  unfold nspawn_of. intros Hz.
  pose proof (Qle_ceiling (Qabs amp)) as Hc.
  assert (Qceiling (Qabs amp) <= 0)%Z as Hle by lia.
  rewrite Zle_Qle in Hle. change (inject_Z 0) with 0%Q in Hle.
  assert (Qabs amp <= 0)%Q as Habs by lra.
  apply Qabs_Qle_condition in Habs. lra.
Qed.

Section SpawnExpectation.
Variable full_h : nat → nat → Q.
Variables ndet fuel : nat.
Variable p : PARAMS.
Variable det_ind : nat.
Variable det_amp : Q.
Variable nspawn : nat.
Hypothesis ndet_two : 2 <= ndet.
Hypothesis det_ind_valid : det_ind < ndet.

Let N : Q := inject_Z (Z.of_nat ndet).
Let C : Q := (1 - qpow (1 / N) (S fuel))%Q.

Local Abbreviation w_of :=
  (fun t => spawned_weight full_h ndet p det_ind t det_amp nspawn).
Local Abbreviation attempt :=
  (spawn_attempt full_h ndet fuel p det_ind det_amp nspawn).
Local Abbreviation loop :=
  (fun n => spawn_loop full_h ndet fuel n p det_ind det_amp nspawn).

Lemma N_nonzero : ¬ (N == 0)%Q ∧ ¬ (N - 1 == 0)%Q.
Proof.
  unfold N. split.
  - apply inject_nat_nonzero. lia.
  - change 1%Q with (inject_Z (Z.of_nat 1)).
    rewrite <- inject_nat_minus by lia. apply inject_nat_nonzero. lia.
Qed.

Lemma geom_as_C : (geom (1 / N) fuel / N * (N - 1) == C)%Q.
Proof.
  destruct N_nonzero as [HN HN1]. unfold C. rewrite <- geom_closed.
  field. done.
Qed.

Lemma expect_pick (h : nat → Q) :
  (Rand.expect (pick_spawn_ind ndet fuel det_ind) h
   == geom (1 / N) fuel / N
      * Rand.Qsum (map (fun s => if s =? det_ind then 0 else h s) (seq 0 ndet)))%Q.
Proof.
  unfold pick_spawn_ind.
  rewrite (expect_resample (Rand.randint ndet) (fun s => s =? det_ind)).
  rewrite (geom_ext _ (1 / N)) by (by apply prob_randint_eq).
  unfold Rand.randint. rewrite expect_randint. simpl Rand.expect.
  fold N. unfold Qdiv. ring.
Qed.

Lemma expect_attempt (G : Dict.t → Q) sp :
  (Rand.expect (attempt sp) G
   == geom (1 / N) fuel / N
      * Rand.Qsum (map (fun s => if s =? det_ind then 0
                                 else G (Dict.add sp s (w_of s)))
                       (seq 0 ndet)))%Q.
Proof.
  unfold spawn_attempt. rewrite expect_bind, expect_pick.
  apply Qmult_comp; [reflexivity|]. apply Qsum_map_ext.
  intros s Hs%in_seq. destruct (s =? det_ind); [reflexivity|].
  rewrite spawn_weight_of_value by (done || lia). reflexivity.
Qed.

Lemma sum_targets (a w : Q) t :
  t < ndet → t ≠ det_ind →
  (Rand.Qsum (map (fun s => if s =? det_ind then 0
                            else a + (if s =? t then w else 0))
                  (seq 0 ndet))
   == (N - 1) * a + w)%Q.
Proof.
  intros Ht Hne.
  rewrite (Qsum_map_ext _
    (fun s => (a - (if s =? det_ind then a else 0))
              + (if s =? t then w else 0))%Q).
  - rewrite Qsum_map_plus, Qsum_map_const_minus, length_seq.
    rewrite (Qsum_seq_single det_ind a), (Qsum_seq_single t w) by lia.
    fold N. ring.
  - intros s _.
    destruct (Nat.eqb_spec s det_ind), (Nat.eqb_spec s t); subst; try done; ring.
Qed.

Lemma attempt_returns sp :
  (Rand.prob_returns (attempt sp) == C)%Q.
Proof.
  unfold Rand.prob_returns. rewrite expect_attempt.
  rewrite (Qsum_map_ext _ (fun s => 1 - (if s =? det_ind then 1 else 0))%Q)
    by (intros s _; destruct (s =? det_ind); ring).
  rewrite Qsum_map_const_minus, length_seq, (Qsum_seq_single det_ind 1) by lia.
  fold N. rewrite <- geom_as_C. ring.
Qed.

Lemma loop_returns : ∀ n sp, (Rand.prob_returns (loop n sp) == qpow C n)%Q.
Proof.
  induction n as [|n IH]; intros sp; [reflexivity|].
  unfold Rand.prob_returns in *. cbn [spawn_loop qpow]. rewrite expect_bind.
  rewrite (expect_ext _ _ (fun _ => qpow C n * 1)%Q)
    by (intros sp'; rewrite IH; ring).
  rewrite expect_scale. fold (Rand.prob_returns (attempt sp)).
  rewrite attempt_returns. ring.
Qed.

Lemma expect_loop t :
  t < ndet → t ≠ det_ind →
  ∀ n sp,
    (Rand.expect (loop n sp) (fun sp' => weight_at sp' t)
     == qpow C n * (weight_at sp t
                    + inject_Z (Z.of_nat n) * (w_of t / (N - 1))))%Q.
Proof.
  intros Ht Hne. destruct N_nonzero as [HN HN1].
  induction n as [|n IH]; intros sp.
  - simpl. change (inject_Z (Z.of_nat 0)) with 0%Q. ring.
  - cbn [spawn_loop qpow]. rewrite expect_bind.
    set (K := (inject_Z (Z.of_nat n) * (w_of t / (N - 1)))%Q).
    rewrite (expect_ext _ _ (fun sp' => qpow C n * (weight_at sp' t + K))%Q)
      by (intros sp'; apply IH).
    rewrite expect_attempt.
    rewrite (Qsum_map_ext _
      (fun s => qpow C n
                * (if s =? det_ind then 0
                   else (weight_at sp t + K) + (if s =? t then w_of t else 0)))%Q).
    2:{ intros s _. destruct (Nat.eqb_spec s det_ind); [ring|].
        rewrite weight_at_add. destruct (Nat.eqb_spec s t) as [->|_]; ring. }
    rewrite Qsum_map_scale, sum_targets by done.
    generalize (qpow C n). intros Pn. rewrite <- geom_as_C. unfold K.
    assert (inject_Z (Z.of_nat (S n)) == inject_Z (Z.of_nat n) + 1)%Q as ->
      by (rewrite Nat2Z.inj_succ, <- Z.add_1_r, inject_Z_plus; reflexivity).
    field. done.
Qed.
End SpawnExpectation.

(** X11. Spawning is unbiased: for a walker of amplitude [amp] on the
    determinant [d], the weight that its [ceil(|amp|)] spawn attempts are
    expected to add to a target [t] other than [d] is
    [-timestep * H[d,t] * amp].  In the model the expectation carries the
    probability that every resampling loop ends within its budget, which is
    [(1 - (1/ndet)^(fuel+1))] to the number of attempts. *)
Theorem spawning_is_unbiased (full_h : nat → nat → Q) (ndet fuel : nat)
    (p : PARAMS) (d t : nat) (amp : Q) (spawned : Dict.t) :
  2 <= ndet → d < ndet → t < ndet → t ≠ d →
  (Rand.expect
     (spawn_loop full_h ndet fuel (nspawn_of amp) p d amp (nspawn_of amp) spawned)
     (fun sp => weight_at sp t)
   == Rand.prob_returns
        (spawn_loop full_h ndet fuel (nspawn_of amp) p d amp (nspawn_of amp)
           spawned)
      * (weight_at spawned t - timestep p * full_h d t * amp))%Q
  ∧ (Rand.prob_returns
       (spawn_loop full_h ndet fuel (nspawn_of amp) p d amp (nspawn_of amp)
          spawned)
     == qpow (1 - qpow (1 / inject_Z (Z.of_nat ndet)) (S fuel)) (nspawn_of amp))%Q.
Proof.
  intros Hn Hd Ht Hne.
  pose proof (loop_returns full_h ndet fuel p d amp (nspawn_of amp) Hn Hd
                (nspawn_of amp) spawned) as Hret.
  split; [|exact Hret].
  rewrite Hret.
  rewrite (expect_loop full_h ndet fuel p d amp (nspawn_of amp) Hn Hd t Ht Hne
             (nspawn_of amp) spawned).
  apply Qmult_comp; [reflexivity|].
  destruct (N_nonzero ndet d Hn Hd) as [HN HN1].
  unfold spawned_weight.
  assert (inject_Z (Z.of_nat ndet - 1) == inject_Z (Z.of_nat ndet) - 1)%Q as ->
    by (unfold Z.sub; rewrite inject_Z_plus, inject_Z_opp; reflexivity).
  destruct (nspawn_of amp) as [|n] eqn:E.
  - rewrite (nspawn_of_zero amp E).
    change (inject_Z (Z.of_nat 0)) with 0%Q. ring.
  - pose proof (inject_nat_nonzero (S n) ltac:(lia)) as Hn0.
    field. auto.
Qed.

Lemma spawning_is_unbiased_witness :
  2 <= 3 ∧ 1 < 3 ∧ 0 < 3 ∧ 0 ≠ 1 ∧
  (Rand.expect
     (spawn_loop h_example 3 5 (nspawn_of (1 # 4)) params_example 1 (1 # 4)
        (nspawn_of (1 # 4)) [])
     (fun sp => weight_at sp 0)
   == Rand.prob_returns
        (spawn_loop h_example 3 5 (nspawn_of (1 # 4)) params_example 1 (1 # 4)
           (nspawn_of (1 # 4)) [])
      * (weight_at [] 0 - timestep params_example * h_example 1 0 * (1 # 4)))%Q.
Proof.
  assert (H1 : 2 <= 3) by lia. assert (H2 : 1 < 3) by lia.
  assert (H3 : 0 < 3) by lia. assert (H4 : 0 ≠ 1) by lia.
  split; [exact H1|]. split; [exact H2|]. split; [exact H3|]. split; [exact H4|].
  exact (proj1 (spawning_is_unbiased h_example 3 5 params_example 1 0 (1 # 4) []
                  H1 H2 H3 H4)).
Defined.

(** ** The statistics of a sweep *)

Lemma dict_del_length d k d' :
  Dict.del d k = Some d' → length d = S (length d').
Proof.
  unfold Dict.del, Dict.mem.
  destruct (Dict.get d k) as [v|] eqn:Hget; [|done]. intros [= <-].
  induction d as [|[k0 v0] d IH]; simpl in *; [done|].
  destruct (k0 =? k); [done|]. simpl. f_equal. by apply IH.
Qed.

Section SweepStatistics.
Variable full_h : nat → nat → Q.
Variables ndet fuel : nat.

Local Abbreviation process_det := (process_det full_h ndet fuel).
Local Abbreviation sweep := (sweep full_h ndet fuel).

Lemma accumulate_fields det_ind det_amp st st' :
  accumulate full_h ndet det_ind det_amp st = Some st' →
  nocc_dets st' = nocc_dets st ∧ nw st' = nw st
  ∧ ref_weight st' = (if det_ind =? 0 then det_amp else ref_weight st)
  ∧ (cycle_en_denom st'
     == cycle_en_denom st + (if det_ind =? 0 then det_amp else 0))%Q
  ∧ (cycle_en_num st'
     == cycle_en_num st
        + (if det_ind =? 0 then 0 else det_amp * full_h det_ind 0))%Q.
Proof.
  unfold accumulate. destruct (Nat.eqb_spec det_ind 0) as [->|Hne].
  - intros [= <-]. simpl. repeat split; ring.
  - unfold h_sim_at, ref_energy, full_h_at.
    destruct ((0 <? ndet) && (0 <? ndet)); [|done]. cbn [mbind option_bind].
    destruct ((det_ind <? ndet) && (0 <? ndet)); [|done]. cbn [mbind option_bind].
    intros [= <-]. simpl. repeat split; try ring.
    destruct (Nat.eqb_spec det_ind 0); [done|]. ring.
Qed.

Lemma kept_at_least_threshold (p : PARAMS) det_amp tape amp tape' :
  (0 < det_thresh p)%Q →
  Rand.run (round_walker p det_amp) tape = Some (Some amp, tape') →
  (det_thresh p <= Qabs amp)%Q.
Proof.
  intros Hth Hrun.
  destruct (Qlt_le_dec (Qabs det_amp) (det_thresh p)) as [Hlt|Hge].
  - destruct (round_walker_below_threshold _ _ _ _ _ Hth Hlt Hrun)
      as (u & _ & [[_ [= ->]]|[_ ?]]); [|done].
    rewrite Qabs_pos; lra.
  - destruct (round_walker_at_threshold _ _ _ _ _ Hth Hge Hrun) as [[= <-] _].
    done.
Qed.

Lemma process_det_counts det_ind det_amp s tape s' tape' :
  (0 < det_thresh (sim_params s))%Q →
  Rand.run (process_det det_ind det_amp s) tape = Some (s', tape') →
  nocc_dets (sim_stats s') + length (walkers s)
  = nocc_dets (sim_stats s) + length (walkers s') + 1
  ∧ (nw (sim_stats s)
     + det_thresh (sim_params s) * inject_Z (Z.of_nat (nocc_dets (sim_stats s')))
     <= nw (sim_stats s')
        + det_thresh (sim_params s)
          * inject_Z (Z.of_nat (nocc_dets (sim_stats s))))%Q.
Proof.
  intros Hth Hrun.
  apply process_det_run in Hrun
    as (stats & tape1 & rounded & Hacc & Hround & _ & Hrest).
  apply accumulate_fields in Hacc as (Hocc & Hnw & _).
  destruct rounded as [amp|].
  - destruct Hrest as (_ & Hdeath & ->).
    apply death_frame in Hdeath as [Hkeys _].
    apply (f_equal length) in Hkeys. unfold Dict.keys in Hkeys.
    rewrite !length_fmap in Hkeys.
    pose proof (kept_at_least_threshold _ _ _ _ _ Hth Hround) as Hamp.
    simpl. rewrite Hocc, Hnw, Hkeys. split; [lia|].
    rewrite Nat2Z.inj_add, inject_Z_plus. change (inject_Z (Z.of_nat 1)) with 1%Q.
    lra.
  - destruct Hrest as (Hdel & _ & -> & _).
    apply dict_del_length in Hdel. rewrite Hocc, Hnw, Hdel. split; [lia|lra].
Qed.

Lemma sweep_counts snapshot : ∀ s tape s' tape',
  (0 < det_thresh (sim_params s))%Q →
  Rand.run (sweep snapshot s) tape = Some (s', tape') →
  nocc_dets (sim_stats s') + length (walkers s)
  = nocc_dets (sim_stats s) + length (walkers s') + length snapshot
  ∧ (nw (sim_stats s)
     + det_thresh (sim_params s) * inject_Z (Z.of_nat (nocc_dets (sim_stats s')))
     <= nw (sim_stats s')
        + det_thresh (sim_params s)
          * inject_Z (Z.of_nat (nocc_dets (sim_stats s))))%Q.
Proof.
  induction snapshot as [|[det_ind det_amp] rest IH]; intros s tape s' tape' Hth.
  - simpl. intros [= <- <-]. split; [lia|lra].
  - cbn [sweep]. rewrite run_bind.
    destruct (Rand.run (process_det det_ind det_amp s) tape) as [[s1 t1]|] eqn:E;
      [|done].
    intros Hrest.
    pose proof (process_det_frame _ _ _ _ _ _ _ _ _ E) as (Hp1 & _).
    destruct (process_det_counts _ _ _ _ _ _ Hth E) as [Hc1 Hn1].
    destruct (IH _ _ _ _ ltac:(by rewrite Hp1) Hrest) as [Hc2 Hn2].
    rewrite Hp1 in Hn2. simpl. split; [lia|lra].
Qed.

Lemma process_det_energy det_ind det_amp s tape s' tape' :
  Rand.run (process_det det_ind det_amp s) tape = Some (s', tape') →
  ref_weight (sim_stats s')
  = (if det_ind =? 0 then det_amp else ref_weight (sim_stats s))
  ∧ (cycle_en_denom (sim_stats s')
     == cycle_en_denom (sim_stats s) + (if det_ind =? 0 then det_amp else 0))%Q
  ∧ (cycle_en_num (sim_stats s')
     == cycle_en_num (sim_stats s)
        + (if det_ind =? 0 then 0 else det_amp * full_h det_ind 0))%Q.
Proof.
  intros Hrun.
  apply process_det_run in Hrun
    as (stats & tape1 & rounded & Hacc & _ & _ & Hrest).
  apply accumulate_fields in Hacc as (_ & _ & Href & Hden & Hnum).
  destruct rounded as [amp|].
  - destruct Hrest as (_ & _ & ->). simpl. done.
  - destruct Hrest as (_ & _ & -> & _). done.
Qed.

Lemma sweep_energy snapshot : ∀ s tape s' tape',
  NoDup snapshot.*1 →
  Rand.run (sweep snapshot s) tape = Some (s', tape') →
  ref_weight (sim_stats s')
  = match Dict.get snapshot 0 with
    | Some w => w
    | None => ref_weight (sim_stats s)
    end
  ∧ (cycle_en_denom (sim_stats s')
     == cycle_en_denom (sim_stats s) + weight_at snapshot 0)%Q
  ∧ (cycle_en_num (sim_stats s')
     == cycle_en_num (sim_stats s)
        + Rand.Qsum (map (fun kv : nat * Q =>
                            if kv.1 =? 0 then 0 else kv.2 * full_h kv.1 0)
                         snapshot))%Q.
Proof.
  induction snapshot as [|[det_ind det_amp] rest IH]; intros s tape s' tape' Hnd.
  - simpl. intros [= <- <-]. unfold weight_at. simpl. repeat split; ring.
  - cbn [sweep]. rewrite run_bind.
    destruct (Rand.run (process_det det_ind det_amp s) tape) as [[s1 t1]|] eqn:E;
      [|done].
    intros Hrest. rewrite fmap_cons in Hnd. apply NoDup_cons in Hnd as [Hk Hnd].
    destruct (process_det_energy _ _ _ _ _ _ E) as (Hr1 & Hd1 & Hn1).
    destruct (IH _ _ _ _ Hnd Hrest) as (Hr2 & Hd2 & Hn2).
    unfold weight_at in *. simpl in *.
    destruct (Nat.eqb_spec det_ind 0) as [->|Hne].
    + apply dict_get_None in Hk. rewrite Hk in *. simpl in *.
      rewrite Hr2, Hr1, Hd2, Hd1, Hn2, Hn1. repeat split; ring.
    + rewrite Hr2, Hr1, Hd2, Hd1, Hn2, Hn1. repeat split; ring.
Qed.
End SweepStatistics.

(** X12. After the sweep of an iteration, with a positive threshold, the
    counter [nocc_dets] equals the number of entries left in the walker
    dictionary (the entries still to be merged with the spawned walkers), and
    the walker number [nw] is at least [det_thresh] times that count: every
    walker that was kept carries at least the threshold. *)
Theorem sweep_counts_walkers (full_h : nat → nat → Q) (ndet fuel it : nat)
    (s : sim) tape s' tape' :
  (0 < det_thresh (sim_params s))%Q →
  Rand.run (sweep full_h ndet fuel (Dict.items (walkers s)) (begin_iter it s)) tape
  = Some (s', tape') →
  nocc_dets (sim_stats s') = length (walkers s')
  ∧ (det_thresh (sim_params s) * inject_Z (Z.of_nat (nocc_dets (sim_stats s')))
     <= nw (sim_stats s'))%Q.
Proof.
  intros Hth Hrun.
  destruct (sweep_counts full_h ndet fuel _ (begin_iter it s) _ _ _ Hth Hrun)
    as [Hc Hn].
  simpl in Hc, Hn. unfold Dict.items in Hc. split; [lia|].
  change (inject_Z (Z.of_nat 0)) with 0%Q in Hn. lra.
Qed.

Lemma sweep_counts_walkers_witness :
  (0 < det_thresh (sim_params sim_example))%Q ∧
  ∃ s', Rand.run (sweep h_example 3 5 (Dict.items (walkers sim_example))
                    (begin_iter 0 sim_example))
          [Rand.Int 1; Rand.Float (1 # 2)] = Some (s', []) ∧
        nocc_dets (sim_stats s') = length (walkers s').
Proof.
  assert (Hth : (0 < det_thresh (sim_params sim_example))%Q) by (by vm_compute).
  split; [exact Hth|].
  destruct (Rand.run (sweep h_example 3 5 (Dict.items (walkers sim_example))
                        (begin_iter 0 sim_example))
              [Rand.Int 1; Rand.Float (1 # 2)]) as [[s' t']|] eqn:E;
    [|by vm_compute in E].
  assert (t' = []) as -> by (vm_compute in E; by injection E as _ <-).
  exists s'. split; [reflexivity|].
  exact (proj1 (sweep_counts_walkers h_example 3 5 0 sim_example _ s' [] Hth E)).
Defined.

(** X13. What the sweep of an iteration accumulates for the projected
    energy: [ref_weight] becomes the weight that determinant 0 had when the
    iteration started (zero when it was absent), [cycle_en_denom] grows by
    that weight, and [cycle_en_num] grows by the sum of [w * full_h[k,0]]
    over the other entries [(k, w)] of the walker dictionary: the weights
    as they were before rounding, spawning and death, and the off-diagonal
    elements of [h_sim], which are those of [full_h]. *)
Theorem sweep_accumulates_energy (full_h : nat → nat → Q) (ndet fuel it : nat)
    (s : sim) tape s' tape' :
  NoDup (Dict.keys (walkers s)) →
  Rand.run (sweep full_h ndet fuel (Dict.items (walkers s)) (begin_iter it s)) tape
  = Some (s', tape') →
  ref_weight (sim_stats s') = weight_at (walkers s) 0
  ∧ (cycle_en_denom (sim_stats s')
     == cycle_en_denom (sim_stats s) + weight_at (walkers s) 0)%Q
  ∧ (cycle_en_num (sim_stats s')
     == cycle_en_num (sim_stats s)
        + Rand.Qsum (map (fun kv : nat * Q =>
                            if kv.1 =? 0 then 0 else kv.2 * full_h kv.1 0%nat)
                         (walkers s)))%Q.
Proof.
  intros Hnd Hrun.
  destruct (sweep_energy full_h ndet fuel _ (begin_iter it s) _ _ _ Hnd Hrun)
    as (Hr & Hd & Hn).
  simpl in Hr, Hd, Hn. unfold Dict.items in *.
  split; [|by split]. rewrite Hr. unfold weight_at.
  by destruct (Dict.get (walkers s) 0).
Qed.

Lemma sweep_accumulates_energy_witness :
  NoDup (Dict.keys (walkers sim_example)) ∧
  ∃ s', Rand.run (sweep h_example 3 5 (Dict.items (walkers sim_example))
                    (begin_iter 0 sim_example))
          [Rand.Int 1; Rand.Float (1 # 2)] = Some (s', []) ∧
        ref_weight (sim_stats s') = weight_at (walkers sim_example) 0.
Proof.
  assert (Hnd : NoDup (Dict.keys (walkers sim_example)))
    by (apply (bool_decide_unpack _); by vm_compute).
  split; [exact Hnd|].
  destruct (Rand.run (sweep h_example 3 5 (Dict.items (walkers sim_example))
                        (begin_iter 0 sim_example))
              [Rand.Int 1; Rand.Float (1 # 2)]) as [[s' t']|] eqn:E;
    [|by vm_compute in E].
  assert (t' = []) as -> by (vm_compute in E; by injection E as _ <-).
  exists s'. split; [reflexivity|].
  exact (proj1 (sweep_accumulates_energy h_example 3 5 0 sim_example _ s' []
                  Hnd E)).
Defined.

(** ** A Hamiltonian of dimension one *)

Lemma nspawn_of_positive amp : (0 < Qabs amp)%Q → 1 <= nspawn_of amp.
Proof.
  intros Hpos. unfold nspawn_of.
  pose proof (Qle_ceiling (Qabs amp)) as Hc.
  assert (0 < inject_Z (Qceiling (Qabs amp)))%Q as Hlt by lra.
  change 0%Q with (inject_Z 0) in Hlt. rewrite <- Zlt_Qlt in Hlt. lia.
Qed.

(** X14. With a Hamiltonian of dimension one the spawning step cannot pick a
    target: every draw is the source itself, so the resampling loop
    [while spawn_ind == det_ind] never ends.  For a walker on determinant 0
    that is at or above a positive threshold the loop body therefore does not
    return, whatever the draws and however large the iteration budget. *)
Theorem single_determinant_never_spawns (full_h : nat → nat → Q) (fuel : nat)
    (w : Q) (s : sim) (tape : list Rand.draw) :
  (0 < det_thresh (sim_params s))%Q → (det_thresh (sim_params s) <= Qabs w)%Q →
  Rand.run (process_det full_h 1 fuel 0 w s) tape = None.
Proof.
  intros Hth Hge.
  destruct (Rand.run (process_det full_h 1 fuel 0 w s) tape) as [[s' tape']|] eqn:E;
    [exfalso|done].
  apply process_det_run in E as (stats & tape1 & rounded & _ & Hround & _ & Hrest).
  destruct (round_walker_at_threshold _ _ _ _ _ Hth Hge Hround) as [-> _].
  destruct Hrest as (Hspawn & _).
  apply spawn_loop_run in Hspawn as (tws & Hlen & Hall & _).
  pose proof (nspawn_of_positive w ltac:(lra)) as Hn.
  destruct tws as [|[t v] tws]; [simpl in Hlen; lia|].
  apply Forall_cons in Hall as [(Ht & Hne & _) _]. simpl in *. lia.
Qed.

Lemma single_determinant_never_spawns_witness :
  (0 < det_thresh (sim_params sim_example))%Q ∧
  (det_thresh (sim_params sim_example) <= Qabs 1)%Q ∧
  Rand.run (process_det h_example 1 3 0 1 sim_example)
    [Rand.Int 0; Rand.Int 0; Rand.Int 0; Rand.Int 0; Rand.Int 0] = None.
Proof.
  assert (H1 : (0 < det_thresh (sim_params sim_example))%Q) by (by vm_compute).
  assert (H2 : (det_thresh (sim_params sim_example) <= Qabs 1)%Q)
    by (by vm_compute).
  split; [exact H1|]. split; [exact H2|].
  exact (single_determinant_never_spawns h_example 3 1 sim_example _ H1 H2).
Defined.

(** ** The expected walker list after one iteration *)

Lemma qpow_add x n m : (qpow x (n + m) == qpow x n * qpow x m)%Q.
Proof. induction n as [|n IH]; simpl; [ring|]. rewrite IH. ring. Qed.

Lemma expect_post_ext {A} (t : rand A) (Post : A → Prop) (g g' : A → Q) :
  Rand.post t Post → (∀ a, Post a → (g a == g' a)%Q) →
  (Rand.expect t g == Rand.expect t g')%Q.
Proof.
  intros Hpost Hg.
  assert (Rand.expect t (fun a => g a + (-1) * g' a) == 0)%Q as Hz.
  { apply (expect_post_zero t Post); [done|].
    intros a Ha. rewrite (Hg a Ha). ring. }
  rewrite (expect_plus t g (fun a => (-1) * g' a)%Q) in Hz.
  rewrite (expect_scale t (-1) g') in Hz. lra.
Qed.

Lemma weight_at_set d k v t :
  weight_at (Dict.set d k v) t = if k =? t then v else weight_at d t.
Proof.
  unfold weight_at. destruct (Nat.eqb_spec k t) as [->|Hne].
  - by rewrite dict_get_set_eq.
  - by rewrite dict_get_set_ne.
Qed.

Lemma weight_at_merged sp w k :
  NoDup (Dict.keys sp) →
  (weight_at (foldl (fun w '(spawn_ind, spawn_weight) =>
                       Dict.add w spawn_ind spawn_weight) w sp) k
   == weight_at w k + weight_at sp k)%Q.
Proof.
  intros Hnd. unfold weight_at. rewrite foldl_add_get by done.
  destruct (Dict.get sp k), (Dict.get w k); simpl; ring.
Qed.

Lemma round_walker_kept p det_amp :
  (0 < det_thresh p)%Q → (det_thresh p <= Qabs det_amp)%Q →
  round_walker p det_amp = Ret (Some det_amp).
Proof.
  intros Hth Hge. unfold round_walker, div_checked.
  destruct (Qeq_bool (det_thresh p) 0) eqn:E;
    [apply Qeq_bool_iff in E; lra|].
  cbn [Rand.lift Rand.bind]. unfold Rand.Qltb.
  assert (Qle_bool 1 (Qabs det_amp / det_thresh p) = true) as ->; [|done].
  apply Qle_bool_iff. apply Qle_shift_div_l; lra.
Qed.

Section Projector.
Variable full_h : nat → nat → Q.
Variables ndet fuel : nat.
Hypothesis ndet_two : 2 <= ndet.

Let C : Q := (1 - qpow (1 / inject_Z (Z.of_nat ndet)) (S fuel))%Q.

Local Abbreviation sweep := (sweep full_h ndet fuel).
Local Abbreviation spawn_loop := (spawn_loop full_h ndet fuel).

Lemma spawn_loop_wf p d a nspawn : ∀ n sp,
  NoDup (Dict.keys sp) →
  Rand.post (spawn_loop n p d a nspawn sp) (fun sp' => NoDup (Dict.keys sp')).
Proof.
  induction n as [|n IH]; intros sp Hnd; [done|].
  cbn [spawn_loop]. apply post_bind. unfold spawn_attempt.
  apply post_bind. apply (post_mono _ (fun _ => True)); [|apply post_True].
  intros s _. apply post_bind_lift. intros v _. simpl.
  apply IH. by apply dict_wf_add.
Qed.

Lemma expect_loop_source p d a nspawn :
  d < ndet →
  ∀ n sp,
    (Rand.expect (spawn_loop n p d a nspawn sp) (fun sp' => weight_at sp' d)
     == qpow C n * weight_at sp d)%Q.
Proof.
  intros Hd. induction n as [|n IH]; intros sp.
  - simpl. ring.
  - cbn [spawn_loop qpow]. rewrite expect_bind.
    rewrite (expect_ext _ _ (fun sp' => qpow C n * weight_at sp' d)%Q)
      by (intros sp'; apply IH).
    rewrite expect_scale.
    rewrite (expect_attempt full_h ndet fuel p d a nspawn ndet_two Hd).
    rewrite (Qsum_map_ext _
      (fun s => weight_at sp d - (if s =? d then weight_at sp d else 0))%Q).
    2:{ intros s _. destruct (Nat.eqb_spec s d) as [->|Hne]; [ring|].
        rewrite weight_at_add. destruct (Nat.eqb_spec s d); [done|]. ring. }
    rewrite Qsum_map_const_minus, length_seq.
    rewrite (Qsum_seq_single d (weight_at sp d)) by lia.
    generalize (qpow C n). intros Pn. unfold C.
    rewrite <- (geom_as_C ndet fuel d ndet_two Hd). ring.
Qed.

Lemma process_det_unrounded d a s old :
  d < ndet →
  (0 < det_thresh (sim_params s))%Q →
  (det_thresh (sim_params s) <= Qabs a)%Q →
  Dict.get (walkers s) d = Some old →
  ∃ stats,
    process_det full_h ndet fuel d a s
    = Rand.bind (spawn_loop (nspawn_of a) (sim_params s) d a (nspawn_of a)
                   (spawned_walkers s))
        (fun spawned =>
           Ret {| walkers :=
                    Dict.set (walkers s) d
                      (old - timestep (sim_params s)
                             * (full_h d d - full_h 0 0 - shift (sim_params s))
                             * a)%Q;
                  spawned_walkers := spawned;
                  sim_stats := stats; sim_params := sim_params s |}).
Proof.
  intros Hd Hth Hge Hget.
  assert (Hd' : (d <? ndet) = true) by (apply Nat.ltb_lt; lia).
  assert (H0' : (0 <? ndet) = true) by (apply Nat.ltb_lt; lia).
  assert (∃ st, accumulate full_h ndet d a (sim_stats s) = Some st)
    as [st Hacc].
  { unfold accumulate. destruct (d =? 0); [eauto|].
    unfold h_sim_at, ref_energy, full_h_at. rewrite Hd', H0'. simpl. eauto. }
  exists (count_walker a st).
  unfold process_det. rewrite Hacc. cbn [Rand.lift Rand.bind].
  rewrite round_walker_kept by done. cbn [Rand.bind].
  unfold death, full_h_at. rewrite Hget, Hd', H0'. reflexivity.
Qed.

Lemma sweep_returns : ∀ snapshot s,
  (0 < det_thresh (sim_params s))%Q →
  Forall (fun da : nat * Q =>
            da.1 < ndet ∧ (det_thresh (sim_params s) <= Qabs da.2)%Q
            ∧ is_Some (Dict.get (walkers s) da.1)) snapshot →
  (Rand.prob_returns (sweep snapshot s) == qpow C (attempts_of snapshot))%Q.
Proof.
  unfold Rand.prob_returns.
  induction snapshot as [|[d a] rest IH]; intros s Hth Hall; [reflexivity|].
  apply Forall_cons in Hall as [(Hd & Hge & [old Hget]) Hrest].
  simpl in Hd, Hge, Hget.
  destruct (process_det_unrounded d a s old Hd Hth Hge Hget) as [stats Hpd].
  cbn [sweep attempts_of foldr]. rewrite Hpd, !expect_bind.
  rewrite (expect_ext _ _ (fun _ => qpow C (attempts_of rest) * 1)%Q).
  - rewrite expect_scale.
    pose proof (loop_returns full_h ndet fuel (sim_params s) d a (nspawn_of a)
                  ndet_two Hd (nspawn_of a) (spawned_walkers s)) as Hret.
    unfold Rand.prob_returns in Hret. rewrite Hret. fold C.
    change (foldr (fun da n => nspawn_of da.2 + n) 0 rest)
      with (attempts_of rest).
    simpl fst; simpl snd. rewrite qpow_add. ring.
  - intros sp. simpl Rand.expect. rewrite IH; [ring|done|]. simpl.
    eapply Forall_impl; [exact Hrest|]. intros [d' a'] (? & ? & Hs).
    simpl in *. split; [done|]. split; [done|].
    destruct (decide (d = d')) as [->|Hne].
    + by rewrite dict_get_set_eq.
    + by rewrite dict_get_set_ne.
Qed.

Variable k : nat.
Hypothesis k_valid : k < ndet.

Local Abbreviation term :=
  (fun (p : PARAMS) (da : nat * Q) =>
     ((full_h da.1 k - (if da.1 =? k then full_h 0%nat 0%nat + shift p else 0))
      * da.2)%Q).

Lemma expect_loop_target p d a sp :
  d < ndet →
  (Rand.expect (spawn_loop (nspawn_of a) p d a (nspawn_of a) sp)
     (fun sp' => weight_at sp' k)
   == qpow C (nspawn_of a)
      * (weight_at sp k
         - (if d =? k then 0 else timestep p * full_h d k * a)))%Q.
Proof.
  intros Hd. destruct (Nat.eqb_spec d k) as [<-|Hne].
  - rewrite expect_loop_source by done. ring.
  - rewrite (expect_loop full_h ndet fuel p d a (nspawn_of a) ndet_two Hd k
               k_valid ltac:(done) (nspawn_of a) sp).
    fold C. apply Qmult_comp; [reflexivity|].
    destruct (N_nonzero ndet d ndet_two Hd) as [HN HN1].
    unfold spawned_weight.
    assert (inject_Z (Z.of_nat ndet - 1) == inject_Z (Z.of_nat ndet) - 1)%Q as ->
      by (unfold Z.sub; rewrite inject_Z_plus, inject_Z_opp; reflexivity).
    destruct (nspawn_of a) as [|n] eqn:E.
    + rewrite (nspawn_of_zero a E).
      change (inject_Z (Z.of_nat 0)) with 0%Q. ring.
    + pose proof (inject_nat_nonzero (S n) ltac:(lia)) as Hn0.
      field. auto.
Qed.

Lemma sweep_projected : ∀ snapshot s,
  (0 < det_thresh (sim_params s))%Q →
  Forall (fun da : nat * Q =>
            da.1 < ndet ∧ (det_thresh (sim_params s) <= Qabs da.2)%Q
            ∧ is_Some (Dict.get (walkers s) da.1)) snapshot →
  NoDup (Dict.keys (spawned_walkers s)) →
  (Rand.expect (sweep snapshot s)
     (fun s' => weight_at (walkers (annihilate s')) k)
   == qpow C (attempts_of snapshot)
      * (weight_at (walkers s) k + weight_at (spawned_walkers s) k
         - timestep (sim_params s)
           * Rand.Qsum (map (term (sim_params s)) snapshot)))%Q.
Proof.
  induction snapshot as [|[d a] rest IH]; intros s Hth Hall Hnd.
  - simpl. unfold Dict.items. rewrite weight_at_merged by done. ring.
  - apply Forall_cons in Hall as [(Hd & Hge & [old Hget]) Hrest].
    simpl in Hd, Hge, Hget.
    destruct (process_det_unrounded d a s old Hd Hth Hge Hget) as [stats Hpd].
    cbn [sweep attempts_of foldr map]. rewrite Hpd, !expect_bind.
    set (K := Rand.Qsum (map (term (sim_params s)) rest)).
    set (W := Dict.set (walkers s) d
                (old - timestep (sim_params s)
                       * (full_h d d - full_h 0 0 - shift (sim_params s)) * a)%Q).
    rewrite (expect_post_ext _ (fun sp => NoDup (Dict.keys sp)) _
               (fun sp => qpow C (attempts_of rest)
                          * (weight_at sp k
                             + (weight_at W k - timestep (sim_params s) * K)))%Q).
    + rewrite expect_scale, expect_plus.
      rewrite expect_loop_target by done.
      rewrite (expect_ext _ (fun _ => _)
                 (fun _ => (weight_at W k - timestep (sim_params s) * K) * 1)%Q)
        by (intros; ring).
      rewrite expect_scale.
      pose proof (loop_returns full_h ndet fuel (sim_params s) d a (nspawn_of a)
                    ndet_two Hd (nspawn_of a) (spawned_walkers s)) as Hret.
      unfold Rand.prob_returns in Hret. rewrite Hret. fold C.
      change (foldr (fun da n => nspawn_of da.2 + n) 0 rest)
        with (attempts_of rest).
      simpl fst; simpl snd. rewrite qpow_add.
      unfold W. rewrite weight_at_set. simpl. fold K.
      assert (weight_at (walkers s) d = old) as Hold
        by (unfold weight_at; by rewrite Hget).
      destruct (Nat.eqb_spec d k) as [->|Hne]; [rewrite Hold|]; ring.
    + by apply spawn_loop_wf.
    + intros sp Hsp. simpl Rand.expect. rewrite IH; [simpl; fold K; ring|done| |done].
      simpl. eapply Forall_impl; [exact Hrest|]. intros [d' a'] (? & ? & Hs).
      simpl in *. split; [done|]. split; [done|]. unfold W.
      destruct (decide (d = d')) as [->|Hne].
      * by rewrite dict_get_set_eq.
      * by rewrite dict_get_set_ne.
Qed.
End Projector.

(** X15. One iteration applies the projector in expectation.  When every
    walker sits on a determinant of the Hamiltonian and is at or above a
    positive threshold (so that no walker is rounded), the weight expected on
    a determinant [k] after the sweep and the annihilation is the weight
    before, minus [timestep * (H[k,k] - H[0,0] - shift)] times the weight on
    [k] (death), minus [timestep * H[d,k]] times the weight on every other
    occupied determinant [d] (spawning).  In the model the expectation carries
    the probability that every resampling loop ends within its budget, which
    is [1 - (1/ndet)^(fuel+1)] to the total number of spawn attempts. *)
Theorem iteration_applies_projector (full_h : nat → nat → Q)
    (ndet fuel it : nat) (s : sim) (k : nat) :
  2 <= ndet → k < ndet →
  (0 < det_thresh (sim_params s))%Q →
  Forall (fun da : nat * Q =>
            da.1 < ndet ∧ (det_thresh (sim_params s) <= Qabs da.2)%Q)
         (walkers s) →
  (Rand.expect (evolve full_h ndet fuel it s)
     (fun s' => weight_at (walkers s') k)
   == Rand.prob_returns (evolve full_h ndet fuel it s)
      * projected full_h (sim_params s) (walkers s) k)%Q
  ∧ (Rand.prob_returns (evolve full_h ndet fuel it s)
     == qpow (1 - qpow (1 / inject_Z (Z.of_nat ndet)) (S fuel))
          (attempts_of (walkers s)))%Q.
Proof.
  intros Hn Hk Hth Hall.
  assert (Forall (fun da : nat * Q =>
                    da.1 < ndet
                    ∧ (det_thresh (sim_params (begin_iter it s)) <= Qabs da.2)%Q
                    ∧ is_Some (Dict.get (walkers (begin_iter it s)) da.1))
                 (Dict.items (walkers (begin_iter it s)))) as Hall'.
  { unfold Dict.items. simpl. apply Forall_forall. intros [d a] Hin.
    rewrite Forall_forall in Hall. destruct (Hall _ Hin) as [Hd Hge].
    split; [done|]. split; [done|]. simpl.
    destruct (Dict.get (walkers s) d) as [v|] eqn:E; [by exists v|].
    apply dict_get_None in E. exfalso. apply E. unfold Dict.keys.
    apply list_elem_of_fmap. by exists (d, a). }
  assert (Rand.prob_returns (evolve full_h ndet fuel it s)
          == qpow (1 - qpow (1 / inject_Z (Z.of_nat ndet)) (S fuel))
               (attempts_of (walkers s)))%Q as Hret.
  { unfold Rand.prob_returns, evolve. rewrite expect_bind. simpl Rand.expect.
    exact (sweep_returns full_h ndet fuel Hn _ (begin_iter it s) Hth Hall'). }
  split; [|exact Hret].
  rewrite Hret. unfold evolve. rewrite expect_bind. simpl Rand.expect.
  rewrite (sweep_projected full_h ndet fuel Hn k Hk _ (begin_iter it s) Hth Hall')
    by (simpl; constructor).
  unfold projected, Dict.items. simpl.
  change (weight_at [] k) with 0%Q. ring.
Qed.

Lemma iteration_applies_projector_witness :
  2 <= 3 ∧ 1 < 3 ∧
  (Rand.expect (evolve h_example 3 5 0 (initial params_example stats_example))
     (fun s' => weight_at (walkers s') 1)
   == Rand.prob_returns
        (evolve h_example 3 5 0 (initial params_example stats_example))
      * projected h_example params_example [(0%nat, 1%Q)] 1)%Q.
Proof.
  assert (H1 : 2 <= 3) by lia. assert (H2 : 1 < 3) by lia.
  assert (H3 : (0 < det_thresh
                      (sim_params (initial params_example stats_example)))%Q)
    by (by vm_compute).
  assert (H4 : Forall (fun da : nat * Q =>
                         da.1 < 3
                         ∧ (det_thresh
                              (sim_params (initial params_example stats_example))
                            <= Qabs da.2)%Q)
                      (walkers (initial params_example stats_example))).
  { repeat constructor. by vm_compute. }
  split; [exact H1|]. split; [exact H2|].
  exact (proj1 (iteration_applies_projector h_example 3 5 0
                  (initial params_example stats_example) 1 H1 H2 H3 H4)).
Defined.

(** ** The integral block of the file *)

Lemma assign_spec {C I} `{EqDecision C} (pos : I → option C) v :
  ∀ (T : list I) (a a' : C → Q),
    assign pos a T v = Some a' →
    Forall (fun t => is_Some (pos t)) T
    ∧ ∀ c, a' c = if bool_decide (Some c ∈ pos <$> T) then v else a c.
Proof.
  induction T as [|t T IH]; intros a a'.
  - cbn [assign]. intros [= <-]. split; [constructor|]. intros c.
    rewrite bool_decide_eq_false_2; [done|]. by intros ?%elem_of_nil.
  - cbn [assign]. unfold np_set. destruct (pos t) as [c0|] eqn:Et; [|done].
    cbn [mbind option_bind]. intros Hrest. apply IH in Hrest as [Hall Hval]. split.
    + constructor; [by rewrite Et|done].
    + intros c. rewrite Hval. rewrite fmap_cons, Et.
      destruct (decide (Some c ∈ pos <$> T)) as [Hin|Hout].
      * rewrite !bool_decide_eq_true_2; [done| |done]. by right.
      * rewrite (bool_decide_eq_false_2 _ Hout).
        destruct (decide (c = c0)) as [->|Hne].
        -- rewrite bool_decide_eq_true_2; [done|]. by left.
        -- rewrite bool_decide_eq_false_2; [done|].
           intros [?|?]%elem_of_cons; [congruence|done].
Qed.

Lemma assign_is_Some {C I} `{EqDecision C} (pos : I → option C) v :
  ∀ (T : list I) (a : C → Q),
    Forall (fun t => is_Some (pos t)) T → is_Some (assign pos a T v).
Proof.
  induction T as [|t T IH]; intros a Hall; [by eexists|].
  apply Forall_cons in Hall as [[c Hc] Hall]. simpl. unfold np_set.
  rewrite Hc. simpl. by apply IH.
Qed.

Lemma np_index_is_Some n i :
  is_Some (np_index n i) ↔ (- Z.of_nat n <= i < Z.of_nat n)%Z.
Proof.
  unfold np_index.
  destruct (Z.ltb_spec i 0); [destruct (Z.ltb_spec (i + Z.of_nat n) 0)|
                              destruct (Z.ltb_spec i (Z.of_nat n))];
    split; intros Hs; try (by eexists); try lia; by destruct Hs.
Qed.

Lemma np_index2_is_Some n i j :
  is_Some (np_index2 n (i, j))
  ↔ is_Some (np_index n i) ∧ is_Some (np_index n j).
Proof.
  unfold np_index2. rewrite !is_Some_alt.
  destruct (np_index n i), (np_index n j); simpl; tauto.
Qed.

Lemma np_index4_is_Some n i j k l :
  is_Some (np_index4 n (i, j, k, l))
  ↔ is_Some (np_index n i) ∧ is_Some (np_index n j)
    ∧ is_Some (np_index n k) ∧ is_Some (np_index n l).
Proof.
  unfold np_index4. rewrite !is_Some_alt.
  destruct (np_index n i), (np_index n j), (np_index n k), (np_index n l);
    simpl; tauto.
Qed.

Lemma one_electron_targets_valid n nb i j :
  Forall (fun t => is_Some (np_index2 n t)) (one_electron_targets nb i j)
  ↔ (is_Some (np_index n i) ∧ is_Some (np_index n (i + nb)))
    ∧ (is_Some (np_index n j) ∧ is_Some (np_index n (j + nb))).
Proof.
  unfold one_electron_targets. rewrite !Forall_cons, Forall_nil.
  rewrite !np_index2_is_Some. tauto.
Qed.

Lemma two_electron_targets_valid n nb i j k l :
  Forall (fun t => is_Some (np_index4 n t)) (two_electron_targets nb i j k l)
  ↔ (is_Some (np_index n i) ∧ is_Some (np_index n (i + nb)))
    ∧ (is_Some (np_index n j) ∧ is_Some (np_index n (j + nb)))
    ∧ (is_Some (np_index n k) ∧ is_Some (np_index n (k + nb)))
    ∧ (is_Some (np_index n l) ∧ is_Some (np_index n (l + nb))).
Proof.
  unfold two_electron_targets. rewrite !Forall_cons, Forall_nil.
  rewrite !np_index4_is_Some.
  generalize (is_Some (np_index n i)) (is_Some (np_index n (i + nb)))
    (is_Some (np_index n j)) (is_Some (np_index n (j + nb)))
    (is_Some (np_index n k)) (is_Some (np_index n (k + nb)))
    (is_Some (np_index n l)) (is_Some (np_index n (l + nb))).
  intros. tauto.
Qed.

Lemma accepted_index_valid nbasis x :
  accepted_index nbasis x
  ↔ is_Some (np_index (2 * nbasis) (x - 1))
    ∧ is_Some (np_index (2 * nbasis) (x - 1 + Z.of_nat nbasis)).
Proof. unfold accepted_index. rewrite !np_index_is_Some. lia. Qed.

Lemma assign_is_Some_iff {C I} `{EqDecision C} (pos : I → option C) v T a :
  is_Some (assign pos a T v) ↔ Forall (fun t => is_Some (pos t)) T.
Proof.
  split.
  - intros [a' Ha]. by apply assign_spec in Ha as [? _].
  - apply assign_is_Some.
Qed.

(** X16. Reading one line of the integral block raises [IndexError] exactly
    when one of the indices it uses lies outside [-2*nbasis+1 .. nbasis]: all
    four indices for a two-electron line ([kk != 0]), [ii] and [jj] for a
    one-electron line ([kk == 0], [jj != 0]), none for the nuclear repulsion.
    An index from [-2*nbasis+1 .. 0] is accepted: numpy counts the position
    [index - 1] from the end of the axis. *)
Theorem read_line_raises_iff (nbasis : nat) (st : integrals)
    (line : integral_line) :
  is_Some (read_line nbasis st line)
  ↔ if (line_kk line =? 0)%Z
    then if (line_jj line =? 0)%Z then True
         else accepted_index nbasis (line_ii line)
              ∧ accepted_index nbasis (line_jj line)
    else accepted_index nbasis (line_ii line)
         ∧ accepted_index nbasis (line_jj line)
         ∧ accepted_index nbasis (line_kk line)
         ∧ accepted_index nbasis (line_ll line).
Proof.
  unfold read_line.
  destruct (line_kk line =? 0)%Z; cbn [negb].
  - destruct (line_jj line =? 0)%Z; cbn [negb]; [by split; [|eexists]|].
    rewrite !accepted_index_valid.
    rewrite <- one_electron_targets_valid,
      <- (assign_is_Some_iff _ (line_value line) _ (read_h1 st)).
    rewrite !is_Some_alt. by destruct (assign _ _ _ _).
  - rewrite !accepted_index_valid.
    rewrite <- two_electron_targets_valid,
      <- (assign_is_Some_iff _ (line_value line) _ (read_h2 st)).
    rewrite !is_Some_alt. by destruct (assign _ _ _ _).
Qed.

Lemma assign_invariant {C I} `{EqDecision C} (pos : I → option C) v T a a'
    (sI : I → I) (sC : C → C) :
  (∀ t, t ∈ T → sI t ∈ T) →
  (∀ t, pos (sI t) = sC <$> pos t) →
  (∀ c, sC (sC c) = c) →
  assign pos a T v = Some a' →
  (∀ c, a (sC c) = a c) → ∀ c, a' (sC c) = a' c.
Proof.
  intros Hclosed Hpos Hinv Ha Hsym c.
  apply assign_spec in Ha as [_ Hval]. rewrite !Hval, Hsym.
  assert (∀ c, Some c ∈ pos <$> T → Some (sC c) ∈ pos <$> T) as Hstep.
  { intros c0 (t & Ht & Hin)%list_elem_of_fmap. apply list_elem_of_fmap.
    exists (sI t). split; [|by apply Hclosed]. by rewrite Hpos, <- Ht. }
  apply (f_equal (fun b : bool => if b then v else a c)).
  apply bool_decide_ext. split; [|apply Hstep].
  intros Hin%Hstep. by rewrite Hinv in Hin.
Qed.

Ltac find_target :=
  solve [repeat first [apply list_elem_of_here | apply list_elem_of_further]].

Ltac each_target H :=
  repeat (apply elem_of_cons in H as [->|H]); [..|by apply elem_of_nil in H].

Lemma one_electron_targets_swap nb i j t :
  t ∈ one_electron_targets nb i j → (t.2, t.1) ∈ one_electron_targets nb i j.
Proof. unfold one_electron_targets. intros Ht. each_target Ht; find_target. Qed.

Lemma two_electron_targets_swap12 nb i j k l t :
  t ∈ two_electron_targets nb i j k l →
  (let '(p, q, r, s) := t in (q, p, r, s)) ∈ two_electron_targets nb i j k l.
Proof. unfold two_electron_targets. intros Ht. each_target Ht; find_target. Qed.

Lemma two_electron_targets_swap34 nb i j k l t :
  t ∈ two_electron_targets nb i j k l →
  (let '(p, q, r, s) := t in (p, q, s, r)) ∈ two_electron_targets nb i j k l.
Proof. unfold two_electron_targets. intros Ht. each_target Ht; find_target. Qed.

Lemma two_electron_targets_swap_pairs nb i j k l t :
  t ∈ two_electron_targets nb i j k l →
  (let '(p, q, r, s) := t in (r, s, p, q)) ∈ two_electron_targets nb i j k l.
Proof. unfold two_electron_targets. intros Ht. each_target Ht; find_target. Qed.

Lemma np_index2_swap n t :
  np_index2 n (t.2, t.1) = (fun c : nat * nat => (c.2, c.1)) <$> np_index2 n t.
Proof.
  destruct t as [x y]. unfold np_index2. simpl.
  by destruct (np_index n x), (np_index n y).
Qed.

Lemma np_index4_swap12 n t :
  np_index4 n (let '(p, q, r, s) := t in (q, p, r, s))
  = (fun c : nat * nat * nat * nat => let '(p, q, r, s) := c in (q, p, r, s))
      <$> np_index4 n t.
Proof.
  destruct t as [[[x y] z] w]. unfold np_index4. simpl.
  by destruct (np_index n x), (np_index n y), (np_index n z), (np_index n w).
Qed.

Lemma np_index4_swap34 n t :
  np_index4 n (let '(p, q, r, s) := t in (p, q, s, r))
  = (fun c : nat * nat * nat * nat => let '(p, q, r, s) := c in (p, q, s, r))
      <$> np_index4 n t.
Proof.
  destruct t as [[[x y] z] w]. unfold np_index4. simpl.
  by destruct (np_index n x), (np_index n y), (np_index n z), (np_index n w).
Qed.

Lemma np_index4_swap_pairs n t :
  np_index4 n (let '(p, q, r, s) := t in (r, s, p, q))
  = (fun c : nat * nat * nat * nat => let '(p, q, r, s) := c in (r, s, p, q))
      <$> np_index4 n t.
Proof.
  destruct t as [[[x y] z] w]. unfold np_index4. simpl.
  by destruct (np_index n x), (np_index n y), (np_index n z), (np_index n w).
Qed.

Lemma read_line_symmetric nbasis st line st' :
  read_line nbasis st line = Some st' →
  symmetric_integrals st → symmetric_integrals st'.
Proof.
  unfold read_line. intros Hread [Hs1 Hs2].
  destruct (line_kk line =? 0)%Z; cbn [negb] in Hread;
    [destruct (line_jj line =? 0)%Z; cbn [negb] in Hread|].
  - injection Hread as <-. by split.
  - destruct (assign _ _ _ _) as [h1'|] eqn:Ha; [|done].
    injection Hread as <-. split; [|exact Hs2]. simpl. intros p q.
    symmetry.
    apply (assign_invariant _ _ _ _ _ _ _ (one_electron_targets_swap _ _ _)
             (np_index2_swap _) ltac:(by intros [? ?]) Ha
             ltac:(intros [? ?]; symmetry; apply Hs1) (p, q)).
  - destruct (assign _ _ _ _) as [h2'|] eqn:Ha; [|done].
    injection Hread as <-. split; [exact Hs1|]. simpl. intros p q r s.
    split; [|split]; symmetry.
    + apply (assign_invariant _ _ _ _ _ _ _
               (two_electron_targets_swap12 _ _ _ _ _) (np_index4_swap12 _)
               ltac:(by intros [[[? ?] ?] ?]) Ha
               ltac:(intros [[[? ?] ?] ?]; symmetry; apply Hs2) (p, q, r, s)).
    + apply (assign_invariant _ _ _ _ _ _ _
               (two_electron_targets_swap34 _ _ _ _ _) (np_index4_swap34 _)
               ltac:(by intros [[[? ?] ?] ?]) Ha
               ltac:(intros [[[? ?] ?] ?]; symmetry; apply Hs2) (p, q, r, s)).
    + apply (assign_invariant _ _ _ _ _ _ _
               (two_electron_targets_swap_pairs _ _ _ _ _)
               (np_index4_swap_pairs _)
               ltac:(by intros [[[? ?] ?] ?]) Ha
               ltac:(intros [[[? ?] ?] ?]; symmetry; apply Hs2) (p, q, r, s)).
Qed.

Lemma read_integrals_keeps_symmetry nbasis : ∀ lines st st',
  read_integrals nbasis lines st = Some st' →
  symmetric_integrals st → symmetric_integrals st'.
Proof.
  induction lines as [|line rest IH]; intros st st'.
  - by intros [= <-].
  - cbn [read_integrals].
    destruct (read_line nbasis st line) as [st1|] eqn:E; [|done].
    cbn [mbind option_bind]. intros Hrest Hsym.
    eapply IH; [exact Hrest|]. by eapply read_line_symmetric.
Qed.

(** X17. Whatever lines were read, the arrays hold the permutational
    symmetry of real integrals: [h1[p,q] = h1[q,p]] and
    [h2[p,q,r,s] = h2[q,p,r,s] = h2[p,q,s,r] = h2[r,s,p,q]]. *)
Theorem read_integrals_symmetric (nbasis : nat) (lines : list integral_line)
    (st : integrals) :
  read_integrals nbasis lines integrals_zero = Some st →
  (∀ p q, read_h1 st (p, q) = read_h1 st (q, p))
  ∧ (∀ p q r s,
       read_h2 st (p, q, r, s) = read_h2 st (q, p, r, s)
       ∧ read_h2 st (p, q, r, s) = read_h2 st (p, q, s, r)
       ∧ read_h2 st (p, q, r, s) = read_h2 st (r, s, p, q)).
Proof.
  intros Hread.
  by apply (read_integrals_keeps_symmetry nbasis lines integrals_zero st Hread).
Qed.

Lemma read_integrals_symmetric_witness :
  ∃ st, read_integrals 2 fcidump_wrapped integrals_zero = Some st
        ∧ read_h2 st (3, 0, 1, 0)%nat = read_h2 st (0, 3, 1, 0)%nat.
Proof.
  destruct (read_integrals 2 fcidump_wrapped integrals_zero) as [st|] eqn:E;
    [|by vm_compute in E].
  exists st. split; [reflexivity|].
  exact (proj1 (proj2 (read_integrals_symmetric 2 fcidump_wrapped st E)
                  3 0 1 0)).
Defined.

Lemma np_index_alpha nbasis i :
  (0 <= i < Z.of_nat nbasis)%Z → np_index (2 * nbasis) i = Some (Z.to_nat i).
Proof.
  intros Hi. unfold np_index.
  destruct (Z.ltb_spec i 0); [lia|].
  destruct (Z.ltb_spec i (Z.of_nat (2 * nbasis))); [done|lia].
Qed.

Lemma np_index_beta nbasis i :
  (0 <= i < Z.of_nat nbasis)%Z →
  np_index (2 * nbasis) (i + Z.of_nat nbasis) = Some (Z.to_nat i + nbasis).
Proof.
  intros Hi. unfold np_index.
  destruct (Z.ltb_spec (i + Z.of_nat nbasis) 0); [lia|].
  destruct (Z.ltb_spec (i + Z.of_nat nbasis) (Z.of_nat (2 * nbasis))); [|lia].
  f_equal. lia.
Qed.

Lemma spin_of_alpha nbasis a : a < nbasis → spin_of nbasis a = false.
Proof. intros. unfold spin_of. by apply Nat.leb_gt. Qed.

Lemma spin_of_beta nbasis a : spin_of nbasis (a + nbasis) = true.
Proof. unfold spin_of. apply Nat.leb_le. lia. Qed.

Lemma spatial_of_alpha nbasis a : a < nbasis → spatial_of nbasis a = a.
Proof.
  intros. unfold spatial_of. by destruct (Nat.leb_spec nbasis a); [lia|].
Qed.

Lemma spatial_of_beta nbasis a : spatial_of nbasis (a + nbasis) = a.
Proof.
  unfold spatial_of. destruct (Nat.leb_spec nbasis (a + nbasis)); lia.
Qed.

Lemma spin_split nbasis p :
  p = if spin_of nbasis p then spatial_of nbasis p + nbasis
      else spatial_of nbasis p.
Proof.
  unfold spin_of, spatial_of. destruct (Nat.leb_spec nbasis p); lia.
Qed.

Lemma spatial_of_lt nbasis p : p < 2 * nbasis → spatial_of nbasis p < nbasis.
Proof.
  unfold spatial_of. destruct (Nat.leb_spec nbasis p); lia.
Qed.

Section SpinBlocks.
Variable nbasis : nat.
Variables a b c d : nat.
Hypothesis a_lt : a < nbasis.
Hypothesis b_lt : b < nbasis.

Local Abbreviation spin := (spin_of nbasis).
Local Abbreviation sp := (spatial_of nbasis).

Ltac spin_simpl :=
  rewrite ?spin_of_beta, ?spatial_of_beta,
    ?(spin_of_alpha nbasis a), ?(spin_of_alpha nbasis b),
    ?(spatial_of_alpha nbasis a), ?(spatial_of_alpha nbasis b) by done.

Lemma one_electron_cells (i j : Z) (x : nat * nat) :
  (0 <= i < Z.of_nat nbasis)%Z → (0 <= j < Z.of_nat nbasis)%Z →
  a = Z.to_nat i → b = Z.to_nat j →
  Some x ∈ np_index2 (2 * nbasis)
           <$> one_electron_targets (Z.of_nat nbasis) i j
  ↔ spin x.1 = spin x.2 ∧ (sp x.1, sp x.2) ∈ [(a, b); (b, a)].
Proof.
  intros Hi Hj Ha Hb. unfold one_electron_targets.
  cbn [fmap list_fmap np_index2].
  rewrite !(np_index_alpha nbasis i), !(np_index_alpha nbasis j),
    !(np_index_beta nbasis i), !(np_index_beta nbasis j) by done.
  rewrite <- Ha, <- Hb. cbn [mbind option_bind].
  destruct x as [p q]. cbn [fst snd]. split.
  - intros Hin.
    repeat (apply elem_of_cons in Hin as [[= -> ->]|Hin]);
      [..|by apply elem_of_nil in Hin];
      spin_simpl; (split; [done|find_target]).
  - intros [Hspin Hin].
    rewrite (spin_split nbasis p), (spin_split nbasis q), <- Hspin.
    revert Hin. generalize (sp p) (sp q). intros P Q Hin.
    destruct (spin p);
      repeat (apply elem_of_cons in Hin as [[= -> ->]|Hin]);
      try (by apply elem_of_nil in Hin); find_target.
Qed.

Hypothesis c_lt : c < nbasis.
Hypothesis d_lt : d < nbasis.

Ltac spin_simpl4 :=
  rewrite ?spin_of_beta, ?spatial_of_beta,
    ?(spin_of_alpha nbasis a), ?(spin_of_alpha nbasis b),
    ?(spin_of_alpha nbasis c), ?(spin_of_alpha nbasis d),
    ?(spatial_of_alpha nbasis a), ?(spatial_of_alpha nbasis b),
    ?(spatial_of_alpha nbasis c), ?(spatial_of_alpha nbasis d) by done.

Lemma two_electron_cells (i j k l : Z) (x : nat * nat * nat * nat) :
  (0 <= i < Z.of_nat nbasis)%Z → (0 <= j < Z.of_nat nbasis)%Z →
  (0 <= k < Z.of_nat nbasis)%Z → (0 <= l < Z.of_nat nbasis)%Z →
  a = Z.to_nat i → b = Z.to_nat j → c = Z.to_nat k → d = Z.to_nat l →
  Some x ∈ np_index4 (2 * nbasis)
           <$> two_electron_targets (Z.of_nat nbasis) i j k l
  ↔ let '(p, q, r, s) := x in
    spin p = spin q ∧ spin r = spin s
    ∧ (sp p, sp q, sp r, sp s) ∈ spatial_targets a b c d.
Proof.
  intros Hi Hj Hk Hl Ha Hb Hc Hd. unfold two_electron_targets, spatial_targets.
  cbn [fmap list_fmap np_index4].
  rewrite !(np_index_alpha nbasis i), !(np_index_alpha nbasis j),
    !(np_index_alpha nbasis k), !(np_index_alpha nbasis l),
    !(np_index_beta nbasis i), !(np_index_beta nbasis j),
    !(np_index_beta nbasis k), !(np_index_beta nbasis l) by done.
  rewrite <- Ha, <- Hb, <- Hc, <- Hd. cbn [mbind option_bind].
  destruct x as [[[p q] r] s]. split.
  - intros Hin.
    repeat (apply elem_of_cons in Hin as [[= -> -> -> ->]|Hin]);
      [..|by apply elem_of_nil in Hin];
      spin_simpl4; (split; [done|split; [done|find_target]]).
  - intros (Hspin1 & Hspin2 & Hin).
    rewrite (spin_split nbasis p), (spin_split nbasis q),
      (spin_split nbasis r), (spin_split nbasis s), <- Hspin1, <- Hspin2.
    revert Hin. generalize (sp p) (sp q) (sp r) (sp s). intros P Q R S Hin.
    destruct (spin p), (spin r);
      repeat (apply elem_of_cons in Hin as [[= -> -> -> ->]|Hin]);
      try (by apply elem_of_nil in Hin); find_target.
Qed.
End SpinBlocks.

Lemma blocked_update {C} `{EqDecision C} (h h' : C → Q) (v : Q)
    (L : list (option C)) (good : C → Prop) (same : C → bool) (spc : C → C) :
  (∀ c, h' c = if bool_decide (Some c ∈ L) then v else h c) →
  (∀ c, good c → (Some c ∈ L ↔ same c = true ∧ Some (spc c) ∈ L)) →
  (∀ c, good c → h c = if same c then h (spc c) else 0%Q) →
  ∀ c, good c → h' c = if same c then h' (spc c) else 0%Q.
Proof.
  intros Hval Hmem Hinv c0 Hgood. rewrite !Hval, (Hinv c0 Hgood).
  destruct (same c0) eqn:E.
  - apply (f_equal (fun b : bool => if b then v else h (spc c0))).
    apply bool_decide_ext. rewrite (Hmem c0 Hgood). tauto.
  - rewrite bool_decide_eq_false_2; [done|].
    rewrite (Hmem c0 Hgood). intros [? _]. congruence.
Qed.

Lemma eqb_spin_true (x y : bool) : Bool.eqb x y = true ↔ x = y.
Proof. by destruct x, y. Qed.

Lemma read_line_spin_blocked nbasis st line :
  line_wf nbasis line → spin_blocked nbasis st →
  ∃ st', read_line nbasis st line = Some st' ∧ spin_blocked nbasis st'.
Proof.
  unfold line_wf, read_line, orbital_index. intros Hwf [Hb1 Hb2].
  destruct (line_kk line =? 0)%Z; cbn [negb];
    [destruct (line_jj line =? 0)%Z; cbn [negb]|].
  - eexists. split; [reflexivity|]. by split.
  - destruct Hwf as [Hi Hj].
    set (i := (line_ii line - 1)%Z). set (j := (line_jj line - 1)%Z).
    assert (Hi' : (0 <= i < Z.of_nat nbasis)%Z) by (unfold i; lia).
    assert (Hj' : (0 <= j < Z.of_nat nbasis)%Z) by (unfold j; lia).
    destruct (assign (np_index2 (2 * nbasis)) (read_h1 st)
                (one_electron_targets (Z.of_nat nbasis) i j) (line_value line))
      as [h1'|] eqn:Ha.
    2:{ exfalso. apply (is_Some_None (A := nat * nat → Q)). rewrite <- Ha.
        apply assign_is_Some_iff, one_electron_targets_valid.
        rewrite !np_index_is_Some. lia. }
    eexists. split; [reflexivity|]. split; [|exact Hb2]. simpl.
    apply assign_spec in Ha as [_ Hval]. intros p q Hp Hq.
    apply (blocked_update (read_h1 st) h1' (line_value line) _
             (fun x => x.1 < 2 * nbasis ∧ x.2 < 2 * nbasis)
             (fun x => Bool.eqb (spin_of nbasis x.1) (spin_of nbasis x.2))
             (fun x => (spatial_of nbasis x.1, spatial_of nbasis x.2))
             Hval); [| |done].
    + intros [p' q'] [Hp' Hq']. cbn [fst snd] in *.
      pose proof (spatial_of_lt nbasis p' Hp') as Hsp.
      pose proof (spatial_of_lt nbasis q' Hq') as Hsq.
      rewrite !(one_electron_cells nbasis (Z.to_nat i) (Z.to_nat j)
                  ltac:(lia) ltac:(lia) i j _ Hi' Hj' eq_refl eq_refl).
      cbn [fst snd]. rewrite eqb_spin_true.
      rewrite !(spin_of_alpha nbasis (spatial_of nbasis p')),
        !(spin_of_alpha nbasis (spatial_of nbasis q')),
        !(spatial_of_alpha nbasis (spatial_of nbasis p')),
        !(spatial_of_alpha nbasis (spatial_of nbasis q')) by done.
      naive_solver.
    + intros [p' q'] [Hp' Hq']. by apply Hb1.
  - destruct Hwf as (Hi & Hj & Hk & Hl).
    set (i := (line_ii line - 1)%Z). set (j := (line_jj line - 1)%Z).
    set (k := (line_kk line - 1)%Z). set (l := (line_ll line - 1)%Z).
    assert (Hi' : (0 <= i < Z.of_nat nbasis)%Z) by (unfold i; lia).
    assert (Hj' : (0 <= j < Z.of_nat nbasis)%Z) by (unfold j; lia).
    assert (Hk' : (0 <= k < Z.of_nat nbasis)%Z) by (unfold k; lia).
    assert (Hl' : (0 <= l < Z.of_nat nbasis)%Z) by (unfold l; lia).
    destruct (assign (np_index4 (2 * nbasis)) (read_h2 st)
                (two_electron_targets (Z.of_nat nbasis) i j k l)
                (line_value line)) as [h2'|] eqn:Ha.
    2:{ exfalso.
        apply (is_Some_None (A := nat * nat * nat * nat → Q)). rewrite <- Ha.
        apply assign_is_Some_iff, two_electron_targets_valid.
        rewrite !np_index_is_Some. lia. }
    eexists. split; [reflexivity|]. split; [exact Hb1|]. simpl.
    apply assign_spec in Ha as [_ Hval]. intros p q r s Hp Hq Hr Hs.
    refine (blocked_update (read_h2 st) h2' (line_value line) _
             (fun x => let '(p, q, r, s) := x in
                       p < 2 * nbasis ∧ q < 2 * nbasis
                       ∧ r < 2 * nbasis ∧ s < 2 * nbasis)
             (fun x => let '(p, q, r, s) := x in
                       Bool.eqb (spin_of nbasis p) (spin_of nbasis q)
                       && Bool.eqb (spin_of nbasis r) (spin_of nbasis s))
             (fun x => let '(p, q, r, s) := x in
                       (spatial_of nbasis p, spatial_of nbasis q,
                        spatial_of nbasis r, spatial_of nbasis s))
             Hval _ _ (p, q, r, s) _); [| |done].
    + intros [[[p' q'] r'] s'] (Hp' & Hq' & Hr' & Hs').
      pose proof (spatial_of_lt nbasis p' Hp') as Hsp.
      pose proof (spatial_of_lt nbasis q' Hq') as Hsq.
      pose proof (spatial_of_lt nbasis r' Hr') as Hsr.
      pose proof (spatial_of_lt nbasis s' Hs') as Hss.
      rewrite !(two_electron_cells nbasis (Z.to_nat i) (Z.to_nat j)
                  (Z.to_nat k) (Z.to_nat l)
                  ltac:(lia) ltac:(lia) ltac:(lia) ltac:(lia) i j k l _
                  Hi' Hj' Hk' Hl' eq_refl eq_refl eq_refl eq_refl).
      rewrite andb_true_iff, !eqb_spin_true.
      rewrite !(spin_of_alpha nbasis (spatial_of nbasis p')),
        !(spin_of_alpha nbasis (spatial_of nbasis q')),
        !(spin_of_alpha nbasis (spatial_of nbasis r')),
        !(spin_of_alpha nbasis (spatial_of nbasis s')),
        !(spatial_of_alpha nbasis (spatial_of nbasis p')),
        !(spatial_of_alpha nbasis (spatial_of nbasis q')),
        !(spatial_of_alpha nbasis (spatial_of nbasis r')),
        !(spatial_of_alpha nbasis (spatial_of nbasis s')) by done.
      naive_solver.
    + intros [[[p' q'] r'] s'] (Hp' & Hq' & Hr' & Hs'). by apply Hb2.
Qed.

Lemma read_integrals_keeps_blocks nbasis : ∀ lines st,
  Forall (line_wf nbasis) lines → spin_blocked nbasis st →
  ∃ st', read_integrals nbasis lines st = Some st' ∧ spin_blocked nbasis st'.
Proof.
  induction lines as [|line rest IH]; intros st Hall Hb.
  - by exists st.
  - apply Forall_cons in Hall as [Hline Hrest].
    destruct (read_line_spin_blocked nbasis st line Hline Hb)
      as (st1 & Hread & Hb1).
    cbn [read_integrals]. rewrite Hread. cbn [mbind option_bind].
    by apply IH.
Qed.

(** X18. A block whose lines carry the indices of spatial orbitals,
    [1 .. nbasis], is read without error, and the arrays it leaves are those
    of a spin-free Hamiltonian in the spin-orbital basis: an entry of [h1]
    between labels of the same spin is the entry of their spatial orbitals
    in the alpha block and an entry between different spins is zero; an
    entry [h2[p,q,r,s]] with [p], [q] of one spin and [r], [s] of one spin is
    the entry of the four spatial orbitals, and it is zero otherwise. *)
Theorem read_integrals_spin_structure (nbasis : nat)
    (lines : list integral_line) :
  Forall (line_wf nbasis) lines →
  ∃ st, read_integrals nbasis lines integrals_zero = Some st
        ∧ spin_blocked nbasis st.
Proof.
  intros Hall. apply read_integrals_keeps_blocks; [done|].
  split; intros; simpl; by destruct (_ : bool).
Qed.

Lemma read_integrals_spin_structure_witness :
  Forall (line_wf 2) fcidump_example
  ∧ ∃ st, read_integrals 2 fcidump_example integrals_zero = Some st
          ∧ spin_blocked 2 st.
Proof.
  assert (Hwf : Forall (line_wf 2) fcidump_example).
  { repeat constructor; unfold line_wf, orbital_index; simpl; lia. }
  split; [exact Hwf|].
  exact (read_integrals_spin_structure 2 fcidump_example Hwf).
Defined.

Lemma read_line_nn nbasis st line st' :
  read_line nbasis st line = Some st' →
  read_nn st' = if is_nn_line line then Some (line_value line) else read_nn st.
Proof.
  unfold read_line, is_nn_line.
  destruct (line_kk line =? 0)%Z; cbn [negb andb];
    [destruct (line_jj line =? 0)%Z; cbn [negb]|].
  - by intros [= <-].
  - destruct (assign _ _ _ _); [|done]. by intros [= <-].
  - destruct (assign _ _ _ _); [|done]. by intros [= <-].
Qed.

Lemma read_integrals_nn_from nbasis : ∀ lines st st',
  read_integrals nbasis lines st = Some st' →
  read_nn st'
  = match last (filter (fun line => is_nn_line line) lines) with
    | Some line => Some (line_value line)
    | None => read_nn st
    end.
Proof.
  induction lines as [|line rest IH]; intros st st'.
  - by intros [= <-].
  - cbn [read_integrals].
    destruct (read_line nbasis st line) as [st1|] eqn:E; [|done].
    cbn [mbind option_bind]. intros Hrest.
    rewrite (IH _ _ Hrest), (read_line_nn _ _ _ _ E).
    rewrite filter_cons. destruct (is_nn_line line) eqn:En.
    + rewrite decide_True by done. rewrite last_cons.
      by destruct (last (filter _ rest)).
    + by rewrite decide_False by (simpl; tauto).
Qed.

(** X19. After the block is read, [nn] is the value of the last line with
    [kk == 0] and [jj == 0]; it is still [None] when the block has no such
    line. *)
Theorem read_integrals_nn (nbasis : nat) (lines : list integral_line)
    (st : integrals) :
  read_integrals nbasis lines integrals_zero = Some st →
  read_nn st
  = line_value <$> last (filter (fun line => is_nn_line line) lines).
Proof.
  intros Hread. rewrite (read_integrals_nn_from _ _ _ _ Hread).
  by destruct (last _).
Qed.

Lemma read_integrals_nn_witness :
  ∃ st, read_integrals 2 fcidump_example integrals_zero = Some st
        ∧ read_nn st = Some (7 # 10).
Proof.
  destruct (read_integrals 2 fcidump_example integrals_zero) as [st|] eqn:E;
    [|by vm_compute in E].
  exists st. split; [reflexivity|].
  exact (read_integrals_nn 2 fcidump_example st E).
Defined.

(** ** The record of an iteration *)

Lemma spawn_weight_of_Some full_h ndet p det_ind t det_amp nspawn w :
  spawn_weight_of full_h ndet p det_ind t det_amp nspawn = Some w →
  w = spawned_weight full_h ndet p det_ind t det_amp nspawn.
Proof.
  unfold spawn_weight_of, p_spawn, div_checked, full_h_at, spawned_weight.
  destruct (Qeq_bool _ 0); [done|]. cbn [mbind option_bind].
  destruct (_ && _); [|done]. cbn [mbind option_bind]. by intros [= <-].
Qed.

Lemma tally_app events1 events2 k :
  (tally (events1 ++ events2) k == tally events1 k + tally events2 k)%Q.
Proof. unfold tally. by rewrite map_app, Qsum_app. Qed.

Lemma foldl_add_tally k : ∀ (events : list (nat * Q)) (sp : Dict.t),
  (weight_at (foldl (fun d tw => Dict.add d tw.1 tw.2) sp events) k
   == weight_at sp k + tally events k)%Q
  ∧ (Dict.get (foldl (fun d tw => Dict.add d tw.1 tw.2) sp events) k = None
     ↔ Dict.get sp k = None ∧ k ∉ events.*1).
Proof.
  induction events as [|[t w] events IH]; intros sp.
  - simpl. split; [unfold tally; simpl; ring|].
    split; [intros ?; split; [done|apply not_elem_of_nil]|by intros [? _]].
  - cbn [foldl fst snd]. destruct (IH (Dict.add sp t w)) as [IHw IHg]. split.
    + rewrite IHw, weight_at_add. unfold tally, Rand.Qsum.
      cbn [map foldr fst snd]. ring.
    + rewrite IHg. rewrite fmap_cons, not_elem_of_cons. cbn [fst].
      destruct (decide (t = k)) as [->|Hne].
      * rewrite dict_get_add_eq. split; [by intros [? _]|by intros (_ & ? & _)].
      * rewrite dict_get_add_ne by done. split; [intros [? ?]|intros (? & ? & ?)];
          auto.
Qed.

Lemma swept_entry_ext full_h p w w' outs k :
  Dict.get w k = Dict.get w' k →
  swept_entry full_h p w outs k = swept_entry full_h p w' outs k.
Proof. unfold swept_entry. by intros ->. Qed.

Lemma find_outcome_None outs k :
  k ∉ out_det <$> outs → List.find (fun o => out_det o =? k) outs = None.
Proof.
  induction outs as [|o outs IH]; [done|].
  rewrite fmap_cons, not_elem_of_cons. intros [Hne Hk]. simpl.
  destruct (Nat.eqb_spec (out_det o) k); [congruence|]. by apply IH.
Qed.

Section SweepRecord.
Variable full_h : nat → nat → Q.
Variables ndet fuel : nat.

Local Abbreviation sweep := (sweep full_h ndet fuel).
Local Abbreviation spawn_loop := (spawn_loop full_h ndet fuel).
Local Abbreviation evolve := (evolve full_h ndet fuel).

Lemma spawn_loop_record p det_ind det_amp nspawn :
  ∀ attempts spawned tape spawned' tape',
    Rand.run (spawn_loop attempts p det_ind det_amp nspawn spawned) tape
    = Some (spawned', tape') →
    ∃ ts, drawn_targets ndet fuel attempts det_ind tape = Some (ts, tape')
          ∧ spawned'
            = foldl (fun d tw => Dict.add d tw.1 tw.2) spawned
                ((fun t => (t, spawned_weight full_h ndet p det_ind t det_amp
                                 nspawn)) <$> ts).
Proof.
  induction attempts as [|attempts IH]; intros spawned tape spawned' tape'.
  - simpl. intros [= <- <-]. by exists [].
  - cbn [spawn_loop drawn_targets]. rewrite run_bind.
    destruct (Rand.run (spawn_attempt full_h ndet fuel p det_ind det_amp nspawn
                          spawned) tape) as [[sp1 tape1]|] eqn:Hatt; [|done].
    intros Hrest.
    apply spawn_attempt_run in Hatt as (t & w & Hpick & _ & _ & Hw & ->).
    apply spawn_weight_of_Some in Hw as ->.
    apply IH in Hrest as (ts & Hts & ->).
    exists (t :: ts). rewrite Hpick. cbn [mbind option_bind]. rewrite Hts.
    by split.
Qed.

Lemma process_det_record det_ind det_amp s tape s' tape' :
  NoDup (Dict.keys (walkers s)) →
  Rand.run (process_det full_h ndet fuel det_ind det_amp s) tape
  = Some (s', tape') →
  ∃ rounded tape1 targets,
    Rand.run (round_walker (sim_params s) det_amp) tape = Some (rounded, tape1)
    ∧ match rounded with
      | Some amp => drawn_targets ndet fuel (nspawn_of amp) det_ind tape1
      | None => Some ([], tape1)
      end = Some (targets, tape')
    ∧ spawned_walkers s'
      = foldl (fun d tw => Dict.add d tw.1 tw.2) (spawned_walkers s)
          (outcome_events full_h ndet (sim_params s)
             {| out_det := det_ind; out_kept := rounded;
                out_targets := targets |})
    ∧ Dict.get (walkers s') det_ind
      = match rounded with
        | None => None
        | Some amp =>
            old ← Dict.get (walkers s) det_ind;
            Some (old - timestep (sim_params s)
                        * (full_h det_ind det_ind - full_h 0 0
                           - shift (sim_params s)) * amp)%Q
        end.
Proof.
  intros Hnd Hrun.
  apply process_det_run in Hrun
    as (stats & tape1 & rounded & _ & Hround & _ & Hrest).
  exists rounded, tape1. destruct rounded as [amp|].
  - destruct Hrest as (Hspawn & Hdeath & _).
    apply spawn_loop_record in Hspawn as (ts & Hts & Hsp).
    exists ts. split; [done|]. split; [done|]. split; [done|].
    unfold death, full_h_at in Hdeath.
    destruct (Dict.get (walkers s) det_ind) as [old|]; [|done].
    cbn [mbind option_bind] in *.
    destruct ((det_ind <? ndet) && (det_ind <? ndet)); [|done].
    cbn [mbind option_bind] in Hdeath.
    destruct ((0 <? ndet) && (0 <? ndet)); [|done].
    cbn [mbind option_bind] in Hdeath.
    injection Hdeath as <-. by rewrite dict_get_set_eq.
  - destruct Hrest as (Hdel & Hsp & _ & ->).
    exists []. split; [done|]. split; [done|]. split; [done|].
    unfold Dict.del in Hdel. destruct (Dict.mem det_ind (walkers s)); [|done].
    injection Hdel as <-. by apply dict_get_remove_eq.
Qed.

Lemma sweep_record_run : ∀ snapshot s tape s' tape',
  NoDup snapshot.*1 → NoDup (Dict.keys (walkers s)) →
  Rand.run (sweep snapshot s) tape = Some (s', tape') →
  ∃ outs,
    sweep_record ndet fuel (sim_params s) snapshot tape = Some (outs, tape')
    ∧ out_det <$> outs = snapshot.*1
    ∧ spawned_walkers s'
      = foldl (fun d tw => Dict.add d tw.1 tw.2) (spawned_walkers s)
          (spawn_events full_h ndet (sim_params s) outs)
    ∧ ∀ k, Dict.get (walkers s') k
           = swept_entry full_h (sim_params s) (walkers s) outs k.
Proof.
  induction snapshot as [|[det_ind det_amp] rest IH];
    intros s tape s' tape' Hsnap Hnd.
  - simpl. intros [= <- <-]. by exists [].
  - cbn [sweep]. rewrite run_bind.
    destruct (Rand.run (process_det full_h ndet fuel det_ind det_amp s) tape)
      as [[s1 t1]|] eqn:E; [|done].
    intros Hrest. simpl in Hsnap. apply NoDup_cons in Hsnap as [Hfresh Hsnap].
    pose proof (process_det_frame _ _ _ _ _ _ _ _ _ E) as (Hp1 & Hwf1 & Hget1).
    destruct (process_det_record _ _ _ _ _ _ Hnd E)
      as (rounded & tape1 & targets & Hround & Htargets & Hsp1 & Hown).
    destruct (IH s1 t1 s' tape' Hsnap (Hwf1 Hnd) Hrest)
      as (outs & Hrec & Hdets & Hsp & Hget).
    rewrite Hp1 in Hrec, Hsp, Hget.
    exists ({| out_det := det_ind; out_kept := rounded;
               out_targets := targets |} :: outs).
    split; [|split; [|split]].
    + cbn [sweep_record]. rewrite Hround. cbn [mbind option_bind].
      rewrite Htargets. cbn [mbind option_bind]. rewrite Hrec. done.
    + by rewrite fmap_cons, Hdets.
    + rewrite Hsp, Hsp1. unfold spawn_events. rewrite bind_cons.
      by rewrite foldl_app.
    + intros k. rewrite Hget. destruct (decide (k = det_ind)) as [->|Hne].
      * unfold swept_entry at 1. rewrite find_outcome_None by (by rewrite Hdets).
        rewrite Hown. unfold swept_entry. simpl. by rewrite Nat.eqb_refl.
      * rewrite (swept_entry_ext _ _ (walkers s1) (walkers s)) by (by apply Hget1).
        unfold swept_entry. simpl.
        destruct (Nat.eqb_spec det_ind k); [congruence|done].
Qed.

(** C6. In an iteration that returns, what the draws decide (which walkers
    the rounding step keeps and with which amplitude, and the targets of
    their spawn attempts) is read from the snapshot, the parameters and the
    draws alone.  The walker dictionary left by the sweep holds, for every
    key, what rounding and death made of the snapshot entry and no spawned
    weight; the spawn dictionary holds exactly the spawn events, summed by
    target.  Only the annihilation brings them together: at the end of the
    iteration a key that no spawn hit has the entry the sweep left, and a
    key that spawns hit has that entry plus the spawned weight (the spawned
    weight alone when the sweep left no entry).  The energy statistics are
    those of the snapshot weights, and the walkers, statistics, parameters
    and draws left by the sweep are the same whatever the spawn dictionary
    holds. *)
Theorem spawns_merged_after_sweep it s tape s'' tape'' :
  NoDup (Dict.keys (walkers s)) →
  Rand.run (evolve it s) tape = Some (s'', tape'') →
  ∃ s' outs,
    Rand.run (sweep (Dict.items (walkers s)) (begin_iter it s)) tape
    = Some (s', tape'')
    ∧ s'' = annihilate s'
    ∧ sweep_record ndet fuel (sim_params s) (Dict.items (walkers s)) tape
      = Some (outs, tape'')
    ∧ (∀ k, Dict.get (walkers s') k
            = swept_entry full_h (sim_params s) (walkers s) outs k)
    ∧ (∀ k, (Dict.get (spawned_walkers s') k = None
             ↔ k ∉ (spawn_events full_h ndet (sim_params s) outs).*1)
            ∧ (weight_at (spawned_walkers s') k
               == tally (spawn_events full_h ndet (sim_params s) outs) k)%Q)
    ∧ (∀ k, k ∉ (spawn_events full_h ndet (sim_params s) outs).*1 →
            Dict.get (walkers s'') k
            = swept_entry full_h (sim_params s) (walkers s) outs k)
    ∧ (∀ k, k ∈ (spawn_events full_h ndet (sim_params s) outs).*1 →
            ∃ v, Dict.get (walkers s'') k = Some v
                 ∧ (v == default 0%Q (swept_entry full_h (sim_params s)
                                        (walkers s) outs k)
                         + tally (spawn_events full_h ndet (sim_params s) outs)
                             k)%Q)
    ∧ (ref_weight (sim_stats s') = weight_at (walkers s) 0
       ∧ (cycle_en_denom (sim_stats s')
          == cycle_en_denom (sim_stats s) + weight_at (walkers s) 0)%Q
       ∧ (cycle_en_num (sim_stats s')
          == cycle_en_num (sim_stats s)
             + Rand.Qsum (map (fun kv : nat * Q =>
                                 if kv.1 =? 0 then 0
                                 else kv.2 * full_h kv.1 0%nat)
                              (walkers s)))%Q)
    ∧ (∀ sp, sweep_view (Rand.run (sweep (Dict.items (walkers s))
                                      (with_spawned sp (begin_iter it s))) tape)
             = Some (walkers s', sim_stats s', sim_params s', tape'')).
Proof.
  intros Hnd Hrun. apply evolve_run in Hrun as (s' & Hsweep & ->).
  destruct (sweep_record_run (Dict.items (walkers s)) (begin_iter it s) tape s'
              tape'' Hnd Hnd Hsweep) as (outs & Hrec & _ & Hsp & Hown).
  cbn [begin_iter sim_params walkers spawned_walkers] in Hrec, Hsp, Hown.
  set (events := spawn_events full_h ndet (sim_params s) outs) in *.
  assert (Hbuf : ∀ k, (Dict.get (spawned_walkers s') k = None ↔ k ∉ events.*1)
                      ∧ (weight_at (spawned_walkers s') k == tally events k)%Q).
  { intros k. rewrite Hsp. destruct (foldl_add_tally k events []) as [Hw Hg].
    split.
    - rewrite Hg. simpl. tauto.
    - rewrite Hw. change (weight_at [] k) with 0%Q. ring. }
  assert (Hmerge : ∀ k, Dict.get (walkers (annihilate s')) k
                        = match Dict.get (spawned_walkers s') k with
                          | Some v => Some (match Dict.get (walkers s') k with
                                            | Some old => (old + v)%Q
                                            | None => v
                                            end)
                          | None => Dict.get (walkers s') k
                          end).
  { intros k. unfold annihilate, Dict.items. simpl. apply foldl_add_get.
    eapply sweep_spawned_wf; [exact Hsweep|]. simpl. apply NoDup_nil_2. }
  exists s', outs. fold events.
  split; [done|]. split; [done|]. split; [done|]. split; [done|].
  split; [done|]. split; [|split; [|split]].
  - intros k Hk. rewrite Hmerge. apply (Hbuf k) in Hk. by rewrite Hk, Hown.
  - intros k Hk. rewrite Hmerge. destruct (Hbuf k) as [Hnone Hw].
    unfold weight_at in Hw.
    destruct (Dict.get (spawned_walkers s') k) as [v|] eqn:Ev.
    + rewrite Hown. eexists. split; [reflexivity|]. simpl in Hw.
      destruct (swept_entry full_h (sim_params s) (walkers s) outs k); simpl;
        lra.
    + exfalso. by apply Hnone.
  - destruct (sweep_energy full_h ndet fuel _ (begin_iter it s) _ _ _ Hnd Hsweep)
      as (Hr & Hd & Hn).
    simpl in Hr, Hd, Hn. unfold Dict.items in *.
    split; [|by split]. rewrite Hr. unfold weight_at.
    by destruct (Dict.get (walkers s) 0).
  - intros sp.
    rewrite (sweep_spawned_irrelevant _ _ _ _ _ sp
               (spawned_walkers (begin_iter it s))).
    by rewrite with_spawned_self, Hsweep.
Qed.
End SweepRecord.

Lemma spawns_merged_after_sweep_witness :
  NoDup (Dict.keys (walkers sim_example)) ∧
  Rand.run (evolve h_example 3 5 0 sim_example)
    [Rand.Int 1; Rand.Float (1 # 2)] = Some (sim_example_merged, []) ∧
  ∃ s', Rand.run (sweep h_example 3 5 (Dict.items (walkers sim_example))
                    (begin_iter 0 sim_example))
          [Rand.Int 1; Rand.Float (1 # 2)] = Some (s', []) ∧
        sim_example_merged = annihilate s' ∧
        Dict.get (walkers s') 1 = None ∧
        ∃ v, Dict.get (walkers sim_example_merged) 1 = Some v
             ∧ (v == - (1 # 100))%Q.
Proof.
  assert (Hnd : NoDup (Dict.keys (walkers sim_example)))
    by (apply (bool_decide_unpack _); by vm_compute).
  assert (Hrun : Rand.run (evolve h_example 3 5 0 sim_example)
                   [Rand.Int 1; Rand.Float (1 # 2)]
                 = Some (sim_example_merged, []))
    by (vm_compute; reflexivity).
  split; [exact Hnd|]. split; [exact Hrun|].
  destruct (spawns_merged_after_sweep h_example 3 5 0 _ _ _ _ Hnd Hrun)
    as (s' & outs & Hsweep & Hs & Hrec & Hown & _ & _ & Hin & _).
  vm_compute in Hrec. injection Hrec as <-.
  exists s'. split; [exact Hsweep|]. split; [exact Hs|]. split.
  - rewrite Hown. reflexivity.
  - destruct (Hin 1) as (v & Hv & Hval).
    + apply (bool_decide_unpack _). by vm_compute.
    + exists v. split; [exact Hv|]. rewrite Hval. by vm_compute.
Defined.

(** ** Spawning after the rounding step *)

(** C5. The spawning block works with the amplitude that the rounding step
    hands on, and for a kept sub-threshold walker that is [+det_thresh]
    whatever the sign of the walker: its attempts are those of a walker of
    weight [+det_thresh].  For [walkers[1] = -1/10] ([det_thresh = 1/4],
    rounding draw [0], spawn draw [0]) the one attempt adds
    [-timestep * H[1,0] * (1/4) / (p_spawn * 1) = -1/400] to the buffer,
    where the weight [-1/4] (threshold with the walker's sign) gives
    [+1/400] and the stored weight [-1/10] gives [+1/1000]. *)
Theorem spawning_after_rounding_drops_sign :
  (∀ (full_h : nat → nat → Q) (ndet fuel det_ind : nat) (det_amp : Q) (s s' : sim)
     (tape tape' : list Rand.draw),
     (0 < det_thresh (sim_params s))%Q →
     (Qabs det_amp < det_thresh (sim_params s))%Q →
     Rand.run (process_det full_h ndet fuel det_ind det_amp s) tape
     = Some (s', tape') →
     ∃ u tape1,
       tape = Rand.Float u :: tape1 ∧
       ((Qabs det_amp / det_thresh (sim_params s) <= u)%Q
        ∧ spawned_walkers s' = spawned_walkers s
        ∨ (u < Qabs det_amp / det_thresh (sim_params s))%Q
          ∧ Rand.run (spawn_loop full_h ndet fuel
                        (nspawn_of (det_thresh (sim_params s))) (sim_params s)
                        det_ind (det_thresh (sim_params s))
                        (nspawn_of (det_thresh (sim_params s)))
                        (spawned_walkers s)) tape1
            = Some (spawned_walkers s', tape'))) ∧
  Rand.run (process_det h_example 3 5 1 (- (1 # 10))%Q sim_example)
    [Rand.Float 0; Rand.Int 0] = Some (sim_example_after, []) ∧
  nspawn_of (det_thresh params_example) = 1 ∧
  (∃ v, Dict.get (spawned_walkers sim_example_after) 0 = Some v ∧
        (v == spawned_weight h_example 3 params_example 1 0 (1 # 4) 1)%Q ∧
        (v == - (1 # 400))%Q) ∧
  (spawned_weight h_example 3 params_example 1 0 (- (1 # 4)) 1 == 1 # 400)%Q ∧
  (spawned_weight h_example 3 params_example 1 0 (- (1 # 10)) 1 == 1 # 1000)%Q.
Proof.
  split; [|split; [|split; [|split; [|split]]]].
  - intros full_h ndet fuel det_ind det_amp s s' tape tape' Hth Hlt Hrun.
    apply process_det_run in Hrun
      as (stats & tape1 & rounded & _ & Hround & _ & Hrest).
    destruct (round_walker_below_threshold _ _ _ _ _ Hth Hlt Hround)
      as (u & -> & [[Hu ->]|[Hu ->]]).
    + exists u, tape1. split; [done|]. right. split; [done|].
      by destruct Hrest as (Hspawn & _).
    + exists u, tape1. split; [done|]. left. split; [done|].
      by destruct Hrest as (_ & Hsp & _).
  - vm_compute. reflexivity.
  - reflexivity.
  - eexists. split; [reflexivity|]. split; by vm_compute.
  - by vm_compute.
  - by vm_compute.
Qed.
